(** * Cartographer: resolver, scanner and dependency grapher

    A shallow embedding of the CommonJS dependency mapper
    (src/resolver.js, src/ast-walker.js, src/required.js,
    src/dependencies.js, src/index.js) and the properties its
    specification states about it.

    Conventions of the embedding.
    - JavaScript strings are [string]; a code unit is one [ascii].
    - The continuation-passing functions of the source invoke their
      callback at most once, in tail position.  They are written in direct
      style: the value handed to the callback is the returned value, and
      the process-wide mutable objects ([Resolver.cache],
      [Dependencies.cache], the File objects) are threaded as a state.
    - What Node and esprima provide (the file system, [JSON.parse],
      [path.resolve], [path.dirname], [process.cwd], [esprima.parse]) is
      gathered in a record [Env]; every general theorem holds for every
      environment. *)

From Stdlib Require Import ZArith String Ascii List Lia.
From stdpp Require Import base option list gmap strings sorting.

Set Warnings "-register-all".

Local Open Scope string_scope.
Local Open Scope list_scope.
Local Open Scope Z_scope.
Local Open Scope nat_scope.

(* ===================================================================== *)
(** ** JavaScript primitives used by the sources *)
(* ===================================================================== *)

Module JS.

(** How a call ends: it returns, it throws, or the embedding ran out of
    fuel ([Starved] is not a JavaScript behaviour; the totality lemmas
    show that the fuel the callers pass is always enough). *)
Inductive Outcome (A : Type) : Type :=
| Returned (a : A)
| Thrown (e : string)
| Starved.
Arguments Returned {A} a.
Arguments Thrown {A} e.
Arguments Starved {A}.

Definition bind {A B : Type} (m : Outcome A) (k : A → Outcome B) : Outcome B :=
  match m with
  | Returned a => k a
  | Thrown e => Thrown e
  | Starved => Starved
  end.

#[export] Instance Outcome_bind : MBind Outcome := λ A B k m, bind m k.
#[export] Instance Outcome_ret : MRet Outcome := λ A a, Returned a.

(** [String.prototype.substring(a, b)]: both indices are clamped to
    [0, length] and swapped when [a > b]. *)
Definition clamp (len : nat) (i : Z) : nat := Nat.min (Z.to_nat i) len.

Definition substring (s : string) (a b : Z) : string :=
  let a' := clamp (String.length s) a in
  let b' := clamp (String.length s) b in
  String.substring (Nat.min a' b') (Nat.max a' b' - Nat.min a' b') s.

(** [String.prototype.lastIndexOf(c)] for a one code unit needle:
    the last position of [c], or -1. *)
Fixpoint lastIndexOf_from (c : ascii) (s : string) (i : nat) (found : Z) : Z :=
  match s with
  | EmptyString => found
  | String c' s' =>
      lastIndexOf_from c s' (S i) (if Ascii.eqb c' c then Z.of_nat i else found)
  end.

Definition lastIndexOf (s : string) (c : ascii) : Z := lastIndexOf_from c s 0 (-1).

(** [String.prototype.match(/^prefix/)] as a boolean. *)
Definition startsWith (p s : string) : bool := String.prefix p s.

(** *** Plain objects used as maps

    [var o = {}] has [Object.prototype] as prototype, so [o[k]] is truthy
    for the names below even when [k] was never stored.  Own string keys
    are enumerated by [for (k in o)] with the array indices first, in
    ascending numeric order, then the other keys in insertion order. *)

Definition objectPrototypeKeys : list string :=
  [ "constructor"; "__defineGetter__"; "__defineSetter__"; "hasOwnProperty";
    "__lookupGetter__"; "__lookupSetter__"; "isPrototypeOf";
    "propertyIsEnumerable"; "toString"; "valueOf"; "__proto__";
    "toLocaleString" ].

Definition digit_of (c : ascii) : option N :=
  let n := N_of_ascii c in
  if ((48 <=? n) && (n <=? 57))%N then Some (n - 48)%N else None.

Fixpoint digits_value (s : string) (acc : N) : option N :=
  match s with
  | EmptyString => Some acc
  | String c s' =>
      match digit_of c with
      | Some d => digits_value s' (10 * acc + d)%N
      | None => None
      end
  end.

(** An array index is a canonical numeric string below 2^32 - 1. *)
Definition array_index (k : string) : option N :=
  match k with
  | EmptyString => None
  | String c rest =>
      if Ascii.eqb c "0" && negb (String.eqb rest "") then None
      else match digits_value k 0 with
           | Some v => if (v <? 4294967295)%N then Some v else None
           | None => None
           end
  end.

Section Object.
Context {V : Type}.

(** Own enumerable properties, in [for-in] order. *)
Definition Object := list (string * V).

Inductive Property : Type :=
| Own (v : V)
| Inherited
| Absent.

Fixpoint own (o : Object) (k : string) : option V :=
  match o with
  | [] => None
  | (k', v) :: o' => if String.eqb k' k then Some v else own o' k
  end.

(** [o[k]] *)
Definition get (o : Object) (k : string) : Property :=
  match own o k with
  | Some v => Own v
  | None => if bool_decide (k ∈ objectPrototypeKeys) then Inherited else Absent
  end.

Fixpoint replace (o : Object) (k : string) (v : V) : Object :=
  match o with
  | [] => []
  | (k', v') :: o' =>
      if String.eqb k' k then (k', v) :: o' else (k', v') :: replace o' k v
  end.

Fixpoint insert_index (o : Object) (n : N) (k : string) (v : V) : Object :=
  match o with
  | [] => [(k, v)]
  | (k', v') :: o' =>
      match array_index k' with
      | Some n' =>
          if (n' <? n)%N then (k', v') :: insert_index o' n k v
          else (k, v) :: (k', v') :: o'
      | None => (k, v) :: (k', v') :: o'
      end
  end.

(** [o[k] = v] *)
Definition set (o : Object) (k : string) (v : V) : Object :=
  match own o k with
  | Some _ => replace o k v
  | None =>
      match array_index k with
      | Some n => insert_index o n k v
      | None => o ++ [(k, v)]
      end
  end.

(** [for (k in o) out.push(o[k])] *)
Definition values (o : Object) : list V := map snd o.
Definition keys (o : Object) : list string := map fst o.

End Object.
Arguments Object V : clear implicits.
Arguments Property V : clear implicits.

End JS.

Import JS.

(* ===================================================================== *)
(** ** Syntax trees (the SpiderMonkey Parser API objects esprima returns) *)
(* ===================================================================== *)

Module AST.

(** The value of a property of a node object. *)
Inductive field (N : Type) : Type :=
| FNode (n : N)
| FArray (elems : list (option N))
| FNull
| FUndefined
| FString (s : string)
| FNumber (z : Z)
| FBool (b : bool).
Arguments FNode {N} n.
Arguments FArray {N} elems.
Arguments FNull {N}.
Arguments FUndefined {N}.
Arguments FString {N} s.
Arguments FNumber {N} z.
Arguments FBool {N} b.

(** A node object: its [type], its [range] (half-open source offsets) and
    its other properties. *)
Inductive node : Type :=
| Node (type : string) (range : nat * nat) (props : list (string * field node)).

Definition type (n : node) : string := let 'Node t _ _ := n in t.
Definition range (n : node) : nat * nat := let 'Node _ r _ := n in r.
Definition props (n : node) : list (string * field node) := let 'Node _ _ ps := n in ps.

Fixpoint lookup_field (ps : list (string * field node)) (name : string) : field node :=
  match ps with
  | [] => FUndefined
  | (k, f) :: ps' => if String.eqb k name then f else lookup_field ps' name
  end.

(** [n.name] *)
Definition get (n : node) (name : string) : field node := lookup_field (props n) name.

(** A string literal is a [Literal] node whose [value] is a string. *)
Definition is_string_literal (n : node) : bool :=
  String.eqb (type n) "Literal" &&
  match get n "value" with FString _ => true | _ => false end.

(** An entry of the walker's queue: a node, or [null]/[undefined]. *)
Definition item : Type := option node.

End AST.

Import AST.

(* ===================================================================== *)
(** ** src/ast-walker.js *)
(* ===================================================================== *)

Module ASTWalker.

(** One argument of the [nodes.push(...)] or [nodes.concat(...)] call of a
    [case]: a property of the node, or a property read from the queue
    array itself ([nodes.cases], [nodes.block]), which is [undefined]. *)
Inductive slot : Type :=
| Push (name : string)
| Concat (name : string)
| OfQueue (name : string).

(** The [switch(node.type)] of [walk], one row per [case], in source
    order.  [ObjectPattern] has a loop of its own, see [enqueue]. *)
Definition schema : list (string * list slot) :=
  [ ("Program", [Concat "body"]);
    ("Function", [Concat "params"; Concat "defaults"; Concat "rest"; Concat "body"]);
    ("BlockStatement", [Concat "body"]);
    ("ExpressionStatement", [Push "expression"]);
    ("IfStatement", [Push "test"; Push "consequent"; Push "alternate"]);
    ("LabeledStatement", [Push "label"; Push "body"]);
    ("BreakStatement", [Push "label"]);
    ("ContinueStatement", [Push "label"]);
    ("WithStatement", [Push "object"; Push "body"]);
    ("SwitchStatement", [Concat "discriminant"; OfQueue "cases"]);
    ("ReturnStatement", [Push "argument"]);
    ("TryStatement",
       [OfQueue "block"; Concat "handler"; Concat "guardedHandlers"; Concat "finalizer"]);
    ("WhileStatement", [Push "test"; Push "body"]);
    ("DoWhileStatement", [Push "body"; Push "test"]);
    ("ForStatement", [Push "init"; Push "test"; Push "update"; Push "body"]);
    ("ForInStatement", [Push "left"; Push "right"; Push "body"]);
    ("ForOfStatement", [Push "left"; Push "right"; Push "body"]);
    ("LetStatement", [Concat "head"; Concat "body"]);
    ("FunctionDeclaration",
       [Concat "id"; Concat "params"; Concat "defaults"; Concat "rest"; Concat "body"]);
    ("VariableDeclaration", [Concat "declarations"]);
    ("VariableDeclarator", [Push "id"; Push "init"]);
    ("ArrayExpression", [Concat "elements"]);
    ("ObjectExpression", [Concat "properties"]);
    ("Property", [Push "key"; Push "value"]);
    ("FunctionExpression",
       [Concat "id"; Concat "params"; Concat "defaults"; Concat "rest"; Concat "body"]);
    ("ArrowExpression", [Concat "params"; Concat "defaults"; Concat "rest"; Concat "body"]);
    ("SequenceExpression", [Concat "expressions"]);
    ("UnaryExpression", [Push "argument"]);
    ("BinaryExpression", [Push "left"; Push "right"]);
    ("AssignmentExpression", [Push "left"; Push "right"]);
    ("UpdateExpression", [Push "argument"]);
    ("LogicalExpression", [Push "left"; Push "right"]);
    ("ConditionalExpression", [Push "test"; Push "alternate"; Push "consequent"]);
    ("NewExpression", [Concat "callee"; Concat "arguments"]);
    ("CallExpression", [Concat "callee"; Concat "arguments"]);
    ("MemberExpression", [Push "object"; Push "property"]);
    ("YieldExpression", [Push "argument"]);
    ("ComprehensionExpression", [Concat "body"; Concat "blocks"; Concat "filter"]);
    ("GeneratorExpression", [Concat "body"; Concat "blocks"; Concat "filter"]);
    ("GraphExpression", [Push "expression"]);
    ("LetExpression", [Concat "head"; Concat "body"]);
    ("ArrayPattern", [Concat "elements"]);
    ("SwitchCase", [Concat "test"; Concat "consequent"]);
    ("CatchClause", [Push "param"; Push "guard"; Push "body"]);
    ("ComprehensionBlock", [Push "left"; Push "right"]);
    ("ComprehensionIf", [Push "test"]);
    ("EmptyStatement", []);
    ("DebuggerStatement", []);
    ("ThisExpression", []);
    ("GraphIndexExpression", []);
    ("Identifier", []);
    ("Literal", []) ].

Fixpoint row (t : string) (table : list (string * list slot)) : list slot :=
  match table with
  | [] => []
  | (t', r) :: table' => if String.eqb t' t then r else row t table'
  end.

(** What [nodes.push(x)] appends: [x] itself.  A value that is no node is
    skipped or ignored when it is taken from the queue, like [null]. *)
Definition pushed (f : field node) : list item :=
  match f with
  | FNode n => [Some n]
  | _ => [None]
  end.

(** What [nodes.concat(x)] appends: the elements of [x] when it is an
    array, [x] itself otherwise. *)
Definition concatenated (f : field node) : list item :=
  match f with
  | FNode n => [Some n]
  | FArray l => l
  | _ => [None]
  end.

Definition slot_items (n : node) (s : slot) : list item :=
  match s with
  | Push name => pushed (AST.get n name)
  | Concat name => concatenated (AST.get n name)
  | OfQueue _ => [None]
  end.

(** The [ObjectPattern] case: [prop.key] and [prop.value] of every
    element of [node.properties]. *)
Fixpoint pattern_items (elems : list (option node)) : Outcome (list item) :=
  match elems with
  | [] => Returned []
  | None :: _ => Thrown "TypeError"
  | Some p :: elems' =>
      rest ← pattern_items elems';
      Returned (pushed (AST.get p "key") ++ pushed (AST.get p "value") ++ rest)
  end.

(** The nodes one iteration appends to the queue. *)
Definition enqueue (n : node) : Outcome (list item) :=
  if String.eqb (type n) "ObjectPattern" then
    match AST.get n "properties" with
    | FArray elems => pattern_items elems
    | _ => Thrown "TypeError"
    end
  else Returned (flat_map (slot_items n) (row (type n) schema)).

Section Walk.
Context {S : Type}.

(** [dispatch]: the handler registered for a node type, if any. *)
Variable dispatch : string → option (node → S → Outcome S).

(** The [while(nodes.length > 0)] loop; one unit of fuel per iteration. *)
Fixpoint loop (fuel : nat) (nodes : list item) (s : S) : Outcome S :=
  match nodes with
  | [] => Returned s
  | first :: nodes' =>
      match fuel with
      | O => Starved
      | Datatypes.S fuel' =>
          match first with
          | None => loop fuel' nodes' s
          | Some n =>
              s' ← match dispatch (type n) with
                   | Some handler => handler n s
                   | None => Returned s
                   end;
              kids ← enqueue n;
              loop fuel' (nodes' ++ kids) s'
          end
      end
  end.

End Walk.

(** The number of iterations a queue can still cause. *)
Fixpoint weight (n : node) : nat :=
  match n with
  | Node _ _ ps =>
      6 + (fix total (ps : list (string * field node)) : nat :=
             match ps with
             | [] => 0
             | (_, f) :: ps' =>
                 match f with
                 | FNode m => weight m
                 | FArray l =>
                     (fix pot (l : list (option node)) : nat :=
                        match l with
                        | [] => 0
                        | Some m :: l' => Datatypes.S (weight m + pot l')
                        | None :: l' => Datatypes.S (pot l')
                        end) l
                 | _ => 0
                 end + total ps'
             end) ps
  end.

(** [ASTWalker.walk(ast, dispatch)] *)
Definition walk {S : Type} (ast : node)
    (dispatch : string → option (node → S → Outcome S)) (s : S) : Outcome S :=
  loop dispatch (Datatypes.S (weight ast)) [Some ast] s.

(** The iterations a queue can still cause, entry by entry. *)
Definition item_weight (i : item) : nat :=
  match i with
  | Some n => weight n
  | None => 0
  end.

Fixpoint potential (queue : list item) : nat :=
  match queue with
  | [] => 0
  | i :: queue' => Datatypes.S (item_weight i + potential queue')
  end.

Definition field_weight (f : field node) : nat :=
  match f with
  | FNode m => weight m
  | FArray l => potential l
  | _ => 0
  end.

Fixpoint props_weight (ps : list (string * field node)) : nat :=
  match ps with
  | [] => 0
  | (_, f) :: ps' => field_weight f + props_weight ps'
  end.

(** The property a slot reads from the node, if any. *)
Definition slot_names (r : list slot) : list string :=
  flat_map (λ s, match s with
                 | Push name | Concat name => [name]
                 | OfQueue _ => []
                 end) r.

End ASTWalker.

(* ===================================================================== *)
(** ** Vinyl files *)
(* ===================================================================== *)

Module Vinyl.

(** [new File({path, contents})].  [contents] is [None] for a file whose
    contents are [null] ([file.isNull()]).  Where the sources expect a
    file, a value of type [option File] is passed: [None] stands for any
    value that [File.isVinyl] rejects. *)
Record File : Type := { path : string; contents : option string }.

Definition isNull (f : File) : bool :=
  match contents f with
  | None => true
  | Some _ => false
  end.

End Vinyl.

(* ===================================================================== *)
(** ** src/required.js (the version that walks the tree itself) *)
(* ===================================================================== *)

Module Required.

Record Reference : Type :=
  { source : string; position_start : nat; position_end : nat }.

Record Requirement : Type :=
  { references : list Reference; path : string; static : bool }.

Definition grabSource (source : string) (range : nat * nat) : string :=
  JS.substring source (Z.of_nat (fst range)) (Z.of_nat (snd range)).

Definition push_reference (r : Requirement) (ref : Reference) : Requirement :=
  {| references := references r ++ [ref]; path := path r; static := static r |}.

(** [trackRequirement(source, required, node)], the handler of
    [CallExpression] nodes.  The parser gives every call a [callee] node
    and an [arguments] array of nodes; on anything else the property reads
    of the source throw. *)
Definition trackRequirement (source : string) (required : JS.Object Requirement)
    (n : node) : Outcome (JS.Object Requirement) :=
  match AST.get n "callee", AST.get n "arguments" with
  | FNode callee, FArray args =>
      if negb (String.eqb (type callee) "Identifier")
         || negb (match AST.get callee "name" with
                  | FString name => String.eqb name "require"
                  | _ => false
                  end)
         || negb (Nat.eqb (length args) 1)
      then Returned required
      else
        match args with
        | [Some first] =>
            let staticRequire := String.eqb (type first) "Literal" in
            let path := grabSource source (range first) in
            let path :=
              if staticRequire
              then JS.substring path 1 (Z.of_nat (String.length path) - 1)
              else path in
            let ref := {| source := grabSource source (range n);
                          position_start := fst (range n);
                          position_end := snd (range n) |} in
            match JS.get required path with
            | Own r => Returned (JS.set required path (push_reference r ref))
            | Absent =>
                Returned (JS.set required path
                            {| references := [ref]; path := path;
                               static := staticRequire |})
            | Inherited => Thrown "TypeError"
            end
        | _ => Thrown "TypeError"
        end
  | _, _ => Thrown "TypeError"
  end.

(** The [dispatch] object [{ CallExpression : trackRequirement.bind(null,
    source, required) }]. *)
Definition dispatch (source : string) (t : string)
    : option (node → JS.Object Requirement → Outcome (JS.Object Requirement)) :=
  if String.eqb t "CallExpression"
  then Some (λ n required, trackRequirement source required n)
  else None.

(** [Required.analyze(file)]; [parse] is [esprima.parse], which throws on
    a source it cannot parse.  The result [None] is [null]. *)
Definition analyze (parse : string → option node) (file : option Vinyl.File)
    : Outcome (option (list Requirement)) :=
  match file with
  | None => Returned None
  | Some f =>
      match Vinyl.contents f with
      | None => Returned None
      | Some source =>
          match parse source with
          | None => Thrown "SyntaxError"
          | Some ast =>
              required ← ASTWalker.walk ast (dispatch source) [];
              Returned (Some (JS.values required))
          end
      end
  end.

End Required.

(* ===================================================================== *)
(** ** The environment and the shared objects *)
(* ===================================================================== *)

Module Node.

(** What the platform provides.
    - [fs]: the files [fs.readFile] can read, with their contents; a read
      of any other path fails.
    - [Value], [JSON_parse], [property], [truthy], [as_string]: the values
      [JSON.parse] returns ([None]: it throws), [v[k]] ([None]: it throws,
      as on [null]), truthiness, and the test [path.resolve] makes on its
      arguments (it throws on a value that is no string).
    - [path_resolve], [path_dirname], [path_sep], [cwd]: the [path] module
      and [process.cwd()].
    - [esprima_parse]: the parser ([None]: it throws). *)
Record Env : Type :=
  { fs : gmap string string;
    Value : Type;
    JSON_parse : string → option Value;
    property : Value → string → option Value;
    truthy : Value → bool;
    as_string : Value → option string;
    path_resolve : list string → string;
    path_dirname : string → string;
    path_sep : ascii;
    cwd : string;
    esprima_parse : string → option node }.

End Node.

Module Heap.

(** The identity of a File object. *)
Abbreviation ref := nat (only parsing).

(** An element of [file.dependencies]. *)
Record Dependency : Type :=
  { path : string;
    static : bool;
    references : list Required.Reference;
    file : option ref;
    error : option string }.

(** A File object: the Vinyl file and the [dependencies] property that
    [Dependencies.analyze] adds to it ([None]: not assigned). *)
Record FileObject : Type :=
  { vinyl : Vinyl.File;
    dependencies : option (list Dependency) }.

(** A value of [Dependencies.cache[dirname][path]]. *)
Record CacheResult : Type :=
  { cached_file : option ref; cached_error : option string }.

(** The mutable objects of the process: the File objects, [Resolver.cache]
    (absolute path to File object) and [Dependencies.cache] (directory to
    specifier to outcome). *)
Record Store : Type :=
  { objects : list FileObject;
    resolver_cache : gmap string ref;
    dependencies_cache : gmap string (gmap string CacheResult) }.

Definition empty : Store :=
  {| objects := []; resolver_cache := ∅; dependencies_cache := ∅ |}.

(** [Resolver.cache[realName] = new File({path : realName, contents})] *)
Definition cache_new_file (realName contents : string) (σ : Store) : ref * Store :=
  let r := length (objects σ) in
  (r, {| objects := objects σ ++
                    [ {| vinyl := {| Vinyl.path := realName;
                                     Vinyl.contents := Some contents |};
                         dependencies := None |} ];
         resolver_cache := <[realName := r]> (resolver_cache σ);
         dependencies_cache := dependencies_cache σ |}).

(** [file.dependencies = deps] *)
Definition set_dependencies (r : ref) (deps : list Dependency) (σ : Store) : Store :=
  {| objects := alter (λ o, {| vinyl := vinyl o; dependencies := Some deps |})
                      r (objects σ);
     resolver_cache := resolver_cache σ;
     dependencies_cache := dependencies_cache σ |}.

(** [file.dependencies.push(d)] *)
Definition push_dependency (r : ref) (d : Dependency) (σ : Store) : Store :=
  {| objects :=
       alter (λ o, {| vinyl := vinyl o;
                      dependencies := (λ ds, ds ++ [d]) <$> dependencies o |})
             r (objects σ);
     resolver_cache := resolver_cache σ;
     dependencies_cache := dependencies_cache σ |}.

(** [Dependencies.cache[dirname] = Dependencies.cache[dirname] || {};
     Dependencies.cache[dirname][path] = result] *)
Definition cache_result (dirname path : string) (result : CacheResult) (σ : Store)
    : Store :=
  {| objects := objects σ;
     resolver_cache := resolver_cache σ;
     dependencies_cache :=
       <[dirname := <[path := result]> (default ∅ (dependencies_cache σ !! dirname))]>
         (dependencies_cache σ) |}.

(** [Dependencies.cache[dirname] && Dependencies.cache[dirname][path]] *)
Definition cached (dirname path : string) (σ : Store) : option CacheResult :=
  match dependencies_cache σ !! dirname with
  | Some per_directory => per_directory !! path
  | None => None
  end.

(** [file.path] of a File object. *)
Definition path_of (σ : Store) (r : ref) : string :=
  match objects σ !! r with
  | Some o => Vinyl.path (vinyl o)
  | None => ""
  end.

End Heap.

Import Heap.

(* ===================================================================== *)
(** ** src/resolver.js (class Resolver) *)
(* ===================================================================== *)

Module Resolver.

(** An entry of [options.mains]: one key, or an array of nested keys. *)
Inductive MainSpec : Type :=
| Key (k : string)
| KeyPath (ks : list string).

Record Options : Type :=
  { extensions : list string;
    modules : list string;
    packages : list string;
    mains : list MainSpec;
    index : string }.

(** The options of [new Resolver()]. *)
Definition defaults : Options :=
  {| extensions := [""; ".js"];
     modules := ["node_modules"];
     packages := ["package.json"];
     mains := [KeyPath ["main"]];
     index := "index" |}.

(** What a resolver function hands to its callback: [(err, file)]. *)
Definition Answer : Type := option string * option ref.
Definition absent : Answer := (None, None).
Definition hit (f : ref) : Answer := (None, Some f).
Definition failure (e : string) : Answer := (Some e, None).

(** [/^(\/|\.\/|\.\.\/)/] *)
Definition RELATIVE_PATH (module : string) : bool :=
  JS.startsWith "/" module || JS.startsWith "./" module || JS.startsWith "../" module.

Definition last_char (s : string) : option ascii :=
  String.get (String.length s - 1) s.

Section WithEnv.
Variable env : Node.Env.
Variable options : Options.

(** [loadFile] over the extensions that are still to be tried. *)
Fixpoint loadFile_from (exts : list string) (fileName : string) (σ : Store)
    : option ref * Store :=
  match exts with
  | [] => (None, σ)
  | ext :: exts' =>
      let realName := fileName +:+ ext in
      match resolver_cache σ !! realName with
      | Some f => (Some f, σ)
      | None =>
          match Node.fs env !! realName with
          | None => loadFile_from exts' fileName σ
          | Some contents =>
              let '(f, σ') := cache_new_file realName contents σ in
              (Some f, σ')
          end
      end
  end.

(** [loadFile(fileName, ext, cb)]; the answer is [cb()] or [cb(null, file)]. *)
Definition loadFile (fileName : string) (ext : nat) (σ : Store) : option ref * Store :=
  loadFile_from (drop ext (extensions options)) fileName σ.

(** The inner loop of [getEntryPoint]: descend into the package object. *)
Fixpoint descend (levels : list string) (packageLevel : Node.Value env)
    : Outcome (Node.Value env) :=
  match levels with
  | [] => Returned packageLevel
  | level :: levels' =>
      match Node.property env packageLevel level with
      | None => Thrown "TypeError"
      | Some next =>
          if Node.truthy env next then descend levels' next else Returned next
      end
  end.

Definition levels_of (main : MainSpec) : list string :=
  match main with
  | Key k => [k]
  | KeyPath ks => ks
  end.

(** [getEntryPoint(packageData)]; [inr] is [this.options.index]. *)
Fixpoint getEntryPoint_from (mains : list MainSpec) (packageData : Node.Value env)
    : Outcome (Node.Value env + string) :=
  match mains with
  | [] => Returned (inr (index options))
  | main :: mains' =>
      packageLevel ← descend (levels_of main) packageData;
      if Node.truthy env packageLevel then Returned (inl packageLevel)
      else getEntryPoint_from mains' packageData
  end.

Definition getEntryPoint (packageData : Node.Value env)
    : Outcome (Node.Value env + string) :=
  getEntryPoint_from (mains options) packageData.

(** [path.resolve(directory, entry)] on what [getEntryPoint] returned. *)
Definition resolve_entry (directory : string) (entry : Node.Value env + string)
    : Outcome string :=
  match entry with
  | inr s => Returned (Node.path_resolve env [directory; s])
  | inl v =>
      match Node.as_string env v with
      | Some s => Returned (Node.path_resolve env [directory; s])
      | None => Thrown "TypeError"
      end
  end.

(** The first branch of [loadDirectory], taken when no package file is
    left: [this.loadFile(path.resolve(directory, this.options.index), cb)]. *)
Definition loadIndex (directory : string) (σ : Store) : Answer * Store :=
  let '(file, σ') := loadFile (Node.path_resolve env [directory; index options]) 0 σ in
  ((None, file), σ').

(** [loadDirectory] over the package files that are still to be tried.
    The call [this.loadDirectory(directory, this.options.packages.length,
    cb)] of the last callback is the first branch, [loadIndex]. *)
Fixpoint loadDirectory_from (pkgs : list string) (directory : string) (σ : Store)
    : Outcome (Answer * Store) :=
  match pkgs with
  | [] => Returned (loadIndex directory σ)
  | packageFile :: pkgs' =>
      let packagePath := Node.path_resolve env [directory; packageFile] in
      match Node.fs env !! packagePath with
      | None => loadDirectory_from pkgs' directory σ
      | Some packageData =>
          match Node.JSON_parse env packageData with
          | None =>
              Returned
                (failure ("Package file is incorrectly formatted: " +:+ packagePath), σ)
          | Some packageData =>
              entry ← getEntryPoint packageData;
              entry ← resolve_entry directory entry;
              match loadFile entry 0 σ with
              | (Some file, σ1) => Returned (hit file, σ1)
              | (None, σ1) =>
                  let entryIndex := Node.path_resolve env [entry; index options] in
                  match loadFile entryIndex 0 σ1 with
                  | (Some file, σ2) => Returned (hit file, σ2)
                  | (None, σ2) => Returned (loadIndex directory σ2)
                  end
              end
          end
      end
  end.

Definition loadDirectory (directory : string) (packageFile : nat) (σ : Store)
    : Outcome (Answer * Store) :=
  loadDirectory_from (drop packageFile (packages options)) directory σ.

(** [resolveRelative(module, cb)] *)
Definition resolveRelative (module : string) (σ : Store) : Outcome (Answer * Store) :=
  match loadFile module 0 σ with
  | (Some file, σ1) => Returned (hit file, σ1)
  | (None, σ1) => loadDirectory module 0 σ1
  end.

(** [base.substring(0, base.lastIndexOf(path.sep))] *)
Definition parent (base : string) : string :=
  JS.substring base 0 (JS.lastIndexOf base (Node.path_sep env)).

(** [resolveModule(base, moduleName, directory, cb)]; one unit of fuel per
    call. *)
Fixpoint resolveModule (fuel : nat) (base moduleName : string) (directory : nat)
    (σ : Store) : Outcome (Answer * Store) :=
  match fuel with
  | O => Starved
  | S fuel' =>
      if Nat.eqb (String.length base) 0 then Returned (absent, σ)
      else
        match modules options !! directory with
        | None => Thrown "TypeError"
        | Some moduleDir =>
            let module := Node.path_resolve env [base; moduleDir; moduleName] in
            '(answer, σ1) ← resolveRelative module σ;
            match snd answer with
            | Some file => Returned (hit file, σ1)
            | None =>
                let directory := directory + 1 in
                if length (modules options) <=? directory
                then resolveModule fuel' (parent base) moduleName 0 σ1
                else resolveModule fuel' base moduleName directory σ1
            end
        end
  end.

(** Calls of [resolveModule] that a walk from [base] can make. *)
Definition walk_budget (base : string) : nat :=
  S (String.length base) * S (length (modules options)).

(** [resolve(module, base, cb)]; [base = None] is the call with two
    arguments, which uses [process.cwd()]. *)
Definition resolve (module : string) (base : option string) (σ : Store)
    : Outcome (Answer * Store) :=
  let base := default (Node.cwd env) base in
  if String.eqb module ""
  then Thrown "Error: Must pass module to resolve and a callback"
  else if RELATIVE_PATH module then
    let hadTrailingSlash :=
      match last_char module with
      | Some c => Ascii.eqb c "/"
      | None => false
      end in
    let module := Node.path_resolve env [base; module] in
    let module := if hadTrailingSlash then module +:+ "/" else module in
    resolveRelative module σ
  else resolveModule (walk_budget base) base module 0 σ.

End WithEnv.

End Resolver.

(* ===================================================================== *)
(** ** src/dependencies.js (class Dependencies) *)
(* ===================================================================== *)

Module Dependencies.

(** How a call that was given a completion callback ends.
    - [Done σ]: the callback was invoked (once), the objects being [σ];
    - [Dropped σ]: the call returned and the callback will never be
      invoked;
    - [Failed e]: an exception was thrown; the callback is not invoked;
    - [Unfinished]: the embedding ran out of fuel. *)
Inductive Ending : Type :=
| Done (σ : Store)
| Dropped (σ : Store)
| Failed (e : string)
| Unfinished.

Section WithEnv.
Variable env : Node.Env.
Variable options : Resolver.Options.

Definition dependency_of (requirement : Required.Requirement)
    (file : option ref) (error : option string) : Dependency :=
  {| path := Required.path requirement;
     static := Required.static requirement;
     references := Required.references requirement;
     file := file;
     error := error |}.

Section Requirements.

(** The method [analyze] of the same object, for the call
    [this.analyze(dependent, ...)]. *)
Variable analyze : ref → Store → Ending.

(** [resolveRequirements] over the requirements from [index] on. *)
Fixpoint resolveRequirements_from (requirements : list Required.Requirement)
    (file : ref) (σ : Store) : Ending :=
  match requirements with
  | [] => Done σ
  | requirement :: rest =>
      if negb (Required.static requirement) then
        resolveRequirements_from rest file
          (push_dependency file
             (dependency_of requirement None
                (Some "Unable to resolve dynamic dependency")) σ)
      else
        let dirname := Node.path_dirname env (path_of σ file) in
        match cached dirname (Required.path requirement) σ with
        | Some cacheResult =>
            resolveRequirements_from rest file
              (push_dependency file
                 (dependency_of requirement (cached_file cacheResult)
                    (cached_error cacheResult)) σ)
        | None =>
            match Resolver.resolve env options (Required.path requirement)
                    (Some dirname) σ with
            | Thrown e => Failed e
            | Starved => Unfinished
            | Returned ((err, dependent), σ1) =>
                let err :=
                  match dependent with
                  | Some _ => err
                  | None => Some "Unable to locate dependency"
                  end in
                let σ2 :=
                  cache_result dirname (Required.path requirement)
                    {| cached_file := dependent; cached_error := err |} σ1 in
                let σ3 :=
                  push_dependency file (dependency_of requirement dependent err) σ2 in
                match dependent with
                | Some dependent =>
                    match analyze dependent σ3 with
                    | Done σ4 => resolveRequirements_from rest file σ4
                    | ending => ending
                    end
                | None => resolveRequirements_from rest file σ3
                end
            end
        end
  end.

(** [resolveRequirements(file, requirements, index, cb)] *)
Definition resolveRequirements (file : ref) (requirements : list Required.Requirement)
    (index : nat) (σ : Store) : Ending :=
  resolveRequirements_from (drop index requirements) file σ.

End Requirements.

(** [analyze(file, cb)]; [file = None] is a value that is no Vinyl file.
    One unit of fuel per nested call. *)
Fixpoint analyze (fuel : nat) (file : option ref) (σ : Store) : Ending :=
  match fuel with
  | O => Unfinished
  | S fuel' =>
      match file with
      | None => Dropped σ
      | Some f =>
          match objects σ !! f with
          | None => Dropped σ
          | Some o =>
              if Vinyl.isNull (vinyl o) then Dropped σ
              else
                match dependencies o with
                | Some _ => Done σ
                | None =>
                    let σ1 := set_dependencies f [] σ in
                    match Required.analyze (Node.esprima_parse env) (Some (vinyl o)) with
                    | Thrown e => Failed e
                    | Starved => Unfinished
                    | Returned None => Failed "TypeError"
                    | Returned (Some requirements) =>
                        resolveRequirements
                          (λ dependent, analyze fuel' (Some dependent))
                          f requirements 0 σ1
                    end
                end
          end
      end
  end.

(** File objects that have no [dependencies] yet. *)
Definition pending (σ : Store) : nat :=
  length (filter (λ o, dependencies o = None) (objects σ)).

(** Files on disk that [Resolver.cache] does not hold yet. *)
Definition unread (σ : Store) : nat :=
  size (dom (Node.fs env) ∖ dom (resolver_cache σ)).

(** Files that can still receive a dependency list: on disk and not yet
    cached, or cached without a list. *)
Definition remaining (σ : Store) : nat := unread σ + pending σ.

(** The nesting depth of [analyze] is bounded by the number of files that
    can still receive a dependency list. *)
Definition budget (σ : Store) : nat := S (remaining σ).

End WithEnv.

End Dependencies.

(* ===================================================================== *)
(** ** src/index.js (class Cartographer) *)
(* ===================================================================== *)

Module Cartographer.

(** The arguments of the one call of the completion callback, if any. *)
Inductive Completion : Type :=
| Completed (err : option string) (file : option ref) (σ : Store)
| NeverCompleted (σ : Store)
| Crashed (e : string)
| OutOfFuel.

Section WithEnv.
Variable env : Node.Env.
Variable options : Resolver.Options.

(** [analyze(fileName, cb)] *)
Definition analyze (fileName : string) (σ : Store) : Completion :=
  match Resolver.resolve env options fileName None σ with
  | Thrown e => Crashed e
  | Starved => OutOfFuel
  | Returned ((err, file), σ1) =>
      match err, file with
      | Some e, _ => Completed (Some e) None σ1
      | None, None => Completed (Some ("File not found: " +:+ fileName)) None σ1
      | None, Some f =>
          match Dependencies.analyze env options
                  (Dependencies.budget env σ1) (Some f) σ1 with
          | Dependencies.Done σ2 => Completed None (Some f) σ2
          | Dependencies.Dropped σ2 => NeverCompleted σ2
          | Dependencies.Failed e => Crashed e
          | Dependencies.Unfinished => OutOfFuel
          end
      end
  end.

End WithEnv.

End Cartographer.

(* ===================================================================== *)
(** ** A concrete environment: POSIX paths, JSON values, trees *)
(* ===================================================================== *)

Module Posix.

(** [s.split("/")] *)
Fixpoint split_from (s : string) (current : string) : list string :=
  match s with
  | EmptyString => [current]
  | String c s' =>
      if Ascii.eqb c "/" then current :: split_from s' ""
      else split_from s' (current +:+ String c "")
  end.

Definition split (s : string) : list string := split_from s "".

(** Drop empty and [.] segments, resolve [..]; [kept] is reversed. *)
Fixpoint normalize (segments kept : list string) : list string :=
  match segments with
  | [] => rev kept
  | seg :: segments' =>
      if String.eqb seg "" || String.eqb seg "." then normalize segments' kept
      else if String.eqb seg ".." then normalize segments' (tail kept)
      else normalize segments' (seg :: kept)
  end.

(** The right-to-left loop of [path.resolve]: prepend arguments until the
    path is absolute; [cwd] is used when no argument is. *)
Fixpoint prepend (cwd : string) (reversed : list string) (resolved : string) : string :=
  match reversed with
  | [] => cwd +:+ "/" +:+ resolved
  | p :: reversed' =>
      if String.eqb p "" then prepend cwd reversed' resolved
      else if JS.startsWith "/" p then p +:+ "/" +:+ resolved
      else prepend cwd reversed' (p +:+ "/" +:+ resolved)
  end.

(** [path.resolve(...args)] *)
Definition resolve (cwd : string) (args : list string) : string :=
  "/" +:+ String.concat "/" (normalize (split (prepend cwd (rev args) "")) []).

(** [path.dirname(p)] for a normalized absolute path. *)
Definition dirname (p : string) : string :=
  let i := JS.lastIndexOf p "/" in
  if (i <=? 0)%Z then (if (i =? 0)%Z then "/" else ".")
  else JS.substring p 0 i.

End Posix.

Module Json.

(** The values of the example manifests; [JUndefined] is the value of a
    property that is not there.  The values are data: the functions and
    prototype objects a value inherits are no values of this type, and a
    lookup under one of their names answers as for a property that is
    not there. *)
Inductive value : Type :=
| JUndefined
| JNull
| JBool (b : bool)
| JNumber (z : Z)
| JString (s : string)
| JObject (members : list (string * value)).

Fixpoint member (ms : list (string * value)) (k : string) : value :=
  match ms with
  | [] => JUndefined
  | (k', v) :: ms' => if String.eqb k' k then v else member ms' k
  end.

(** The properties of a string: its [length] and, under the array
    indices below it, its code units. *)
Definition string_property (s : string) (k : string) : value :=
  if String.eqb k "length" then JNumber (Z.of_nat (String.length s))
  else
    match JS.array_index k with
    | Some i =>
        match String.get (N.to_nat i) s with
        | Some c => JString (String c EmptyString)
        | None => JUndefined
        end
    | None => JUndefined
    end.

Definition property (v : value) (k : string) : option value :=
  match v with
  | JNull | JUndefined => None
  | JObject ms => Some (member ms k)
  | JString s => Some (string_property s k)
  | JBool _ | JNumber _ => Some JUndefined
  end.

Definition truthy (v : value) : bool :=
  match v with
  | JUndefined | JNull => false
  | JBool b => b
  | JNumber z => negb (z =? 0)%Z
  | JString s => negb (String.eqb s "")
  | JObject _ => true
  end.

Definition as_string (v : value) : option string :=
  match v with
  | JString s => Some s
  | _ => None
  end.

End Json.

Module Build.

(** Constructors for the trees esprima returns. *)
Definition Identifier (range : nat * nat) (name : string) : node :=
  Node "Identifier" range [("name", FString name)].

Definition StringLiteral (range : nat * nat) (value raw : string) : node :=
  Node "Literal" range [("value", FString value); ("raw", FString raw)].

Definition NumberLiteral (range : nat * nat) (value : Z) (raw : string) : node :=
  Node "Literal" range [("value", FNumber value); ("raw", FString raw)].

Definition CallExpression (range : nat * nat) (callee : node) (args : list node) : node :=
  Node "CallExpression" range
    [("callee", FNode callee); ("arguments", FArray (map Some args))].

Definition ExpressionStatement (range : nat * nat) (expression : node) : node :=
  Node "ExpressionStatement" range [("expression", FNode expression)].

Definition BlockStatement (range : nat * nat) (body : list node) : node :=
  Node "BlockStatement" range [("body", FArray (map Some body))].

Definition Program (range : nat * nat) (body : list node) : node :=
  Node "Program" range [("body", FArray (map Some body))].

Definition SwitchCase (range : nat * nat) (test : node) (consequent : list node) : node :=
  Node "SwitchCase" range
    [("test", FNode test); ("consequent", FArray (map Some consequent))].

Definition SwitchStatement (range : nat * nat) (discriminant : node)
    (cases : list node) : node :=
  Node "SwitchStatement" range
    [("discriminant", FNode discriminant); ("cases", FArray (map Some cases))].

Definition CatchClause (range : nat * nat) (param body : node) : node :=
  Node "CatchClause" range [("param", FNode param); ("body", FNode body)].

Definition TryStatement (range : nat * nat) (block handler : node) : node :=
  Node "TryStatement" range
    [("block", FNode block); ("guardedHandlers", FArray []);
     ("handlers", FArray [Some handler]); ("handler", FNode handler);
     ("finalizer", FNull)].

Definition FunctionExpression (range : nat * nat) (body : node) : node :=
  Node "FunctionExpression" range
    [("id", FNull); ("params", FArray []); ("defaults", FArray []);
     ("body", FNode body); ("rest", FNull); ("generator", FBool false);
     ("expression", FBool false)].

(** A table standing for a parser: the listed texts and their results. *)
Fixpoint table {A : Type} (entries : list (string * A)) (text : string) : option A :=
  match entries with
  | [] => None
  | (t, a) :: entries' => if String.eqb t text then Some a else table entries' text
  end.

(** An environment on POSIX paths with the given disk contents, manifests,
    sources and working directory. *)
Definition env (files : list (string * string)) (manifests : list (string * Json.value))
    (sources : list (string * node)) (cwd : string) : Node.Env :=
  {| Node.fs := list_to_map files;
     Node.Value := Json.value;
     Node.JSON_parse := table manifests;
     Node.property := Json.property;
     Node.truthy := Json.truthy;
     Node.as_string := Json.as_string;
     Node.path_resolve := Posix.resolve cwd;
     Node.path_dirname := Posix.dirname;
     Node.path_sep := "/";
     Node.cwd := cwd;
     Node.esprima_parse := table sources |}.

End Build.

(* ===================================================================== *)
(** ** Scenarios: sources, their trees, and disks *)
(* ===================================================================== *)

Module Scenario.

Import Build.

(** [require(<arg>)] as an expression statement starting at offset [at_],
    the argument text being [len] code units long. *)
Definition require_call (at_ len : nat) (arg : nat * nat → node) : node :=
  CallExpression (at_, at_ + 9 + len)
    (Identifier (at_, at_ + 7) "require") [arg (at_ + 8, at_ + 8 + len)].

Definition quoted (value : string) : string := "'" +:+ value +:+ "'".

Definition string_arg (value : string) (range : nat * nat) : node :=
  StringLiteral range value (quoted value).

(** [require('<value>');] alone in a file. *)
Definition single_source (value : string) : string :=
  "require(" +:+ quoted value +:+ ");".

Definition single_tree (value : string) : node :=
  let len := String.length (quoted value) in
  Program (0, 10 + len)
    [ExpressionStatement (0, 10 + len) (require_call 0 len (string_arg value))].

(** [switch(x){case 1:require('a');}] *)
Definition switch_source : string := "switch(x){case 1:require('a');}".

Definition switch_tree : node :=
  Program (0, 31)
    [SwitchStatement (0, 31) (Identifier (7, 8) "x")
       [SwitchCase (10, 30) (NumberLiteral (15, 16) 1 "1")
          [ExpressionStatement (17, 30) (require_call 17 3 (string_arg "a"))]]].

(** [try{require('a');}catch(e){}] *)
Definition try_source : string := "try{require('a');}catch(e){}".

Definition try_tree : node :=
  Program (0, 28)
    [TryStatement (0, 28)
       (BlockStatement (3, 18)
          [ExpressionStatement (4, 17) (require_call 4 3 (string_arg "a"))])
       (CatchClause (18, 28) (Identifier (24, 25) "e") (BlockStatement (26, 28) []))].

(** [(function(){require('a');});] *)
Definition function_source : string := "(function(){require('a');});".

Definition function_tree : node :=
  Program (0, 28)
    [ExpressionStatement (0, 28)
       (FunctionExpression (1, 26)
          (BlockStatement (11, 26)
             [ExpressionStatement (12, 25) (require_call 12 3 (string_arg "a"))]))].

(** [require(42)] *)
Definition number_source : string := "require(42)".

Definition number_tree : node :=
  Program (0, 11)
    [ExpressionStatement (0, 11)
       (require_call 0 2 (λ range, NumberLiteral range 42 "42"))].

(** [require(x);require('x')] *)
Definition clash_source : string := "require(x);require('x')".

Definition clash_tree : node :=
  Program (0, 23)
    [ExpressionStatement (0, 11) (require_call 0 1 (λ range, Identifier range "x"));
     ExpressionStatement (11, 23) (require_call 11 3 (string_arg "x"))].

(** [require('./a');require('7');] *)
Definition order_source : string := "require('./a');require('7');".

Definition order_tree : node :=
  Program (0, 28)
    [ExpressionStatement (0, 15) (require_call 0 5 (string_arg "./a"));
     ExpressionStatement (15, 28) (require_call 15 3 (string_arg "7"))].

(** [require(name);] *)
Definition dynamic_source : string := "require(name);".

Definition dynamic_tree : node :=
  Program (0, 14)
    [ExpressionStatement (0, 14) (require_call 0 4 (λ range, Identifier range "name"))].

Definition parser : list (string * node) :=
  [ (single_source "./x", single_tree "./x");
    (single_source "./y", single_tree "./y");
    (single_source "./b", single_tree "./b");
    (switch_source, switch_tree);
    (try_source, try_tree);
    (function_source, function_tree);
    (number_source, number_tree);
    (clash_source, clash_tree);
    (order_source, order_tree);
    (dynamic_source, dynamic_tree) ].

Definition in_memory (source : string) : option Vinyl.File :=
  Some {| Vinyl.path := "/a/main.js"; Vinyl.contents := Some source |}.

Definition scan (source : string) : Outcome (option (list Required.Requirement)) :=
  Required.analyze (table parser) (in_memory source).

(** Scenario 6 of the specification: [/a/x.js] requires [./y] and
    [/a/y.js] requires [./x]. *)
Definition cycle : Node.Env :=
  env [("/a/x.js", single_source "./y"); ("/a/y.js", single_source "./x")]
      [] parser "/a".

(** Scenario 7: [/a/main.js] contains [require(name);]. *)
Definition dynamic : Node.Env :=
  env [("/a/main.js", dynamic_source)] [] parser "/a".

(** A module that is only installed in the root directory. *)
Definition rooted : Node.Env :=
  env [("/node_modules/x/index.js", EmptyString)] [] parser "/a".

(** A directory [/a/lib] whose manifest is not JSON. *)
Definition malformed : Node.Env :=
  env [("/a/lib/package.json", "{main:")] [] parser "/a".

(** Scenario 3: [/a/lib/package.json] holds an object whose [main] is
    [entry.js], and [/a/lib/entry.js] exists. *)
Definition dq : string := String (Ascii.ascii_of_nat 34) EmptyString.

Definition manifest_text : string :=
  "{" +:+ dq +:+ "main" +:+ dq +:+ ":" +:+ dq +:+ "entry.js" +:+ dq +:+ "}".

Definition packaged : Node.Env :=
  env [("/a/lib/package.json", manifest_text); ("/a/lib/entry.js", EmptyString)]
      [(manifest_text, Json.JObject [("main", Json.JString "entry.js")])]
      parser "/a".

(** The objects after the entry file [specifier] has been resolved from
    the working directory, in a fresh process. *)
Definition resolved (e : Node.Env) (specifier : string) : Store :=
  match Resolver.resolve e Resolver.defaults specifier None Heap.empty with
  | Returned (_, σ) => σ
  | _ => Heap.empty
  end.

(** One File object, made by [new File({path : '/a/main.js'})]: its
    contents are [null]. *)
Definition null_contents : Store :=
  {| objects := [ {| vinyl := {| Vinyl.path := "/a/main.js"; Vinyl.contents := None |};
                     dependencies := None |} ];
     resolver_cache := ∅;
     dependencies_cache := ∅ |}.

(** Scenario 5: the module [x] is installed two directories above
    [/a/b/c]. *)
Definition upward : Node.Env :=
  env [("/a/node_modules/x/index.js", EmptyString)] [] parser "/a/b/c".

(** Scenario 6 once the facade has resolved [./x]. *)
Definition cycle_start : Store := resolved cycle "./x".

End Scenario.

(* ===================================================================== *)
(** ** The resolver as the specification words it *)
(* ===================================================================== *)

Module Walk.

Section WithEnv.
Variable env : Node.Env.
Variable options : Resolver.Options.

(** The absolute path a relative specifier is joined to; a trailing
    slash of the specifier is kept. *)
Definition joined (specifier : string) (base : option string) : string :=
  let absolute :=
    Node.path_resolve env [default (Node.cwd env) base; specifier] in
  match Resolver.last_char specifier with
  | Some c => if Ascii.eqb c "/" then absolute +:+ "/" else absolute
  | None => absolute
  end.

(** The bases of the upward walk: [base], then each truncation at the
    final separator, as long as the result is not empty. *)
Fixpoint ancestors (fuel : nat) (base : string) : list string :=
  match fuel with
  | O => []
  | S fuel' =>
      if Nat.eqb (String.length base) 0 then []
      else base :: ancestors fuel' (Resolver.parent env base)
  end.

Definition bases (base : string) : list string :=
  ancestors (S (String.length base)) base.

(** The candidates of one base, in the order of [options.modules]. *)
Definition candidates_in (moduleName base : string) : list string :=
  map (λ moduleDir, Node.path_resolve env [base; moduleDir; moduleName])
      (Resolver.modules options).

(** Every path the walk may probe, in order. *)
Definition candidates (base moduleName : string) : list string :=
  flat_map (candidates_in moduleName) (bases base).

(** Relative resolution of each candidate in turn, up to the first that
    yields a file. *)
Fixpoint first_success (paths : list string) (σ : Store)
    : Outcome (Resolver.Answer * Store) :=
  match paths with
  | [] => Returned (Resolver.absent, σ)
  | module :: paths' =>
      '(answer, σ1) ← Resolver.resolveRelative env options module σ;
      match snd answer with
      | Some file => Returned (Resolver.hit file, σ1)
      | None => first_success paths' σ1
      end
  end.

End WithEnv.

(** [c] occurs in [s]. *)
Fixpoint occurs (c : ascii) (s : string) : bool :=
  match s with
  | EmptyString => false
  | String c' s' => Ascii.eqb c' c || occurs c s'
  end.

End Walk.

(* ===================================================================== *)
(** ** What the grapher and the resolver do to the shared objects *)
(* ===================================================================== *)

Module Reach.

Section WithEnv.
Variable env : Node.Env.
Variable options : Resolver.Options.

(** The File object [r] is a value of [Resolver.cache]. *)
Definition in_cache (σ : Store) (r : ref) : Prop :=
  ∃ p, resolver_cache σ !! p = Some r.

(** The resolver only adds File objects for readable paths that the cache
    does not hold yet. *)
Inductive grows : Store → Store → Prop :=
| grows_refl (σ : Store) : grows σ σ
| grows_new (σ σ' : Store) (realName contents : string) :
    grows σ σ' →
    resolver_cache σ' !! realName = None →
    Node.fs env !! realName = Some contents →
    grows σ (snd (cache_new_file realName contents σ')).

(** The elementary changes [Dependencies.analyze] makes. *)
Inductive step : Store → Store → Prop :=
| step_resolver (σ σ' : Store) :
    grows σ σ' → step σ σ'
| step_assign (σ : Store) (f : ref) (o : FileObject) :
    objects σ !! f = Some o →
    dependencies o = None →
    step σ (set_dependencies f [] σ)
| step_remember (σ : Store) (dirname path : string) (dependent : option ref)
    (err : option string) :
    (∀ r, dependent = Some r → in_cache σ r) →
    step σ (cache_result dirname path
              {| cached_file := dependent; cached_error := err |} σ)
| step_push_dynamic (σ : Store) (f : ref) (requirement : Required.Requirement) :
    Required.static requirement = false →
    step σ (push_dependency f
              (Dependencies.dependency_of requirement None
                 (Some "Unable to resolve dynamic dependency")) σ)
| step_push_cached (σ : Store) (f : ref) (requirement : Required.Requirement)
    (dirname : string) (cacheResult : CacheResult) :
    Required.static requirement = true →
    cached dirname (Required.path requirement) σ = Some cacheResult →
    step σ (push_dependency f
              (Dependencies.dependency_of requirement (cached_file cacheResult)
                 (cached_error cacheResult)) σ)
| step_push_resolved (σ : Store) (f : ref) (requirement : Required.Requirement)
    (dependent : option ref) (err : option string) :
    Required.static requirement = true →
    (∀ r, dependent = Some r → in_cache σ r) →
    step σ (push_dependency f
              (Dependencies.dependency_of requirement dependent err) σ).

(** Every entry of [Resolver.cache] is a File object whose path is the
    key. *)
Definition consistent (σ : Store) : Prop :=
  map_Forall (λ p r, (Vinyl.path ∘ vinyl) <$> objects σ !! r = Some p)
             (resolver_cache σ).

(** Every File object a dependency record or a cached outcome refers to
    is a value of [Resolver.cache]. *)
Definition links_cached (σ : Store) : Prop :=
  (∀ f o ds d r,
     objects σ !! f = Some o → dependencies o = Some ds → d ∈ ds →
     file d = Some r → in_cache σ r) ∧
  (∀ dirname path c r,
     cached dirname path σ = Some c → cached_file c = Some r → in_cache σ r).

(** The record of a dynamic requirement. *)
Definition dynamic_record (d : Dependency) : Prop :=
  static d = false →
  file d = None ∧ error d = Some "Unable to resolve dynamic dependency".

Definition dynamic_ok (σ : Store) : Prop :=
  Forall (λ o, Forall dynamic_record (default [] (dependencies o))) (objects σ).

(** File objects stay, keep their Vinyl file, and keep having a dependency
    list once they have one. *)
Definition evolves (σ σ' : Store) : Prop :=
  ∀ r o, objects σ !! r = Some o →
    ∃ o', objects σ' !! r = Some o' ∧ vinyl o' = vinyl o ∧
          (is_Some (dependencies o) → is_Some (dependencies o')).

End WithEnv.

End Reach.

(* ===================================================================== *)
(** ** The scanner as the specification words it *)
(* ===================================================================== *)

Module Scan.

(** A require call site: the stored path of its argument, whether the
    argument is a [Literal], and the reference to the call. *)
Record Site : Type :=
  { site_path : string; site_static : bool; site_reference : Required.Reference }.

(** The call site a [CallExpression] node is, if it is one: its callee is
    the identifier [require] and it has exactly one argument. *)
Definition site (source : string) (n : node) : option Site :=
  match AST.get n "callee", AST.get n "arguments" with
  | FNode callee, FArray [Some first] =>
      if String.eqb (type callee) "Identifier"
         && match AST.get callee "name" with
            | FString name => String.eqb name "require"
            | _ => false
            end
      then
        let raw := Required.grabSource source (range first) in
        let literal := String.eqb (type first) "Literal" in
        Some {| site_path :=
                  if literal
                  then JS.substring raw 1 (Z.of_nat (String.length raw) - 1)
                  else raw;
                site_static := literal;
                site_reference :=
                  {| Required.source := Required.grabSource source (range n);
                     Required.position_start := fst (range n);
                     Required.position_end := snd (range n) |} |}
      else None
  | _, _ => None
  end.

(** [trackRequirement] on the call expressions of a walk, in order. *)
Fixpoint track_all (source : string) (calls : list node)
    (required : JS.Object Required.Requirement)
    : Outcome (JS.Object Required.Requirement) :=
  match calls with
  | [] => Returned required
  | n :: calls' =>
      required' ← Required.trackRequirement source required n;
      track_all source calls' required'
  end.

(** A handler that records the call expressions in the order the walk
    dispatches them. *)
Definition collect (t : string) : option (node → list node → Outcome (list node)) :=
  if String.eqb t "CallExpression"
  then Some (λ n calls, Returned (calls ++ [n]))
  else None.

Definition visited (ast : node) : list node :=
  match ASTWalker.walk ast collect [] with
  | Returned calls => calls
  | _ => []
  end.

(** The require call sites of a tree, in the order the walk sees them. *)
Definition sites (source : string) (ast : node) : list Site :=
  omap (site source) (visited ast).

(** The distinct elements of a list, in order of first sighting. *)
Definition sight (seen : list string) (p : string) : list string :=
  if bool_decide (p ∈ seen) then seen else seen ++ [p].

Definition first_sightings (l : list string) : list string := fold_left sight l [].

Definition is_index (k : string) : Prop := is_Some (JS.array_index k).
Definition index_le (k1 k2 : string) : Prop :=
  (default 0%N (JS.array_index k1) <= default 0%N (JS.array_index k2))%N.

(** The order of [for-in]: array indices ascending, then the other keys
    in the given order. *)
Definition enumerated (keys others : list string) : Prop :=
  ∃ indices,
    keys = indices ++ others ∧
    Forall is_index indices ∧
    StronglySorted index_le indices ∧
    Forall (λ k, JS.array_index k = None) others.

(** What the tracked object holds after the call sites [sites] have been
    seen, in this order: one entry per stored path, keyed by it, with one
    reference per site of that path, enumerated as [for-in] does. *)
Definition folded (sites : list Site) (required : JS.Object Required.Requirement)
    : Prop :=
  NoDup (JS.keys required) ∧
  (∀ k d, (k, d) ∈ required →
     Required.path d = k ∧
     Required.references d =
       map site_reference (filter (λ s, site_path s = k) sites)) ∧
  (∀ p, p ∈ JS.keys required ↔ p ∈ map site_path sites) ∧
  enumerated (JS.keys required)
    (first_sightings (filter (λ p, JS.array_index p = None) (map site_path sites))).

End Scan.

(* ===================================================================== *)
(** ** What a resolution does to [Resolver.cache] *)
(* ===================================================================== *)

Module Cache.

Section WithEnv.
Variable env : Node.Env.

(** [σ'] is a later state of [Resolver.cache] than [σ]: the entries of
    [σ] are still there, and a path that is neither an entry of [σ] nor
    readable is no entry of [σ']. *)
Definition later (σ σ' : Store) : Prop :=
  (∀ p r, resolver_cache σ !! p = Some r → resolver_cache σ' !! p = Some r) ∧
  (∀ p, resolver_cache σ !! p = None → Node.fs env !! p = None →
        resolver_cache σ' !! p = None).

(** What one resolution does to the objects when it answers with [file]:
    nothing when there is no file or when the file was cached; otherwise
    it makes one File object, for a readable path that was not cached. *)
Definition fetched (σ : Store) (file : option ref) (σ' : Store) : Prop :=
  match file with
  | None => σ' = σ
  | Some f =>
      (σ' = σ ∧ ∃ p, resolver_cache σ !! p = Some f) ∨
      (∃ p contents,
         resolver_cache σ !! p = None ∧
         Node.fs env !! p = Some contents ∧
         f = length (objects σ) ∧
         σ' = snd (cache_new_file p contents σ))
  end.

(** Every entry of [Resolver.cache] is a File object made from a readable
    path: its [path] is the key and its [contents] are those of the
    disk. *)
Definition faithful (σ : Store) : Prop :=
  ∀ p r, resolver_cache σ !! p = Some r →
    ∃ o contents,
      objects σ !! r = Some o ∧
      Node.fs env !! p = Some contents ∧
      vinyl o = {| Vinyl.path := p; Vinyl.contents := Some contents |}.

End WithEnv.

End Cache.

(* ===================================================================== *)
(** ** Package files *)
(* ===================================================================== *)

Module Manifest.

Section WithEnv.
Variable env : Node.Env.

(** The error [e] names a package file of [directory], among [pkgs], that
    can be read and is no JSON. *)
Definition malformed (pkgs : list string) (directory e : string) : Prop :=
  ∃ pkg data,
    pkg ∈ pkgs ∧
    Node.fs env !! Node.path_resolve env [directory; pkg] = Some data ∧
    Node.JSON_parse env data = None ∧
    e = "Package file is incorrectly formatted: " +:+
        Node.path_resolve env [directory; pkg].

(** The value [w] is found in [v] under the keys [levels], every value on
    the way, [w] included, being truthy. *)
Inductive at_path : list string → Node.Value env → Node.Value env → Prop :=
| at_nil (v : Node.Value env) : at_path [] v v
| at_cons (level : string) (levels : list string) (v next w : Node.Value env) :
    Node.property env v level = Some next →
    Node.truthy env next = true →
    at_path levels next w →
    at_path (level :: levels) v w.

(** The entry of [options.mains] selects [w] in the package object [v]. *)
Definition selects (main : Resolver.MainSpec) (v w : Node.Value env) : Prop :=
  at_path (Resolver.levels_of main) v w ∧ Node.truthy env w = true.

End WithEnv.

End Manifest.

(* ===================================================================== *)
(* Properties *)

(* ===================================================================== *)
(** ** The order of the tree walk *)
(* ===================================================================== *)

Module Tree.

Import ASTWalker.

(** The nodes among the entries of a queue. *)
Definition nodes_of (queue : list item) : list node := omap id queue.

(** What the iteration on a queue entry appends to the queue. *)
Definition appended (i : item) : list item :=
  match i with
  | Some n =>
      match enqueue n with
      | Returned kids => kids
      | _ => []
      end
  | None => []
  end.

(** Level order: the nodes of a queue, then what their iterations append,
    level by level. *)
Fixpoint levels (depth : nat) (queue : list item) : list node :=
  match depth with
  | O => []
  | S depth' =>
      match queue with
      | [] => []
      | _ => nodes_of queue ++ levels depth' (flat_map appended queue)
      end
  end.

Definition level_order (ast : node) : list node :=
  levels (potential [Some ast]) [Some ast].

(** The nodes connected to the root by what the iterations append. *)
Inductive reaches (ast : node) : node → Prop :=
| reaches_root : reaches ast ast
| reaches_appended (n m : node) :
    reaches ast n → Some m ∈ appended (Some n) → reaches ast m.

Section Visit.
Context {S : Type}.
Variable dispatch : string → option (node → S → Outcome S).

(** One iteration of the loop on a node, but for the queue: the handler
    of the node's type, if there is one, then the [switch], which can
    throw. *)
Definition visit (n : node) (s : S) : Outcome S :=
  s' ← match dispatch (type n) with
       | Some handler => handler n s
       | None => Returned s
       end;
  _ ← enqueue n;
  Returned s'.

Fixpoint visit_all (ns : list node) (s : S) : Outcome S :=
  match ns with
  | [] => Returned s
  | n :: ns' => s' ← visit n s; visit_all ns' s'
  end.

End Visit.

(** [node.type == "CallExpression"] *)
Definition is_call (n : node) : Prop := type n = "CallExpression".

(** A [dispatch] object with the same handler for every type: it records
    the node it is given. *)
Definition record (t : string) : option (node → list node → Outcome (list node)) :=
  Some (λ n seen, Returned (seen ++ [n])).

End Tree.

(* definitions *)

Module Descriptor.

Import Scan.

(** The call sites of one stored path, in the order seen. *)
Definition sites_of (sites : list Site) (p : string) : list Site :=
  filter (λ s, site_path s = p) sites.

(** A reference is the slice of the source between its positions. *)
Definition sliced (source : string) (ref : Required.Reference) : Prop :=
  Required.source ref =
  JS.substring source (Z.of_nat (Required.position_start ref))
                      (Z.of_nat (Required.position_end ref)).

(** Every entry of the tracking object carries the flag of the first
    site of its path. *)
Definition flagged (sites : list Site) (required : JS.Object Required.Requirement)
    : Prop :=
  ∀ k d, (k, d) ∈ required →
    Some (Required.static d) = site_static <$> head (sites_of sites k).

(** No key of the tracking object names a member of [Object.prototype]. *)
Definition plain (required : JS.Object Required.Requirement) : Prop :=
  ∀ k, k ∈ JS.keys required → k ∉ JS.objectPrototypeKeys.

End Descriptor.

(* ===================================================================== *)
(** ** src/required.js (the version that hands a delegate to the parser) *)
(* ===================================================================== *)

Module Esprima.

(** What [esprima.parseModule(source, options, delegate)] does with its
    delegate: the nodes it hands to it, in order, and whether the parse
    then returns; when [completes] is [false] a syntax error is thrown
    after the last delivery. *)
Record Parse : Type := { delivered : list node; completes : bool }.

End Esprima.

Module RequiredDelegate.

Section Dispatch.
Context {S : Type}.

(** [nodeDispatch(handlers, node, metadata)]; the node types are those of
    the parser, none of which names a member of [Object.prototype]. *)
Definition nodeDispatch (handlers : string → option (node → S → Outcome S))
    (n : node) (s : S) : Outcome S :=
  match handlers (type n) with
  | Some handler => handler n s
  | None => Returned s
  end.

(** The calls of the delegate during one parse. *)
Fixpoint deliver (delegate : node → S → Outcome S) (nodes : list node) (s : S)
    : Outcome S :=
  match nodes with
  | [] => Returned s
  | n :: nodes' => s' ← delegate n s; deliver delegate nodes' s'
  end.

End Dispatch.

(** [Required.analyze(file)]; [trackRequirement] is the one of the other
    version, with a further parameter it does not use. *)
Definition analyze (parseModule : string → Esprima.Parse) (file : option Vinyl.File)
    : Outcome (option (list Required.Requirement)) :=
  match file with
  | None => Returned None
  | Some f =>
      match Vinyl.contents f with
      | None => Returned None
      | Some source =>
          let parse := parseModule source in
          required ← deliver (nodeDispatch (Required.dispatch source))
                             (Esprima.delivered parse) [];
          if Esprima.completes parse
          then Returned (Some (JS.values required))
          else Thrown "SyntaxError"
      end
  end.

End RequiredDelegate.

(* ===================================================================== *)
(** ** src/declarations.js *)
(* ===================================================================== *)

Module Declarations.

Record Import : Type :=
  { type : string;
    path : string;
    static : bool;
    fixed : bool;
    references : list Required.Reference }.

(** [/^(\/|\.\/|\.\.\/)/] *)
Definition FIXED_PATH (importPath : string) : bool :=
  JS.startsWith "/" importPath || JS.startsWith "./" importPath
  || JS.startsWith "../" importPath.

Definition grabSource (source : string) (range : nat * nat) : string :=
  JS.substring source (Z.of_nat (fst range)) (Z.of_nat (snd range)).

Definition push_reference (i : Import) (ref : Required.Reference) : Import :=
  {| type := type i; path := path i; static := static i; fixed := fixed i;
     references := references i ++ [ref] |}.

(** [commonJsImport(file, source, node)]; [imports] is [file.imports]. *)
Definition commonJsImport (source : string) (imports : JS.Object Import) (n : node)
    : Outcome (JS.Object Import) :=
  match AST.get n "callee", AST.get n "arguments" with
  | FNode callee, FArray args =>
      if negb (String.eqb (AST.type callee) "Identifier")
         || negb (match AST.get callee "name" with
                  | FString name => String.eqb name "require"
                  | _ => false
                  end)
         || negb (Nat.eqb (length args) 1)
      then Returned imports
      else
        match args with
        | [Some first] =>
            let staticRequire := String.eqb (AST.type first) "Literal" in
            let importPath := grabSource source (range first) in
            let importPath :=
              if staticRequire
              then JS.substring importPath 1 (Z.of_nat (String.length importPath) - 1)
              else importPath in
            let ref := {| Required.source := grabSource source (range n);
                          Required.position_start := fst (range n);
                          Required.position_end := snd (range n) |} in
            match JS.get imports importPath with
            | Own i => Returned (JS.set imports importPath (push_reference i ref))
            | Absent =>
                Returned (JS.set imports importPath
                            {| type := "cjs";
                               path := importPath;
                               static := staticRequire;
                               fixed := FIXED_PATH importPath;
                               references := [ref] |})
            | Inherited => Thrown "TypeError"
            end
        | _ => Thrown "TypeError"
        end
  | _, _ => Thrown "TypeError"
  end.

(** The [handler] object [{ CallExpression : commonJsImport.bind(null,
    file, source) }]. *)
Definition handler (source : string) (t : string)
    : option (node → JS.Object Import → Outcome (JS.Object Import)) :=
  if String.eqb t "CallExpression"
  then Some (λ n imports, commonJsImport source imports n)
  else None.

(** The Vinyl file with the two properties [analyze] adds to it;
    [exports] stays the empty object. *)
Record DeclaredVinyl : Type :=
  { vinyl : Vinyl.File;
    imports : list Import;
    exports : JS.Object Import }.

(** [Declarations.analyze(file)] *)
Definition analyze (parseModule : string → Esprima.Parse) (file : option Vinyl.File)
    : Outcome (option DeclaredVinyl) :=
  match file with
  | None => Returned None
  | Some f =>
      match Vinyl.contents f with
      | None => Returned None
      | Some source =>
          let parse := parseModule source in
          found ← RequiredDelegate.deliver
                    (RequiredDelegate.nodeDispatch (handler source))
                    (Esprima.delivered parse) [];
          if Esprima.completes parse
          then Returned (Some {| vinyl := f; imports := JS.values found; exports := [] |})
          else Thrown "SyntaxError"
      end
  end.

(** What an import descriptor and a requirement descriptor share. *)
Definition requirement_of (i : Import) : Required.Requirement :=
  {| Required.references := references i;
     Required.path := path i;
     Required.static := static i |}.

(** The two fields an import descriptor has besides. *)
Definition common_js (i : Import) : Prop :=
  type i = "cjs" ∧ fixed i = FIXED_PATH (path i).

End Declarations.

(* ===================================================================== *)
(** ** The dependency lists the grapher leaves behind *)
(* ===================================================================== *)

Module Graph.

Section WithEnv.
Variable env : Node.Env.
Variable options : Resolver.Options.

(** [file.dependencies] of the File object [f]. *)
Definition list_of (σ : Store) (f : ref) : option (list Dependency) :=
  objects σ !! f ≫= dependencies.

(** [file.dirname] of the File object [f]. *)
Definition dirname_of (σ : Store) (f : ref) : string :=
  Node.path_dirname env (path_of σ f).

(** The record made from a descriptor has its path, flag and references. *)
Definition mirrors (d : Dependency) (requirement : Required.Requirement) : Prop :=
  path d = Required.path requirement ∧
  static d = Required.static requirement ∧
  references d = Required.references requirement.

(** What the scanner returns for a File object. *)
Definition scanned (o : FileObject) : Outcome (option (list Required.Requirement)) :=
  Required.analyze (Node.esprima_parse env) (Some (vinyl o)).

(** The list of a File object, if it has one, holds one record per
    descriptor of the file, in the order of the scanner. *)
Definition complete_object (o : FileObject) : Prop :=
  ∀ ds, dependencies o = Some ds →
    ∃ requirements,
      scanned o = Returned (Some requirements) ∧ Forall2 mirrors ds requirements.

Definition complete (σ : Store) : Prop :=
  ∀ f o, objects σ !! f = Some o → complete_object o.

(** Every File object is still there, with its Vinyl file, and with its
    list when it had one, except that the list of [but] may have
    changed. *)
Definition keeps_but (but : option ref) (σ σ' : Store) : Prop :=
  ∀ r o, objects σ !! r = Some o →
    ∃ o', objects σ' !! r = Some o' ∧ vinyl o' = vinyl o ∧
          (but ≠ Some r → ∀ ds, dependencies o = Some ds → dependencies o' = Some ds).

Definition keeps : Store → Store → Prop := keeps_but None.

(** Every File object that a record or an entry of [Dependencies.cache]
    refers to has a list, except possibly [but]. *)
Definition closed_but (but : option ref) (σ : Store) : Prop :=
  (∀ f ds d r,
     list_of σ f = Some ds → d ∈ ds → file d = Some r →
     but = Some r ∨ is_Some (list_of σ r)) ∧
  (∀ dirname path c r,
     cached dirname path σ = Some c → cached_file c = Some r →
     but = Some r ∨ is_Some (list_of σ r)).

Definition closed : Store → Prop := closed_but None.

(** [if(!dependent) { err = 'Unable to locate dependency' }] *)
Definition located (dependent : option ref) (err : option string) : option string :=
  match dependent with
  | Some _ => err
  | None => Some "Unable to locate dependency"
  end.

(** The elementary changes of [Dependencies.analyze], each with what the
    source has tested before it makes the change. *)
Inductive move : Store → Store → Prop :=
| move_assign (σ : Store) (f : ref) (o : FileObject) :
    objects σ !! f = Some o →
    dependencies o = None →
    move σ (set_dependencies f [] σ)
| move_dynamic (σ : Store) (f : ref) (requirement : Required.Requirement) :
    Required.static requirement = false →
    move σ (push_dependency f
              (Dependencies.dependency_of requirement None
                 (Some "Unable to resolve dynamic dependency")) σ)
| move_cached (σ : Store) (f : ref) (requirement : Required.Requirement)
    (cacheResult : CacheResult) :
    Required.static requirement = true →
    cached (dirname_of σ f) (Required.path requirement) σ = Some cacheResult →
    move σ (push_dependency f
              (Dependencies.dependency_of requirement (cached_file cacheResult)
                 (cached_error cacheResult)) σ)
| move_resolved (σ σ1 : Store) (f : ref) (requirement : Required.Requirement)
    (err : option string) (dependent : option ref) :
    Required.static requirement = true →
    cached (dirname_of σ f) (Required.path requirement) σ = None →
    Resolver.resolve env options (Required.path requirement)
      (Some (dirname_of σ f)) σ = Returned ((err, dependent), σ1) →
    move σ (push_dependency f
              (Dependencies.dependency_of requirement dependent (located dependent err))
              (cache_result (dirname_of σ f) (Required.path requirement)
                 {| cached_file := dependent;
                    cached_error := located dependent err |} σ1)).

(** [resolve] answers with [file], and changes nothing. *)
Definition answers (σ : Store) (dirname path : string) (file : option ref) : Prop :=
  ∃ err,
    Resolver.resolve env options path (Some dirname) σ = Returned ((err, file), σ).

(** A file without error, or no file and the error of the grapher. *)
Definition settled (file : option ref) (error : option string) : Prop :=
  match file with
  | Some _ => error = None
  | None => error = Some "Unable to locate dependency"
  end.

(** Every entry of [Dependencies.cache] is what [resolve] answers now,
    and every record is either the entry of its file's directory and its
    path, or the record of a dynamic requirement. *)
Definition sound (σ : Store) : Prop :=
  (∀ dirname path c,
     cached dirname path σ = Some c →
     answers σ dirname path (cached_file c) ∧ settled (cached_file c) (cached_error c)) ∧
  (∀ f ds d,
     list_of σ f = Some ds → d ∈ ds →
     if static d
     then cached (dirname_of σ f) (path d) σ =
          Some {| cached_file := file d; cached_error := error d |}
     else file d = None ∧ error d = Some "Unable to resolve dynamic dependency").

(** [b] is the file of a record of [a]. *)
Definition edge (σ : Store) (a b : ref) : Prop :=
  ∃ ds d, list_of σ a = Some ds ∧ d ∈ ds ∧ file d = Some b.

(** What a process holds between two runs of the facade. *)
Definition mapped (σ : Store) : Prop :=
  closed σ ∧ complete σ ∧ sound σ.

End WithEnv.

End Graph.

(* ===================================================================== *)
(** ** The grapher over import declarations (class Dependencies with
       [resolveImports]) *)
(* ===================================================================== *)

Module Imports.

(** An element of [file.imports]: the descriptor [Declarations.analyze]
    has made and, once [resolveImports] has assigned them, its properties
    [file] and [error] ([None]: not assigned). *)
Record Imported : Type :=
  { declared : Declarations.Import;
    resolution : option CacheResult }.

(** The mutable objects of the process: those of [Heap], of which this
    version never assigns the property [dependencies], and the property
    [imports] of the File objects that have one. *)
Record State : Type :=
  { store : Store;
    imports : gmap ref (list Imported) }.

Definition initial : State := {| store := Heap.empty; imports := ∅ |}.

(** How a call that was given a completion callback ends, as in
    [Dependencies.Ending]. *)
Inductive Ending : Type :=
| Done (st : State)
| Dropped (st : State)
| Failed (e : string)
| Unfinished.

Definition with_store (σ : Store) (st : State) : State :=
  {| store := σ; imports := imports st |}.

(** [file.imports = imports], at the end of [Declarations.analyze]. *)
Definition set_imports (f : ref) (found : list Declarations.Import) (st : State)
    : State :=
  {| store := store st;
     imports :=
       <[f := map (λ i, {| declared := i; resolution := None |}) found]> (imports st) |}.

(** [imported.file = file; imported.error = error] *)
Definition assign (file : option ref) (error : option string) (i : Imported)
    : Imported :=
  {| declared := declared i;
     resolution := Some {| cached_file := file; cached_error := error |} |}.

(** The same for [imported = file.imports[index]] of the File object
    [f]. *)
Definition annotate (f : ref) (index : nat) (file : option ref) (error : option string)
    (st : State) : State :=
  {| store := store st;
     imports := alter (alter (assign file error) index) f (imports st) |}.

Section WithEnv.
Variable env : Node.Env.
Variable options : Resolver.Options.
Variable parseModule : string → Esprima.Parse.

Section Loop.

(** The method [analyze] of the same object, for the call
    [this.analyze(dependent, continueResolving)]. *)
Variable analyze : ref → State → Ending.

(** [resolveImports(file, index, cb)].  The call for [index + 1] is made
    at most [todo] times; [file.imports] is read again on every call. *)
Fixpoint resolveImports_from (todo : nat) (file : ref) (index : nat) (st : State)
    : Ending :=
  match imports st !! file with
  | None => Failed "TypeError"
  | Some l =>
      if length l =? index then Done st
      else
        match l !! index with
        | None => Failed "TypeError"
        | Some imported =>
            match todo with
            | O => Unfinished
            | S todo' =>
                let path := Declarations.path (declared imported) in
                if negb (Declarations.static (declared imported)) then
                  resolveImports_from todo' file (S index)
                    (annotate file index None
                       (Some "Unable to resolve dynamic import") st)
                else
                  let dirname := Node.path_dirname env (path_of (store st) file) in
                  match cached dirname path (store st) with
                  | Some cacheResult =>
                      resolveImports_from todo' file (S index)
                        (annotate file index (cached_file cacheResult)
                           (cached_error cacheResult) st)
                  | None =>
                      match Resolver.resolve env options path (Some dirname)
                              (store st) with
                      | Thrown e => Failed e
                      | Starved => Unfinished
                      | Returned ((err, dependent), σ1) =>
                          let err :=
                            match dependent with
                            | Some _ => err
                            | None => Some "Unable to locate import"
                            end in
                          let σ2 :=
                            cache_result dirname path
                              {| cached_file := dependent; cached_error := err |} σ1 in
                          let st3 := annotate file index dependent err
                                       (with_store σ2 st) in
                          match dependent with
                          | Some dependent =>
                              match analyze dependent st3 with
                              | Done st4 => resolveImports_from todo' file (S index) st4
                              | ending => ending
                              end
                          | None => resolveImports_from todo' file (S index) st3
                          end
                      end
                  end
            end
        end
  end.

(** [resolveImports(file, cb)] and [resolveImports(file, index, cb)]: the
    imports that are left when the call begins bound the calls for
    [index + 1]. *)
Definition resolveImports (file : ref) (index : nat) (st : State) : Ending :=
  resolveImports_from (length (default [] (imports st !! file)) - index) file index st.

End Loop.

(** [analyze(file, cb)]; [file = None] is a value that is no Vinyl file.
    One unit of fuel per nested call. *)
Fixpoint analyze (fuel : nat) (file : option ref) (st : State) : Ending :=
  match fuel with
  | O => Unfinished
  | S fuel' =>
      match file with
      | None => Dropped st
      | Some f =>
          match objects (store st) !! f with
          | None => Dropped st
          | Some o =>
              if Vinyl.isNull (vinyl o) then Dropped st
              else
                match imports st !! f with
                | Some _ => Done st
                | None =>
                    match Declarations.analyze parseModule (Some (vinyl o)) with
                    | Thrown e => Failed e
                    | Starved => Unfinished
                    | Returned None => Failed "TypeError"
                    | Returned (Some declared) =>
                        resolveImports
                          (λ dependent, analyze fuel' (Some dependent))
                          f 0
                          (set_imports f (Declarations.imports declared) st)
                    end
                end
          end
      end
  end.

(** File objects that have no [imports] yet. *)
Definition pending (st : State) : nat :=
  length (filter (λ r, imports st !! r = None)
                 (seq 0 (length (objects (store st))))).

(** Files that can still receive an import list: on disk and not yet
    cached, or made and without a list. *)
Definition remaining (st : State) : nat :=
  Dependencies.unread env (store st) + pending st.

Definition budget (st : State) : nat := S (remaining st).

End WithEnv.

End Imports.

(* ===================================================================== *)
(** ** src/index.js (class Cartographer over import declarations) *)
(* ===================================================================== *)

Module CartographerImports.

Import Imports.

(** The arguments of the one call of the completion callback, if any. *)
Inductive Completion : Type :=
| Completed (err : option string) (file : option ref) (st : State)
| NeverCompleted (st : State)
| Crashed (e : string)
| OutOfFuel.

Section WithEnv.
Variable env : Node.Env.
Variable options : Resolver.Options.
Variable parseModule : string → Esprima.Parse.

(** [analyze(fileName, cb)] *)
Definition analyze (fileName : string) (st : State) : Completion :=
  match Resolver.resolve env options fileName None (store st) with
  | Thrown e => Crashed e
  | Starved => OutOfFuel
  | Returned ((err, file), σ1) =>
      let st1 := with_store σ1 st in
      match err, file with
      | Some e, _ => Completed (Some e) None st1
      | None, None => Completed (Some ("File not found: " +:+ fileName)) None st1
      | None, Some f =>
          match Imports.analyze env options parseModule
                  (budget env st1) (Some f) st1 with
          | Done st2 => Completed None (Some f) st2
          | Dropped st2 => NeverCompleted st2
          | Failed e => Crashed e
          | Unfinished => OutOfFuel
          end
      end
  end.

End WithEnv.

End CartographerImports.

(* ===================================================================== *)
(** ** What the import lists hold *)
(* ===================================================================== *)

Module Chart.

Import Imports.

Section WithEnv.
Variable env : Node.Env.
Variable parseModule : string → Esprima.Parse.

(** The File object [r] has an [imports] array. *)
Definition listed (st : State) (r : ref) : Prop := is_Some (imports st !! r).

(** Every File object is still there, as it was, and so is every import
    list. *)
Definition keeps (st st' : State) : Prop :=
  (∀ r o, objects (store st) !! r = Some o → objects (store st') !! r = Some o) ∧
  (∀ g l, imports st !! g = Some l → imports st' !! g = Some l).

(** The import has its [file] and [error]: those of a dynamic import when
    it is one, and a file that has an import list when it has a file. *)
Definition annotated (st : State) (i : Imported) : Prop :=
  ∃ c,
    resolution i = Some c ∧
    (Declarations.static (declared i) = false →
     c = {| cached_file := None;
            cached_error := Some "Unable to resolve dynamic import" |}) ∧
    (∀ r, cached_file c = Some r → listed st r).

(** The list [l] of the File object [g] holds the imports that
    [Declarations.analyze] finds in the file, in its order, each with its
    [file] and [error]. *)
Definition charted_list (st : State) (g : ref) (l : list Imported) : Prop :=
  ∃ o found,
    objects (store st) !! g = Some o ∧
    Declarations.analyze parseModule (Some (vinyl o)) = Returned (Some found) ∧
    map declared l = Declarations.imports found ∧
    Forall (annotated st) l.

(** Every File object an outcome of [Dependencies.cache] refers to has an
    import list, except possibly [but]. *)
Definition closed_but (but : option ref) (st : State) : Prop :=
  ∀ dirname path c r,
    cached dirname path (store st) = Some c → cached_file c = Some r →
    but = Some r ∨ listed st r.

Definition closed : State → Prop := closed_but None.

(** [b] is the file of an import of [a]. *)
Definition edge (st : State) (a b : ref) : Prop :=
  ∃ l i c,
    imports st !! a = Some l ∧ i ∈ l ∧ resolution i = Some c ∧ cached_file c = Some b.

(** What a process holds between two runs of the facade. *)
Definition charted (st : State) : Prop :=
  closed st ∧ ∀ g l, imports st !! g = Some l → charted_list st g l.

(** Every File object is still there, as it was, and every File object
    that had an import list has one. *)
Definition extends (st st' : State) : Prop :=
  (∀ r o, objects (store st) !! r = Some o → objects (store st') !! r = Some o) ∧
  (∀ g, listed st g → listed st' g).

(** What a call of [resolveImports] for [file] and the index [k] that
    invokes its callback has done: the other lists that were there are
    as they were; the list of [file] has its imports from [k] on
    annotated and is otherwise as it was; the lists that are new hold
    what [Declarations.analyze] finds, annotated. *)
Definition continued (file : ref) (k : nat) (st st' : State) : Prop :=
  (∀ r o, objects (store st) !! r = Some o → objects (store st') !! r = Some o) ∧
  (∀ g lg, g ≠ file → imports st !! g = Some lg → imports st' !! g = Some lg) ∧
  (∃ l l',
     imports st !! file = Some l ∧ imports st' !! file = Some l' ∧
     take k l' = take k l ∧
     map declared l' = map declared l ∧
     Forall (annotated st') (drop k l')) ∧
  (∀ g lg, imports st !! g = None → imports st' !! g = Some lg →
           charted_list st' g lg) ∧
  closed st'.

(** The same for a call of [analyze] for the File object [d]. *)
Definition analysed (d : ref) (st st' : State) : Prop :=
  keeps st st' ∧
  listed st' d ∧
  (∀ g lg, imports st !! g = None → imports st' !! g = Some lg →
           charted_list st' g lg) ∧
  closed st'.

(** Every import list is still there, with as many imports. *)
Definition sized (st st' : State) : Prop :=
  ∀ g l, imports st !! g = Some l →
    ∃ l', imports st' !! g = Some l' ∧ length l' = length l.

(** No more files can receive a list in [st'] than in [st], the lists
    have kept their lengths, and [Resolver.cache] is as faithful. *)
Definition advances (st st' : State) : Prop :=
  remaining env st' ≤ remaining env st ∧
  sized st st' ∧
  (Cache.faithful env (store st) → Cache.faithful env (store st')).

(** The ending of a call that began in [st]: it is not out of fuel, it
    has not dropped the callback when [ok] holds, and when the callback
    is invoked the objects have advanced. *)
Definition ends (ok : Prop) (st : State) (e : Ending) : Prop :=
  match e with
  | Done st' => advances st st'
  | Dropped _ => ¬ ok
  | Failed _ => True
  | Unfinished => False
  end.

End WithEnv.

End Chart.

(* ===================================================================== *)
(** ** src/resolver.js (function Resolver and its prototype) *)
(* ===================================================================== *)

Module ResolverPrototype.

Import Resolver.

(** The options of [new Resolver()]. *)
Definition defaults : Options :=
  {| extensions := [""; ".js"];
     modules := ["node_modules"];
     packages := ["package.json"];
     mains := [Key "main"];
     index := "index" |}.

(** The property key an entry of [this.mains] is used as: an array is
    converted to the string of its elements, joined by commas. *)
Definition key_of (main : MainSpec) : string :=
  match main with
  | Key k => k
  | KeyPath ks => String.concat "," ks
  end.

Section WithEnv.
Variable env : Node.Env.
Variable options : Options.

(** [stat && stat.isDirectory()] in the callback of [fs.stat(module, ...)]. *)
Variable isDirectory : string → bool.

(** [loadFile(fileName, ext, cb)]: the text of the method of the class. *)
Definition loadFile (fileName : string) (ext : nat) (σ : Store) : option ref * Store :=
  Resolver.loadFile env options fileName ext σ.

(** [getEntryPoint(packageData)] from [this.mains[i]] on; [inr] is
    [this.index]. *)
Fixpoint getEntryPoint_from (mains : list MainSpec) (packageData : Node.Value env)
    : Outcome (Node.Value env + string) :=
  match mains with
  | [] => Returned (inr (index options))
  | main :: mains' =>
      match Node.property env packageData (key_of main) with
      | None => Thrown "TypeError"
      | Some entry =>
          if Node.truthy env entry then Returned (inl entry)
          else getEntryPoint_from mains' packageData
      end
  end.

Definition getEntryPoint (packageData : Node.Value env)
    : Outcome (Node.Value env + string) :=
  getEntryPoint_from (mains options) packageData.

(** [loadDirectory] over the package files that are still to be tried.
    [nextWrapper] is assigned and never called. *)
Fixpoint loadDirectory_from (pkgs : list string) (directory : string) (σ : Store)
    : Outcome (Answer * Store) :=
  match pkgs with
  | [] =>
      let '(file, σ') := loadFile (Node.path_resolve env [directory; index options]) 0 σ in
      Returned ((None, file), σ')
  | packageFile :: pkgs' =>
      let packagePath := Node.path_resolve env [directory; packageFile] in
      match Node.fs env !! packagePath with
      | None => loadDirectory_from pkgs' directory σ
      | Some packageData =>
          match Node.JSON_parse env packageData with
          | None =>
              Returned (failure ("File is incorrectly formatted: " +:+ packagePath), σ)
          | Some packageData =>
              entry ← getEntryPoint packageData;
              entry ← resolve_entry env directory entry;
              let '(file, σ') := loadFile entry 0 σ in
              Returned ((None, file), σ')
          end
      end
  end.

Definition loadDirectory (directory : string) (packageFile : nat) (σ : Store)
    : Outcome (Answer * Store) :=
  loadDirectory_from (drop packageFile (packages options)) directory σ.

(** [resolveRelative(module, cb)] *)
Definition resolveRelative (module : string) (σ : Store) : Outcome (Answer * Store) :=
  if isDirectory module then loadDirectory module 0 σ
  else
    let '(file, σ') := loadFile module 0 σ in
    Returned ((None, file), σ').

(** [resolveModule(base, moduleName, directory, cb)]; one unit of fuel per
    call. *)
Fixpoint resolveModule (fuel : nat) (base moduleName : string) (directory : nat)
    (σ : Store) : Outcome (Answer * Store) :=
  match fuel with
  | O => Starved
  | S fuel' =>
      if Nat.eqb (String.length base) 0 then Returned (absent, σ)
      else
        match modules options !! directory with
        | None => Thrown "TypeError"
        | Some moduleDir =>
            let module := Node.path_resolve env [base; moduleDir; moduleName] in
            '(answer, σ1) ← loadDirectory module 0 σ;
            match snd answer with
            | Some file => Returned (hit file, σ1)
            | None =>
                let directory := directory + 1 in
                if length (modules options) <=? directory
                then resolveModule fuel' (parent env base) moduleName 0 σ1
                else resolveModule fuel' base moduleName directory σ1
            end
        end
  end.

(** [resolve(module, base, cb)]; [base = None] is the call with two
    arguments. *)
Definition resolve (module : string) (base : option string) (σ : Store)
    : Outcome (Answer * Store) :=
  let base := default (Node.cwd env) base in
  if String.eqb module ""
  then Thrown "Error: Must pass module to resolve and a callback"
  else if RELATIVE_PATH module
       then resolveRelative (Node.path_resolve env [base; module]) σ
       else resolveModule (walk_budget options base) base module 0 σ.

(** The package file [pkg] of [directory] cannot be read. *)
Definition unreadable (directory pkg : string) : Prop :=
  Node.fs env !! Node.path_resolve env [directory; pkg] = None.

(** The error [e] names a package file of [directory], among [pkgs], that
    can be read and is no JSON. *)
Definition malformed (pkgs : list string) (directory e : string) : Prop :=
  ∃ pkg data,
    pkg ∈ pkgs ∧
    Node.fs env !! Node.path_resolve env [directory; pkg] = Some data ∧
    Node.JSON_parse env data = None ∧
    e = "File is incorrectly formatted: " +:+ Node.path_resolve env [directory; pkg].

End WithEnv.

End ResolverPrototype.

(* ===================================================================== *)
(** ** Further inputs *)
(* ===================================================================== *)

Module Example.

Import Build Scenario.

(** The working directory [/w] has [x] installed in its [node_modules];
    the base [a/b] is relative to it. *)
Definition shallow : Node.Env :=
  env [("/w/node_modules/x/index.js", EmptyString)] [] parser "/w".

(** [f(require('a'));require('b');] *)
Definition nested_source : string := "f(require('a'));require('b');".

Definition nested_tree : node :=
  Program (0, 29)
    [ExpressionStatement (0, 16)
       (CallExpression (0, 15) (Identifier (0, 1) "f")
          [require_call 2 3 (string_arg "a")]);
     ExpressionStatement (16, 29) (require_call 16 3 (string_arg "b"))].

(** [require('toString');] alone in a file. *)
Definition prototype_parser : string → option node :=
  table [(single_source "toString", single_tree "toString")].

(** What the parser hands to the delegate for [require(x);require('x')]:
    each node when it is complete, so the parts of a node before it. *)
Definition clash_delivered : list node :=
  let first := require_call 0 1 (λ range, Identifier range "x") in
  let second := require_call 11 3 (string_arg "x") in
  [ Identifier (0, 7) "require"; Identifier (8, 9) "x"; first;
    ExpressionStatement (0, 11) first;
    Identifier (11, 18) "require"; string_arg "x" (19, 22); second;
    ExpressionStatement (11, 23) second;
    clash_tree ].

Definition parseModule (source : string) : Esprima.Parse :=
  if String.eqb source clash_source
  then {| Esprima.delivered := clash_delivered; Esprima.completes := true |}
  else {| Esprima.delivered := []; Esprima.completes := false |}.

(** What the parser hands to the delegate for [require('<value>');]. *)
Definition single_delivered (value : string) : list node :=
  let len := String.length (quoted value) in
  let call := require_call 0 len (string_arg value) in
  [ Identifier (0, 7) "require"; string_arg value (8, 8 + len); call;
    ExpressionStatement (0, 10 + len) call;
    single_tree value ].

(** A table standing for the parser with a delegate: the listed texts
    and what is delivered for them; any other text is a syntax error. *)
Definition delegate (entries : list (string * list node)) (source : string)
    : Esprima.Parse :=
  match table entries source with
  | Some nodes => {| Esprima.delivered := nodes; Esprima.completes := true |}
  | None => {| Esprima.delivered := []; Esprima.completes := false |}
  end.

(** The parser for the files of [Scenario.cycle]. *)
Definition cycle_delegate : string → Esprima.Parse :=
  delegate [ (single_source "./x", single_delivered "./x");
             (single_source "./y", single_delivered "./y") ].

(** The process after [resolve('./x')] in [Scenario.cycle]. *)
Definition cycle_state : Imports.State :=
  {| Imports.store := cycle_start; Imports.imports := ∅ |}.

End Example.

(* ===================================================================== *)
(** * Properties *)
(* ===================================================================== *)

(** ** The tree walk (src/ast-walker.js) *)

(** A call inside a function expression is reached by the walk. *)
Lemma walk_reaches_function_body :
  Scenario.scan Scenario.function_source =
  Returned (Some [ {| Required.references :=
                        [ {| Required.source := "require('a')";
                             Required.position_start := 12;
                             Required.position_end := 24 |} ];
                      Required.path := "a";
                      Required.static := true |} ]).
Proof. vm_compute. reflexivity. Qed.

(** C8 (the code departs from the claim).  The claim has the walk visit
    the call expressions inside the cases of a [switch] and inside the
    block of a [try].  The [SwitchStatement] case reads [nodes.cases] and
    the [TryStatement] case reads [nodes.block], properties of the queue
    array, so neither the cases nor the block are enqueued: for
    [switch(x){case 1:require('a');}] and for
    [try{require('a');}catch(e){}] the scanner returns no descriptor. *)
Theorem walk_skips_switch_cases_and_try_block :
  Scenario.scan Scenario.switch_source = Returned (Some []) ∧
  Scenario.scan Scenario.try_source = Returned (Some []).
Proof. split; vm_compute; reflexivity. Qed.

(** ** The walk ends *)

Section WalkFacts.

Import ASTWalker.

Lemma weight_unfold (t : string) (r : nat * nat) (ps : list (string * field node)) :
  weight (Node t r ps) = 6 + props_weight ps.
Proof.
  cbn [weight]. f_equal. induction ps as [|[k f] ps IH]; [reflexivity|].
  cbn [props_weight]. rewrite <- IH. f_equal.
  destruct f as [m|l| | | | |]; try reflexivity.
  cbn [field_weight]. induction l as [|[m|] l IHl]; [reflexivity| |];
    cbn [potential item_weight]; rewrite <- IHl; reflexivity.
Qed.

Lemma potential_app (q1 q2 : list item) :
  potential (q1 ++ q2) = potential q1 + potential q2.
Proof. induction q1 as [|i q1 IH]; simpl; [reflexivity|]. rewrite IH. lia. Qed.

Lemma potential_pushed (f : field node) : potential (pushed f) ≤ 1 + field_weight f.
Proof. destruct f; simpl; lia. Qed.

Lemma potential_concatenated (f : field node) :
  potential (concatenated f) ≤ 1 + field_weight f.
Proof. destruct f; simpl; lia. Qed.

(** The weights of properties read under distinct names add up to no
    more than the weight of all properties. *)
Lemma lookups_weight (ps : list (string * field node)) (names : list string) :
  NoDup names →
  list_sum (map (λ name, field_weight (lookup_field ps name)) names) ≤ props_weight ps.
Proof.
  revert names. induction ps as [|[k f] ps IH]; intros names Hnames.
  - simpl. induction names; simpl; [lia|]. apply IHnames. inversion Hnames; assumption.
  - cbn [props_weight]. specialize (IH names Hnames).
    set (g := λ name, field_weight (lookup_field ((k, f) :: ps) name)).
    set (h := λ name, field_weight (lookup_field ps name)) in *.
    assert (∀ name, g name = if String.eqb k name then field_weight f else h name)
      as Hg.
    { intros name. unfold g, h. simpl. destruct (String.eqb k name); reflexivity. }
    clearbody g h.
    assert (list_sum (map g names)
            ≤ (if bool_decide (k ∈ names) then field_weight f else 0) +
              list_sum (map h names)) as H.
    { clear IH. induction names as [|name names IHn]; [simpl; lia|].
      inversion Hnames as [|? ? Hnotin Hrest]; subst. specialize (IHn Hrest).
      simpl. rewrite Hg.
      destruct (String.eqb_spec k name) as [->|Hne].
      - rewrite bool_decide_eq_true_2 by left.
        rewrite bool_decide_eq_false_2 in IHn by exact Hnotin. lia.
      - destruct (bool_decide (k ∈ names)) eqn:Hin.
        + rewrite bool_decide_eq_true_2
            by (right; apply bool_decide_eq_true_1 in Hin; exact Hin). lia.
        + rewrite bool_decide_eq_false_2; [lia|].
          apply bool_decide_eq_false_1 in Hin.
          intros [->|?]%elem_of_cons; contradiction. }
    destruct (bool_decide (k ∈ names)); lia.
Qed.

Lemma schema_rows :
  Forall (λ tr, NoDup (slot_names (snd tr)) ∧ length (snd tr) ≤ 5) schema.
Proof. apply (bool_decide_unpack _). vm_compute. reflexivity. Qed.

Lemma row_distinct (t : string) :
  NoDup (slot_names (row t schema)) ∧ length (row t schema) ≤ 5.
Proof.
  pose proof schema_rows as H. induction H as [|[t' r] table Hr _ IH]; simpl.
  - split; [constructor|lia].
  - destruct (String.eqb t' t); [exact Hr|exact IH].
Qed.

Lemma sum_cons (a : nat) (l : list nat) : list_sum (a :: l) = a + list_sum l.
Proof. reflexivity. Qed.

Lemma potential_row (n : node) (r : list slot) :
  potential (flat_map (slot_items n) r) ≤
  length r + list_sum (map (λ name, field_weight (AST.get n name)) (slot_names r)).
Proof.
  induction r as [|s r IH]; [simpl; lia|].
  cbn [flat_map]. rewrite potential_app.
  destruct s as [name|name|name]; cbn [slot_items length].
  - change (slot_names (Push name :: r)) with (name :: slot_names r).
    rewrite map_cons, sum_cons. pose proof (potential_pushed (AST.get n name)). lia.
  - change (slot_names (Concat name :: r)) with (name :: slot_names r).
    rewrite map_cons, sum_cons.
    pose proof (potential_concatenated (AST.get n name)). lia.
  - change (slot_names (OfQueue name :: r)) with (slot_names r).
    cbn [potential item_weight]. lia.
Qed.

Lemma potential_pattern (elems : list (option node)) (kids : list item) :
  pattern_items elems = Returned kids → potential kids ≤ potential elems.
Proof.
  revert kids. induction elems as [|[p|] elems IH]; intros kids; simpl.
  - intros [= <-]. simpl. lia.
  - unfold mbind, Outcome_bind.
    destruct (pattern_items elems) as [rest| |]; simpl; try discriminate.
    intros [= <-]. specialize (IH rest eq_refl). rewrite !potential_app.
    pose proof (potential_pushed (AST.get p "key")).
    pose proof (potential_pushed (AST.get p "value")).
    destruct p as [t r ps]. rewrite weight_unfold. unfold AST.get in *. simpl in *.
    pose proof (lookups_weight ps ["key"; "value"]) as Hl. simpl in Hl.
    assert (NoDup ["key"; "value"]) as Hnd.
    { apply (bool_decide_unpack _). vm_compute. reflexivity. }
    specialize (Hl Hnd). lia.
  - discriminate.
Qed.

Lemma lookup_weight (ps : list (string * field node)) (name : string) :
  field_weight (lookup_field ps name) ≤ props_weight ps.
Proof.
  pose proof (lookups_weight ps [name]) as H. simpl in H.
  rewrite Nat.add_0_r in H. apply H. apply NoDup_singleton.
Qed.

(** One iteration enqueues less than it removes. *)
Lemma enqueue_potential (n : node) (kids : list item) :
  enqueue n = Returned kids → potential kids < weight n.
Proof.
  destruct n as [t r ps]. rewrite weight_unfold. unfold enqueue. cbn [type].
  destruct (String.eqb t "ObjectPattern").
  - destruct (AST.get (Node t r ps) "properties") as [|elems| | | | |] eqn:Hget;
      try discriminate.
    intros H%potential_pattern.
    pose proof (lookup_weight ps "properties") as Hl.
    unfold AST.get in Hget. simpl in Hget. rewrite Hget in Hl. simpl in Hl. lia.
  - intros H.
    assert (kids = flat_map (slot_items (Node t r ps)) (row t schema)) as ->
      by congruence.
    clear H. destruct (row_distinct t) as [Hnd Hlen].
    pose proof (potential_row (Node t r ps) (row t schema)) as Hrow.
    pose proof (lookups_weight ps _ Hnd) as Hl.
    unfold AST.get in Hrow. cbn [props] in Hrow. lia.
Qed.

Lemma loop_total {S : Type} (dispatch : string → option (node → S → Outcome S))
    (fuel : nat) (nodes : list item) (s : S) :
  (∀ t handler n s', dispatch t = Some handler → handler n s' ≠ Starved) →
  potential nodes ≤ fuel →
  loop dispatch fuel nodes s ≠ Starved.
Proof.
  intros Hhandlers. revert nodes s.
  induction fuel as [|fuel IH]; intros nodes s Hfuel.
  - destruct nodes; [discriminate|simpl in Hfuel; lia].
  - destruct nodes as [|[n|] nodes]; simpl; [discriminate| |].
    + simpl in Hfuel. unfold mbind, Outcome_bind.
      assert (match dispatch (type n) with
              | Some handler => handler n s
              | None => Returned s
              end ≠ Starved) as Hh.
      { destruct (dispatch (type n)) as [handler|] eqn:Hd; [|discriminate].
        eapply Hhandlers. exact Hd. }
      destruct (match dispatch (type n) with
                | Some handler => handler n s
                | None => Returned s
                end) as [s'| |]; simpl; [|discriminate|congruence].
      destruct (enqueue n) as [kids| |] eqn:Hkids; simpl; [|discriminate|].
      * apply IH. rewrite potential_app. apply enqueue_potential in Hkids. lia.
      * unfold enqueue in Hkids.
        destruct (String.eqb (type n) "ObjectPattern"); [|discriminate].
        destruct (AST.get n "properties") as [|elems| | | | |]; try discriminate.
        exfalso. clear -Hkids. induction elems as [|[p|] elems IHe]; simpl in Hkids;
          try discriminate.
        unfold mbind, Outcome_bind in Hkids.
        destruct (pattern_items elems); simpl in Hkids; try discriminate.
        apply IHe. reflexivity.
    + apply IH. simpl in Hfuel. lia.
Qed.

Lemma trackRequirement_total (source : string) (required : JS.Object Required.Requirement)
    (n : node) :
  Required.trackRequirement source required n ≠ Starved.
Proof.
  unfold Required.trackRequirement.
  destruct (AST.get n "callee"); try discriminate.
  destruct (AST.get n "arguments") as [|args| | | | |]; try discriminate.
  destruct (_ || _); [discriminate|].
  destruct args as [|[first|] [|? ?]]; try discriminate.
  destruct (JS.get required _); discriminate.
Qed.

(** [Required.analyze] never lacks fuel. *)
Lemma Required_analyze_total (parse : string → option node) (file : option Vinyl.File) :
  Required.analyze parse file ≠ Starved.
Proof.
  unfold Required.analyze. destruct file as [f|]; [|discriminate].
  destruct (Vinyl.contents f) as [source|]; [|discriminate].
  destruct (parse source) as [ast|]; [|discriminate].
  unfold mbind, Outcome_bind.
  assert (walk ast (Required.dispatch source) [] ≠ Starved) as Hwalk.
  { unfold walk. apply loop_total.
    - intros t handler n s'. unfold Required.dispatch.
      destruct (String.eqb t "CallExpression"); [|discriminate].
      intros [= <-]. apply trackRequirement_total.
    - simpl. lia. }
  destruct (walk ast (Required.dispatch source) []); simpl;
    [discriminate|discriminate|congruence].
Qed.

End WalkFacts.

(** ** Requirement tracking (src/required.js) *)

(** The descriptor a single call site yields, for comparison: a string
    literal gives a static descriptor whose path is the text between the
    quotes. *)
Lemma string_literal_is_tracked_as_static :
  Scenario.scan (Scenario.single_source "./b") =
  Returned (Some [ {| Required.references :=
                        [ {| Required.source := "require('./b')";
                             Required.position_start := 0;
                             Required.position_end := 14 |} ];
                      Required.path := "./b";
                      Required.static := true |} ]).
Proof. vm_compute. reflexivity. Qed.

(** C6 (the code departs from the claim).  The claim makes a descriptor
    static exactly when the argument is a string literal, and otherwise
    dynamic with the raw source of the argument as its path.  The test of
    the source is [first.type == "Literal"], which a number literal
    passes as well: for [require(42)] the argument is no string literal,
    yet the descriptor is static and its path is the empty string, the
    argument's text with both digits cut off.  And the descriptor of a
    path keeps the flag of its first site: in [require(x);require('x')]
    the call with the string literal is folded into the dynamic descriptor
    of [x]. *)
Theorem literal_test_misclassifies_arguments :
  AST.is_string_literal (Build.NumberLiteral (8, 10) 42 "42") = false ∧
  Scenario.scan Scenario.number_source =
  Returned (Some [ {| Required.references :=
                        [ {| Required.source := "require(42)";
                             Required.position_start := 0;
                             Required.position_end := 11 |} ];
                      Required.path := EmptyString;
                      Required.static := true |} ]) ∧
  AST.is_string_literal (Scenario.string_arg "x" (19, 22)) = true ∧
  Scenario.scan Scenario.clash_source =
  Returned (Some [ {| Required.references :=
                        [ {| Required.source := "require(x)";
                             Required.position_start := 0;
                             Required.position_end := 10 |};
                          {| Required.source := "require('x')";
                             Required.position_start := 11;
                             Required.position_end := 23 |} ];
                      Required.path := "x";
                      Required.static := false |} ]).
Proof. repeat split; vm_compute; reflexivity. Qed.

(** ** The scanner folds call sites by path *)

Section ObjectFacts.
Context {V : Type}.
Implicit Types (o : JS.Object V) (k : string) (v : V).

Lemma own_None o k : JS.own o k = None ↔ k ∉ JS.keys o.
Proof.
  induction o as [|[k' v'] o IH]; simpl.
  - split; [intros _ H; inversion H|reflexivity].
  - destruct (String.eqb_spec k' k) as [->|Hne].
    + split; [discriminate|]. intros H. exfalso. apply H. left.
    + rewrite IH. split.
      * intros H [->|Hin]%elem_of_cons; [congruence|contradiction].
      * intros H Hin. apply H. right. exact Hin.
Qed.

Lemma own_Some o k v : JS.own o k = Some v → (k, v) ∈ o.
Proof.
  induction o as [|[k' v'] o IH]; simpl; [discriminate|].
  destruct (String.eqb_spec k' k) as [->|Hne].
  - intros [= ->]. left.
  - intros H. right. apply IH, H.
Qed.

Lemma own_unique o k v :
  NoDup (JS.keys o) → (k, v) ∈ o → JS.own o k = Some v.
Proof.
  induction o as [|[k' v'] o IH]; simpl; [inversion 2|].
  intros [Hnotin Hnd]%NoDup_cons [[= -> ->]|Hin]%elem_of_cons.
  - rewrite String.eqb_refl. reflexivity.
  - destruct (String.eqb_spec k' k) as [->|Hne]; [|apply IH; assumption].
    exfalso. apply Hnotin. apply list_elem_of_fmap. exists (k, v). split; [reflexivity|exact Hin].
Qed.

Lemma keys_replace o k v : JS.keys (JS.replace o k v) = JS.keys o.
Proof.
  induction o as [|[k' v'] o IH]; simpl; [reflexivity|].
  destruct (String.eqb k' k); simpl; [reflexivity|]. f_equal. exact IH.
Qed.

Lemma elem_of_replace o k v k' v' :
  NoDup (JS.keys o) → k ∈ JS.keys o →
  (k', v') ∈ JS.replace o k v ↔
  (k' = k ∧ v' = v) ∨ (k' ≠ k ∧ (k', v') ∈ o).
Proof.
  induction o as [|[k0 v0] o IH]; simpl; [inversion 2|].
  intros [Hnotin Hnd]%NoDup_cons Hin.
  destruct (String.eqb_spec k0 k) as [->|Hne].
  - rewrite !elem_of_cons. split.
    + intros [[= -> ->]|H]; [left; auto|]. right. split; [|right; exact H].
      intros ->. apply Hnotin. apply list_elem_of_fmap. exists (k, v'). auto.
    + intros [[-> ->]|[Hk [[= -> ->]|H]]]; [left; reflexivity|contradiction|right; exact H].
  - apply elem_of_cons in Hin as [->|Hin]; [contradiction|].
    rewrite !elem_of_cons, (IH Hnd Hin). split.
    + intros [[= -> ->]|[H|H]]; [right; split; [congruence|left; reflexivity]|left; exact H|].
      right. destruct H as [H1 H2]. split; [exact H1|right; exact H2].
    + intros [H|[H1 [[= -> ->]|H2]]]; [right; left; exact H|left; reflexivity|].
      right. right. auto.
Qed.

Lemma insert_index_perm o n k v : JS.insert_index o n k v ≡ₚ (k, v) :: o.
Proof.
  induction o as [|[k' v'] o IH]; simpl; [reflexivity|].
  destruct (JS.array_index k') as [n'|]; [|reflexivity].
  destruct (n' <? n)%N; [|reflexivity].
  rewrite IH. apply Permutation_swap.
Qed.

End ObjectFacts.

Section OrderFacts.
Context {V : Type}.
Implicit Types (o : JS.Object V) (k : string) (v : V).

Lemma first_sightings_snoc (l : list string) (p : string) :
  Scan.first_sightings (l ++ [p]) = Scan.sight (Scan.first_sightings l) p.
Proof. unfold Scan.first_sightings. rewrite fold_left_app. reflexivity. Qed.

Lemma insert_index_enumerated o n k v (indices others : list string) :
  JS.array_index k = Some n →
  JS.keys o = indices ++ others →
  Forall Scan.is_index indices →
  StronglySorted Scan.index_le indices →
  Forall (λ k, JS.array_index k = None) others →
  ∃ indices',
    JS.keys (JS.insert_index o n k v) = indices' ++ others ∧
    indices' ≡ₚ k :: indices ∧
    StronglySorted Scan.index_le indices'.
Proof.
  intros Hk. revert o. induction indices as [|a idx IH];
    intros o Hkeys Hidx Hsorted Hothers.
  - exists [k]. split; [|split; [reflexivity|repeat constructor]].
    destruct o as [|[k' v'] o]; simpl in *; [rewrite <- Hkeys; reflexivity|].
    destruct others as [|k'' others]; [discriminate|].
    injection Hkeys as -> Hkeys. apply Forall_cons in Hothers as [Hnone _].
    rewrite Hnone. simpl. rewrite Hkeys. reflexivity.
  - destruct o as [|[k' v'] o]; [discriminate|]. simpl in Hkeys.
    injection Hkeys as -> Hkeys.
    apply Forall_cons in Hidx as [[n' Hn'] Hidx].
    apply StronglySorted_inv in Hsorted as [Hsorted Ha].
    simpl. rewrite Hn'. destruct (N.ltb_spec n' n) as [Hlt|Hge].
    + destruct (IH o Hkeys Hidx Hsorted Hothers) as (idx' & Hkeys' & Hperm & Hsorted').
      exists (a :: idx'). split; [simpl; rewrite Hkeys'; reflexivity|].
      split; [rewrite Hperm; apply Permutation_swap|].
      constructor; [exact Hsorted'|]. rewrite Hperm. constructor; [|exact Ha].
      unfold Scan.index_le. rewrite Hn', Hk. simpl. lia.
    + exists (k :: a :: idx). split; [simpl; rewrite Hkeys; reflexivity|].
      split; [reflexivity|]. constructor; [constructor; assumption|].
      assert (Scan.index_le k a) as Hka.
      { unfold Scan.index_le. rewrite Hn', Hk. simpl. lia. }
      constructor; [exact Hka|].
      eapply Forall_impl; [exact Ha|]. intros b Hab. unfold Scan.index_le in *. lia.
Qed.

End OrderFacts.

Section FoldFacts.

Import Scan.

Lemma sites_filter_snoc (sites : list Site) (s : Site) (k : string) :
  map site_reference (filter (λ s, site_path s = k) (sites ++ [s])) =
  map site_reference (filter (λ s, site_path s = k) sites) ++
  (if decide (site_path s = k) then [site_reference s] else []).
Proof.
  rewrite filter_app, map_app. f_equal.
  rewrite filter_cons, filter_nil. destruct (decide (site_path s = k)); reflexivity.
Qed.

Lemma paths_snoc (sites : list Site) (s : Site) :
  filter (λ p, JS.array_index p = None) (map site_path (sites ++ [s])) =
  filter (λ p, JS.array_index p = None) (map site_path sites) ++
  (if decide (JS.array_index (site_path s) = None) then [site_path s] else []).
Proof.
  rewrite map_app, filter_app. f_equal.
Qed.

Lemma elem_of_paths_snoc (sites : list Site) (s : Site) (p : string) :
  p ∈ map site_path (sites ++ [s]) ↔ p ∈ map site_path sites ∨ p = site_path s.
Proof.
  rewrite map_app, elem_of_app. simpl. rewrite list_elem_of_singleton. reflexivity.
Qed.

Lemma no_site_no_reference (sites : list Site) (k : string) :
  k ∉ map site_path sites → filter (λ s, site_path s = k) sites = [].
Proof.
  induction sites as [|s sites IH]; [reflexivity|]. simpl. intros Hk.
  rewrite filter_cons. destruct (decide (site_path s = k)) as [<-|_].
  - exfalso. apply Hk. left.
  - apply IH. intros Hin. apply Hk. right. exact Hin.
Qed.

(** A further site of a path that has an entry adds its reference. *)
Lemma folded_again (sites : list Site) (o : JS.Object Required.Requirement)
    (s : Site) (r : Required.Requirement) :
  folded sites o →
  JS.own o (site_path s) = Some r →
  folded (sites ++ [s])
    (JS.replace o (site_path s) (Required.push_reference r (site_reference s))).
Proof.
  intros (Hnd & Hentries & Hkeys & Henum) Hown.
  pose proof (own_Some _ _ _ Hown) as Hin.
  assert (site_path s ∈ JS.keys o) as Hkey.
  { apply list_elem_of_fmap. exists (site_path s, r). split; [reflexivity|exact Hin]. }
  split; [rewrite keys_replace; exact Hnd|]. split; [|split].
  - intros k d Hd. apply (elem_of_replace _ _ _ _ _ Hnd Hkey) in Hd.
    rewrite sites_filter_snoc. destruct Hd as [[-> ->]|[Hne Hd]].
    + destruct (Hentries _ _ Hin) as [Hpath Hrefs]. simpl.
      rewrite decide_True by reflexivity. rewrite Hrefs. split; [exact Hpath|reflexivity].
    + destruct (Hentries _ _ Hd) as [Hpath Hrefs].
      rewrite decide_False by congruence. rewrite app_nil_r. split; assumption.
  - intros p. rewrite keys_replace, elem_of_paths_snoc, Hkeys. split; [auto|].
    intros [H| ->]; [exact H|]. apply Hkeys, Hkey.
  - rewrite keys_replace, paths_snoc.
    destruct (decide (JS.array_index (site_path s) = None)) as [Hnone|_];
      [|rewrite app_nil_r; exact Henum].
    rewrite first_sightings_snoc. unfold sight.
    rewrite bool_decide_eq_true_2; [exact Henum|].
    destruct Henum as (indices & Hsplit & Hidx & _ & _).
    rewrite Hsplit in Hkey. apply elem_of_app in Hkey as [Hkey|Hkey]; [|exact Hkey].
    rewrite Forall_forall in Hidx. destruct (Hidx _ Hkey) as [n Hn]. congruence.
Qed.

(** The first site of a path adds an entry, where [for-in] will find it. *)
Lemma folded_first (sites : list Site) (o : JS.Object Required.Requirement)
    (s : Site) :
  folded sites o →
  JS.own o (site_path s) = None →
  folded (sites ++ [s])
    (JS.set o (site_path s)
       {| Required.references := [site_reference s];
          Required.path := site_path s;
          Required.static := site_static s |}).
Proof.
  intros (Hnd & Hentries & Hkeys & Henum) Hown.
  set (v := {| Required.references := [site_reference s];
               Required.path := site_path s;
               Required.static := site_static s |}).
  pose proof (proj1 (own_None _ _) Hown) as Hfresh.
  assert (JS.set o (site_path s) v ≡ₚ (site_path s, v) :: o) as Hperm.
  { unfold JS.set. rewrite Hown. destruct (JS.array_index (site_path s)).
    - apply insert_index_perm.
    - rewrite Permutation_app_comm. reflexivity. }
  assert (JS.keys (JS.set o (site_path s) v) ≡ₚ site_path s :: JS.keys o) as Hkperm.
  { unfold JS.keys. rewrite Hperm. reflexivity. }
  split; [rewrite Hkperm; constructor; assumption|]. split; [|split].
  - intros k d Hd. rewrite Hperm in Hd. rewrite sites_filter_snoc.
    apply elem_of_cons in Hd as [[= -> ->]|Hd].
    + rewrite decide_True by reflexivity.
      rewrite no_site_no_reference by (rewrite <- Hkeys; exact Hfresh).
      split; reflexivity.
    + destruct (Hentries _ _ Hd) as [Hpath Hrefs].
      rewrite decide_False; [rewrite app_nil_r; split; assumption|].
      intros <-. apply Hfresh. apply list_elem_of_fmap. exists (site_path s, d). auto.
  - intros p. rewrite Hkperm, elem_of_paths_snoc, elem_of_cons, Hkeys. tauto.
  - rewrite paths_snoc. destruct Henum as (indices & Hsplit & Hidx & Hsorted & Hothers).
    unfold JS.set. rewrite Hown.
    destruct (JS.array_index (site_path s)) as [n|] eqn:Hindex.
    + rewrite decide_False by discriminate. rewrite app_nil_r.
      destruct (insert_index_enumerated o n (site_path s) v indices _
                  Hindex Hsplit Hidx Hsorted Hothers) as (idx' & Hk' & Hp' & Hs').
      exists idx'. split; [exact Hk'|]. split; [|split; assumption].
      rewrite Hp'. constructor; [|exact Hidx]. exists n. exact Hindex.
    + rewrite decide_True by reflexivity. rewrite first_sightings_snoc. unfold sight.
      rewrite bool_decide_eq_false_2.
      * exists indices. unfold JS.keys in *. rewrite map_app, Hsplit, app_assoc.
        split; [reflexivity|]. split; [exact Hidx|]. split; [exact Hsorted|].
        apply Forall_app. split; [exact Hothers|]. apply Forall_singleton. exact Hindex.
      * intros Hin. apply Hfresh. rewrite Hsplit. apply elem_of_app. right. exact Hin.
Qed.

Lemma folded_nil : folded [] [].
Proof.
  split; [constructor|]. split; [intros k d H; inversion H|]. split; [reflexivity|].
  exists []. repeat split; constructor.
Qed.

End FoldFacts.

Section ScanFacts.

Import Scan.

Lemma trackRequirement_site (source : string) (required required' : JS.Object Required.Requirement)
    (n : node) :
  Required.trackRequirement source required n = Returned required' →
  match site source n with
  | None => required' = required
  | Some s =>
      match JS.own required (site_path s) with
      | Some r =>
          required' =
          JS.replace required (site_path s)
            (Required.push_reference r (site_reference s))
      | None =>
          required' =
          JS.set required (site_path s)
            {| Required.references := [site_reference s];
               Required.path := site_path s;
               Required.static := site_static s |}
      end
  end.
Proof.
  unfold Required.trackRequirement, site.
  destruct (AST.get n "callee") as [callee| | | | | |]; try discriminate.
  destruct (AST.get n "arguments") as [|args| | | | |]; try discriminate.
  destruct (String.eqb (type callee) "Identifier"); simpl;
    [|intros [= <-]; destruct args as [|[?|] [|? ?]]; reflexivity].
  destruct (match AST.get callee "name" with
            | FString name => String.eqb name "require"
            | _ => false
            end); simpl;
    [|intros [= <-]; destruct args as [|[?|] [|? ?]]; reflexivity].
  destruct args as [|[first|] [|? ?]]; simpl; try discriminate;
    try (intros [= <-]; reflexivity).
  unfold JS.get, JS.set.
  destruct (JS.own required _) as [r|] eqn:Hown.
  - intros [= <-]. reflexivity.
  - destruct (bool_decide _); [discriminate|]. intros [= <-]. reflexivity.
Qed.

Lemma track_all_folded (source : string) (calls : list node) (seen : list Site)
    (o o' : JS.Object Required.Requirement) :
  folded seen o →
  track_all source calls o = Returned o' →
  folded (seen ++ omap (site source) calls) o'.
Proof.
  revert seen o. induction calls as [|n calls IH]; intros seen o Hfolded Hrun.
  - injection Hrun as <-. simpl. rewrite app_nil_r. exact Hfolded.
  - cbn [track_all] in Hrun. unfold mbind, Outcome_bind in Hrun.
    destruct (Required.trackRequirement source o n) as [o1| |] eqn:Htrack;
      simpl in Hrun; try discriminate.
    apply trackRequirement_site in Htrack.
    assert (omap (site source) (n :: calls) =
            match site source n with
            | Some s => s :: omap (site source) calls
            | None => omap (site source) calls
            end) as -> by reflexivity.
    destruct (site source n) as [s|].
    + replace (seen ++ s :: omap (site source) calls)
        with ((seen ++ [s]) ++ omap (site source) calls)
        by (rewrite <- app_assoc; reflexivity).
      apply (IH _ o1); [|exact Hrun].
      destruct (JS.own o (site_path s)) as [r|] eqn:Hown; subst o1.
      * apply folded_again; assumption.
      * apply folded_first; assumption.
    + subst o1. apply (IH _ o); assumption.
Qed.

Lemma loop_tracks (source : string) (fuel : nat) (nodes : list item)
    (s s' : JS.Object Required.Requirement) (calls : list node) :
  ASTWalker.loop (Required.dispatch source) fuel nodes s = Returned s' →
  ∃ more,
    ASTWalker.loop collect fuel nodes calls = Returned (calls ++ more) ∧
    track_all source more s = Returned s'.
Proof.
  revert nodes s calls. induction fuel as [|fuel IH]; intros nodes s calls.
  - destruct nodes; [|discriminate]. intros [= <-]. exists [].
    rewrite app_nil_r. split; reflexivity.
  - destruct nodes as [|[n|] nodes]; cbn [ASTWalker.loop].
    + intros [= <-]. exists []. rewrite app_nil_r. split; reflexivity.
    + destruct (String.eqb (type n) "CallExpression") eqn:Hcall.
      * assert (Required.dispatch source (type n) =
                Some (λ n required, Required.trackRequirement source required n)) as ->
          by (unfold Required.dispatch; rewrite Hcall; reflexivity).
        assert (collect (type n) = Some (λ n calls, Returned (calls ++ [n]))) as ->
          by (unfold collect; rewrite Hcall; reflexivity).
        unfold mbind, Outcome_bind.
        destruct (Required.trackRequirement source s n) as [s1| |] eqn:Htrack;
          simpl; try discriminate.
        destruct (ASTWalker.enqueue n) as [kids| |]; simpl; try discriminate.
        intros Hloop. destruct (IH _ _ (calls ++ [n]) Hloop) as (more & Hcollect & Htracks).
        exists (n :: more). split.
        -- rewrite Hcollect, <- app_assoc. reflexivity.
        -- simpl. unfold mbind, Outcome_bind. rewrite Htrack. exact Htracks.
      * assert (Required.dispatch source (type n) = None) as ->
          by (unfold Required.dispatch; rewrite Hcall; reflexivity).
        assert (collect (type n) = None) as ->
          by (unfold collect; rewrite Hcall; reflexivity).
        unfold mbind, Outcome_bind. simpl.
        destruct (ASTWalker.enqueue n) as [kids| |]; simpl; try discriminate.
        apply IH.
    + apply IH.
Qed.

Lemma walk_tracks (source : string) (ast : node) (s' : JS.Object Required.Requirement) :
  ASTWalker.walk ast (Required.dispatch source) [] = Returned s' →
  track_all source (visited ast) [] = Returned s'.
Proof.
  unfold ASTWalker.walk, visited. intros Hwalk.
  destruct (loop_tracks _ _ _ _ _ [] Hwalk) as (more & Hcollect & Htracks).
  unfold ASTWalker.walk. rewrite Hcollect. exact Htracks.
Qed.

Lemma folded_paths (sites : list Site) (o : JS.Object Required.Requirement) :
  folded sites o → map Required.path (JS.values o) = JS.keys o.
Proof.
  intros (_ & Hentries & _). unfold JS.values, JS.keys.
  induction o as [|[k d] o IH]; [reflexivity|]. simpl. f_equal.
  - apply (Hentries k d). left.
  - apply IH. intros k' d' Hin. apply Hentries. right. exact Hin.
Qed.

End ScanFacts.

(** C7 (as amended: the order is the one of [for-in]).  When the scanner
    returns, its descriptors are unique by stored path; the paths are
    exactly those of the require call sites the walk has seen; the
    references of a descriptor are those of the sites with its path, one
    per site, in the order seen.  The descriptors whose path is an array
    index come first, in ascending numeric order, and the others follow in
    order of first sighting; so when no stored path is an array index the
    output is in order of first sighting. *)
Theorem scanner_folds_sites_by_path (parse : string → option node) (f : Vinyl.File)
    (source : string) (ast : node) (out : list Required.Requirement) :
  Vinyl.contents f = Some source →
  parse source = Some ast →
  Required.analyze parse (Some f) = Returned (Some out) →
  let sites := Scan.sites source ast in
  let others := filter (λ p, JS.array_index p = None) (map Scan.site_path sites) in
  NoDup (map Required.path out) ∧
  (∀ p, p ∈ map Required.path out ↔ p ∈ map Scan.site_path sites) ∧
  (∀ d, d ∈ out →
     Required.references d =
     map Scan.site_reference (filter (λ s, Scan.site_path s = Required.path d) sites)) ∧
  Scan.enumerated (map Required.path out) (Scan.first_sightings others) ∧
  (others = map Scan.site_path sites →
   map Required.path out = Scan.first_sightings (map Scan.site_path sites)).
Proof.
  intros Hcontents Hparse Hscan sites others.
  unfold Required.analyze in Hscan. rewrite Hcontents, Hparse in Hscan.
  unfold mbind, Outcome_bind in Hscan.
  destruct (ASTWalker.walk ast (Required.dispatch source) []) as [required| |] eqn:Hwalk;
    simpl in Hscan; try discriminate.
  injection Hscan as <-.
  apply walk_tracks in Hwalk.
  pose proof (track_all_folded _ _ _ _ _ folded_nil Hwalk) as Hfolded.
  simpl in Hfolded. fold (Scan.sites source ast) in Hfolded. fold sites in Hfolded.
  rewrite (folded_paths _ _ Hfolded).
  destruct Hfolded as (Hnd & Hentries & Hkeys & Henum).
  split; [exact Hnd|]. split; [exact Hkeys|]. split; [|split; [exact Henum|]].
  - intros d Hd. unfold JS.values in Hd. apply list_elem_of_fmap in Hd as [[k d'] [-> Hin]].
    destruct (Hentries _ _ Hin) as [Hpath Hrefs]. simpl. rewrite Hpath. exact Hrefs.
  - intros Hall. fold others in Henum. rewrite <- Hall.
    destruct Henum as (indices & Hsplit & Hidx & _ & _).
    destruct indices as [|a indices]; [exact Hsplit|]. exfalso.
    apply Forall_cons in Hidx as [[n Hn] _].
    assert (a ∈ others) as Ha.
    { rewrite Hall. apply Hkeys. rewrite Hsplit. left. }
    apply list_elem_of_filter in Ha as [Hnone _]. congruence.
Qed.

(** C7 on [require(x);require('x')]: two sites, one descriptor with two
    references. *)
Lemma scanner_folds_sites_by_path_witness :
  ∃ out,
    Scenario.scan Scenario.clash_source = Returned (Some out) ∧
    map Required.path out = ["x"] ∧
    map (λ d, length (Required.references d)) out = [2] ∧
    NoDup (map Required.path out) ∧
    map Required.path out =
    Scan.first_sightings
      (map Scan.site_path (Scan.sites Scenario.clash_source Scenario.clash_tree)).
Proof.
  eexists. split; [vm_compute; reflexivity|].
  split; [reflexivity|]. split; [reflexivity|].
  match goal with
  | |- NoDup (map Required.path ?out) ∧ _ =>
      destruct (scanner_folds_sites_by_path (Build.table Scenario.parser)
                  {| Vinyl.path := "/a/main.js";
                     Vinyl.contents := Some Scenario.clash_source |}
                  Scenario.clash_source Scenario.clash_tree out
                  eq_refl eq_refl)
        as (Hnd & _ & _ & _ & Horder); [vm_compute; reflexivity|]
  end.
  split; [exact Hnd|]. apply Horder. vm_compute. reflexivity.
Defined.

(** In [require('./a');require('7');] the path [./a] is seen first, and
    the descriptor of [7] is first in the output: [7] is an array index,
    and [for-in] enumerates those before the other keys. *)
Lemma index_path_is_enumerated_first :
  ∃ out,
    Scenario.scan Scenario.order_source = Returned (Some out) ∧
    map Required.path out = ["7"; "./a"] ∧
    Scan.first_sightings
      (map Scan.site_path (Scan.sites Scenario.order_source Scenario.order_tree)) =
      ["./a"; "7"] ∧
    map Required.path out ≠
    Scan.first_sightings
      (map Scan.site_path (Scan.sites Scenario.order_source Scenario.order_tree)).
Proof.
  eexists. split; [vm_compute; reflexivity|].
  split; [reflexivity|]. split; [vm_compute; reflexivity|].
  vm_compute. discriminate.
Qed.

(** ** The resolver (src/resolver.js) *)

Section ResolverFacts.
Variable env : Node.Env.
Variable options : Resolver.Options.

Lemma RELATIVE_PATH_nonempty (specifier : string) :
  Resolver.RELATIVE_PATH specifier = true → specifier ≠ EmptyString.
Proof. intros H ->. discriminate H. Qed.

Lemma resolve_relative (specifier : string) (base : option string) (σ : Store) :
  Resolver.RELATIVE_PATH specifier = true →
  Resolver.resolve env options specifier base σ =
  Resolver.resolveRelative env options (Walk.joined env specifier base) σ.
Proof.
  intros Hrel. unfold Resolver.resolve, Walk.joined.
  destruct (String.eqb_spec specifier EmptyString) as [->|_]; [discriminate Hrel|].
  rewrite Hrel. destruct (Resolver.last_char specifier) as [c|]; [|reflexivity].
  destruct (Ascii.eqb c "/"); reflexivity.
Qed.

(** [loadFile] misses exactly when no extension names a cached or a
    readable file, and then leaves the objects as they were. *)
Lemma loadFile_from_miss (exts : list string) (fileName : string) (σ σ1 : Store) :
  Resolver.loadFile_from env exts fileName σ = (None, σ1) ↔
  σ1 = σ ∧
  ∀ ext, ext ∈ exts →
    resolver_cache σ !! (fileName +:+ ext) = None ∧
    Node.fs env !! (fileName +:+ ext) = None.
Proof.
  induction exts as [|ext exts IH]; simpl.
  - split.
    + intros [= <-]. split; [reflexivity|]. intros ext Hin. inversion Hin.
    + intros [-> _]. reflexivity.
  - destruct (resolver_cache σ !! (fileName +:+ ext)) as [f|] eqn:Hc.
    + split; [discriminate|]. intros [_ H].
      destruct (H ext) as [H1 _]; [left|]. congruence.
    + destruct (Node.fs env !! (fileName +:+ ext)) as [contents|] eqn:Hfs.
      * split; [discriminate|]. intros [_ H].
        destruct (H ext) as [_ H2]; [left|]. congruence.
      * rewrite IH. split; intros [-> H]; (split; [reflexivity|]).
        -- intros e [->|Hin]%elem_of_cons; [split; assumption|]. apply H, Hin.
        -- intros e Hin. apply H. right. exact Hin.
Qed.

(** [loadFile] hits with the first extension that names a cached or a
    readable file. *)
Lemma loadFile_from_hit (tried : list string) (ext : string) (rest : list string)
    (fileName : string) (σ : Store) :
  (∀ e, e ∈ tried →
     resolver_cache σ !! (fileName +:+ e) = None ∧
     Node.fs env !! (fileName +:+ e) = None) →
  Resolver.loadFile_from env (tried ++ ext :: rest) fileName σ =
  match resolver_cache σ !! (fileName +:+ ext) with
  | Some f => (Some f, σ)
  | None =>
      match Node.fs env !! (fileName +:+ ext) with
      | Some contents =>
          (Some (length (objects σ)),
           snd (cache_new_file (fileName +:+ ext) contents σ))
      | None => Resolver.loadFile_from env rest fileName σ
      end
  end.
Proof.
  induction tried as [|e tried IH]; intros Hmiss; simpl.
  - destruct (resolver_cache σ !! (fileName +:+ ext)); [reflexivity|].
    destruct (Node.fs env !! (fileName +:+ ext)); reflexivity.
  - destruct (Hmiss e) as [-> ->]; [left|].
    apply IH. intros e' Hin. apply Hmiss. right. exact Hin.
Qed.

End ResolverFacts.

(** C2.  A relative specifier is joined against the base; file resolution
    is attempted at the joined path first and its file, if any, is the
    answer; only when it misses is directory resolution attempted, at the
    same path, and its answer is the answer; when that misses too the
    answer is the absent outcome, without an error.  In terms of the
    disk: the answer is the file of the first extension whose candidate
    is cached or readable, and directory resolution is what remains when
    no extension has one. *)
Theorem resolve_relative_file_first (env : Node.Env) (options : Resolver.Options)
    (specifier : string) (base : option string) (σ : Store) :
  Resolver.RELATIVE_PATH specifier = true →
  let joined := Walk.joined env specifier base in
  (∀ file σ1,
     Resolver.loadFile env options joined 0 σ = (Some file, σ1) →
     Resolver.resolve env options specifier base σ = Returned ((None, Some file), σ1)) ∧
  (∀ σ1,
     Resolver.loadFile env options joined 0 σ = (None, σ1) →
     σ1 = σ ∧
     Resolver.resolve env options specifier base σ =
     Resolver.loadDirectory env options joined 0 σ) ∧
  (∀ σ1 σ2,
     Resolver.loadFile env options joined 0 σ = (None, σ1) →
     Resolver.loadDirectory env options joined 0 σ1 = Returned ((None, None), σ2) →
     Resolver.resolve env options specifier base σ = Returned ((None, None), σ2)) ∧
  (∀ tried ext rest,
     Resolver.extensions options = tried ++ ext :: rest →
     (∀ e, e ∈ tried →
        resolver_cache σ !! (joined +:+ e) = None ∧
        Node.fs env !! (joined +:+ e) = None) →
     (∀ file,
        resolver_cache σ !! (joined +:+ ext) = Some file →
        Resolver.resolve env options specifier base σ =
        Returned ((None, Some file), σ)) ∧
     (∀ contents,
        resolver_cache σ !! (joined +:+ ext) = None →
        Node.fs env !! (joined +:+ ext) = Some contents →
        Resolver.resolve env options specifier base σ =
        Returned ((None, Some (length (objects σ))),
                  snd (cache_new_file (joined +:+ ext) contents σ)))) ∧
  ((∀ e, e ∈ Resolver.extensions options →
      resolver_cache σ !! (joined +:+ e) = None ∧
      Node.fs env !! (joined +:+ e) = None) →
   Resolver.resolve env options specifier base σ =
   Resolver.loadDirectory env options joined 0 σ).
Proof.
  intros Hrel joined. rewrite (resolve_relative env options _ _ _ Hrel).
  fold joined. unfold Resolver.resolveRelative.
  split; [|split; [|split; [|split]]].
  - intros file σ1 ->. reflexivity.
  - intros σ1 H. rewrite H.
    apply loadFile_from_miss in H as [-> _]. split; reflexivity.
  - intros σ1 σ2 -> ->. reflexivity.
  - intros tried ext rest Hexts Hmiss.
    unfold Resolver.loadFile. rewrite drop_0, Hexts.
    rewrite (loadFile_from_hit env _ _ _ _ _ Hmiss). split.
    + intros file ->. reflexivity.
    + intros contents -> ->. reflexivity.
  - intros Hmiss.
    assert (Resolver.loadFile env options joined 0 σ = (None, σ)) as ->; [|reflexivity].
    unfold Resolver.loadFile. rewrite drop_0. apply loadFile_from_miss. auto.
Qed.

(** C2 at scenario 1: [./x] from [/a] is the file [/a/x.js]. *)
Lemma resolve_relative_file_first_witness :
  Resolver.RELATIVE_PATH "./x" = true ∧
  ∃ file σ1,
    Resolver.resolve Scenario.cycle Resolver.defaults "./x" (Some "/a") Heap.empty =
    Returned ((None, Some file), σ1).
Proof.
  split; [reflexivity|].
  eexists _, _.
  apply (proj1 (resolve_relative_file_first Scenario.cycle Resolver.defaults
                  "./x" (Some "/a") Heap.empty eq_refl)).
  vm_compute. reflexivity.
Defined.

Section DirectoryFacts.
Variable env : Node.Env.
Variable options : Resolver.Options.

(** A package file that cannot be read advances to the next one. *)
Lemma loadDirectory_from_skips (skipped rest : list string) (directory : string)
    (σ : Store) :
  (∀ p, p ∈ skipped → Node.fs env !! Node.path_resolve env [directory; p] = None) →
  Resolver.loadDirectory_from env options (skipped ++ rest) directory σ =
  Resolver.loadDirectory_from env options rest directory σ.
Proof.
  induction skipped as [|p skipped IH]; intros Hmiss; [reflexivity|].
  simpl. rewrite (Hmiss p); [|left]. apply IH.
  intros q Hq. apply Hmiss. right. exact Hq.
Qed.

(** [this.loadDirectory(directory, this.options.packages.length, cb)] is
    the load of the directory index. *)
Lemma loadDirectory_past_packages (directory : string) (σ : Store) :
  Resolver.loadDirectory env options directory
    (length (Resolver.packages options)) σ =
  Returned (Resolver.loadIndex env options directory σ).
Proof. unfold Resolver.loadDirectory. rewrite drop_all. reflexivity. Qed.

End DirectoryFacts.

(** C3 (as amended: the error text is the one of the source).
    [loadDirectory] tries the configured package files in order, a read
    failure advancing to the next; when all fail it loads
    [<directory>/<index>].  For the first package file that can be read:
    a JSON parse failure ends the resolution with the error
    [Package file is incorrectly formatted: <path>]; otherwise the entry
    point is loaded as a file, then [<entry>/<index>], and when both miss
    the remaining package files are skipped and [<directory>/<index>] is
    loaded. *)
Theorem loadDirectory_manifest_policy (env : Node.Env) (options : Resolver.Options)
    (directory : string) (σ : Store) :
  ((∀ p, p ∈ Resolver.packages options →
      Node.fs env !! Node.path_resolve env [directory; p] = None) →
   Resolver.loadDirectory env options directory 0 σ =
   Returned (Resolver.loadIndex env options directory σ)) ∧
  (∀ skipped manifest rest data,
     Resolver.packages options = skipped ++ manifest :: rest →
     (∀ p, p ∈ skipped →
        Node.fs env !! Node.path_resolve env [directory; p] = None) →
     let packagePath := Node.path_resolve env [directory; manifest] in
     Node.fs env !! packagePath = Some data →
     (Node.JSON_parse env data = None →
      Resolver.loadDirectory env options directory 0 σ =
      Returned
        ((Some ("Package file is incorrectly formatted: " +:+ packagePath), None), σ)) ∧
     (∀ packageData entry,
        Node.JSON_parse env data = Some packageData →
        Resolver.getEntryPoint env options packageData
          ≫= Resolver.resolve_entry env directory = Returned entry →
        Resolver.loadDirectory env options directory 0 σ =
        match Resolver.loadFile env options entry 0 σ with
        | (Some file, σ1) => Returned ((None, Some file), σ1)
        | (None, σ1) =>
            match Resolver.loadFile env options
                    (Node.path_resolve env [entry; Resolver.index options]) 0 σ1 with
            | (Some file, σ2) => Returned ((None, Some file), σ2)
            | (None, σ2) =>
                Resolver.loadDirectory env options directory
                  (length (Resolver.packages options)) σ2
            end
        end)).
Proof.
  split.
  - intros Hmiss. unfold Resolver.loadDirectory. rewrite drop_0.
    rewrite <- (app_nil_r (Resolver.packages options)).
    apply (loadDirectory_from_skips env options _ [] directory σ Hmiss).
  - intros skipped manifest rest data Hpk Hskip packagePath Hread.
    assert (Resolver.loadDirectory env options directory 0 σ =
            Resolver.loadDirectory_from env options (manifest :: rest) directory σ)
      as ->.
    { unfold Resolver.loadDirectory. rewrite drop_0, Hpk.
      apply loadDirectory_from_skips, Hskip. }
    simpl. fold packagePath. rewrite Hread. split.
    + intros ->. reflexivity.
    + intros packageData entry -> Hentry.
      unfold mbind, Outcome_bind in *.
      destruct (Resolver.getEntryPoint env options packageData) as [e| |]; simpl in *;
        try discriminate Hentry.
      rewrite Hentry. simpl.
      destruct (Resolver.loadFile env options entry 0 σ) as [[file|] σ1]; [reflexivity|].
      destruct (Resolver.loadFile env options _ 0 σ1) as [[file|] σ2]; [reflexivity|].
      symmetry. apply loadDirectory_past_packages.
Qed.

(** C3 at scenario 3: the manifest of [/a/lib] names [entry.js]. *)
Lemma loadDirectory_manifest_policy_witness :
  ∃ file σ1,
    Resolver.loadDirectory Scenario.packaged Resolver.defaults "/a/lib" 0 Heap.empty =
    Returned ((None, Some file), σ1) ∧
    path_of σ1 file = "/a/lib/entry.js".
Proof.
  assert (∀ p : string, p ∈ @nil string →
            Node.fs Scenario.packaged
              !! Node.path_resolve Scenario.packaged ["/a/lib"; p] = None) as Hskip.
  { intros p Hp. inversion Hp. }
  destruct (proj2 (loadDirectory_manifest_policy Scenario.packaged Resolver.defaults
                     "/a/lib" Heap.empty)
              [] "package.json" [] Scenario.manifest_text eq_refl Hskip eq_refl)
    as [_ Hentry].
  specialize (Hentry (Json.JObject [("main", Json.JString "entry.js")])
                "/a/lib/entry.js" eq_refl eq_refl).
  eexists _, _. split.
  - rewrite Hentry. vm_compute. reflexivity.
  - vm_compute. reflexivity.
Defined.

(** The claim's error text is not the text of the source: for a
    directory whose [package.json] is no JSON, the error handed to the
    callback is [Package file is incorrectly formatted: <path>]. *)
Lemma malformed_manifest_error_text :
  Resolver.loadDirectory Scenario.malformed Resolver.defaults "/a/lib" 0 Heap.empty =
  Returned
    ((Some "Package file is incorrectly formatted: /a/lib/package.json", None),
     Heap.empty) ∧
  Resolver.loadDirectory Scenario.malformed Resolver.defaults "/a/lib" 0 Heap.empty ≠
  Returned
    ((Some "malformed package manifest: /a/lib/package.json", None), Heap.empty).
Proof. split; [vm_compute; reflexivity|]. vm_compute. discriminate. Qed.

(** ** Strings: [substring] and [lastIndexOf] *)

Section StringFacts.

Lemma length_substring_0 (n : nat) (s : string) :
  String.length (String.substring 0 n s) = Nat.min n (String.length s).
Proof.
  revert s. induction n as [|n IH]; intros s.
  - destruct s; reflexivity.
  - destruct s as [|c s]; [reflexivity|]. simpl. rewrite IH. reflexivity.
Qed.

Lemma length_append (p q : string) :
  String.length (p +:+ q) = String.length p + String.length q.
Proof. induction p as [|c p IH]; simpl; [reflexivity|]. rewrite IH. reflexivity. Qed.

Lemma substring_0_append (p q : string) :
  String.substring 0 (String.length p) (p +:+ q) = p.
Proof.
  induction p as [|c p IH]; simpl.
  - destruct q; reflexivity.
  - rewrite IH. reflexivity.
Qed.

Lemma lastIndexOf_from_bound (c : ascii) (s : string) (i : nat) (found : Z) :
  (-1 <= found < Z.of_nat i)%Z →
  (-1 <= JS.lastIndexOf_from c s i found < Z.of_nat (i + String.length s))%Z.
Proof.
  revert i found. induction s as [|c' s IH]; intros i found Hfound; simpl.
  - lia.
  - replace (i + S (String.length s)) with (S i + String.length s) by lia.
    apply IH. destruct (Ascii.eqb c' c); lia.
Qed.

Lemma lastIndexOf_from_absent (c : ascii) (s : string) (i : nat) (found : Z) :
  Walk.occurs c s = false → JS.lastIndexOf_from c s i found = found.
Proof.
  revert i found. induction s as [|c' s IH]; intros i found; simpl; [reflexivity|].
  intros [Hc Hs]%orb_false_iff. rewrite Hc. apply IH, Hs.
Qed.

Lemma lastIndexOf_from_last (c : ascii) (p r : string) (i : nat) (found : Z) :
  Walk.occurs c r = false →
  JS.lastIndexOf_from c (p +:+ String c r) i found = Z.of_nat (i + String.length p).
Proof.
  intros Hr. revert i found. induction p as [|c' p IH]; intros i found; simpl.
  - rewrite Ascii.eqb_refl, lastIndexOf_from_absent by exact Hr. f_equal. lia.
  - rewrite IH. f_equal. lia.
Qed.

(** A string in which [c] occurs splits at the last occurrence. *)
Lemma occurs_split_last (c : ascii) (s : string) :
  Walk.occurs c s = true →
  ∃ p r, s = p +:+ String c r ∧ Walk.occurs c r = false.
Proof.
  induction s as [|c' s IH]; simpl; [discriminate|].
  destruct (Walk.occurs c s) eqn:Hs.
  - intros _. destruct (IH eq_refl) as (p & r & -> & Hr).
    exists (String c' p), r. split; [reflexivity|exact Hr].
  - rewrite orb_false_r. intros ->%Ascii.eqb_eq.
    exists EmptyString, s. split; [reflexivity|exact Hs].
Qed.

Lemma substring_from_0 (s : string) (b : Z) :
  JS.substring s 0 b = String.substring 0 (JS.clamp (String.length s) b) s.
Proof.
  unfold JS.substring. replace (JS.clamp (String.length s) 0) with 0
    by (unfold JS.clamp; simpl; reflexivity).
  rewrite Nat.min_0_l, Nat.max_0_l, Nat.sub_0_r. reflexivity.
Qed.

Variable env : Node.Env.

(** Truncation at the final separator removes at least one code unit. *)
Lemma parent_shorter (base : string) :
  String.length base ≠ 0 →
  String.length (Resolver.parent env base) < String.length base.
Proof.
  intros Hlen. unfold Resolver.parent. rewrite substring_from_0, length_substring_0.
  unfold JS.clamp, JS.lastIndexOf.
  pose proof (lastIndexOf_from_bound (Node.path_sep env) base 0 (-1) ltac:(lia)).
  lia.
Qed.

(** Truncation keeps what precedes the final separator. *)
Lemma parent_of_last (p r : string) :
  Walk.occurs (Node.path_sep env) r = false →
  Resolver.parent env (p +:+ String (Node.path_sep env) r) = p.
Proof.
  intros Hr. unfold Resolver.parent, JS.lastIndexOf.
  rewrite (lastIndexOf_from_last _ _ _ _ _ Hr), substring_from_0.
  unfold JS.clamp. rewrite Nat2Z.id, length_append. simpl.
  rewrite Nat.min_l by lia. apply substring_0_append.
Qed.

(** Without separator the truncation is empty. *)
Lemma parent_of_segment (s : string) :
  Walk.occurs (Node.path_sep env) s = false → Resolver.parent env s = EmptyString.
Proof.
  intros Hs. unfold Resolver.parent, JS.lastIndexOf.
  rewrite (lastIndexOf_from_absent _ _ _ _ Hs), substring_from_0.
  destruct s; reflexivity.
Qed.

End StringFacts.

(** ** The upward walk of [resolveModule] *)

Section ModuleFacts.
Variable env : Node.Env.
Variable options : Resolver.Options.

Lemma append_assoc (a b c : string) : (a +:+ b) +:+ c = a +:+ (b +:+ c).
Proof. induction a as [|x a IH]; [reflexivity|]. exact (f_equal (String x) IH). Qed.

(** The resolver functions that take no fuel never lack it. *)
Lemma descend_total (levels : list string) (v : Node.Value env) :
  Resolver.descend env levels v ≠ Starved.
Proof.
  revert v. induction levels as [|level levels IH]; intros v; simpl; [discriminate|].
  destruct (Node.property env v level) as [next|]; [|discriminate].
  destruct (Node.truthy env next); [apply IH|discriminate].
Qed.

Lemma getEntryPoint_from_total (mains : list Resolver.MainSpec) (v : Node.Value env) :
  Resolver.getEntryPoint_from env options mains v ≠ Starved.
Proof.
  induction mains as [|main mains IH]; simpl; [discriminate|].
  unfold mbind, Outcome_bind.
  pose proof (descend_total (Resolver.levels_of main) v) as Hd.
  destruct (Resolver.descend env (Resolver.levels_of main) v) as [l| |]; simpl;
    [|discriminate|congruence].
  destruct (Node.truthy env l); [discriminate|exact IH].
Qed.

Lemma loadDirectory_from_total (pkgs : list string) (directory : string) (σ : Store) :
  Resolver.loadDirectory_from env options pkgs directory σ ≠ Starved.
Proof.
  induction pkgs as [|pkg pkgs IH]; simpl; [discriminate|].
  destruct (Node.fs env !! _) as [data|]; [|exact IH].
  destruct (Node.JSON_parse env data) as [packageData|]; [|discriminate].
  unfold mbind, Outcome_bind.
  pose proof (getEntryPoint_from_total (Resolver.mains options) packageData) as He.
  fold (Resolver.getEntryPoint env options packageData) in He.
  destruct (Resolver.getEntryPoint env options packageData) as [e| |]; simpl;
    [|discriminate|congruence].
  destruct e as [v|s]; simpl.
  - destruct (Node.as_string env v) as [s|]; simpl; [|discriminate].
    destruct (Resolver.loadFile env options _ 0 σ) as [[file|] σ1]; [discriminate|].
    destruct (Resolver.loadFile env options _ 0 σ1) as [[file|] σ2]; discriminate.
  - destruct (Resolver.loadFile env options _ 0 σ) as [[file|] σ1]; [discriminate|].
    destruct (Resolver.loadFile env options _ 0 σ1) as [[file|] σ2]; discriminate.
Qed.

Lemma resolveRelative_total (module : string) (σ : Store) :
  Resolver.resolveRelative env options module σ ≠ Starved.
Proof.
  unfold Resolver.resolveRelative.
  destruct (Resolver.loadFile env options module 0 σ) as [[file|] σ1]; [discriminate|].
  apply loadDirectory_from_total.
Qed.

Lemma first_success_total (paths : list string) (σ : Store) :
  Walk.first_success env options paths σ ≠ Starved.
Proof.
  revert σ. induction paths as [|module paths IH]; intros σ; simpl; [discriminate|].
  unfold mbind, Outcome_bind.
  pose proof (resolveRelative_total module σ) as Hr.
  destruct (Resolver.resolveRelative env options module σ) as [[a σ1]| |]; simpl;
    [|discriminate|congruence].
  destruct (snd a); [discriminate|apply IH].
Qed.

(** The bases do not depend on the fuel, once it exceeds the length. *)
Lemma ancestors_enough (n m : nat) (base : string) :
  String.length base < n → String.length base < m →
  Walk.ancestors env n base = Walk.ancestors env m base.
Proof.
  revert m base. induction n as [|n IH]; intros m base Hn Hm; [lia|].
  destruct m as [|m]; [lia|]. simpl.
  destruct (Nat.eqb_spec (String.length base) 0) as [_|Hne]; [reflexivity|].
  pose proof (parent_shorter env base Hne). f_equal. apply IH; lia.
Qed.

Lemma bases_unfold (base : string) :
  String.length base ≠ 0 →
  Walk.bases env base = base :: Walk.bases env (Resolver.parent env base).
Proof.
  intros Hne. unfold Walk.bases at 1. cbn [Walk.ancestors].
  destruct (Nat.eqb_spec (String.length base) 0) as [|_]; [contradiction|].
  f_equal. pose proof (parent_shorter env base Hne). apply ancestors_enough; lia.
Qed.

Lemma bases_empty (base : string) : String.length base = 0 → Walk.bases env base = [].
Proof. intros H. unfold Walk.bases. simpl. rewrite H. reflexivity. Qed.

Lemma candidates_in_lookup (moduleName base : string) (directory : nat)
    (moduleDir : string) :
  Resolver.modules options !! directory = Some moduleDir →
  drop directory (Walk.candidates_in env options moduleName base) =
  Node.path_resolve env [base; moduleDir; moduleName]
    :: drop (S directory) (Walk.candidates_in env options moduleName base).
Proof.
  intros Hd. unfold Walk.candidates_in.
  rewrite <- !fmap_drop. rewrite (drop_S _ _ _ Hd). reflexivity.
Qed.

(** [resolveModule] is the first success over the candidates that are
    left: the rest of this base, then every further base. *)
Lemma resolveModule_first_success (fuel : nat) (base moduleName : string)
    (directory : nat) (σ : Store) :
  String.length base ≠ 0 →
  directory < length (Resolver.modules options) →
  String.length base * S (length (Resolver.modules options)) +
    (S (length (Resolver.modules options)) - directory) ≤ fuel →
  Resolver.resolveModule env options fuel base moduleName directory σ =
  Walk.first_success env options
    (drop directory (Walk.candidates_in env options moduleName base) ++
     flat_map (Walk.candidates_in env options moduleName)
              (Walk.bases env (Resolver.parent env base))) σ.
Proof.
  revert base directory σ. induction fuel as [|fuel IH];
    intros base directory σ Hne Hd Hfuel; [lia|].
  cbn [Resolver.resolveModule].
  destruct (Nat.eqb_spec (String.length base) 0) as [|_]; [contradiction|].
  destruct (lookup_lt_is_Some_2 _ _ Hd) as [moduleDir HmoduleDir].
  rewrite HmoduleDir, (candidates_in_lookup _ _ _ _ HmoduleDir).
  cbn [app Walk.first_success]. unfold mbind, Outcome_bind.
  destruct (Resolver.resolveRelative env options _ σ) as [[a σ1]| |]; simpl;
    try reflexivity.
  destruct (snd a) as [file|]; [reflexivity|].
  pose proof (parent_shorter env base Hne) as Hshort.
  destruct (Nat.leb_spec (length (Resolver.modules options)) (directory + 1))
    as [Hlast|Hmore].
  - rewrite drop_ge by (unfold Walk.candidates_in; rewrite length_map; lia).
    cbn [app].
    destruct (Nat.eq_dec (String.length (Resolver.parent env base)) 0) as [H0|H0].
    + rewrite (bases_empty _ H0). destruct fuel; [lia|]. simpl.
      rewrite H0. reflexivity.
    + rewrite IH; [|exact H0|lia|nia].
      rewrite drop_0, (bases_unfold _ H0). reflexivity.
  - rewrite IH; [|exact Hne|lia|lia].
    replace (directory + 1) with (S directory) by lia. reflexivity.
Qed.

Lemma resolveModule_walk (base moduleName : string) (σ : Store) :
  Resolver.modules options ≠ [] →
  Resolver.resolveModule env options (Resolver.walk_budget options base)
    base moduleName 0 σ =
  Walk.first_success env options (Walk.candidates env options base moduleName) σ.
Proof.
  intros Hmodules. unfold Walk.candidates.
  destruct (Nat.eq_dec (String.length base) 0) as [H0|H0].
  - rewrite (bases_empty _ H0). unfold Resolver.walk_budget. simpl.
    rewrite H0. reflexivity.
  - rewrite resolveModule_first_success.
    + rewrite drop_0, (bases_unfold _ H0). reflexivity.
    + exact H0.
    + destruct (Resolver.modules options); [contradiction|simpl; lia].
    + unfold Resolver.walk_budget. lia.
Qed.

(** With the budget [resolve] passes, [resolveModule] never lacks fuel. *)
Lemma resolveModule_total (fuel : nat) (base moduleName : string) (directory : nat)
    (σ : Store) :
  String.length base * S (length (Resolver.modules options)) +
    (S (length (Resolver.modules options)) - directory) ≤ fuel →
  directory ≤ length (Resolver.modules options) →
  Resolver.resolveModule env options fuel base moduleName directory σ ≠ Starved.
Proof.
  intros Hfuel Hd.
  destruct fuel as [|fuel]; [lia|].
  destruct (Nat.eq_dec (String.length base) 0) as [H0|H0].
  { simpl. rewrite H0. discriminate. }
  destruct (Resolver.modules options !! directory) as [moduleDir|] eqn:Hlook.
  - rewrite resolveModule_first_success; [apply first_success_total|exact H0| |lia].
    apply lookup_lt_is_Some_1. eauto.
  - simpl. destruct (Nat.eqb_spec (String.length base) 0) as [|_]; [contradiction|].
    rewrite Hlook. discriminate.
Qed.

Lemma resolve_total (module : string) (base : option string) (σ : Store) :
  Resolver.resolve env options module base σ ≠ Starved.
Proof.
  unfold Resolver.resolve. destruct (String.eqb module EmptyString); [discriminate|].
  destruct (Resolver.RELATIVE_PATH module).
  - apply resolveRelative_total.
  - apply resolveModule_total; [unfold Resolver.walk_budget; lia|lia].
Qed.

(** Every directory named by a non-empty proper prefix of [base] that
    ends before a separator is a base of the walk. *)
Lemma bases_prefix (n : nat) (base p r : string) :
  String.length r ≤ n →
  base = p +:+ String (Node.path_sep env) r →
  p ≠ EmptyString →
  p ∈ Walk.bases env base.
Proof.
  revert base r. induction n as [|n IH]; intros base r Hn -> Hp.
  - destruct r; [|simpl in Hn; lia].
    rewrite bases_unfold by (rewrite length_append; simpl; lia).
    rewrite parent_of_last by reflexivity.
    rewrite bases_unfold by (destruct p; [contradiction|simpl; lia]).
    right. left.
  - rewrite bases_unfold by (rewrite length_append; simpl; lia).
    right. destruct (Walk.occurs (Node.path_sep env) r) eqn:Hocc.
    + destruct (occurs_split_last _ _ Hocc) as (r1 & r2 & -> & Hr2).
      change (p +:+ String (Node.path_sep env) (r1 +:+ String (Node.path_sep env) r2))
        with (p +:+ (String (Node.path_sep env) r1 +:+ String (Node.path_sep env) r2)).
      rewrite <- append_assoc, (parent_of_last env _ _ Hr2).
      apply (IH _ r1); [|reflexivity|exact Hp].
      rewrite length_append in Hn. simpl in Hn. lia.
    + rewrite (parent_of_last env _ _ Hocc).
      rewrite bases_unfold by (destruct p; [contradiction|simpl; lia]). left.
Qed.

Lemma bases_nonempty (n : nat) (base b : string) :
  b ∈ Walk.ancestors env n base → b ≠ EmptyString.
Proof.
  revert base. induction n as [|n IH]; intros base; simpl; [inversion 1|].
  destruct (Nat.eqb_spec (String.length base) 0) as [_|Hne]; [inversion 1|].
  intros [->|Hin]%elem_of_cons; [|exact (IH _ Hin)].
  intros ->. apply Hne. reflexivity.
Qed.

(** Every base of the walk is [base] or a prefix of it that ends before
    a separator. *)
Lemma bases_within (n : nat) (base b : string) :
  b ∈ Walk.ancestors env n base →
  b = base ∨ ∃ r, base = b +:+ String (Node.path_sep env) r.
Proof.
  revert base. induction n as [|n IH]; intros base; simpl; [inversion 1|].
  destruct (Nat.eqb_spec (String.length base) 0) as [_|Hne]; [inversion 1|].
  intros [->|Hin]%elem_of_cons; [left; reflexivity|]. right.
  destruct (Walk.occurs (Node.path_sep env) base) eqn:Hocc.
  - destruct (occurs_split_last _ _ Hocc) as (p & r & -> & Hr).
    rewrite (parent_of_last env _ _ Hr) in Hin.
    destruct (IH _ Hin) as [->|[r' ->]]; [exists r; reflexivity|].
    exists (r' +:+ String (Node.path_sep env) r).
    rewrite append_assoc. reflexivity.
  - rewrite (parent_of_segment env _ Hocc) in Hin.
    destruct n; simpl in Hin; inversion Hin.
Qed.

End ModuleFacts.

(** C4 (as amended: the walk is on the text of the base).  With the
    fuel [resolve] passes, [resolveModule] ends for every base and module
    name.  Its answer is the first success of relative resolution over
    [<base>/<moduleDir>/<name>] for each configured module directory in
    order, for [base] and then for each truncation of it at the final
    separator, and the absent outcome when none succeeds.  The bases of
    the walk are exactly [base], when it is not empty, and the non-empty
    prefixes of [base] that end before a separator: a base that is not
    empty is followed by the bases of its truncation, and no base is
    empty, so the directory that truncation leaves empty, the root, is
    not probed, and neither is a directory that is no prefix of the text
    of [base]. *)
Theorem resolveModule_walks_ancestors (env : Node.Env) (options : Resolver.Options)
    (base moduleName : string) (σ : Store) :
  Resolver.modules options ≠ [] →
  Resolver.resolveModule env options (Resolver.walk_budget options base)
    base moduleName 0 σ ≠ Starved ∧
  Resolver.resolveModule env options (Resolver.walk_budget options base)
    base moduleName 0 σ =
    Walk.first_success env options (Walk.candidates env options base moduleName) σ ∧
  (base ≠ EmptyString → base ∈ Walk.bases env base) ∧
  (∀ p r, base = p +:+ String (Node.path_sep env) r → p ≠ EmptyString →
          p ∈ Walk.bases env base) ∧
  (∀ b, b ∈ Walk.bases env base → b ≠ EmptyString) ∧
  (∀ b, b ∈ Walk.bases env base →
        b = base ∨ ∃ r, base = b +:+ String (Node.path_sep env) r) ∧
  (base ≠ EmptyString →
   Walk.bases env base = base :: Walk.bases env (Resolver.parent env base)).
Proof.
  intros Hmodules. split; [|split; [|split; [|split; [|split; [|split]]]]].
  - apply resolveModule_total; [unfold Resolver.walk_budget; lia|lia].
  - apply resolveModule_walk, Hmodules.
  - intros Hbase. rewrite bases_unfold; [left|].
    destruct base; [contradiction|simpl; lia].
  - intros p r Hbase Hp. exact (bases_prefix env _ base p r (le_n _) Hbase Hp).
  - intros b Hb. exact (bases_nonempty env _ _ _ Hb).
  - intros b Hb. exact (bases_within env _ _ _ Hb).
  - intros Hbase. apply bases_unfold. destruct base; [contradiction|simpl; lia].
Qed.

(** C4 at scenario 5: from [/a/b/c] the walk probes three directories and
    finds [x] in the third. *)
Lemma resolveModule_walks_ancestors_witness :
  Resolver.modules Resolver.defaults ≠ [] ∧
  Walk.candidates Scenario.upward Resolver.defaults "/a/b/c" "x" =
    ["/a/b/c/node_modules/x"; "/a/b/node_modules/x"; "/a/node_modules/x"] ∧
  ∃ file σ1,
    Resolver.resolveModule Scenario.upward Resolver.defaults
      (Resolver.walk_budget Resolver.defaults "/a/b/c") "/a/b/c" "x" 0 Heap.empty =
      Returned ((None, Some file), σ1) ∧
    path_of σ1 file = "/a/node_modules/x/index.js".
Proof.
  assert (Resolver.modules Resolver.defaults ≠ []) as Hmodules by discriminate.
  split; [exact Hmodules|]. split; [vm_compute; reflexivity|].
  destruct (resolveModule_walks_ancestors Scenario.upward Resolver.defaults
              "/a/b/c" "x" Heap.empty Hmodules) as (_ & Hwalk & _).
  eexists _, _. split.
  - rewrite Hwalk. vm_compute. reflexivity.
  - vm_compute. reflexivity.
Defined.

(** Two ancestor directories the walk does not probe.  The root is an
    ancestor directory of [/a], and [x] is installed in its
    [node_modules]; the walk from [/a] probes [/a/node_modules/x] only
    and answers with the absent outcome.  The working directory [/w] is
    an ancestor directory of the relative base [a/b], which stands for
    [/w/a/b], and [x] is installed in its [node_modules]; the walk from
    [a/b] probes below [/w/a/b] and [/w/a] only and answers with the
    absent outcome. *)
Lemma walk_misses_ancestor_directories :
  (Walk.candidates Scenario.rooted Resolver.defaults "/a" "x" = ["/a/node_modules/x"] ∧
   Resolver.resolve Scenario.rooted Resolver.defaults "x" (Some "/a") Heap.empty =
     Returned ((None, None), Heap.empty) ∧
   Node.path_resolve Scenario.rooted ["/"; "node_modules"; "x"] = "/node_modules/x" ∧
   ∃ file σ1,
     Resolver.resolveRelative Scenario.rooted Resolver.defaults "/node_modules/x"
       Heap.empty = Returned ((None, Some file), σ1)) ∧
  (Node.path_resolve Example.shallow ["a/b"] = "/w/a/b" ∧
   Walk.candidates Example.shallow Resolver.defaults "a/b" "x" =
     ["/w/a/b/node_modules/x"; "/w/a/node_modules/x"] ∧
   Resolver.resolve Example.shallow Resolver.defaults "x" (Some "a/b") Heap.empty =
     Returned ((None, None), Heap.empty) ∧
   Node.path_resolve Example.shallow ["/w"; "node_modules"; "x"] = "/w/node_modules/x" ∧
   ∃ file σ1,
     Resolver.resolveRelative Example.shallow Resolver.defaults "/w/node_modules/x"
       Heap.empty = Returned ((None, Some file), σ1)).
Proof.
  split.
  - split; [vm_compute; reflexivity|]. split; [vm_compute; reflexivity|].
    split; [vm_compute; reflexivity|].
    eexists _, _. vm_compute. reflexivity.
  - split; [vm_compute; reflexivity|]. split; [vm_compute; reflexivity|].
    split; [vm_compute; reflexivity|]. split; [vm_compute; reflexivity|].
    eexists _, _. vm_compute. reflexivity.
Qed.

(** ** The shared objects under the resolver *)

Section GrowthFacts.
Variable env : Node.Env.
Variable options : Resolver.Options.

Lemma grows_trans (σ1 σ2 σ3 : Store) :
  Reach.grows env σ1 σ2 → Reach.grows env σ2 σ3 → Reach.grows env σ1 σ3.
Proof.
  intros H12 H23. induction H23 as [|σ2 σ3 realName contents _ IH Hc Hfs]; [exact H12|].
  apply Reach.grows_new; auto.
Qed.

Lemma loadFile_from_grows (exts : list string) (fileName : string) (σ σ' : Store)
    (file : option ref) :
  Resolver.loadFile_from env exts fileName σ = (file, σ') →
  Reach.grows env σ σ' ∧ ∀ r, file = Some r → Reach.in_cache σ' r.
Proof.
  induction exts as [|ext exts IH]; simpl.
  - intros [= <- <-]. split; [constructor|discriminate].
  - destruct (resolver_cache σ !! (fileName +:+ ext)) as [f|] eqn:Hc.
    + intros [= <- <-]. split; [constructor|].
      intros r [= <-]. exists (fileName +:+ ext). exact Hc.
    + destruct (Node.fs env !! (fileName +:+ ext)) as [contents|] eqn:Hfs; [|exact IH].
      intros [= <- <-]. split.
      * apply (Reach.grows_new env σ σ _ contents); [constructor|exact Hc|exact Hfs].
      * intros r [= <-]. exists (fileName +:+ ext). simpl. apply lookup_insert_eq.
Qed.

Lemma loadFile_grows (fileName : string) (ext : nat) (σ σ' : Store) (file : option ref) :
  Resolver.loadFile env options fileName ext σ = (file, σ') →
  Reach.grows env σ σ' ∧ ∀ r, file = Some r → Reach.in_cache σ' r.
Proof. apply loadFile_from_grows. Qed.

Lemma loadIndex_grows (directory : string) (σ σ' : Store) (answer : Resolver.Answer) :
  Resolver.loadIndex env options directory σ = (answer, σ') →
  Reach.grows env σ σ' ∧ ∀ r, snd answer = Some r → Reach.in_cache σ' r.
Proof.
  unfold Resolver.loadIndex.
  destruct (Resolver.loadFile env options _ 0 σ) as [file σ1] eqn:Hload.
  intros [= <- <-]. exact (loadFile_grows _ _ _ _ _ Hload).
Qed.

Lemma loadDirectory_from_grows (pkgs : list string) (directory : string)
    (σ σ' : Store) (answer : Resolver.Answer) :
  Resolver.loadDirectory_from env options pkgs directory σ = Returned (answer, σ') →
  Reach.grows env σ σ' ∧ ∀ r, snd answer = Some r → Reach.in_cache σ' r.
Proof.
  induction pkgs as [|pkg pkgs IH]; simpl.
  - intros [= H]. exact (loadIndex_grows _ _ _ _ H).
  - destruct (Node.fs env !! _) as [data|]; [|exact IH].
    destruct (Node.JSON_parse env data) as [packageData|].
    + unfold mbind, Outcome_bind.
      destruct (Resolver.getEntryPoint env options packageData) as [e| |]; simpl;
        try discriminate.
      destruct (Resolver.resolve_entry env directory e) as [entry| |]; simpl;
        try discriminate.
      destruct (Resolver.loadFile env options entry 0 σ) as [[file|] σ1] eqn:H1.
      * intros [= <- <-]. exact (loadFile_grows _ _ _ _ _ H1).
      * destruct (Resolver.loadFile env options _ 0 σ1) as [[file|] σ2] eqn:H2.
        -- intros [= <- <-]. destruct (loadFile_grows _ _ _ _ _ H1) as [G1 _].
           destruct (loadFile_grows _ _ _ _ _ H2) as [G2 C2].
           split; [exact (grows_trans _ _ _ G1 G2)|exact C2].
        -- intros [= H3]. destruct (loadFile_grows _ _ _ _ _ H1) as [G1 _].
           destruct (loadFile_grows _ _ _ _ _ H2) as [G2 _].
           destruct (loadIndex_grows _ _ _ _ H3) as [G3 C3].
           split; [|exact C3]. eauto using grows_trans.
    + intros [= <- <-]. split; [constructor|discriminate].
Qed.

Lemma resolveRelative_grows (module : string) (σ σ' : Store) (answer : Resolver.Answer) :
  Resolver.resolveRelative env options module σ = Returned (answer, σ') →
  Reach.grows env σ σ' ∧ ∀ r, snd answer = Some r → Reach.in_cache σ' r.
Proof.
  unfold Resolver.resolveRelative.
  destruct (Resolver.loadFile env options module 0 σ) as [[file|] σ1] eqn:H1.
  - intros [= <- <-]. exact (loadFile_grows _ _ _ _ _ H1).
  - intros H2. destruct (loadFile_grows _ _ _ _ _ H1) as [G1 _].
    apply loadDirectory_from_grows in H2 as [G2 C2].
    split; [exact (grows_trans _ _ _ G1 G2)|exact C2].
Qed.

Lemma resolveModule_grows (fuel : nat) (base moduleName : string) (directory : nat)
    (σ σ' : Store) (answer : Resolver.Answer) :
  Resolver.resolveModule env options fuel base moduleName directory σ =
    Returned (answer, σ') →
  Reach.grows env σ σ' ∧ ∀ r, snd answer = Some r → Reach.in_cache σ' r.
Proof.
  revert base directory σ. induction fuel as [|fuel IH]; intros base directory σ;
    simpl; [discriminate|].
  destruct (Nat.eqb (String.length base) 0).
  { intros [= <- <-]. split; [constructor|discriminate]. }
  destruct (Resolver.modules options !! directory) as [moduleDir|]; [|discriminate].
  unfold mbind, Outcome_bind.
  destruct (Resolver.resolveRelative env options _ σ) as [[a σ1]| |] eqn:H1; simpl;
    try discriminate.
  apply resolveRelative_grows in H1 as [G1 C1].
  destruct (snd a) as [file|] eqn:Ha.
  - intros [= <- <-]. split; [exact G1|]. intros r [= <-]. apply C1. reflexivity.
  - destruct (length (Resolver.modules options) <=? directory + 1);
      intros H2; apply IH in H2 as [G2 C2]; split; eauto using grows_trans.
Qed.

Lemma resolve_grows (module : string) (base : option string) (σ σ' : Store)
    (answer : Resolver.Answer) :
  Resolver.resolve env options module base σ = Returned (answer, σ') →
  Reach.grows env σ σ' ∧ ∀ r, snd answer = Some r → Reach.in_cache σ' r.
Proof.
  unfold Resolver.resolve. destruct (String.eqb module EmptyString); [discriminate|].
  destruct (Resolver.RELATIVE_PATH module).
  - apply resolveRelative_grows.
  - apply resolveModule_grows.
Qed.

(** What growth preserves. *)

Lemma grows_dependencies_cache (σ σ' : Store) :
  Reach.grows env σ σ' → dependencies_cache σ' = dependencies_cache σ.
Proof. induction 1; simpl; auto. Qed.

Lemma grows_objects (σ σ' : Store) :
  Reach.grows env σ σ' →
  ∃ news, objects σ' = objects σ ++ news ∧
          Forall (λ o, dependencies o = None ∧ Vinyl.isNull (vinyl o) = false) news.
Proof.
  induction 1 as [σ|σ σ' realName contents _ [news [Hobj Hnews]] Hc Hfs].
  - exists []. rewrite app_nil_r. split; [reflexivity|constructor].
  - eexists (news ++ [_]). simpl. rewrite Hobj, app_assoc. split; [reflexivity|].
    apply Forall_app. split; [exact Hnews|]. repeat constructor.
Qed.

Lemma grows_cache (σ σ' : Store) (r : ref) :
  Reach.grows env σ σ' → Reach.in_cache σ r → Reach.in_cache σ' r.
Proof.
  induction 1 as [σ|σ σ' realName contents _ IH Hc Hfs]; [auto|].
  intros Hin. destruct (IH Hin) as [p Hp]. exists p. simpl.
  rewrite lookup_insert_ne; [exact Hp|]. intros ->. congruence.
Qed.

Lemma grows_consistent (σ σ' : Store) :
  Reach.grows env σ σ' → Reach.consistent σ → Reach.consistent σ'.
Proof.
  induction 1 as [σ|σ σ' realName contents _ IH Hc Hfs]; [auto|].
  intros Hσ. specialize (IH Hσ). unfold Reach.consistent in *. simpl.
  apply map_Forall_insert_2.
  - rewrite lookup_app_r by lia. rewrite Nat.sub_diag. reflexivity.
  - intros p r Hp. specialize (IH p r Hp). simpl in IH.
    destruct (objects σ' !! r) as [o|] eqn:Ho; [|discriminate IH].
    rewrite (lookup_app_l_Some _ _ _ _ Ho). exact IH.
Qed.

Lemma grows_evolves (σ σ' : Store) : Reach.grows env σ σ' → Reach.evolves σ σ'.
Proof.
  intros [news [Hobj _]]%grows_objects r o Ho. exists o.
  rewrite Hobj. rewrite (lookup_app_l_Some _ _ _ _ Ho). auto.
Qed.

End GrowthFacts.

(** ** The shared objects under the grapher *)

Section StepFacts.
Variable env : Node.Env.
Variable options : Resolver.Options.

Local Abbreviation step := (Reach.step env).
Local Abbreviation steps := (rtc (Reach.step env)).

Lemma resolveRequirements_from_steps (analyze : ref → Store → Dependencies.Ending) :
  (∀ d σ σ', analyze d σ = Dependencies.Done σ' → steps σ σ') →
  ∀ requirements file σ σ',
    Dependencies.resolveRequirements_from env options analyze requirements file σ =
      Dependencies.Done σ' →
    steps σ σ'.
Proof.
  intros Hrec requirements file. induction requirements as [|req rest IH];
    intros σ σ'; simpl.
  - intros [= <-]. constructor.
  - destruct (Required.static req) eqn:Hstatic; simpl.
    + destruct (cached _ (Required.path req) σ) as [c|] eqn:Hcached.
      * intros H. eapply rtc_l; [|exact (IH _ _ H)].
        eapply Reach.step_push_cached; eassumption.
      * destruct (Resolver.resolve env options _ _ σ) as [[[err dependent] σ1]| |]
          eqn:Hres; try discriminate.
        apply resolve_grows in Hres as [G C]. simpl in C.
        match goal with
        | |- context [push_dependency file ?d (cache_result ?dn ?p ?c σ1)] =>
            assert (steps σ (push_dependency file d (cache_result dn p c σ1))) as Hσ3
        end.
        { eapply rtc_l; [apply Reach.step_resolver, G|].
          eapply rtc_l; [apply Reach.step_remember, C|].
          apply rtc_once. apply Reach.step_push_resolved; [exact Hstatic|].
          intros r Hr. destruct (C r Hr) as [p Hp]. exists p. exact Hp. }
        destruct dependent as [dependent|].
        -- destruct (analyze dependent _) as [σ4| | |] eqn:Ha; try discriminate.
           intros H. eapply rtc_trans; [exact Hσ3|].
           eapply rtc_trans; [exact (Hrec _ _ _ Ha)|exact (IH _ _ H)].
        -- intros H. eapply rtc_trans; [exact Hσ3|exact (IH _ _ H)].
    + intros H. eapply rtc_l; [|exact (IH _ _ H)].
      apply Reach.step_push_dynamic. exact Hstatic.
Qed.

(** The body of [analyze] on a live File object. *)
Lemma analyze_unfold (fuel : nat) (f : ref) (o : FileObject) (σ : Store) :
  objects σ !! f = Some o →
  Dependencies.analyze env options (S fuel) (Some f) σ =
  if Vinyl.isNull (vinyl o) then Dependencies.Dropped σ
  else
    match dependencies o with
    | Some _ => Dependencies.Done σ
    | None =>
        match Required.analyze (Node.esprima_parse env) (Some (vinyl o)) with
        | Thrown e => Dependencies.Failed e
        | Starved => Dependencies.Unfinished
        | Returned None => Dependencies.Failed "TypeError"
        | Returned (Some requirements) =>
            Dependencies.resolveRequirements_from env options
              (λ dependent, Dependencies.analyze env options fuel (Some dependent))
              requirements f (set_dependencies f [] σ)
        end
    end.
Proof. intros Ho. cbn [Dependencies.analyze]. rewrite Ho. reflexivity. Qed.

Lemma analyze_steps (fuel : nat) (file : option ref) (σ σ' : Store) :
  Dependencies.analyze env options fuel file σ = Dependencies.Done σ' → steps σ σ'.
Proof.
  revert file σ σ'. induction fuel as [|fuel IH]; intros file σ σ';
    [discriminate|].
  destruct file as [f|]; [|discriminate].
  destruct (objects σ !! f) as [o|] eqn:Ho;
    [rewrite (analyze_unfold _ _ _ _ Ho)|cbn [Dependencies.analyze]; rewrite Ho; discriminate].
  destruct (Vinyl.isNull (vinyl o)); [discriminate|].
  destruct (dependencies o) as [ds|] eqn:Hds.
  { intros [= <-]. constructor. }
  destruct (Required.analyze _ _) as [[requirements|]| |]; try discriminate.
  intros H. eapply rtc_l; [exact (Reach.step_assign env σ f o Ho Hds)|].
  eapply resolveRequirements_from_steps; [|exact H].
  intros d σ1 σ2. apply IH.
Qed.

(** *** Objects evolve *)

Lemma evolves_refl (σ : Store) : Reach.evolves σ σ.
Proof. intros r o Ho. exists o. auto. Qed.

Lemma evolves_trans (σ1 σ2 σ3 : Store) :
  Reach.evolves σ1 σ2 → Reach.evolves σ2 σ3 → Reach.evolves σ1 σ3.
Proof.
  intros H12 H23 r o Ho. destruct (H12 r o Ho) as (o2 & Ho2 & Hv2 & Hd2).
  destruct (H23 r o2 Ho2) as (o3 & Ho3 & Hv3 & Hd3).
  exists o3. split; [exact Ho3|]. split; [congruence|auto].
Qed.

Lemma alter_objects_evolves (g : FileObject → FileObject) (f : ref) (σ σ' : Store) :
  objects σ' = alter g f (objects σ) →
  (∀ o, vinyl (g o) = vinyl o ∧ (is_Some (dependencies o) → is_Some (dependencies (g o)))) →
  Reach.evolves σ σ'.
Proof.
  intros Hobj Hg r o Ho. rewrite Hobj. destruct (decide (f = r)) as [->|Hne].
  - exists (g o). rewrite list_lookup_alter_eq, Ho. split; [reflexivity|apply Hg].
  - exists o. rewrite list_lookup_alter_ne by exact Hne. auto.
Qed.

Lemma step_evolves (σ σ' : Store) : step σ σ' → Reach.evolves σ σ'.
Proof.
  destruct 1.
  - eapply grows_evolves; eassumption.
  - eapply alter_objects_evolves; [reflexivity|]. intros o'. simpl. eauto.
  - intros r o' Ho'. exists o'. auto.
  - eapply alter_objects_evolves; [reflexivity|]. intros o'. simpl.
    split; [reflexivity|]. intros [ds ->]. simpl. eauto.
  - eapply alter_objects_evolves; [reflexivity|]. intros o'. simpl.
    split; [reflexivity|]. intros [ds ->]. simpl. eauto.
  - eapply alter_objects_evolves; [reflexivity|]. intros o'. simpl.
    split; [reflexivity|]. intros [ds ->]. simpl. eauto.
Qed.

Lemma steps_evolves (σ σ' : Store) : steps σ σ' → Reach.evolves σ σ'.
Proof.
  induction 1 as [|σ1 σ2 σ3 H12 _ IH]; [apply evolves_refl|].
  eapply evolves_trans; [exact (step_evolves _ _ H12)|exact IH].
Qed.

(** *** Records of dynamic requirements *)

Lemma push_dynamic_ok (f : ref) (d : Dependency) (σ : Store) :
  Reach.dynamic_record d → Reach.dynamic_ok σ →
  Reach.dynamic_ok (push_dependency f d σ).
Proof.
  intros Hd Hσ. unfold Reach.dynamic_ok in *. simpl.
  apply Forall_alter; [exact Hσ|]. intros o Ho Hall. simpl.
  destruct (dependencies o) as [ds|]; simpl in *; [|constructor].
  apply Forall_app. split; [exact Hall|]. apply Forall_singleton. exact Hd.
Qed.

Lemma step_dynamic_ok (σ σ' : Store) :
  step σ σ' → Reach.dynamic_ok σ → Reach.dynamic_ok σ'.
Proof.
  destruct 1 as [σ σ' G|σ f o Ho Hds|σ dirname p dependent err Hc
                 |σ f req Hdyn|σ f req dirname c Hst Hc|σ f req dependent err Hst Hc];
    intros Hσ.
  - destruct (grows_objects env _ _ G) as [news [Hobj Hnews]].
    unfold Reach.dynamic_ok. rewrite Hobj. apply Forall_app. split; [exact Hσ|].
    eapply Forall_impl; [exact Hnews|]. intros o [-> _]. constructor.
  - unfold Reach.dynamic_ok in *. simpl. apply Forall_alter; [exact Hσ|].
    intros o' _ _. constructor.
  - exact Hσ.
  - apply push_dynamic_ok; [|exact Hσ]. intros _. split; reflexivity.
  - apply push_dynamic_ok; [|exact Hσ]. intros Hd. simpl in Hd. congruence.
  - apply push_dynamic_ok; [|exact Hσ]. intros Hd. simpl in Hd. congruence.
Qed.

Lemma steps_dynamic_ok (σ σ' : Store) :
  steps σ σ' → Reach.dynamic_ok σ → Reach.dynamic_ok σ'.
Proof. induction 1; eauto using step_dynamic_ok. Qed.

End StepFacts.

(** ** The grapher (src/dependencies.js) *)

(** C5 (as amended: the error text is the one of the source).  In every
    dependency list the grapher leaves behind, a record that is not
    static has no file and the error
    [Unable to resolve dynamic dependency]; and after appending such a
    record the walk goes on with the next descriptor. *)
Theorem dynamic_records_carry_error (env : Node.Env) (options : Resolver.Options)
    (fuel : nat) (root : option ref) (σ σ' : Store) :
  Reach.dynamic_ok σ →
  Dependencies.analyze env options fuel root σ = Dependencies.Done σ' →
  (∀ f o ds d,
     objects σ' !! f = Some o → dependencies o = Some ds → d ∈ ds →
     static d = false →
     file d = None ∧ error d = Some "Unable to resolve dynamic dependency") ∧
  (∀ analyze requirement rest f σ0,
     Required.static requirement = false →
     Dependencies.resolveRequirements_from env options analyze
       (requirement :: rest) f σ0 =
     Dependencies.resolveRequirements_from env options analyze rest f
       (push_dependency f
          {| path := Required.path requirement;
             static := false;
             references := Required.references requirement;
             file := None;
             error := Some "Unable to resolve dynamic dependency" |} σ0)).
Proof.
  intros Hok Hdone. split.
  - intros f o ds d Ho Hds Hd Hdyn.
    pose proof (steps_dynamic_ok env _ _ (analyze_steps env options _ _ _ _ Hdone) Hok)
      as Hok'.
    pose proof (Forall_lookup_1 _ _ _ _ Hok' Ho) as Hall. cbv beta in Hall.
    rewrite Hds in Hall.
    simpl in Hall. rewrite Forall_forall in Hall. exact (Hall d Hd Hdyn).
  - intros analyze requirement rest f σ0 Hdyn. simpl. rewrite Hdyn. simpl.
    unfold Dependencies.dependency_of. rewrite Hdyn. reflexivity.
Qed.

(** C5 at scenario 7: the only requirement of [/a/main.js] is
    [require(name)]. *)
Lemma dynamic_records_carry_error_witness :
  ∃ σ' d,
    Dependencies.analyze Scenario.dynamic Resolver.defaults 2 (Some 0)
      (Scenario.resolved Scenario.dynamic "./main") = Dependencies.Done σ' ∧
    objects σ' !! 0 ≫= dependencies = Some [d] ∧
    path d = "name" ∧ static d = false ∧
    file d = None ∧ error d = Some "Unable to resolve dynamic dependency".
Proof.
  eexists _, _.
  assert (Reach.dynamic_ok (Scenario.resolved Scenario.dynamic "./main")) as Hok.
  { vm_compute. repeat constructor. }
  split; [vm_compute; reflexivity|].
  split; [vm_compute; reflexivity|].
  split; [reflexivity|]. split; [reflexivity|].
  refine (proj1 (dynamic_records_carry_error Scenario.dynamic Resolver.defaults 2
                   (Some 0) _ _ Hok _) 0 _ _ _ _ _ _ _).
  - vm_compute. reflexivity.
  - vm_compute. reflexivity.
  - reflexivity.
  - left.
  - reflexivity.
Defined.

(** The claim's error text is not the text of the source: the record of
    [require(name)] carries [Unable to resolve dynamic dependency]. *)
Lemma dynamic_error_text :
  ∃ σ' o d,
    Cartographer.analyze Scenario.dynamic Resolver.defaults "./main" Heap.empty =
      Cartographer.Completed None (Some 0) σ' ∧
    objects σ' !! 0 = Some o ∧ dependencies o = Some [d] ∧
    static d = false ∧ file d = None ∧
    error d ≠ Some "unresolvable dynamic import".
Proof.
  eexists _, _, _. split; [vm_compute; reflexivity|].
  split; [vm_compute; reflexivity|].
  split; [reflexivity|]. split; [reflexivity|]. split; [reflexivity|].
  simpl. discriminate.
Qed.

(** C9.  [analyze] on a file whose dependency list is assigned invokes
    the callback at once and changes no object; so a second [analyze] of
    the same file, after the first has completed, leaves every dependency
    list (length, order, File objects referred to) as the first left it. *)
Theorem analyze_idempotent (env : Node.Env) (options : Resolver.Options) :
  (∀ fuel σ f o ds,
     objects σ !! f = Some o → Vinyl.isNull (vinyl o) = false →
     dependencies o = Some ds →
     Dependencies.analyze env options (S fuel) (Some f) σ = Dependencies.Done σ) ∧
  (∀ fuel fuel' file σ σ',
     Dependencies.analyze env options fuel file σ = Dependencies.Done σ' →
     Dependencies.analyze env options (S fuel') file σ' = Dependencies.Done σ').
Proof.
  assert (∀ fuel σ f o ds,
            objects σ !! f = Some o → Vinyl.isNull (vinyl o) = false →
            dependencies o = Some ds →
            Dependencies.analyze env options (S fuel) (Some f) σ = Dependencies.Done σ)
    as Hagain.
  { intros fuel σ f o ds Ho Hnull Hds.
    rewrite (analyze_unfold env options _ _ _ _ Ho), Hnull, Hds. reflexivity. }
  split; [exact Hagain|].
  intros fuel fuel' file σ σ' Hdone.
  destruct fuel as [|fuel]; [discriminate|].
  destruct file as [f|]; [|discriminate].
  destruct (objects σ !! f) as [o|] eqn:Ho;
    [|cbn [Dependencies.analyze] in Hdone; rewrite Ho in Hdone; discriminate].
  rewrite (analyze_unfold env options _ _ _ _ Ho) in Hdone.
  destruct (Vinyl.isNull (vinyl o)) eqn:Hnull; [discriminate|].
  destruct (dependencies o) as [ds|] eqn:Hds.
  { injection Hdone as <-. eapply Hagain; eassumption. }
  destruct (Required.analyze _ _) as [[requirements|]| |]; try discriminate.
  apply resolveRequirements_from_steps in Hdone;
    [|intros d σ1 σ2; apply analyze_steps].
  apply steps_evolves in Hdone.
  destruct (Hdone f {| vinyl := vinyl o; dependencies := Some [] |})
    as (o' & Ho' & Hv & Hd).
  { unfold set_dependencies. cbn [objects].
    rewrite list_lookup_alter_eq, Ho. reflexivity. }
  destruct Hd as [ds' Hds']; [simpl; eauto|].
  eapply Hagain; [exact Ho'| |exact Hds']. rewrite Hv. exact Hnull.
Qed.

(** C9 at scenario 6: a second walk from [/a/x.js] changes nothing. *)
Lemma analyze_idempotent_witness :
  ∃ σ',
    Dependencies.analyze Scenario.cycle Resolver.defaults 3 (Some 0)
      (Scenario.resolved Scenario.cycle "./x") = Dependencies.Done σ' ∧
    Dependencies.analyze Scenario.cycle Resolver.defaults 3 (Some 0) σ' =
      Dependencies.Done σ'.
Proof.
  eexists. split.
  - vm_compute. reflexivity.
  - apply (proj2 (analyze_idempotent Scenario.cycle Resolver.defaults) 3 2 (Some 0)
             (Scenario.resolved Scenario.cycle "./x")).
    vm_compute. reflexivity.
Defined.

(** C10 (the code departs from the claim).  [analyze] returns without
    invoking its callback when it is given a value that is no Vinyl file,
    and when it is given a Vinyl file whose contents are [null]; no
    terminal event is ever produced. *)
Theorem analyze_drops_callback_on_incompatible_file :
  Dependencies.analyze Scenario.dynamic Resolver.defaults
    (Dependencies.budget Scenario.dynamic Scenario.null_contents)
    (Some 0) Scenario.null_contents = Dependencies.Dropped Scenario.null_contents ∧
  Dependencies.analyze Scenario.dynamic Resolver.defaults
    (Dependencies.budget Scenario.dynamic Heap.empty)
    None Heap.empty = Dependencies.Dropped Heap.empty.
Proof. split; vm_compute; reflexivity. Qed.

(** ** The grapher ends *)

Section TerminationFacts.
Variable env : Node.Env.
Variable options : Resolver.Options.

Local Abbreviation steps := (rtc (Reach.step env)).

Local Abbreviation remaining := (Dependencies.remaining env).

Lemma filter_alter_length {A : Type} (P : A → Prop) `{∀ x, Decision (P x)}
    (g : A → A) (i : nat) (l : list A) (x : A) :
  l !! i = Some x →
  length (filter P (alter g i l)) + (if decide (P x) then 1 else 0) =
  length (filter P l) + (if decide (P (g x)) then 1 else 0).
Proof.
  revert i. induction l as [|y l IH]; intros [|i] Hi; simplify_eq/=.
  - rewrite !filter_cons. destruct (decide (P x)), (decide (P (g x))); simpl; lia.
  - rewrite !filter_cons. specialize (IH i Hi). destruct (decide (P y)); simpl; lia.
Qed.

Lemma pending_new (realName contents : string) (σ : Store) :
  Dependencies.pending (snd (cache_new_file realName contents σ)) =
  S (Dependencies.pending σ).
Proof.
  unfold Dependencies.pending. cbn [cache_new_file snd objects].
  rewrite filter_app, length_app, filter_cons. simpl. lia.
Qed.

Lemma size_add_path (p : string) (X : gset string) :
  p ∉ X → size ({[p]} ∪ X) = S (size X).
Proof.
  intros Hp. rewrite size_union; [rewrite size_singleton; reflexivity|].
  intros x ->%elem_of_singleton. exact Hp.
Qed.

Lemma unread_new (realName contents : string) (σ : Store) :
  resolver_cache σ !! realName = None →
  Node.fs env !! realName = Some contents →
  S (Dependencies.unread env (snd (cache_new_file realName contents σ))) =
  Dependencies.unread env σ.
Proof.
  intros Hc Hfs. unfold Dependencies.unread. simpl.
  assert (realName ∈ dom (Node.fs env)) as Hin by (apply elem_of_dom; eauto).
  assert (realName ∉ dom (resolver_cache σ)) as Hout by (apply not_elem_of_dom; exact Hc).
  assert (dom (Node.fs env) ∖ dom (resolver_cache σ) =
          {[realName]} ∪
          dom (Node.fs env) ∖ dom (<[realName:=length (objects σ)]> (resolver_cache σ)))
    as ->.
  { rewrite dom_insert_L. apply set_eq. intros x.
    rewrite elem_of_union, !elem_of_difference, elem_of_union, elem_of_singleton.
    destruct (decide (x = realName)) as [->|Hne]; tauto. }
  rewrite size_add_path; [reflexivity|].
  rewrite dom_insert_L, elem_of_difference, elem_of_union, elem_of_singleton.
  intros [_ H]. apply H. left. reflexivity.
Qed.

Lemma grows_remaining (σ σ' : Store) :
  Reach.grows env σ σ' → remaining σ' = remaining σ.
Proof.
  induction 1 as [σ|σ σ' realName contents _ IH Hc Hfs]; [reflexivity|].
  unfold Dependencies.remaining in *. rewrite pending_new.
  pose proof (unread_new realName contents σ' Hc Hfs). lia.
Qed.

Lemma alter_absent {A : Type} (g : A → A) (i : nat) (l : list A) :
  l !! i = None → alter g i l = l.
Proof.
  revert i. induction l as [|y l IH]; intros [|i] Hi; simplify_eq/=; [reflexivity..|].
  f_equal. apply IH, Hi.
Qed.

Lemma pending_push (f : ref) (d : Dependency) (σ : Store) :
  Dependencies.pending (push_dependency f d σ) = Dependencies.pending σ.
Proof.
  unfold Dependencies.pending. simpl.
  destruct (objects σ !! f) as [o|] eqn:Ho.
  - pose proof (filter_alter_length (λ o, dependencies o = None)
                  (λ o, {| vinyl := vinyl o;
                           dependencies := (λ ds, ds ++ [d]) <$> dependencies o |})
                  f (objects σ) o Ho) as H.
    simpl in H. destruct (dependencies o); simpl in H; lia.
  - rewrite alter_absent by exact Ho. reflexivity.
Qed.

Lemma pending_assign (f : ref) (o : FileObject) (σ : Store) :
  objects σ !! f = Some o → dependencies o = None →
  S (Dependencies.pending (set_dependencies f [] σ)) = Dependencies.pending σ.
Proof.
  intros Ho Hds. unfold Dependencies.pending. simpl.
  pose proof (filter_alter_length (λ o, dependencies o = None)
                (λ o, {| vinyl := vinyl o; dependencies := Some [] |})
                f (objects σ) o Ho) as H.
  simpl in H. rewrite Hds in H. simpl in H. lia.
Qed.

Lemma step_remaining (σ σ' : Store) : Reach.step env σ σ' → remaining σ' ≤ remaining σ.
Proof.
  destruct 1 as [σ σ' G|σ f o Ho Hds|σ dirname p dependent err Hc
                 |σ f req Hdyn|σ f req dirname c Hst Hc|σ f req dependent err Hst Hc].
  - rewrite (grows_remaining _ _ G). lia.
  - unfold Dependencies.remaining. pose proof (pending_assign f o σ Ho Hds).
    change (Dependencies.unread env (set_dependencies f [] σ))
      with (Dependencies.unread env σ). lia.
  - reflexivity.
  - unfold Dependencies.remaining. rewrite pending_push. reflexivity.
  - unfold Dependencies.remaining. rewrite pending_push. reflexivity.
  - unfold Dependencies.remaining. rewrite pending_push. reflexivity.
Qed.

Lemma steps_remaining (σ σ' : Store) : steps σ σ' → remaining σ' ≤ remaining σ.
Proof.
  induction 1 as [|σ1 σ2 σ3 H12 _ IH]; [lia|].
  pose proof (step_remaining _ _ H12). lia.
Qed.

Lemma resolveRequirements_from_ends (analyze : ref → Store → Dependencies.Ending)
    (bound : nat) :
  (∀ d σ, remaining σ ≤ bound → analyze d σ ≠ Dependencies.Unfinished) →
  (∀ d σ σ', analyze d σ = Dependencies.Done σ' → steps σ σ') →
  ∀ requirements file σ,
    remaining σ ≤ bound →
    Dependencies.resolveRequirements_from env options analyze requirements file σ ≠
    Dependencies.Unfinished.
Proof.
  intros Hends Hsteps requirements file.
  induction requirements as [|req rest IH]; intros σ Hσ; simpl; [discriminate|].
  destruct (Required.static req) eqn:Hstatic; simpl.
  - destruct (cached _ (Required.path req) σ) as [c|] eqn:Hcached.
    + apply IH. unfold Dependencies.remaining in *. rewrite pending_push. exact Hσ.
    + pose proof (resolve_total env options (Required.path req)
                    (Some (Node.path_dirname env (path_of σ file))) σ) as Htotal.
      destruct (Resolver.resolve env options _ _ σ) as [[[err dependent] σ1]| |]
        eqn:Hres; [|discriminate|congruence].
      apply resolve_grows in Hres as [G _]. apply grows_remaining in G.
      match goal with
      | |- context [push_dependency file ?d (cache_result ?dn ?p ?c σ1)] =>
          assert (remaining (push_dependency file d (cache_result dn p c σ1)) ≤ bound)
            as Hσ3
      end.
      { unfold Dependencies.remaining in *. rewrite pending_push. exact (eq_ind_r (λ n, n ≤ bound) Hσ G). }
      destruct dependent as [dependent|]; [|apply IH, Hσ3].
      specialize (Hends dependent _ Hσ3).
      destruct (analyze dependent _) as [σ4| | |] eqn:Ha; try discriminate; [|congruence].
      apply IH. apply Hsteps, steps_remaining in Ha. lia.
  - apply IH. unfold Dependencies.remaining in *. rewrite pending_push. exact Hσ.
Qed.

(** With more fuel than files that can still receive a dependency list,
    [analyze] ends. *)
Lemma analyze_ends (fuel : nat) (file : option ref) (σ : Store) :
  remaining σ < fuel →
  Dependencies.analyze env options fuel file σ ≠ Dependencies.Unfinished.
Proof.
  revert file σ. induction fuel as [|fuel IH]; intros file σ Hfuel; [lia|].
  destruct file as [f|]; [|discriminate].
  destruct (objects σ !! f) as [o|] eqn:Ho;
    [rewrite (analyze_unfold env options _ _ _ _ Ho)
    |cbn [Dependencies.analyze]; rewrite Ho; discriminate].
  destruct (Vinyl.isNull (vinyl o)); [discriminate|].
  destruct (dependencies o) as [ds|] eqn:Hds; [discriminate|].
  pose proof (Required_analyze_total (Node.esprima_parse env) (Some (vinyl o))) as Hscan.
  destruct (Required.analyze _ _) as [[requirements|]| |]; try discriminate;
    [|congruence].
  assert (remaining (set_dependencies f [] σ) < fuel) as Hless.
  { unfold Dependencies.remaining in *. pose proof (pending_assign f o σ Ho Hds).
    change (Dependencies.unread env (set_dependencies f [] σ))
      with (Dependencies.unread env σ). lia. }
  apply (resolveRequirements_from_ends _ (remaining (set_dependencies f [] σ))).
  - intros d σ' Hσ'. apply IH. lia.
  - intros d σ1 σ2. apply analyze_steps.
  - lia.
Qed.

(** More fuel does not change an ending. *)
Lemma resolveRequirements_from_more
    (analyze analyze' : ref → Store → Dependencies.Ending) :
  (∀ d σ, analyze d σ ≠ Dependencies.Unfinished → analyze' d σ = analyze d σ) →
  ∀ requirements file σ,
    Dependencies.resolveRequirements_from env options analyze requirements file σ ≠
      Dependencies.Unfinished →
    Dependencies.resolveRequirements_from env options analyze' requirements file σ =
    Dependencies.resolveRequirements_from env options analyze requirements file σ.
Proof.
  intros Hmore requirements file.
  induction requirements as [|req rest IH]; intros σ; simpl; [reflexivity|].
  destruct (Required.static req); simpl; [|apply IH].
  destruct (cached _ (Required.path req) σ) as [c|]; [apply IH|].
  destruct (Resolver.resolve env options _ _ σ) as [[[err dependent] σ1]| |];
    try reflexivity.
  destruct dependent as [dependent|]; [|apply IH].
  intros Hends.
  rewrite Hmore by (intros Hd; rewrite Hd in Hends; contradiction).
  destruct (analyze dependent _) as [σ4| | |]; try reflexivity.
  apply IH, Hends.
Qed.

Lemma analyze_more (fuel : nat) (file : option ref) (σ : Store) :
  Dependencies.analyze env options fuel file σ ≠ Dependencies.Unfinished →
  Dependencies.analyze env options (S fuel) file σ =
  Dependencies.analyze env options fuel file σ.
Proof.
  revert file σ. induction fuel as [|fuel IH]; intros file σ Hends;
    [contradiction Hends; reflexivity|].
  destruct file as [f|]; [|reflexivity].
  destruct (objects σ !! f) as [o|] eqn:Ho;
    [|cbn [Dependencies.analyze]; rewrite Ho; reflexivity].
  rewrite (analyze_unfold env options (S fuel) _ _ _ Ho).
  rewrite (analyze_unfold env options fuel _ _ _ Ho) in Hends |- *.
  destruct (Vinyl.isNull (vinyl o)); [reflexivity|].
  destruct (dependencies o); [reflexivity|].
  destruct (Required.analyze _ _) as [[requirements|]| |]; try reflexivity.
  apply resolveRequirements_from_more; [|exact Hends].
  intros d σ'. apply IH.
Qed.

Lemma analyze_enough (fuel : nat) (file : option ref) (σ : Store) :
  Dependencies.budget env σ ≤ fuel →
  Dependencies.analyze env options fuel file σ =
  Dependencies.analyze env options (Dependencies.budget env σ) file σ.
Proof.
  induction 1 as [|fuel Hle IH]; [reflexivity|].
  rewrite analyze_more; [exact IH|]. rewrite IH.
  apply analyze_ends. unfold Dependencies.budget. lia.
Qed.

(** The facade never lacks fuel. *)
Lemma Cartographer_analyze_ends (fileName : string) (σ : Store) :
  Cartographer.analyze env options fileName σ ≠ Cartographer.OutOfFuel.
Proof.
  unfold Cartographer.analyze.
  pose proof (resolve_total env options fileName None σ) as Hres.
  destruct (Resolver.resolve env options fileName None σ) as [[[err file] σ1]| |];
    [|discriminate|congruence].
  destruct err; [discriminate|]. destruct file as [f|]; [|discriminate].
  pose proof (analyze_ends (Dependencies.budget env σ1) (Some f) σ1) as Hends.
  destruct (Dependencies.analyze env options _ (Some f) σ1); try discriminate.
  exfalso. apply Hends; [unfold Dependencies.budget; lia|reflexivity].
Qed.

End TerminationFacts.

(** ** The path cache and the dependency records *)

Section CacheFacts.
Variable env : Node.Env.
Variable options : Resolver.Options.

Local Abbreviation steps := (rtc (Reach.step env)).

Lemma alter_lookup_path (g : FileObject → FileObject) (f r : ref)
    (l : list FileObject) :
  (∀ o, vinyl (g o) = vinyl o) →
  (Vinyl.path ∘ vinyl) <$> alter g f l !! r = (Vinyl.path ∘ vinyl) <$> l !! r.
Proof.
  intros Hg. destruct (decide (f = r)) as [->|Hne].
  - rewrite list_lookup_alter_eq. destruct (l !! r) as [o|]; simpl; [|reflexivity].
    rewrite Hg. reflexivity.
  - rewrite list_lookup_alter_ne by exact Hne. reflexivity.
Qed.

Lemma consistent_alter (g : FileObject → FileObject) (f : ref) (σ σ' : Store) :
  (∀ o, vinyl (g o) = vinyl o) →
  objects σ' = alter g f (objects σ) →
  resolver_cache σ' = resolver_cache σ →
  Reach.consistent σ → Reach.consistent σ'.
Proof.
  intros Hg Hobj Hcache Hσ p r Hp. rewrite Hcache in Hp. specialize (Hσ p r Hp).
  simpl in *. rewrite Hobj, alter_lookup_path by exact Hg. exact Hσ.
Qed.

Lemma push_links (f : ref) (d : Dependency) (σ : Store) :
  (∀ r, file d = Some r → Reach.in_cache σ r) →
  Reach.links_cached σ → Reach.links_cached (push_dependency f d σ).
Proof.
  intros Hd [Hrecords Hcached]. split; [|exact Hcached].
  intros f' o' ds' d' r Ho' Hds' Hin Hfile.
  unfold push_dependency in Ho'. cbn [objects] in Ho'.
  change (Reach.in_cache σ r).
  destruct (decide (f = f')) as [<-|Hne].
  - rewrite list_lookup_alter_eq in Ho'.
    destruct (objects σ !! f) as [o|] eqn:Ho; [|discriminate].
    injection Ho' as <-. simpl in Hds'.
    destruct (dependencies o) as [ds|] eqn:Hds; [|discriminate].
    injection Hds' as <-. apply elem_of_app in Hin as [Hold|Hnew].
    + exact (Hrecords f o ds d' r Ho Hds Hold Hfile).
    + apply list_elem_of_singleton in Hnew as ->. exact (Hd r Hfile).
  - rewrite list_lookup_alter_ne in Ho' by exact Hne.
    exact (Hrecords f' o' ds' d' r Ho' Hds' Hin Hfile).
Qed.

Lemma cached_cache_result (dirname path dirname' path' : string) (c : CacheResult)
    (σ : Store) :
  cached dirname' path' (cache_result dirname path c σ) =
  if decide (dirname = dirname' ∧ path = path') then Some c
  else cached dirname' path' σ.
Proof.
  unfold cached, cache_result. cbn [dependencies_cache].
  destruct (decide (dirname = dirname')) as [<-|Hd].
  - rewrite lookup_insert_eq. destruct (decide (path = path')) as [<-|Hp].
    + rewrite lookup_insert_eq. rewrite decide_True by auto. reflexivity.
    + rewrite lookup_insert_ne by exact Hp. rewrite decide_False by tauto.
      destruct (dependencies_cache σ !! dirname); [reflexivity|apply lookup_empty].
  - rewrite lookup_insert_ne by exact Hd. rewrite decide_False by tauto. reflexivity.
Qed.

Lemma step_healthy (σ σ' : Store) :
  Reach.step env σ σ' →
  Reach.consistent σ ∧ Reach.links_cached σ →
  Reach.consistent σ' ∧ Reach.links_cached σ'.
Proof.
  destruct 1 as [σ σ' G|σ f o Ho Hds|σ dirname p dependent err Hc
                 |σ f req Hdyn|σ f req dirname c Hst Hc|σ f req dependent err Hst Hc];
    intros [Hcons Hlinks].
  - split; [exact (grows_consistent env _ _ G Hcons)|].
    destruct Hlinks as [Hrecords Hcached].
    destruct (grows_objects env _ _ G) as [news [Hobj Hnews]].
    split.
    + intros f o ds d r Ho Hds Hin Hfile. apply (grows_cache env _ _ _ G).
      rewrite Hobj in Ho. apply lookup_app_Some in Ho as [Ho|[_ Ho]].
      * exact (Hrecords f o ds d r Ho Hds Hin Hfile).
      * apply (Forall_lookup_1 _ _ _ _ Hnews) in Ho as [Hnone _]. congruence.
    + intros dirname path c r Hc Hfile. apply (grows_cache env _ _ _ G).
      unfold cached in Hc. rewrite (grows_dependencies_cache env _ _ G) in Hc.
      exact (Hcached dirname path c r Hc Hfile).
  - split.
    + eapply consistent_alter; [|reflexivity|reflexivity|exact Hcons]. reflexivity.
    + destruct Hlinks as [Hrecords Hcached]. split; [|exact Hcached].
      intros f' o' ds' d' r Ho' Hds' Hin Hfile.
      unfold set_dependencies in Ho'. cbn [objects] in Ho'.
      change (Reach.in_cache σ r).
      destruct (decide (f = f')) as [<-|Hne].
      * rewrite list_lookup_alter_eq, Ho in Ho'. injection Ho' as <-.
        simpl in Hds'. injection Hds' as <-. inversion Hin.
      * rewrite list_lookup_alter_ne in Ho' by exact Hne.
        exact (Hrecords f' o' ds' d' r Ho' Hds' Hin Hfile).
  - split; [exact Hcons|]. destruct Hlinks as [Hrecords Hcached].
    split; [exact Hrecords|].
    intros dirname' path' c r Hc' Hfile. change (Reach.in_cache σ r).
    rewrite cached_cache_result in Hc'. case_decide.
    + injection Hc' as <-. exact (Hc r Hfile).
    + exact (Hcached dirname' path' c r Hc' Hfile).
  - split; [eapply consistent_alter; [|reflexivity|reflexivity|exact Hcons]; reflexivity|].
    apply push_links; [discriminate|exact Hlinks].
  - split; [eapply consistent_alter; [|reflexivity|reflexivity|exact Hcons]; reflexivity|].
    apply push_links; [|exact Hlinks]. intros r Hr.
    exact (proj2 Hlinks _ _ _ _ Hc Hr).
  - split; [eapply consistent_alter; [|reflexivity|reflexivity|exact Hcons]; reflexivity|].
    apply push_links; [exact Hc|exact Hlinks].
Qed.

Lemma steps_healthy (σ σ' : Store) :
  steps σ σ' →
  Reach.consistent σ ∧ Reach.links_cached σ →
  Reach.consistent σ' ∧ Reach.links_cached σ'.
Proof. induction 1; eauto using step_healthy. Qed.

(** A cached File object is cached under its own path, and only there. *)
Lemma consistent_once (σ : Store) (r : ref) :
  Reach.consistent σ → Reach.in_cache σ r →
  resolver_cache σ !! path_of σ r = Some r ∧
  ∀ q, resolver_cache σ !! q = Some r → q = path_of σ r.
Proof.
  intros Hcons [p Hp].
  assert (∀ q, resolver_cache σ !! q = Some r → q = path_of σ r) as Honly.
  { intros q Hq. specialize (Hcons q r Hq). simpl in Hcons. unfold path_of.
    destruct (objects σ !! r) as [o|]; simpl in Hcons; congruence. }
  split; [|exact Honly]. rewrite <- (Honly p Hp). exact Hp.
Qed.

(** A fresh process, and the facade's resolution of the entry file. *)
Lemma empty_healthy : Reach.consistent Heap.empty ∧ Reach.links_cached Heap.empty.
Proof.
  split; [apply map_Forall_empty|]. split.
  - intros f o ds d r Ho. destruct f; discriminate Ho.
  - intros dirname path c r Hc. unfold cached in Hc. simpl in Hc.
    rewrite lookup_empty in Hc. discriminate.
Qed.

Lemma resolve_healthy (module : string) (base : option string) (σ σ' : Store)
    (answer : Resolver.Answer) :
  Resolver.resolve env options module base σ = Returned (answer, σ') →
  Reach.consistent σ ∧ Reach.links_cached σ →
  Reach.consistent σ' ∧ Reach.links_cached σ'.
Proof.
  intros [G _]%resolve_grows. apply step_healthy. apply Reach.step_resolver, G.
Qed.

(** When the facade completes without error, the path cache is consistent
    and holds the root file under its own path only. *)
Lemma Cartographer_analyze_healthy (fileName : string) (σ σ' : Store) (root : ref) :
  Reach.consistent σ ∧ Reach.links_cached σ →
  Cartographer.analyze env options fileName σ =
    Cartographer.Completed None (Some root) σ' →
  Reach.consistent σ' ∧ Reach.links_cached σ' ∧
  resolver_cache σ' !! path_of σ' root = Some root.
Proof.
  intros Hσ. unfold Cartographer.analyze.
  destruct (Resolver.resolve env options fileName None σ) as [[[err file] σ1]| |]
    eqn:Hres; try discriminate.
  destruct err; [discriminate|]. destruct file as [f|]; [|discriminate].
  destruct (Dependencies.analyze env options _ (Some f) σ1) as [σ2| | |] eqn:Hrun;
    try discriminate.
  intros [= <- <-].
  pose proof (resolve_healthy _ _ _ _ _ Hres Hσ) as Hσ1.
  apply resolve_grows in Hres as [_ Hin]. specialize (Hin f eq_refl).
  apply analyze_steps in Hrun.
  destruct (steps_healthy _ _ Hrun Hσ1) as [Hcons Hlinks].
  split; [exact Hcons|]. split; [exact Hlinks|].
  apply consistent_once; [exact Hcons|].
  clear -Hrun Hin. induction Hrun as [|σa σb σc Hab _ IH]; [exact Hin|].
  apply IH. destruct Hin as [p Hp]. destruct Hab; try (exists p; exact Hp).
  eapply grows_cache; [eassumption|]. exists p. exact Hp.
Qed.

End CacheFacts.

(** C1.  From objects whose path cache is consistent, [analyze] ends on
    every input, cyclic or not, with the fuel [budget] provides, and more
    fuel gives the same ending.  A file
    whose dependency list is assigned is not scanned again: [analyze]
    invokes the callback at once and changes nothing.  So when a
    requirement resolves to such a file (a back edge), the record appended
    refers to that very File object, whatever its list holds by then, and
    the walk goes on with the next requirement.  When [analyze] is done,
    the cache is still consistent and every File object a dependency
    record refers to is held by the path cache under exactly one key, its
    own path. *)
Theorem analyze_ends_on_cycles (env : Node.Env) (options : Resolver.Options) (σ : Store) :
  Reach.consistent σ → Reach.links_cached σ →
  (∀ root,
     Dependencies.analyze env options (Dependencies.budget env σ) root σ ≠
       Dependencies.Unfinished ∧
     ∀ fuel, Dependencies.budget env σ ≤ fuel →
       Dependencies.analyze env options fuel root σ =
       Dependencies.analyze env options (Dependencies.budget env σ) root σ) ∧
  (∀ fuel f o ds,
     objects σ !! f = Some o → Vinyl.isNull (vinyl o) = false →
     dependencies o = Some ds →
     Dependencies.analyze env options (S fuel) (Some f) σ = Dependencies.Done σ) ∧
  (∀ fuel requirement rest f err dependent σ1 o,
     Required.static requirement = true →
     let dirname := Node.path_dirname env (path_of σ f) in
     cached dirname (Required.path requirement) σ = None →
     Resolver.resolve env options (Required.path requirement) (Some dirname) σ =
       Returned ((err, Some dependent), σ1) →
     objects σ1 !! dependent = Some o → Vinyl.isNull (vinyl o) = false →
     is_Some (dependencies o) →
     Dependencies.resolveRequirements_from env options
       (λ d, Dependencies.analyze env options (S fuel) (Some d))
       (requirement :: rest) f σ =
     Dependencies.resolveRequirements_from env options
       (λ d, Dependencies.analyze env options (S fuel) (Some d))
       rest f
       (push_dependency f
          {| path := Required.path requirement;
             static := Required.static requirement;
             references := Required.references requirement;
             file := Some dependent;
             error := err |}
          (cache_result dirname (Required.path requirement)
             {| cached_file := Some dependent; cached_error := err |} σ1))) ∧
  (∀ fuel root σ',
     Dependencies.analyze env options fuel root σ = Dependencies.Done σ' →
     Reach.consistent σ' ∧
     ∀ f o ds d r,
       objects σ' !! f = Some o → dependencies o = Some ds → d ∈ ds →
       file d = Some r →
       resolver_cache σ' !! path_of σ' r = Some r ∧
       ∀ q, resolver_cache σ' !! q = Some r → q = path_of σ' r).
Proof.
  intros Hcons Hlinks.
  assert (∀ fuel τ f o ds,
            objects τ !! f = Some o → Vinyl.isNull (vinyl o) = false →
            dependencies o = Some ds →
            Dependencies.analyze env options (S fuel) (Some f) τ = Dependencies.Done τ)
    as Hagain.
  { intros fuel τ f o ds Ho Hnull Hds.
    rewrite (analyze_unfold env options _ _ _ _ Ho), Hnull, Hds. reflexivity. }
  split; [|split; [|split]].
  - intros root. split; [apply analyze_ends; unfold Dependencies.budget; lia|].
    intros fuel. apply analyze_enough.
  - intros fuel. apply Hagain.
  - intros fuel requirement rest f err dependent σ1 o Hstatic dirname Hcached Hres
      Ho Hnull [ds Hds].
    cbn [Dependencies.resolveRequirements_from]. fold dirname.
    rewrite Hstatic, Hcached, Hres. cbn [negb].
    unfold Dependencies.dependency_of.
    match goal with
    | |- context [Dependencies.analyze env options (S fuel) (Some dependent) ?τ] =>
        assert (∃ o', objects τ !! dependent = Some o' ∧
                      Vinyl.isNull (vinyl o') = false ∧ is_Some (dependencies o'))
          as (o' & Ho' & Hnull' & [ds' Hds'])
    end.
    { unfold push_dependency, cache_result. cbn [objects].
      destruct (decide (f = dependent)) as [->|Hne].
      - rewrite list_lookup_alter_eq, Ho. eexists. split; [reflexivity|].
        simpl. rewrite Hds. simpl. eauto.
      - rewrite list_lookup_alter_ne by exact Hne. eauto. }
    rewrite (Hagain _ _ _ _ _ Ho' Hnull' Hds'), ?Hstatic. reflexivity.
  - intros fuel root σ' Hdone. apply analyze_steps in Hdone.
    destruct (steps_healthy env _ _ Hdone (conj Hcons Hlinks)) as [Hcons' Hlinks'].
    split; [exact Hcons'|].
    intros f o ds d r Ho Hds Hin Hfile. apply consistent_once; [exact Hcons'|].
    exact (proj1 Hlinks' f o ds d r Ho Hds Hin Hfile).
Qed.

(** C1 at scenario 6: [/a/x.js] and [/a/y.js] require each other.  The
    walk from [/a/x.js] is done; each of the two lists holds one record,
    which refers to the other File object; each of the two objects is in
    the path cache under its own path only. *)
Lemma analyze_ends_on_cycles_witness :
  Reach.consistent Scenario.cycle_start ∧ Reach.links_cached Scenario.cycle_start ∧
  ∃ σ',
    Dependencies.analyze Scenario.cycle Resolver.defaults
      (Dependencies.budget Scenario.cycle Scenario.cycle_start) (Some 0)
      Scenario.cycle_start = Dependencies.Done σ' ∧
    map (λ o, (Vinyl.path (vinyl o), map file (default [] (dependencies o))))
        (objects σ') =
      [("/a/x.js", [Some 1]); ("/a/y.js", [Some 0])] ∧
    (resolver_cache σ' !! "/a/x.js" = Some 0 ∧
     ∀ q, resolver_cache σ' !! q = Some 0 → q = "/a/x.js") ∧
    (resolver_cache σ' !! "/a/y.js" = Some 1 ∧
     ∀ q, resolver_cache σ' !! q = Some 1 → q = "/a/y.js").
Proof.
  set (σ := Scenario.cycle_start).
  assert (Reach.consistent σ) as Hcons.
  { apply (bool_decide_unpack _). vm_compute. reflexivity. }
  assert (objects σ =
          [ {| vinyl := {| Vinyl.path := "/a/x.js";
                           Vinyl.contents := Some (Scenario.single_source "./y") |};
               dependencies := None |} ]) as Hobjects by (vm_compute; reflexivity).
  assert (dependencies_cache σ = ∅) as Hempty by (vm_compute; reflexivity).
  assert (Reach.links_cached σ) as Hlinks.
  { split.
    - intros f o ds d r Ho Hds. rewrite Hobjects in Ho.
      destruct f as [|f]; simpl in Ho; [|destruct f; discriminate].
      injection Ho as <-. discriminate Hds.
    - intros dirname p c r Hc. unfold cached in Hc. rewrite Hempty in Hc.
      rewrite lookup_empty in Hc. discriminate. }
  split; [exact Hcons|]. split; [exact Hlinks|].
  destruct (analyze_ends_on_cycles Scenario.cycle Resolver.defaults σ Hcons Hlinks)
    as (_ & _ & _ & Hdone).
  eexists. split; [vm_compute; reflexivity|].
  split; [vm_compute; reflexivity|].
  match goal with
  | |- (resolver_cache ?τ !! _ = _ ∧ _) ∧ _ =>
      assert (Dependencies.analyze Scenario.cycle Resolver.defaults
                (Dependencies.budget Scenario.cycle σ) (Some 0) σ =
              Dependencies.Done τ) as Hrun by (vm_compute; reflexivity);
      destruct (Hdone _ _ _ Hrun) as [_ Honce]
  end.
  split.
  - eapply (Honce 1 _ _ _ 0); [vm_compute; reflexivity|reflexivity|left|reflexivity].
  - eapply (Honce 0 _ _ _ 1); [vm_compute; reflexivity|reflexivity|left|reflexivity].
Defined.

(* ===================================================================== *)
(** * Further properties *)
(* ===================================================================== *)

Section StableFacts.
Variable env : Node.Env.
Variable options : Resolver.Options.

Local Abbreviation later := (Cache.later env).

Lemma later_refl (σ : Store) : later σ σ.
Proof. split; auto. Qed.

Lemma later_trans (σ1 σ2 σ3 : Store) : later σ1 σ2 → later σ2 σ3 → later σ1 σ3.
Proof. intros [A1 B1] [A2 B2]. split; auto. Qed.

Lemma later_same_cache (σ σ' τ : Store) :
  resolver_cache τ = resolver_cache σ' → later σ σ' → later σ τ.
Proof. intros H [A B]. split; intros; rewrite H; auto. Qed.

Lemma grows_later (σ σ' : Store) : Reach.grows env σ σ' → later σ σ'.
Proof.
  induction 1 as [σ|σ σ' realName contents _ [A B] Hc Hfs]; [apply later_refl|].
  split; simpl.
  - intros p r Hp. rewrite lookup_insert_ne; [exact (A p r Hp)|].
    intros ->. rewrite (A p r Hp) in Hc. discriminate.
  - intros p Hp Hdisk. rewrite lookup_insert_ne; [exact (B p Hp Hdisk)|].
    intros ->. congruence.
Qed.

Lemma loadFile_from_stable (exts : list string) (fileName : string) (σ σ1 τ : Store)
    (file : option ref) :
  Resolver.loadFile_from env exts fileName σ = (file, σ1) →
  later σ1 τ →
  Resolver.loadFile_from env exts fileName τ = (file, τ).
Proof.
  induction exts as [|ext exts IH]; simpl.
  - intros [= <- <-] _. reflexivity.
  - destruct (resolver_cache σ !! (fileName +:+ ext)) as [f|] eqn:Hc.
    + intros [= <- <-] [A _]. rewrite (A _ _ Hc). reflexivity.
    + destruct (Node.fs env !! (fileName +:+ ext)) as [contents|] eqn:Hfs.
      * intros [= <- <-] [A _]. rewrite (A (fileName +:+ ext) (length (objects σ))).
        -- reflexivity.
        -- simpl. apply lookup_insert_eq.
      * intros Hrun Hlater.
        pose proof (proj1 (loadFile_from_grows env _ _ _ _ _ Hrun)) as G.
        destruct (later_trans _ _ _ (grows_later _ _ G) Hlater) as [_ B].
        rewrite (B _ Hc Hfs). exact (IH Hrun Hlater).
Qed.

Lemma loadFile_stable (fileName : string) (ext : nat) (σ σ1 τ : Store)
    (file : option ref) :
  Resolver.loadFile env options fileName ext σ = (file, σ1) →
  later σ1 τ →
  Resolver.loadFile env options fileName ext τ = (file, τ).
Proof. apply loadFile_from_stable. Qed.

Lemma loadIndex_stable (directory : string) (σ σ1 τ : Store)
    (answer : Resolver.Answer) :
  Resolver.loadIndex env options directory σ = (answer, σ1) →
  later σ1 τ →
  Resolver.loadIndex env options directory τ = (answer, τ).
Proof.
  unfold Resolver.loadIndex.
  destruct (Resolver.loadFile env options _ 0 σ) as [file σ'] eqn:Hload.
  intros [= <- <-] Hlater. rewrite (loadFile_stable _ _ _ _ _ _ Hload Hlater).
  reflexivity.
Qed.

Lemma loadDirectory_from_stable (pkgs : list string) (directory : string)
    (σ σ1 τ : Store) (answer : Resolver.Answer) :
  Resolver.loadDirectory_from env options pkgs directory σ = Returned (answer, σ1) →
  later σ1 τ →
  Resolver.loadDirectory_from env options pkgs directory τ = Returned (answer, τ).
Proof.
  induction pkgs as [|pkg pkgs IH]; simpl.
  - intros [= H] Hlater. rewrite (loadIndex_stable _ _ _ _ _ H Hlater). reflexivity.
  - destruct (Node.fs env !! _) as [data|]; [|exact IH].
    destruct (Node.JSON_parse env data) as [packageData|].
    + unfold mbind, Outcome_bind.
      destruct (Resolver.getEntryPoint env options packageData) as [e| |]; simpl;
        try discriminate.
      destruct (Resolver.resolve_entry env directory e) as [entry| |]; simpl;
        try discriminate.
      destruct (Resolver.loadFile env options entry 0 σ) as [[file|] σa] eqn:H1.
      * intros [= <- <-] Hlater. rewrite (loadFile_stable _ _ _ _ _ _ H1 Hlater).
        reflexivity.
      * destruct (Resolver.loadFile env options _ 0 σa) as [[file|] σb] eqn:H2.
        -- intros [= <- <-] Hlater.
           pose proof (grows_later _ _ (proj1 (loadFile_grows env options _ _ _ _ _ H2)))
             as L2.
           rewrite (loadFile_stable _ _ _ _ _ _ H1 (later_trans _ _ _ L2 Hlater)).
           rewrite (loadFile_stable _ _ _ _ _ _ H2 Hlater). reflexivity.
        -- intros [= H3] Hlater.
           pose proof (grows_later _ _ (proj1 (loadFile_grows env options _ _ _ _ _ H2)))
             as L2.
           pose proof (grows_later _ _ (proj1 (loadIndex_grows env options _ _ _ _ H3)))
             as L3.
           rewrite (loadFile_stable _ _ _ _ _ _ H1
                      (later_trans _ _ _ L2 (later_trans _ _ _ L3 Hlater))).
           rewrite (loadFile_stable _ _ _ _ _ _ H2 (later_trans _ _ _ L3 Hlater)).
           rewrite (loadIndex_stable _ _ _ _ _ H3 Hlater). reflexivity.
    + intros [= <- <-] _. reflexivity.
Qed.

Lemma resolveRelative_stable (module : string) (σ σ1 τ : Store)
    (answer : Resolver.Answer) :
  Resolver.resolveRelative env options module σ = Returned (answer, σ1) →
  later σ1 τ →
  Resolver.resolveRelative env options module τ = Returned (answer, τ).
Proof.
  unfold Resolver.resolveRelative.
  destruct (Resolver.loadFile env options module 0 σ) as [[file|] σa] eqn:H1.
  - intros [= <- <-] Hlater. rewrite (loadFile_stable _ _ _ _ _ _ H1 Hlater).
    reflexivity.
  - intros H2 Hlater.
    pose proof (grows_later _ _ (proj1 (loadDirectory_from_grows env options _ _ _ _ _ H2)))
      as L2.
    rewrite (loadFile_stable _ _ _ _ _ _ H1 (later_trans _ _ _ L2 Hlater)).
    exact (loadDirectory_from_stable _ _ _ _ _ _ H2 Hlater).
Qed.

Lemma resolveModule_stable (fuel : nat) (base moduleName : string) (directory : nat)
    (σ σ1 τ : Store) (answer : Resolver.Answer) :
  Resolver.resolveModule env options fuel base moduleName directory σ =
    Returned (answer, σ1) →
  later σ1 τ →
  Resolver.resolveModule env options fuel base moduleName directory τ =
    Returned (answer, τ).
Proof.
  revert base directory σ. induction fuel as [|fuel IH]; intros base directory σ;
    simpl; [discriminate|].
  destruct (Nat.eqb (String.length base) 0).
  { intros [= <- <-] _. reflexivity. }
  destruct (Resolver.modules options !! directory) as [moduleDir|]; [|discriminate].
  unfold mbind, Outcome_bind.
  destruct (Resolver.resolveRelative env options _ σ) as [[a σa]| |] eqn:H1; simpl;
    try discriminate.
  destruct (snd a) as [file|] eqn:Ha.
  - intros [= <- <-] Hlater. rewrite (resolveRelative_stable _ _ _ _ _ H1 Hlater).
    simpl. rewrite Ha. reflexivity.
  - intros H2 Hlater.
    assert (later σa τ) as La.
    { destruct (length (Resolver.modules options) <=? directory + 1);
        apply resolveModule_grows in H2 as [G _];
        exact (later_trans _ _ _ (grows_later _ _ G) Hlater). }
    rewrite (resolveRelative_stable _ _ _ _ _ H1 La). simpl. rewrite Ha.
    destruct (length (Resolver.modules options) <=? directory + 1);
      exact (IH _ _ _ H2 Hlater).
Qed.

Lemma resolve_stable (module : string) (base : option string) (σ σ1 τ : Store)
    (answer : Resolver.Answer) :
  Resolver.resolve env options module base σ = Returned (answer, σ1) →
  later σ1 τ →
  Resolver.resolve env options module base τ = Returned (answer, τ).
Proof.
  unfold Resolver.resolve. destruct (String.eqb module EmptyString); [discriminate|].
  destruct (Resolver.RELATIVE_PATH module).
  - apply resolveRelative_stable.
  - apply resolveModule_stable.
Qed.

End StableFacts.

Section EffectFacts.
Variable env : Node.Env.
Variable options : Resolver.Options.

Local Abbreviation fetched := (Cache.fetched env).

Local Abbreviation malformed := (Manifest.malformed env).

Lemma loadFile_from_fetched (exts : list string) (fileName : string) (σ σ' : Store)
    (file : option ref) :
  Resolver.loadFile_from env exts fileName σ = (file, σ') → fetched σ file σ'.
Proof.
  induction exts as [|ext exts IH]; simpl.
  - intros [= <- <-]. reflexivity.
  - destruct (resolver_cache σ !! (fileName +:+ ext)) as [f|] eqn:Hc.
    + intros [= <- <-]. left. eauto.
    + destruct (Node.fs env !! (fileName +:+ ext)) as [contents|] eqn:Hfs; [|exact IH].
      intros [= <- <-]. right. exists (fileName +:+ ext), contents. auto.
Qed.

Lemma loadFile_missed (fileName : string) (ext : nat) (σ σ' : Store) :
  Resolver.loadFile env options fileName ext σ = (None, σ') → σ' = σ.
Proof. intros H. exact (loadFile_from_fetched _ _ _ _ _ H). Qed.

Lemma loadIndex_fetched (directory : string) (σ σ' : Store) (answer : Resolver.Answer) :
  Resolver.loadIndex env options directory σ = (answer, σ') →
  fst answer = None ∧ fetched σ (snd answer) σ'.
Proof.
  unfold Resolver.loadIndex.
  destruct (Resolver.loadFile env options _ 0 σ) as [file σ1] eqn:Hload.
  intros [= <- <-]. split; [reflexivity|]. exact (loadFile_from_fetched _ _ _ _ _ Hload).
Qed.

Lemma loadDirectory_from_fetched (pkgs : list string) (directory : string)
    (σ σ' : Store) (answer : Resolver.Answer) :
  Resolver.loadDirectory_from env options pkgs directory σ = Returned (answer, σ') →
  fetched σ (snd answer) σ' ∧
  ∀ e, fst answer = Some e → snd answer = None ∧ malformed pkgs directory e.
Proof.
  induction pkgs as [|pkg pkgs IH]; simpl.
  - intros [= H]. apply loadIndex_fetched in H as [Hnone Hf].
    split; [exact Hf|]. intros e He. congruence.
  - destruct (Node.fs env !! _) as [data|] eqn:Hfs.
    2:{ intros H. destruct (IH H) as [Hf He]. split; [exact Hf|].
        intros e Hfst. destruct (He e Hfst) as [Hsnd (p & d & Hp & Hd & Hj & ->)].
        split; [exact Hsnd|]. exists p, d. split; [right; exact Hp|auto]. }
    destruct (Node.JSON_parse env data) as [packageData|] eqn:Hjson.
    + unfold mbind, Outcome_bind.
      destruct (Resolver.getEntryPoint env options packageData) as [e| |]; simpl;
        try discriminate.
      destruct (Resolver.resolve_entry env directory e) as [entry| |]; simpl;
        try discriminate.
      destruct (Resolver.loadFile env options entry 0 σ) as [[file|] σa] eqn:H1.
      * intros [= <- <-]. split; [exact (loadFile_from_fetched _ _ _ _ _ H1)|].
        discriminate.
      * apply loadFile_missed in H1 as ->.
        destruct (Resolver.loadFile env options _ 0 σ) as [[file|] σb] eqn:H2.
        -- intros [= <- <-]. split; [exact (loadFile_from_fetched _ _ _ _ _ H2)|].
           discriminate.
        -- apply loadFile_missed in H2 as ->.
           intros [= H3]. apply loadIndex_fetched in H3 as [Hnone Hf].
           split; [exact Hf|]. intros e' He'. congruence.
    + intros [= <- <-]. split; [reflexivity|]. intros e [= <-].
      split; [reflexivity|]. exists pkg, data. split; [left|auto].
Qed.

Lemma resolveRelative_fetched (module : string) (σ σ' : Store)
    (answer : Resolver.Answer) :
  Resolver.resolveRelative env options module σ = Returned (answer, σ') →
  fetched σ (snd answer) σ' ∧
  ∀ e, fst answer = Some e →
       snd answer = None ∧ malformed (Resolver.packages options) module e.
Proof.
  unfold Resolver.resolveRelative.
  destruct (Resolver.loadFile env options module 0 σ) as [[file|] σa] eqn:H1.
  - intros [= <- <-]. split; [exact (loadFile_from_fetched _ _ _ _ _ H1)|discriminate].
  - apply loadFile_missed in H1 as ->. unfold Resolver.loadDirectory. rewrite drop_0.
    apply loadDirectory_from_fetched.
Qed.

Lemma resolveModule_fetched (fuel : nat) (base moduleName : string) (directory : nat)
    (σ σ' : Store) (answer : Resolver.Answer) :
  Resolver.resolveModule env options fuel base moduleName directory σ =
    Returned (answer, σ') →
  fst answer = None ∧ fetched σ (snd answer) σ'.
Proof.
  revert base directory. induction fuel as [|fuel IH]; intros base directory;
    simpl; [discriminate|].
  destruct (Nat.eqb (String.length base) 0).
  { intros [= <- <-]. split; reflexivity. }
  destruct (Resolver.modules options !! directory) as [moduleDir|]; [|discriminate].
  unfold mbind, Outcome_bind.
  destruct (Resolver.resolveRelative env options _ σ) as [[a σa]| |] eqn:H1; simpl;
    try discriminate.
  apply resolveRelative_fetched in H1 as [Hf _].
  destruct (snd a) as [file|] eqn:Ha.
  - intros [= <- <-]. split; [reflexivity|exact Hf].
  - simpl in Hf. subst σa.
    destruct (length (Resolver.modules options) <=? directory + 1); apply IH.
Qed.

Lemma resolve_fetched (module : string) (base : option string) (σ σ' : Store)
    (answer : Resolver.Answer) :
  Resolver.resolve env options module base σ = Returned (answer, σ') →
  fetched σ (snd answer) σ' ∧
  ∀ e, fst answer = Some e →
       snd answer = None ∧
       Resolver.RELATIVE_PATH module = true ∧
       malformed (Resolver.packages options) (Walk.joined env module base) e.
Proof.
  destruct (Resolver.RELATIVE_PATH module) eqn:Hrel.
  - rewrite (resolve_relative env options _ _ _ Hrel).
    intros [Hf He]%resolveRelative_fetched. split; [exact Hf|].
    intros e Hfst. destruct (He e Hfst) as [Hsnd Hm]. auto.
  - unfold Resolver.resolve. destruct (String.eqb module EmptyString); [discriminate|].
    rewrite Hrel. intros [Hnone Hf]%resolveModule_fetched. split; [exact Hf|].
    intros e He. congruence.
Qed.

End EffectFacts.

Section FaithfulFacts.
Variable env : Node.Env.
Variable options : Resolver.Options.

Lemma grows_faithful (σ σ' : Store) :
  Reach.grows env σ σ' → Cache.faithful env σ → Cache.faithful env σ'.
Proof.
  induction 1 as [σ|σ σ' realName contents _ IH Hc Hfs]; [auto|].
  intros Hσ p r. specialize (IH Hσ). simpl.
  destruct (decide (realName = p)) as [->|Hne].
  - rewrite lookup_insert_eq. intros [= <-].
    exists {| vinyl := {| Vinyl.path := p; Vinyl.contents := Some contents |};
              dependencies := None |}, contents.
    split; [|split; [exact Hfs|reflexivity]].
    rewrite lookup_app_r by lia. rewrite Nat.sub_diag. reflexivity.
  - rewrite lookup_insert_ne by exact Hne. intros Hp.
    destruct (IH p r Hp) as (o & c & Ho & Hdisk & Hv). exists o, c.
    split; [|split; assumption]. apply lookup_app_l_Some. exact Ho.
Qed.

Lemma empty_faithful : Cache.faithful env Heap.empty.
Proof. intros p r Hp. simpl in Hp. rewrite lookup_empty in Hp. discriminate. Qed.

(** A [main] that leads to a falsy value selects nothing. *)
Lemma descend_selects (levels : list string) (v w : Node.Value env) :
  Resolver.descend env levels v = Returned w →
  if Node.truthy env w then Manifest.at_path env levels v w
  else ∀ w', Manifest.at_path env levels v w' → Node.truthy env w' = true → False.
Proof.
  revert v. induction levels as [|level levels IH]; intros v; simpl.
  - intros [= <-]. destruct (Node.truthy env v) eqn:Hv; [constructor|].
    intros w' Hw'. inversion Hw'; subst. congruence.
  - destruct (Node.property env v level) as [next|] eqn:Hp; [|discriminate].
    destruct (Node.truthy env next) eqn:Hnext.
    + intros Hrun. specialize (IH _ Hrun). destruct (Node.truthy env w).
      * econstructor; eassumption.
      * intros w' Hw'. inversion Hw'; subst.
        match goal with H : Node.property env v level = Some ?n |- _ =>
          rewrite Hp in H; injection H as <- end.
        eapply IH. eassumption.
    + intros [= <-]. rewrite Hnext. intros w' Hw'. inversion Hw'; subst.
      match goal with H : Node.property env v level = Some ?n |- _ =>
        rewrite Hp in H; injection H as <- end.
      congruence.
Qed.

Lemma getEntryPoint_from_first (mains : list Resolver.MainSpec) (v : Node.Value env)
    (entry : Node.Value env + string) :
  Resolver.getEntryPoint_from env options mains v = Returned entry →
  match entry with
  | inl w =>
      ∃ skipped main rest,
        mains = skipped ++ main :: rest ∧
        Manifest.selects env main v w ∧
        ∀ m w', m ∈ skipped → ¬ Manifest.selects env m v w'
  | inr s =>
      s = Resolver.index options ∧
      ∀ m w', m ∈ mains → ¬ Manifest.selects env m v w'
  end.
Proof.
  revert entry. induction mains as [|main mains IH]; intros entry; simpl.
  - intros [= <-]. split; [reflexivity|]. intros m w' Hm. inversion Hm.
  - unfold mbind, Outcome_bind.
    destruct (Resolver.descend env (Resolver.levels_of main) v) as [w| |] eqn:Hd;
      simpl; try discriminate.
    apply descend_selects in Hd.
    destruct (Node.truthy env w) eqn:Hw.
    + intros [= <-]. exists [], main, mains. split; [reflexivity|].
      split; [split; assumption|]. intros m w' Hm. inversion Hm.
    + intros Hrest. specialize (IH _ Hrest).
      assert (∀ w', ¬ Manifest.selects env main v w') as Hmain.
      { intros w' [Hpath Htruthy]. exact (Hd w' Hpath Htruthy). }
      destruct entry as [w0|s].
      * destruct IH as (skipped & main' & rest & -> & Hsel & Hskip).
        exists (main :: skipped), main', rest. split; [reflexivity|].
        split; [exact Hsel|].
        intros m w' [->|Hm]%elem_of_cons; [apply Hmain|exact (Hskip m w' Hm)].
      * destruct IH as [-> Hnone]. split; [reflexivity|].
        intros m w' [->|Hm]%elem_of_cons; [apply Hmain|exact (Hnone m w' Hm)].
Qed.

End FaithfulFacts.

(** ** Further properties of the resolver (src/resolver.js) *)

(** Resolution is stable under [Resolver.cache].  When [resolve] has
    answered, the same call answers the same again, with the very same
    File object if there is one, and changes no object: at once, and at
    any later state of the cache (one that kept the entries and gained
    entries for readable paths only). *)
Theorem resolve_again_same_answer (env : Node.Env) (options : Resolver.Options)
    (module : string) (base : option string) (σ σ1 : Store) (answer : Resolver.Answer) :
  Resolver.resolve env options module base σ = Returned (answer, σ1) →
  Resolver.resolve env options module base σ1 = Returned (answer, σ1) ∧
  ∀ τ, Cache.later env σ1 τ →
       Resolver.resolve env options module base τ = Returned (answer, τ).
Proof.
  intros Hrun. split.
  - exact (resolve_stable env options _ _ _ _ _ _ Hrun (later_refl env σ1)).
  - intros τ. exact (resolve_stable env options _ _ _ _ _ _ Hrun).
Qed.

(** In scenario 6, [./x] resolved a second time is the File object of
    the first time. *)
Lemma resolve_again_same_answer_witness :
  ∃ file σ1,
    Resolver.resolve Scenario.cycle Resolver.defaults "./x" (Some "/a") Heap.empty =
      Returned ((None, Some file), σ1) ∧
    Resolver.resolve Scenario.cycle Resolver.defaults "./x" (Some "/a") σ1 =
      Returned ((None, Some file), σ1).
Proof.
  eexists _, _. split; [vm_compute; reflexivity|].
  apply (proj1 (resolve_again_same_answer Scenario.cycle Resolver.defaults
                  "./x" (Some "/a") Heap.empty _ _ eq_refl)).
Defined.

(** The only error [resolve] hands to its callback is the one of a
    package file that is no JSON, and only for a relative specifier: the
    error comes without a file, no object has changed, and the package
    file is one of the directory the specifier names.  For a module name,
    [resolveModule] drops the error of every candidate and goes on, so
    its answer never carries one. *)
Theorem resolve_reports_only_malformed_manifests (env : Node.Env)
    (options : Resolver.Options) (module : string) (base : option string)
    (σ σ' : Store) (err : option string) (file : option ref) :
  Resolver.resolve env options module base σ = Returned ((err, file), σ') →
  (∀ e, err = Some e →
        file = None ∧ σ' = σ ∧
        Resolver.RELATIVE_PATH module = true ∧
        Manifest.malformed env (Resolver.packages options)
          (Walk.joined env module base) e) ∧
  (Resolver.RELATIVE_PATH module = false → err = None).
Proof.
  intros Hrun. destruct (resolve_fetched env options _ _ _ _ _ Hrun) as [Hf He].
  simpl in Hf, He. split.
  - intros e ->. destruct (He e eq_refl) as (-> & Hrel & Hm).
    split; [reflexivity|]. split; [exact Hf|]. split; assumption.
  - intros Hrel. destruct err as [e|]; [|reflexivity].
    destruct (He e eq_refl) as (_ & Hrel' & _). congruence.
Qed.

(** The manifest of [/a/lib] is no JSON: [./lib] from [/a] ends with
    the error that names it. *)
Lemma resolve_reports_only_malformed_manifests_witness :
  Resolver.resolve Scenario.malformed Resolver.defaults "./lib" (Some "/a") Heap.empty =
    Returned ((Some "Package file is incorrectly formatted: /a/lib/package.json", None),
              Heap.empty) ∧
  Manifest.malformed Scenario.malformed ["package.json"] "/a/lib"
    "Package file is incorrectly formatted: /a/lib/package.json".
Proof.
  split; [vm_compute; reflexivity|].
  refine (proj2 (proj2 (proj2
    (proj1 (resolve_reports_only_malformed_manifests Scenario.malformed
              Resolver.defaults "./lib" (Some "/a") Heap.empty Heap.empty
              (Some "Package file is incorrectly formatted: /a/lib/package.json")
              None _) _ eq_refl)))).
  vm_compute. reflexivity.
Defined.

(** One resolution makes at most one File object.  When it answers
    without a file, no object has changed; when the file it answers with
    was in [Resolver.cache], no object has changed either; otherwise the
    file is the one new object, made for a readable path that the cache
    did not hold, and entered into the cache under that path. *)
Theorem resolve_makes_at_most_one_file (env : Node.Env) (options : Resolver.Options)
    (module : string) (base : option string) (σ σ' : Store)
    (err : option string) (file : option ref) :
  Resolver.resolve env options module base σ = Returned ((err, file), σ') →
  Cache.fetched env σ file σ' ∧
  dependencies_cache σ' = dependencies_cache σ ∧
  length (objects σ') ≤ S (length (objects σ)).
Proof.
  intros Hrun. destruct (resolve_fetched env options _ _ _ _ _ Hrun) as [Hf _].
  simpl in Hf. split; [exact Hf|].
  destruct file as [f|]; simpl in Hf.
  - destruct Hf as [[-> _]|(p & contents & _ & _ & _ & ->)].
    + split; [reflexivity|lia].
    + split; [reflexivity|]. simpl. rewrite length_app. simpl. lia.
  - subst σ'. split; [reflexivity|lia].
Qed.

(** The module [x] of scenario 5 is found by reading one file. *)
Lemma resolve_makes_at_most_one_file_witness :
  ∃ file σ',
    Resolver.resolve Scenario.upward Resolver.defaults "x" (Some "/a/b/c") Heap.empty =
      Returned ((None, Some file), σ') ∧
    Cache.fetched Scenario.upward Heap.empty (Some file) σ' ∧
    length (objects σ') ≤ 1.
Proof.
  eexists _, _. split; [vm_compute; reflexivity|].
  destruct (resolve_makes_at_most_one_file Scenario.upward Resolver.defaults
              "x" (Some "/a/b/c") Heap.empty _ None (Some 0) eq_refl)
    as (Hf & _ & Hlen).
  split; [exact Hf|exact Hlen].
Defined.

(** The File object [resolve] answers with is a file of the disk.  When
    every entry of [Resolver.cache] is a File object whose path is its
    key and whose contents are those of the readable file at that path,
    this is still so after a resolution, and the file of the answer is
    such an entry. *)
Theorem resolved_file_is_a_disk_file (env : Node.Env) (options : Resolver.Options)
    (module : string) (base : option string) (σ σ' : Store)
    (err : option string) (f : ref) :
  Cache.faithful env σ →
  Resolver.resolve env options module base σ = Returned ((err, Some f), σ') →
  Cache.faithful env σ' ∧
  ∃ p contents o,
    resolver_cache σ' !! p = Some f ∧
    Node.fs env !! p = Some contents ∧
    objects σ' !! f = Some o ∧
    vinyl o = {| Vinyl.path := p; Vinyl.contents := Some contents |}.
Proof.
  intros Hσ Hrun. destruct (resolve_grows env options _ _ _ _ _ Hrun) as [G Hin].
  pose proof (grows_faithful env _ _ G Hσ) as Hσ'. split; [exact Hσ'|].
  destruct (Hin f eq_refl) as [p Hp].
  destruct (Hσ' p f Hp) as (o & contents & Ho & Hdisk & Hv).
  exists p, contents, o. auto.
Qed.

(** In a fresh process of scenario 3 the directory [./lib] resolves to
    a File object that the cache holds under a readable path. *)
Lemma resolved_file_is_a_disk_file_witness :
  ∃ σ',
    Resolver.resolve Scenario.packaged Resolver.defaults "./lib" (Some "/a") Heap.empty =
      Returned ((None, Some 0), σ') ∧
    Cache.faithful Scenario.packaged σ' ∧
    ∃ p contents o,
      resolver_cache σ' !! p = Some 0 ∧
      Node.fs Scenario.packaged !! p = Some contents ∧
      objects σ' !! 0 = Some o ∧
      vinyl o = {| Vinyl.path := p; Vinyl.contents := Some contents |}.
Proof.
  eexists. split; [vm_compute; reflexivity|].
  apply (resolved_file_is_a_disk_file Scenario.packaged Resolver.defaults
           "./lib" (Some "/a") Heap.empty _ None 0 (empty_faithful Scenario.packaged)).
  vm_compute. reflexivity.
Defined.

(** [getEntryPoint] answers with the value of the first entry of
    [options.mains] that selects one: the value found in the package
    object under the keys of the entry, every value on the way and the
    value itself being truthy.  When no entry selects a value the answer
    is [options.index]. *)
Theorem getEntryPoint_first_selecting_main (env : Node.Env) (options : Resolver.Options)
    (packageData : Node.Value env) (entry : Node.Value env + string) :
  Resolver.getEntryPoint env options packageData = Returned entry →
  match entry with
  | inl w =>
      ∃ skipped main rest,
        Resolver.mains options = skipped ++ main :: rest ∧
        Manifest.selects env main packageData w ∧
        ∀ m w', m ∈ skipped → ¬ Manifest.selects env m packageData w'
  | inr s =>
      s = Resolver.index options ∧
      ∀ m w', m ∈ Resolver.mains options → ¬ Manifest.selects env m packageData w'
  end.
Proof. apply getEntryPoint_from_first. Qed.

(** The manifest of scenario 3: [main] selects [entry.js]; a manifest
    without [main] gives the index. *)
Lemma getEntryPoint_first_selecting_main_witness :
  (∃ skipped main rest,
     Resolver.mains Resolver.defaults = skipped ++ main :: rest ∧
     Manifest.selects Scenario.packaged main
       (Json.JObject [("main", Json.JString "entry.js")]) (Json.JString "entry.js") ∧
     ∀ m w', m ∈ skipped →
       ¬ Manifest.selects Scenario.packaged m
           (Json.JObject [("main", Json.JString "entry.js")]) w') ∧
  Resolver.getEntryPoint Scenario.packaged Resolver.defaults
    (Json.JObject [("name", Json.JString "lib")]) = Returned (inr "index").
Proof.
  split; [|reflexivity].
  exact (getEntryPoint_first_selecting_main Scenario.packaged Resolver.defaults
           (Json.JObject [("main", Json.JString "entry.js")])
           (inl (Json.JString "entry.js")) eq_refl).
Defined.

(* ===================================================================== *)

Section LevelFacts.

Import ASTWalker Tree.

Context {S : Type}.
Variable dispatch : string → option (node → S → Outcome S).

Lemma bind_bind {A B C : Type} (m : Outcome A) (k : A → Outcome B) (h : B → Outcome C) :
  (m ≫= k) ≫= h = m ≫= (λ a, k a ≫= h).
Proof. destruct m; reflexivity. Qed.

Lemma bind_ext {A B : Type} (m : Outcome A) (k k' : A → Outcome B) :
  (∀ a, k a = k' a) → m ≫= k = m ≫= k'.
Proof. intros H. destruct m; simpl; [apply H|reflexivity..]. Qed.

Lemma visit_all_app (ns ms : list node) (s : S) :
  visit_all dispatch (ns ++ ms) s = visit_all dispatch ns s ≫= visit_all dispatch ms.
Proof.
  revert s. induction ns as [|n ns IH]; intros s; [reflexivity|].
  cbn [app visit_all]. rewrite bind_bind. apply bind_ext. exact IH.
Qed.

Lemma potential_appended (queue : list item) :
  potential (flat_map appended queue) + length queue ≤ potential queue.
Proof.
  induction queue as [|i queue IH]; [reflexivity|].
  cbn [flat_map length potential]. rewrite potential_app.
  assert (potential (appended i) ≤ item_weight i) as Hi.
  { destruct i as [n|]; [|reflexivity]. simpl.
    destruct (enqueue n) as [kids| |] eqn:Hkids; simpl; try lia.
    apply enqueue_potential in Hkids. lia. }
  lia.
Qed.

(** The loop handles the entries at the head of the queue one after the
    other; what their iterations append follows the rest of the queue. *)
Lemma loop_level (head : list item) :
  ∀ (fuel : nat) (rest : list item) (s : S),
    potential (head ++ rest) ≤ fuel →
    loop dispatch fuel (head ++ rest) s =
    visit_all dispatch (nodes_of head) s ≫=
      loop dispatch (fuel - length head) (rest ++ flat_map appended head).
Proof.
  induction head as [|i head IH]; intros fuel rest s Hfuel.
  - cbn [app nodes_of omap list_omap visit_all flat_map length].
    rewrite Nat.sub_0_r, app_nil_r. reflexivity.
  - destruct fuel as [|fuel]; [simpl in Hfuel; lia|].
    cbn [app potential] in Hfuel.
    destruct i as [n|].
    + change (nodes_of (Some n :: head)) with (n :: nodes_of head).
      change (flat_map appended (Some n :: head))
        with (appended (Some n) ++ flat_map appended head).
      cbn [app loop visit_all length Nat.sub]. unfold visit.
      rewrite !bind_bind.
      destruct (match dispatch (type n) with
                | Some handler => handler n s
                | None => Returned s
                end) as [s'| |]; try reflexivity.
      change (Returned s' ≫= ?k) with (k s'). cbv beta.
      rewrite bind_bind.
      destruct (enqueue n) as [kids| |] eqn:Hkids; try reflexivity.
      assert (appended (Some n) = kids) as -> by (simpl; rewrite Hkids; reflexivity).
      change (Returned kids ≫= ?k) with (k kids). cbv beta.
      change (Returned s' ≫= ?k) with (k s'). cbv beta.
      rewrite (app_assoc rest kids), <- (app_assoc head rest kids). apply IH.
      apply enqueue_potential in Hkids. rewrite !potential_app in *.
      simpl in Hfuel. lia.
    + change (nodes_of (None :: head)) with (nodes_of head).
      cbn [app loop flat_map length Nat.sub appended]. apply IH. lia.
Qed.

Lemma loop_levels (depth : nat) :
  ∀ (fuel : nat) (queue : list item) (s : S),
    potential queue ≤ depth → potential queue ≤ fuel →
    loop dispatch fuel queue s = visit_all dispatch (levels depth queue) s.
Proof.
  induction depth as [|depth IH]; intros fuel queue s Hdepth Hfuel.
  - destruct queue; [|simpl in Hdepth; lia]. destruct fuel; reflexivity.
  - destruct queue as [|i queue]; [destruct fuel; reflexivity|].
    cbn [levels]. rewrite visit_all_app.
    rewrite <- (app_nil_r (i :: queue)) at 1.
    rewrite loop_level by (rewrite app_nil_r; exact Hfuel).
    apply bind_ext. intros s1. cbn [app].
    pose proof (potential_appended (i :: queue)) as Hless.
    cbn [length] in Hless. apply IH; cbn [length]; lia.
Qed.

Lemma walk_levels (ast : node) (s : S) :
  walk ast dispatch s = visit_all dispatch (level_order ast) s.
Proof. apply loop_levels; simpl; lia. Qed.

End LevelFacts.

Section ReachFacts.

Import ASTWalker Tree.

Lemma elem_of_nodes_of (n : node) (queue : list item) :
  n ∈ nodes_of queue ↔ Some n ∈ queue.
Proof.
  unfold nodes_of. rewrite list_elem_of_omap. split.
  - intros ([m|] & Hin & Hid); [injection Hid as ->; exact Hin|discriminate Hid].
  - intros Hin. exists (Some n). auto.
Qed.

Lemma levels_sound (ast : node) (depth : nat) :
  ∀ queue, (∀ m, Some m ∈ queue → reaches ast m) →
  ∀ n, n ∈ levels depth queue → reaches ast n.
Proof.
  induction depth as [|depth IH]; intros queue Hqueue n; simpl; [inversion 1|].
  destruct queue as [|i queue]; [inversion 1|].
  intros [Hn|Hn]%elem_of_app.
  - apply Hqueue, elem_of_nodes_of, Hn.
  - apply (IH (flat_map appended (i :: queue))); [|exact Hn].
    intros m Hm. apply list_elem_of_In, in_flat_map in Hm as ([p|] & Hp & Hm).
    + apply (reaches_appended ast p m); [|apply list_elem_of_In; exact Hm].
      apply Hqueue, list_elem_of_In, Hp.
    + inversion Hm.
Qed.

Lemma levels_head (depth : nat) (queue : list item) (n : node) :
  potential queue ≤ depth → Some n ∈ queue → n ∈ levels depth queue.
Proof.
  intros Hdepth Hn. destruct queue as [|i queue]; [inversion Hn|].
  destruct depth as [|depth]; [simpl in Hdepth; lia|].
  cbn [levels]. apply elem_of_app. left. apply elem_of_nodes_of, Hn.
Qed.

Lemma levels_closed (depth : nat) :
  ∀ queue n m,
    potential queue ≤ depth →
    n ∈ levels depth queue → Some m ∈ appended (Some n) → m ∈ levels depth queue.
Proof.
  induction depth as [|depth IH]; intros queue n m Hdepth; simpl; [inversion 1|].
  destruct queue as [|i queue]; [inversion 1|].
  pose proof (potential_appended (i :: queue)) as Hless. cbn [length] in Hless.
  intros [Hn|Hn]%elem_of_app Hm; apply elem_of_app; right.
  - apply levels_head; [lia|].
    apply list_elem_of_In, in_flat_map. exists (Some n).
    split; apply list_elem_of_In; [apply elem_of_nodes_of, Hn|exact Hm].
  - apply (IH _ n); [lia|exact Hn|exact Hm].
Qed.

Lemma level_order_reaches (ast n : node) : n ∈ level_order ast ↔ reaches ast n.
Proof.
  split.
  - apply levels_sound. intros m Hm. apply list_elem_of_singleton in Hm as [= ->].
    constructor.
  - induction 1 as [|n m _ IH Hm].
    + apply levels_head; [reflexivity|left].
    + exact (levels_closed _ _ n m (le_n _) IH Hm).
Qed.

(** The handler that records the call expressions sees them in level
    order. *)
Lemma visit_all_collect (ns : list node) (calls calls' : list node) :
  visit_all Scan.collect ns calls = Returned calls' →
  calls' = calls ++ filter is_call ns.
Proof.
  revert calls. induction ns as [|n ns IH]; intros calls; simpl.
  - intros [= <-]. rewrite app_nil_r. reflexivity.
  - unfold visit, Scan.collect, mbind, Outcome_bind, is_call.
    rewrite filter_cons.
    destruct (String.eqb_spec (type n) "CallExpression") as [Hcall|Hcall]; simpl.
    + destruct (enqueue n); simpl; try discriminate.
      intros H%IH. rewrite decide_True by exact Hcall.
      rewrite H, <- app_assoc. reflexivity.
    + destruct (enqueue n); simpl; try discriminate.
      intros H%IH. rewrite decide_False by exact Hcall. exact H.
Qed.

Lemma visit_all_record (ns : list node) (seen seen' : list node) :
  visit_all record ns seen = Returned seen' → seen' = seen ++ ns.
Proof.
  revert seen. induction ns as [|n ns IH]; intros seen; simpl.
  - intros [= <-]. rewrite app_nil_r. reflexivity.
  - unfold visit, record, mbind, Outcome_bind.
    destruct (enqueue n); simpl; try discriminate.
    intros H%IH. rewrite H, <- app_assoc. reflexivity.
Qed.

End ReachFacts.

(** ** Further properties of the tree walk (src/ast-walker.js) *)

(** [walk] is breadth first.  Whatever the handlers, a walk is the
    handling of the nodes of the tree one after the other in level order:
    the root, then the nodes its iteration appends to the queue, then the
    nodes their iterations append, and so on; an iteration is the handler
    registered for the node's type, if any, followed by the [switch] on
    the type, and the walk throws where either of them does. *)
Theorem walk_is_breadth_first {S : Type}
    (dispatch : string → option (node → S → Outcome S)) (ast : node) (s : S) :
  ASTWalker.walk ast dispatch s =
  Tree.visit_all dispatch (Tree.level_order ast) s.
Proof. apply walk_levels. Qed.

(** The nodes a walk hands to the handlers are the nodes connected to
    the root by what the [switch] enqueues, and no other: a walk whose
    handler records every node returns the nodes [n] for which there is a
    chain from the root to [n] in which each node is among those the
    iteration on the previous one appends to the queue. *)
Theorem walk_handles_connected_nodes (ast : node) (seen : list node) :
  ASTWalker.walk ast Tree.record [] = Returned seen →
  seen = Tree.level_order ast ∧
  ∀ n, n ∈ seen ↔ Tree.reaches ast n.
Proof.
  rewrite walk_levels. intros H%visit_all_record. simpl in H. subst seen.
  split; [reflexivity|]. intros n. apply level_order_reaches.
Qed.

(** In [(function(){require('a');});] the call is connected to the
    root. *)
Lemma walk_handles_connected_nodes_witness :
  ∃ seen,
    ASTWalker.walk Scenario.function_tree Tree.record [] = Returned seen ∧
    length seen = 8 ∧
    ∀ n, n ∈ seen ↔ Tree.reaches Scenario.function_tree n.
Proof.
  eexists. split; [vm_compute; reflexivity|]. split; [reflexivity|].
  apply (walk_handles_connected_nodes Scenario.function_tree).
  vm_compute. reflexivity.
Defined.

(** The call expressions the scanner tracks are those of the level order,
    in that order: a call nearer to the root is tracked before a deeper
    one, wherever they stand in the source. *)
Theorem scanner_tracks_calls_in_level_order (ast : node) (calls : list node) :
  ASTWalker.walk ast Scan.collect [] = Returned calls →
  Scan.visited ast = calls ∧
  calls = filter Tree.is_call (Tree.level_order ast).
Proof.
  intros Hwalk. split; [unfold Scan.visited; rewrite Hwalk; reflexivity|].
  rewrite walk_levels in Hwalk. exact (visit_all_collect _ _ _ Hwalk).
Qed.

(** In [f(require('a'));require('b');] the call of [f] and the second
    require call are tracked before the first require call, which is
    deeper. *)
Lemma scanner_tracks_calls_in_level_order_witness :
  ∃ calls,
    ASTWalker.walk Example.nested_tree Scan.collect [] = Returned calls ∧
    map range calls = [(0, 15); (16, 28); (2, 14)] ∧
    calls = filter Tree.is_call (Tree.level_order Example.nested_tree).
Proof.
  eexists. split; [vm_compute; reflexivity|]. split; [reflexivity|].
  apply (scanner_tracks_calls_in_level_order Example.nested_tree).
  vm_compute. reflexivity.
Defined.

(* ===================================================================== *)

Section DescriptorFacts.

Import Scan Descriptor.

Lemma keys_set_fresh {V : Type} (o : JS.Object V) (k : string) (v : V) :
  JS.own o k = None → JS.set o k v ≡ₚ (k, v) :: o.
Proof.
  intros Hown. unfold JS.set. rewrite Hown. destruct (JS.array_index k).
  - apply insert_index_perm.
  - rewrite Permutation_app_comm. reflexivity.
Qed.

Lemma head_snoc {A : Type} (l : list A) (x y : A) :
  head l = Some x → head (l ++ [y]) = Some x.
Proof. destruct l; simpl; [discriminate|auto]. Qed.

Lemma sites_of_snoc (sites : list Site) (s : Site) (k : string) :
  sites_of (sites ++ [s]) k =
  sites_of sites k ++ (if decide (site_path s = k) then [s] else []).
Proof.
  unfold sites_of. rewrite filter_app. f_equal.
Qed.

Lemma flagged_again (sites : list Site) (o : JS.Object Required.Requirement)
    (s : Site) (r : Required.Requirement) :
  folded sites o → flagged sites o →
  JS.own o (site_path s) = Some r →
  flagged (sites ++ [s])
    (JS.replace o (site_path s) (Required.push_reference r (site_reference s))).
Proof.
  intros (Hnd & _ & _ & _) Hflag Hown k d Hd.
  pose proof (own_Some _ _ _ Hown) as Hin.
  assert (site_path s ∈ JS.keys o) as Hkey.
  { apply list_elem_of_fmap. exists (site_path s, r). split; [reflexivity|exact Hin]. }
  apply (elem_of_replace _ _ _ _ _ Hnd Hkey) in Hd.
  rewrite sites_of_snoc. destruct Hd as [[-> ->]|[Hne Hd]].
  - specialize (Hflag _ _ Hin). simpl.
    destruct (head (sites_of sites (site_path s))) as [s0|] eqn:Hhead;
      [|discriminate Hflag].
    rewrite decide_True by reflexivity. rewrite (head_snoc _ _ _ Hhead). exact Hflag.
  - rewrite decide_False by congruence. rewrite app_nil_r. exact (Hflag _ _ Hd).
Qed.

Lemma flagged_first (sites : list Site) (o : JS.Object Required.Requirement)
    (s : Site) :
  folded sites o → flagged sites o →
  JS.own o (site_path s) = None →
  flagged (sites ++ [s])
    (JS.set o (site_path s)
       {| Required.references := [site_reference s];
          Required.path := site_path s;
          Required.static := site_static s |}).
Proof.
  intros (_ & _ & Hkeys & _) Hflag Hown k d Hd.
  pose proof (proj1 (own_None _ _) Hown) as Hfresh.
  rewrite (keys_set_fresh _ _ _ Hown) in Hd. rewrite sites_of_snoc.
  apply elem_of_cons in Hd as [[= -> ->]|Hd].
  - rewrite decide_True by reflexivity. unfold sites_of.
    rewrite no_site_no_reference by (rewrite <- Hkeys; exact Hfresh). reflexivity.
  - rewrite decide_False; [rewrite app_nil_r; exact (Hflag _ _ Hd)|].
    intros <-. apply Hfresh. apply list_elem_of_fmap. exists (site_path s, d). auto.
Qed.

Lemma track_all_flagged (source : string) (calls : list node) (seen : list Site)
    (o o' : JS.Object Required.Requirement) :
  folded seen o → flagged seen o →
  track_all source calls o = Returned o' →
  flagged (seen ++ omap (site source) calls) o'.
Proof.
  revert seen o. induction calls as [|n calls IH]; intros seen o Hfolded Hflag Hrun.
  - injection Hrun as <-. simpl. rewrite app_nil_r. exact Hflag.
  - cbn [track_all] in Hrun. unfold mbind, Outcome_bind in Hrun.
    destruct (Required.trackRequirement source o n) as [o1| |] eqn:Htrack;
      simpl in Hrun; try discriminate.
    apply trackRequirement_site in Htrack.
    assert (omap (site source) (n :: calls) =
            match site source n with
            | Some s => s :: omap (site source) calls
            | None => omap (site source) calls
            end) as -> by reflexivity.
    destruct (site source n) as [s|].
    + replace (seen ++ s :: omap (site source) calls)
        with ((seen ++ [s]) ++ omap (site source) calls)
        by (rewrite <- app_assoc; reflexivity).
      destruct (JS.own o (site_path s)) as [r|] eqn:Hown; subst o1.
      * apply (IH _ _ (folded_again _ _ _ _ Hfolded Hown)
                      (flagged_again _ _ _ _ Hfolded Hflag Hown) Hrun).
      * apply (IH _ _ (folded_first _ _ _ Hfolded Hown)
                      (flagged_first _ _ _ Hfolded Hflag Hown) Hrun).
    + subst o1. apply (IH _ o); assumption.
Qed.

Lemma flagged_nil : flagged [] [].
Proof. intros k d H. inversion H. Qed.

Lemma site_sliced (source : string) (n : node) (s : Site) :
  site source n = Some s → sliced source (site_reference s).
Proof.
  unfold site.
  destruct (AST.get n "callee") as [callee| | | | | |]; try discriminate.
  destruct (AST.get n "arguments") as [|[|[first|] [|? ?]]| | | | |]; try discriminate.
  destruct (_ && _); [|discriminate]. intros [= <-]. reflexivity.
Qed.

Lemma sites_sliced (source : string) (calls : list node) :
  Forall (λ s, sliced source (site_reference s)) (omap (site source) calls).
Proof.
  apply Forall_forall. intros s (n & _ & Hn)%list_elem_of_omap.
  exact (site_sliced _ _ _ Hn).
Qed.

(** The switch and the handler of the scanner throw one kind of error. *)
Lemma trackRequirement_throws (source : string) (o : JS.Object Required.Requirement)
    (n : node) (e : string) :
  Required.trackRequirement source o n = Thrown e → e = "TypeError".
Proof.
  unfold Required.trackRequirement.
  destruct (AST.get n "callee"); try (intros [= <-]; reflexivity).
  destruct (AST.get n "arguments") as [|args| | | | |]; try (intros [= <-]; reflexivity).
  destruct (_ || _); [discriminate|].
  destruct args as [|[first|] [|? ?]]; try (intros [= <-]; reflexivity).
  destruct (JS.get o _); try discriminate. intros [= <-]. reflexivity.
Qed.

Lemma pattern_items_throws (elems : list (option node)) (e : string) :
  ASTWalker.pattern_items elems = Thrown e → e = "TypeError".
Proof.
  induction elems as [|[p|] elems IH]; simpl; [discriminate| |intros [= <-]; reflexivity].
  unfold mbind, Outcome_bind. destruct (ASTWalker.pattern_items elems); simpl;
    [discriminate|exact IH|discriminate].
Qed.

Lemma enqueue_throws (n : node) (e : string) :
  ASTWalker.enqueue n = Thrown e → e = "TypeError".
Proof.
  unfold ASTWalker.enqueue. destruct (String.eqb (type n) "ObjectPattern"); [|discriminate].
  destruct (AST.get n "properties"); try (intros [= <-]; reflexivity).
  apply pattern_items_throws.
Qed.

Lemma loop_throws (source : string) (fuel : nat) (nodes : list item)
    (o : JS.Object Required.Requirement) (e : string) :
  ASTWalker.loop (Required.dispatch source) fuel nodes o = Thrown e → e = "TypeError".
Proof.
  revert nodes o. induction fuel as [|fuel IH]; intros nodes o.
  - destruct nodes; discriminate.
  - destruct nodes as [|[n|] nodes]; cbn [ASTWalker.loop]; [discriminate| |apply IH].
    unfold mbind, Outcome_bind.
    destruct (match Required.dispatch source (type n) with
              | Some handler => handler n o
              | None => Returned o
              end) as [o1| |] eqn:Hhandler; simpl.
    + destruct (ASTWalker.enqueue n) as [kids| |] eqn:Hkids; simpl;
        [apply IH| |discriminate].
      intros [= <-]. exact (enqueue_throws _ _ Hkids).
    + intros [= <-]. unfold Required.dispatch in Hhandler.
      destruct (String.eqb (type n) "CallExpression"); [|discriminate].
      exact (trackRequirement_throws _ _ _ _ Hhandler).
    + discriminate.
Qed.

Lemma trackRequirement_plain (source : string) (o o' : JS.Object Required.Requirement)
    (n : node) :
  plain o → Required.trackRequirement source o n = Returned o' → plain o'.
Proof.
  intros Hplain. unfold Required.trackRequirement.
  destruct (AST.get n "callee"); try discriminate.
  destruct (AST.get n "arguments") as [|args| | | | |]; try discriminate.
  destruct (_ || _); [intros [= <-]; exact Hplain|].
  destruct args as [|[first|] [|? ?]]; try discriminate.
  unfold JS.get.
  match goal with |- context [JS.own o ?p] => set (path := p) end.
  destruct (JS.own o path) as [r|] eqn:Hown.
  - intros [= <-]. unfold JS.set. rewrite Hown. intros k. rewrite keys_replace.
    apply Hplain.
  - destruct (bool_decide (path ∈ objectPrototypeKeys)) eqn:Hproto; [discriminate|].
    intros [= <-] k Hk. unfold JS.keys in Hk.
    rewrite (keys_set_fresh _ _ _ Hown) in Hk. simpl in Hk.
    apply elem_of_cons in Hk as [->|Hk]; [|exact (Hplain k Hk)].
    apply bool_decide_eq_false_1 in Hproto. exact Hproto.
Qed.

Lemma track_all_plain (source : string) (calls : list node)
    (o o' : JS.Object Required.Requirement) :
  plain o → track_all source calls o = Returned o' → plain o'.
Proof.
  revert o. induction calls as [|n calls IH]; intros o Hplain; simpl.
  - intros [= <-]. exact Hplain.
  - unfold mbind, Outcome_bind.
    destruct (Required.trackRequirement source o n) as [o1| |] eqn:Htrack; simpl;
      try discriminate.
    apply IH. exact (trackRequirement_plain _ _ _ _ Hplain Htrack).
Qed.

End DescriptorFacts.

(** ** Further properties of the scanner (src/required.js) *)

(** What a descriptor holds.  Its [static] flag is the one of the first
    call site of its path, whatever the later sites of that path are; it
    has at least one reference; and every reference carries as [source]
    the slice of the file between its [position.start] and
    [position.end]. *)
Theorem descriptor_of_first_site (parse : string → option node) (f : Vinyl.File)
    (source : string) (ast : node) (out : list Required.Requirement) :
  Vinyl.contents f = Some source →
  parse source = Some ast →
  Required.analyze parse (Some f) = Returned (Some out) →
  ∀ d, d ∈ out →
    Some (Required.static d) =
      Scan.site_static <$>
        head (Descriptor.sites_of (Scan.sites source ast) (Required.path d)) ∧
    Required.references d ≠ [] ∧
    Forall (Descriptor.sliced source) (Required.references d).
Proof.
  intros Hcontents Hparse Hscan d Hd.
  unfold Required.analyze in Hscan. rewrite Hcontents, Hparse in Hscan.
  unfold mbind, Outcome_bind in Hscan.
  destruct (ASTWalker.walk ast (Required.dispatch source) []) as [required| |] eqn:Hwalk;
    simpl in Hscan; try discriminate.
  injection Hscan as <-. apply walk_tracks in Hwalk.
  pose proof (track_all_folded _ _ _ _ _ folded_nil Hwalk) as Hfolded.
  pose proof (track_all_flagged _ _ _ _ _ folded_nil flagged_nil Hwalk) as Hflag.
  simpl in Hfolded, Hflag. fold (Scan.sites source ast) in Hfolded, Hflag.
  unfold JS.values in Hd. apply list_elem_of_fmap in Hd as [[k d'] [-> Hin]].
  destruct Hfolded as (_ & Hentries & _).
  destruct (Hentries _ _ Hin) as [Hpath Hrefs]. simpl. rewrite Hpath.
  specialize (Hflag _ _ Hin). split; [exact Hflag|].
  unfold Descriptor.sites_of in Hflag. rewrite Hrefs.
  split.
  - destruct (filter _ _); [discriminate Hflag|discriminate].
  - apply Forall_fmap, Forall_forall. intros s [_ Hs]%list_elem_of_filter.
    pose proof (sites_sliced source (Scan.visited ast)) as Hall.
    rewrite Forall_forall in Hall. exact (Hall s Hs).
Qed.

(** In [require(x);require('x')] the descriptor of [x] is not static:
    its first site has an identifier as argument. *)
Lemma descriptor_of_first_site_witness :
  ∃ d,
    Scenario.scan Scenario.clash_source = Returned (Some [d]) ∧
    Some (Required.static d) =
      Scan.site_static <$>
        head (Descriptor.sites_of
                (Scan.sites Scenario.clash_source Scenario.clash_tree)
                (Required.path d)) ∧
    Required.references d ≠ [] ∧
    Forall (Descriptor.sliced Scenario.clash_source) (Required.references d).
Proof.
  eexists. split; [vm_compute; reflexivity|].
  match goal with
  | |- Some (Required.static ?d) = _ ∧ _ =>
      apply (descriptor_of_first_site (Build.table Scenario.parser)
               {| Vinyl.path := "/a/main.js";
                  Vinyl.contents := Some Scenario.clash_source |}
               Scenario.clash_source Scenario.clash_tree [d] eq_refl eq_refl)
  end.
  - vm_compute. reflexivity.
  - left.
Defined.

(** A require call whose stored path names a member of
    [Object.prototype] ([constructor], [toString], [valueOf], ...) makes
    the scan throw a [TypeError]: the tracking object is a plain object,
    so the path looks tracked already, and what is found there has no
    [references] to push to.  When the scan returns, no descriptor has
    such a path. *)
Theorem require_of_prototype_member_throws (parse : string → option node)
    (f : Vinyl.File) (source : string) (ast : node) :
  Vinyl.contents f = Some source →
  parse source = Some ast →
  (∀ s, s ∈ Scan.sites source ast →
        Scan.site_path s ∈ JS.objectPrototypeKeys →
        Required.analyze parse (Some f) = Thrown "TypeError") ∧
  (∀ out d, Required.analyze parse (Some f) = Returned (Some out) →
            d ∈ out → Required.path d ∉ JS.objectPrototypeKeys).
Proof.
  intros Hcontents Hparse.
  assert (∀ required,
            ASTWalker.walk ast (Required.dispatch source) [] = Returned required →
            Scan.folded (Scan.sites source ast) required ∧ Descriptor.plain required)
    as Hreturned.
  { intros required Hwalk%walk_tracks. split.
    - exact (track_all_folded _ _ _ _ _ folded_nil Hwalk).
    - apply (track_all_plain source (Scan.visited ast) [] _); [|exact Hwalk].
      intros k Hk. inversion Hk. }
  split.
  - intros s Hs Hproto.
    pose proof (Required_analyze_total parse (Some f)) as Htotal.
    unfold Required.analyze in *. rewrite Hcontents, Hparse in *.
    unfold mbind, Outcome_bind in *.
    destruct (ASTWalker.walk ast (Required.dispatch source) []) as [required|e|]
      eqn:Hwalk; simpl in *; [|f_equal; exact (loop_throws _ _ _ _ _ Hwalk)|congruence].
    exfalso. destruct (Hreturned _ eq_refl) as [(_ & _ & Hkeys & _) Hplain].
    apply (Hplain (Scan.site_path s)); [|exact Hproto].
    apply Hkeys. apply list_elem_of_fmap. exists s. auto.
  - intros out d Hscan Hd.
    unfold Required.analyze in Hscan. rewrite Hcontents, Hparse in Hscan.
    unfold mbind, Outcome_bind in Hscan.
    destruct (ASTWalker.walk ast (Required.dispatch source) []) as [required| |]
      eqn:Hwalk; simpl in Hscan; try discriminate.
    injection Hscan as <-.
    destruct (Hreturned _ eq_refl) as [Hfolded Hplain].
    apply Hplain. rewrite <- (folded_paths _ _ Hfolded).
    apply list_elem_of_fmap. exists d. auto.
Qed.

(** [require('toString');] *)
Lemma require_of_prototype_member_throws_witness :
  Required.analyze Example.prototype_parser
    (Some {| Vinyl.path := "/a/main.js";
             Vinyl.contents := Some (Scenario.single_source "toString") |}) =
  Thrown "TypeError".
Proof.
  refine (proj1 (require_of_prototype_member_throws Example.prototype_parser
                   {| Vinyl.path := "/a/main.js";
                      Vinyl.contents := Some (Scenario.single_source "toString") |}
                   (Scenario.single_source "toString") (Scenario.single_tree "toString")
                   eq_refl eq_refl)
                {| Scan.site_path := "toString"; Scan.site_static := true;
                   Scan.site_reference :=
                     {| Required.source := "require('toString')";
                        Required.position_start := 0;
                        Required.position_end := 19 |} |} _ _).
  - vm_compute. left.
  - apply (bool_decide_unpack _). vm_compute. reflexivity.
Defined.

(* ===================================================================== *)

Section MapFacts.
Context {V W : Type}.
Variable f : V → W.

Local Abbreviation lift := (map (prod_map id f)).

Lemma own_lift (o : JS.Object V) (k : string) :
  JS.own (lift o) k = f <$> JS.own o k.
Proof.
  induction o as [|[k' v'] o IH]; simpl; [reflexivity|].
  destruct (String.eqb k' k); [reflexivity|exact IH].
Qed.

Lemma replace_lift (o : JS.Object V) (k : string) (v : V) :
  JS.replace (lift o) k (f v) = lift (JS.replace o k v).
Proof.
  induction o as [|[k' v'] o IH]; simpl; [reflexivity|].
  destruct (String.eqb k' k); simpl; [reflexivity|]. rewrite IH. reflexivity.
Qed.

Lemma insert_index_lift (o : JS.Object V) (n : N) (k : string) (v : V) :
  JS.insert_index (lift o) n k (f v) = lift (JS.insert_index o n k v).
Proof.
  induction o as [|[k' v'] o IH]; simpl; [reflexivity|].
  destruct (JS.array_index k') as [n'|]; [|reflexivity].
  destruct (n' <? n)%N; simpl; [|reflexivity]. rewrite IH. reflexivity.
Qed.

Lemma set_lift (o : JS.Object V) (k : string) (v : V) :
  JS.set (lift o) k (f v) = lift (JS.set o k v).
Proof.
  unfold JS.set. rewrite own_lift. destruct (JS.own o k); simpl.
  - apply replace_lift.
  - destruct (JS.array_index k); [apply insert_index_lift|].
    rewrite map_app. reflexivity.
Qed.

Lemma values_lift (o : JS.Object V) : JS.values (lift o) = map f (JS.values o).
Proof.
  unfold JS.values. rewrite !map_map. apply map_ext. intros [k v]. reflexivity.
Qed.

End MapFacts.

Section DeclarationFacts.

Import Declarations RequiredDelegate.

Local Abbreviation erase := (map (prod_map id requirement_of)).

Lemma commonJsImport_erased (source : string) (o : JS.Object Import) (n : node) :
  Required.trackRequirement source (erase o) n =
  commonJsImport source o n ≫= (λ o', Returned (erase o')).
Proof.
  unfold Required.trackRequirement, commonJsImport.
  destruct (AST.get n "callee"); try reflexivity.
  destruct (AST.get n "arguments") as [|args| | | | |]; try reflexivity.
  destruct (_ || _); [reflexivity|].
  destruct args as [|[first|] [|? ?]]; try reflexivity.
  unfold Required.grabSource, grabSource, JS.get.
  rewrite own_lift.
  match goal with |- context [JS.own o ?p] => set (importPath := p) end.
  destruct (JS.own o importPath) as [i|]; simpl.
  - rewrite <- set_lift. reflexivity.
  - destruct (bool_decide _); [reflexivity|]. simpl. rewrite <- set_lift. reflexivity.
Qed.

Lemma nodeDispatch_erased (source : string) (n : node) (o : JS.Object Import) :
  nodeDispatch (Required.dispatch source) n (erase o) =
  nodeDispatch (handler source) n o ≫= (λ o', Returned (erase o')).
Proof.
  unfold nodeDispatch, Required.dispatch, handler.
  destruct (String.eqb (AST.type n) "CallExpression");
    [apply commonJsImport_erased|reflexivity].
Qed.

Lemma deliver_erased (source : string) (nodes : list node) (o : JS.Object Import) :
  deliver (nodeDispatch (Required.dispatch source)) nodes (erase o) =
  deliver (nodeDispatch (handler source)) nodes o ≫= (λ o', Returned (erase o')).
Proof.
  revert o. induction nodes as [|n nodes IH]; intros o; [reflexivity|].
  cbn [deliver]. rewrite nodeDispatch_erased.
  destruct (nodeDispatch (handler source) n o) as [o1| |]; try reflexivity.
  exact (IH o1).
Qed.

(** Every import descriptor is keyed by its path and has the two further
    fields as [commonJsImport] sets them. *)
Lemma commonJsImport_common (source : string) (o o' : JS.Object Import) (n : node) :
  Forall (λ ki, common_js (snd ki)) o →
  commonJsImport source o n = Returned o' →
  Forall (λ ki, common_js (snd ki)) o'.
Proof.
  intros Ho. unfold commonJsImport.
  destruct (AST.get n "callee"); try discriminate.
  destruct (AST.get n "arguments") as [|args| | | | |]; try discriminate.
  destruct (_ || _); [intros [= <-]; exact Ho|].
  destruct args as [|[first|] [|? ?]]; try discriminate.
  unfold JS.get.
  match goal with |- context [JS.own o ?p] => set (importPath := p) end.
  destruct (JS.own o importPath) as [i|] eqn:Hown.
  - intros [= <-]. unfold JS.set. rewrite Hown.
    pose proof (own_Some _ _ _ Hown) as Hin.
    rewrite Forall_forall in Ho. pose proof (Ho _ Hin) as Hi. simpl in Hi.
    clear Hown Hin. induction o as [|[k v] o IH]; simpl; [constructor|].
    destruct (String.eqb k importPath).
    + constructor; [exact Hi|]. apply Forall_forall. intros x Hx. apply Ho. right. exact Hx.
    + constructor; [apply (Ho (k, v)); left|]. apply IH. intros x Hx. apply Ho. right.
      exact Hx.
  - destruct (bool_decide _); [discriminate|]. intros [= <-].
    rewrite (keys_set_fresh _ _ _ Hown). constructor; [split; reflexivity|exact Ho].
Qed.

Lemma deliver_common (source : string) (nodes : list node) (o o' : JS.Object Import) :
  Forall (λ ki, common_js (snd ki)) o →
  deliver (nodeDispatch (handler source)) nodes o = Returned o' →
  Forall (λ ki, common_js (snd ki)) o'.
Proof.
  revert o. induction nodes as [|n nodes IH]; intros o Ho; cbn [deliver].
  - intros [= <-]. exact Ho.
  - destruct (nodeDispatch (handler source) n o) as [o1| |] eqn:Hone;
      try discriminate.
    apply IH. unfold nodeDispatch, handler in Hone.
    destruct (String.eqb (AST.type n) "CallExpression").
    + exact (commonJsImport_common _ _ _ _ Ho Hone).
    + injection Hone as <-. exact Ho.
Qed.

(** The delegate tracks the call expressions it is handed, in order. *)
Lemma deliver_tracks (source : string) (nodes : list node)
    (o : JS.Object Required.Requirement) :
  deliver (nodeDispatch (Required.dispatch source)) nodes o =
  Scan.track_all source (filter Tree.is_call nodes) o.
Proof.
  revert o. induction nodes as [|n nodes IH]; intros o; [reflexivity|].
  cbn [deliver]. rewrite filter_cons.
  assert (nodeDispatch (Required.dispatch source) n o =
          if decide (Tree.is_call n)
          then Required.trackRequirement source o n else Returned o) as ->.
  { unfold nodeDispatch, Required.dispatch, Tree.is_call.
    destruct (String.eqb_spec (AST.type n) "CallExpression") as [Hcall|Hcall].
    - rewrite decide_True by exact Hcall. reflexivity.
    - rewrite decide_False by exact Hcall. reflexivity. }
  destruct (decide (Tree.is_call n)).
  - cbn [Scan.track_all]. apply bind_ext. exact IH.
  - exact (IH o).
Qed.

End DeclarationFacts.

(** ** Properties of the scanner that uses the parser's delegate
       (src/required.js, src/declarations.js) *)

(** The scanner of src/declarations.js is the scanner of src/required.js
    with two more fields.  On every file both end alike; when they
    return, the import descriptors are the requirement descriptors, in
    the same order, each with the further fields [type], which is [cjs],
    and [fixed], which tells whether the stored path starts with [/],
    [./] or [../], whether or not the descriptor is static; the file
    returned is the file given, and its [exports] are the empty
    object. *)
Theorem declarations_are_requirements (parseModule : string → Esprima.Parse)
    (file : option Vinyl.File) :
  RequiredDelegate.analyze parseModule file =
  (Declarations.analyze parseModule file ≫= λ declared,
     Returned (option_map (λ d, map Declarations.requirement_of (Declarations.imports d))
                          declared)) ∧
  (∀ declared,
     Declarations.analyze parseModule file = Returned (Some declared) →
     Some (Declarations.vinyl declared) = file ∧
     Declarations.exports declared = [] ∧
     Forall Declarations.common_js (Declarations.imports declared)).
Proof.
  unfold RequiredDelegate.analyze, Declarations.analyze.
  destruct file as [f|]; [|split; [reflexivity|discriminate]].
  destruct (Vinyl.contents f) as [source|]; [|split; [reflexivity|discriminate]].
  cbv zeta. split.
  - rewrite (deliver_erased source _ []).
    destruct (RequiredDelegate.deliver _ _ _) as [o| |]; try reflexivity.
    simpl. destruct (Esprima.completes (parseModule source)); [|reflexivity].
    simpl. rewrite values_lift. reflexivity.
  - intros declared. unfold mbind, Outcome_bind.
    destruct (RequiredDelegate.deliver _ _ _) as [o| |] eqn:Hrun; simpl;
      try discriminate.
    destruct (Esprima.completes (parseModule source)); [|discriminate].
    intros [= <-]. simpl. split; [reflexivity|]. split; [reflexivity|].
    apply deliver_common in Hrun; [|constructor].
    unfold JS.values. apply Forall_fmap. exact Hrun.
Qed.

(** The scanner that uses the delegate folds the call sites by stored
    path as the walking one does, over the call expressions the parser
    delivers, in the order of delivery.  When it returns, its descriptors
    are unique by path; their paths are those of the require call sites;
    the references of a descriptor are those of the sites of its path, in
    order; its flag is the one of the first of them; and the descriptors
    whose path is an array index come first, in ascending order, the
    others following in order of first sighting. *)
Theorem delegate_scanner_folds_sites (parseModule : string → Esprima.Parse)
    (f : Vinyl.File) (source : string) (out : list Required.Requirement) :
  Vinyl.contents f = Some source →
  RequiredDelegate.analyze parseModule (Some f) = Returned (Some out) →
  let calls := filter Tree.is_call (Esprima.delivered (parseModule source)) in
  let sites := omap (Scan.site source) calls in
  NoDup (map Required.path out) ∧
  (∀ p, p ∈ map Required.path out ↔ p ∈ map Scan.site_path sites) ∧
  (∀ d, d ∈ out →
     Required.references d =
       map Scan.site_reference (Descriptor.sites_of sites (Required.path d)) ∧
     Some (Required.static d) =
       Scan.site_static <$> head (Descriptor.sites_of sites (Required.path d))) ∧
  Scan.enumerated (map Required.path out)
    (Scan.first_sightings
       (filter (λ p, JS.array_index p = None) (map Scan.site_path sites))).
Proof.
  intros Hcontents Hscan calls sites.
  unfold RequiredDelegate.analyze in Hscan. rewrite Hcontents in Hscan.
  cbv zeta in Hscan. rewrite deliver_tracks in Hscan. fold calls in Hscan.
  unfold mbind, Outcome_bind in Hscan.
  destruct (Scan.track_all source calls []) as [required| |] eqn:Hrun;
    simpl in Hscan; try discriminate.
  destruct (Esprima.completes (parseModule source)); [|discriminate].
  injection Hscan as <-.
  pose proof (track_all_folded _ _ _ _ _ folded_nil Hrun) as Hfolded.
  pose proof (track_all_flagged _ _ _ _ _ folded_nil flagged_nil Hrun) as Hflag.
  simpl in Hfolded, Hflag. fold sites in Hfolded, Hflag.
  rewrite (folded_paths _ _ Hfolded).
  destruct Hfolded as (Hnd & Hentries & Hkeys & Henum).
  split; [exact Hnd|]. split; [exact Hkeys|]. split; [|exact Henum].
  intros d Hd. unfold JS.values in Hd. apply list_elem_of_fmap in Hd as [[k d'] [-> Hin]].
  destruct (Hentries _ _ Hin) as [Hpath Hrefs]. simpl. rewrite Hpath.
  split; [exact Hrefs|exact (Hflag _ _ Hin)].
Qed.

(** [require(x);require('x')]: one descriptor for the path [x], with the
    flag of the first call and the references of both. *)
Lemma delegate_scanner_folds_sites_witness :
  ∃ f out,
    RequiredDelegate.analyze Example.parseModule (Some f) = Returned (Some out) ∧
    map Required.path out = ["x"] ∧
    map Required.static out = [false] ∧
    map (λ d, length (Required.references d)) out = [2] ∧
    NoDup (map Required.path out).
Proof.
  exists {| Vinyl.path := "/a/main.js"; Vinyl.contents := Some Scenario.clash_source |}.
  eexists. split; [vm_compute; reflexivity|].
  split; [reflexivity|]. split; [reflexivity|]. split; [reflexivity|].
  match goal with
  | |- NoDup (map Required.path ?out) =>
      exact (proj1 (delegate_scanner_folds_sites Example.parseModule
                      {| Vinyl.path := "/a/main.js";
                         Vinyl.contents := Some Scenario.clash_source |}
                      Scenario.clash_source out eq_refl eq_refl))
  end.
Defined.

(* ===================================================================== *)

Section FrameFacts.
Variable env : Node.Env.
Variable options : Resolver.Options.

Import Graph.

Local Abbreviation complete_object := (Graph.complete_object env).
Local Abbreviation complete := (Graph.complete env).

Lemma keeps_but_refl (but : option ref) (σ : Store) : keeps_but but σ σ.
Proof. intros r o Ho. exists o. auto. Qed.

Lemma keeps_but_trans (but : option ref) (σ1 σ2 σ3 : Store) :
  keeps_but but σ1 σ2 → keeps_but but σ2 σ3 → keeps_but but σ1 σ3.
Proof.
  intros H12 H23 r o Ho. destruct (H12 r o Ho) as (o2 & Ho2 & Hv2 & Hd2).
  destruct (H23 r o2 Ho2) as (o3 & Ho3 & Hv3 & Hd3).
  exists o3. split; [exact Ho3|]. split; [congruence|]. auto.
Qed.

Lemma keeps_keeps_but (but : option ref) (σ σ' : Store) :
  keeps σ σ' → keeps_but but σ σ'.
Proof.
  intros H r o Ho. destruct (H r o Ho) as (o' & Ho' & Hv & Hd).
  exists o'. split; [exact Ho'|]. split; [exact Hv|]. intros _. apply Hd. discriminate.
Qed.

Lemma grows_keeps (σ σ' : Store) : Reach.grows env σ σ' → keeps σ σ'.
Proof.
  intros [news [Hobj _]]%grows_objects r o Ho. exists o.
  rewrite Hobj, (lookup_app_l_Some _ _ _ _ Ho). auto.
Qed.

Lemma grows_list_of (σ σ' : Store) (r : ref) :
  Reach.grows env σ σ' → list_of σ' r = list_of σ r ∨
                          (list_of σ r = None ∧ list_of σ' r = None).
Proof.
  intros [news [Hobj Hnews]]%grows_objects. unfold list_of. rewrite Hobj.
  destruct (objects σ !! r) as [o|] eqn:Ho.
  - left. rewrite (lookup_app_l_Some _ _ _ _ Ho). reflexivity.
  - right. split; [reflexivity|].
    destruct ((objects σ ++ news) !! r) as [o|] eqn:Ho'; [|reflexivity].
    apply lookup_app_Some in Ho' as [Ho'|[_ Ho']]; [congruence|].
    apply (Forall_lookup_1 _ _ _ _ Hnews) in Ho' as [Hnone _]. exact Hnone.
Qed.

Lemma list_of_grows (σ σ' : Store) (r : ref) (ds : list Dependency) :
  Reach.grows env σ σ' → list_of σ' r = Some ds → list_of σ r = Some ds.
Proof.
  intros G H. destruct (grows_list_of _ _ r G) as [Heq|[_ Hnone]]; congruence.
Qed.

Lemma list_of_push (f r : ref) (d : Dependency) (σ : Store) :
  list_of (push_dependency f d σ) r =
  if decide (f = r) then (λ ds, ds ++ [d]) <$> list_of σ r else list_of σ r.
Proof.
  unfold list_of, push_dependency. cbn [objects].
  destruct (decide (f = r)) as [->|Hne].
  - rewrite list_lookup_alter_eq. destruct (objects σ !! r); reflexivity.
  - rewrite list_lookup_alter_ne by exact Hne. reflexivity.
Qed.

Lemma list_of_assign (f r : ref) (σ : Store) (o : FileObject) :
  objects σ !! f = Some o →
  list_of (set_dependencies f [] σ) r =
  if decide (f = r) then Some [] else list_of σ r.
Proof.
  intros Ho. unfold list_of, set_dependencies. cbn [objects].
  destruct (decide (f = r)) as [<-|Hne].
  - rewrite list_lookup_alter_eq, Ho. reflexivity.
  - rewrite list_lookup_alter_ne by exact Hne. reflexivity.
Qed.

Lemma list_of_cache_result (dirname p : string) (c : CacheResult) (σ : Store) (r : ref) :
  list_of (cache_result dirname p c σ) r = list_of σ r.
Proof. reflexivity. Qed.

Lemma push_keeps_but (f : ref) (d : Dependency) (σ : Store) :
  keeps_but (Some f) σ (push_dependency f d σ).
Proof.
  intros r o Ho. unfold push_dependency. cbn [objects].
  destruct (decide (f = r)) as [->|Hne].
  - rewrite list_lookup_alter_eq, Ho. eexists. split; [reflexivity|].
    split; [reflexivity|]. intros H. congruence.
  - rewrite list_lookup_alter_ne by exact Hne. exists o. auto.
Qed.

Lemma keeps_list_of (σ σ' : Store) (r : ref) (ds : list Dependency) :
  keeps σ σ' → list_of σ r = Some ds → list_of σ' r = Some ds.
Proof.
  unfold list_of. intros H Hr.
  destruct (objects σ !! r) as [o|] eqn:Ho; [|discriminate].
  destruct (H r o Ho) as (o' & -> & _ & Hd). simpl in *. apply Hd; [discriminate|exact Hr].
Qed.

Lemma keeps_but_list_of (f : ref) (σ σ' : Store) (r : ref) (ds : list Dependency) :
  keeps_but (Some f) σ σ' → r ≠ f → list_of σ r = Some ds → list_of σ' r = Some ds.
Proof.
  unfold list_of. intros H Hne Hr.
  destruct (objects σ !! r) as [o|] eqn:Ho; [|discriminate].
  destruct (H r o Ho) as (o' & -> & _ & Hd). simpl in *.
  apply Hd; [congruence|exact Hr].
Qed.

(** A kept object with a list is complete when it was. *)
Lemma keeps_complete (but : option ref) (σ σ' : Store) (r : ref) (o o' : FileObject) :
  keeps_but but σ σ' → but ≠ Some r →
  objects σ !! r = Some o → is_Some (dependencies o) →
  objects σ' !! r = Some o' →
  complete_object o → complete_object o'.
Proof.
  intros H Hbut Ho [ds Hds] Ho' Hc ds' Hds'.
  destruct (H r o Ho) as (o2 & Ho2 & Hv & Hd). rewrite Ho' in Ho2. injection Ho2 as <-.
  rewrite (Hd Hbut ds Hds) in Hds'. injection Hds' as <-.
  destruct (Hc ds Hds) as (requirements & Hscan & Hall).
  exists requirements. split; [|exact Hall]. unfold scanned in *. rewrite Hv. exact Hscan.
Qed.

Lemma is_Some_list_of_keeps_but (but : option ref) (σ σ' : Store) (r : ref) :
  keeps_but but σ σ' → but ≠ Some r → is_Some (list_of σ r) → is_Some (list_of σ' r).
Proof.
  unfold list_of. intros H Hbut [ds Hds].
  destruct (objects σ !! r) as [o|] eqn:Ho; [|discriminate].
  destruct (H r o Ho) as (o' & -> & _ & Hd). simpl in *. rewrite (Hd Hbut ds Hds). eauto.
Qed.

(** *** The walk over the requirements of one file *)

(** What the caller of [resolveRequirements] relies on when it calls
    [analyze] for a dependent. *)
Local Abbreviation analyzes :=
  (λ (analyze : ref → Store → Dependencies.Ending),
     ∀ d σ σ', analyze d σ = Dependencies.Done σ' →
       keeps σ σ' ∧
       (∀ r o', list_of σ r = None → objects σ' !! r = Some o' → complete_object o') ∧
       (closed_but (Some d) σ → closed σ')).

Lemma closed_push (f : ref) (d : Dependency) (σ : Store) :
  closed σ →
  (∀ r, file d = Some r → is_Some (list_of σ r)) →
  closed (push_dependency f d σ).
Proof.
  intros [Hrecords Hcache] Hd.
  assert (∀ r, is_Some (list_of σ r) → is_Some (list_of (push_dependency f d σ) r))
    as Hmono.
  { intros r [ds Hds]. rewrite list_of_push, Hds. destruct (decide (f = r)); simpl; eauto. }
  split.
  - intros g ds x r Hg Hx Hfile. right. apply Hmono.
    rewrite list_of_push in Hg. destruct (decide (f = g)) as [->|Hne].
    + destruct (list_of σ g) as [ds0|] eqn:Hds0; [|discriminate]. injection Hg as <-.
      apply elem_of_app in Hx as [Hx|Hx].
      * destruct (Hrecords g ds0 x r Hds0 Hx Hfile) as [?|?]; [discriminate|assumption].
      * apply list_elem_of_singleton in Hx as ->. exact (Hd r Hfile).
    + destruct (Hrecords g ds x r Hg Hx Hfile) as [?|?]; [discriminate|assumption].
  - intros dirname p c r Hc Hfile. right. apply Hmono.
    destruct (Hcache dirname p c r Hc Hfile) as [?|?]; [discriminate|assumption].
Qed.

Lemma closed_but_resolved (f : ref) (requirement : Required.Requirement)
    (dirname : string) (dependent : option ref) (err : option string) (σ : Store) :
  closed σ →
  closed_but dependent
    (push_dependency f (Dependencies.dependency_of requirement dependent err)
       (cache_result dirname (Required.path requirement)
          {| cached_file := dependent; cached_error := err |} σ)).
Proof.
  intros [Hrecords Hcache].
  set (σ2 := cache_result _ _ _ σ).
  set (rec := Dependencies.dependency_of requirement dependent err).
  assert (∀ r, is_Some (list_of σ r) → is_Some (list_of (push_dependency f rec σ2) r))
    as Hmono.
  { intros r [ds Hds]. rewrite list_of_push. unfold σ2. rewrite list_of_cache_result, Hds.
    destruct (decide (f = r)); simpl; eauto. }
  split.
  - intros g ds x r Hg Hx Hfile.
    rewrite list_of_push in Hg. unfold σ2 in Hg. rewrite list_of_cache_result in Hg.
    destruct (decide (f = g)) as [->|Hne].
    + destruct (list_of σ g) as [ds0|] eqn:Hds0; [|discriminate]. injection Hg as <-.
      apply elem_of_app in Hx as [Hx|Hx].
      * right. apply Hmono.
        destruct (Hrecords g ds0 x r Hds0 Hx Hfile) as [?|?]; [discriminate|assumption].
      * apply list_elem_of_singleton in Hx as ->. left. exact Hfile.
    + right. apply Hmono.
      destruct (Hrecords g ds x r Hg Hx Hfile) as [?|?]; [discriminate|assumption].
  - intros dirname' p c r Hc Hfile.
    change (cached dirname' p σ2 = Some c) in Hc. unfold σ2 in Hc.
    rewrite cached_cache_result in Hc. case_decide.
    + injection Hc as <-. left. exact Hfile.
    + right. apply Hmono.
      destruct (Hcache dirname' p c r Hc Hfile) as [?|?]; [discriminate|assumption].
Qed.

Lemma closed_grows (σ σ' : Store) : Reach.grows env σ σ' → closed σ → closed σ'.
Proof.
  intros G [Hrecords Hcache].
  assert (∀ r, is_Some (list_of σ r) → is_Some (list_of σ' r)) as Hmono.
  { intros r [ds Hds]. destruct (grows_list_of _ _ r G) as [->|[? _]]; [eauto|congruence]. }
  split.
  - intros g ds x r Hg Hx Hfile. right. apply Hmono.
    apply (list_of_grows _ _ _ _ G) in Hg.
    destruct (Hrecords g ds x r Hg Hx Hfile) as [?|?]; [discriminate|assumption].
  - intros dirname p c r Hc Hfile. right. apply Hmono.
    unfold cached in Hc. rewrite (grows_dependencies_cache env _ _ G) in Hc.
    destruct (Hcache dirname p c r Hc Hfile) as [?|?]; [discriminate|assumption].
Qed.

Lemma closed_None (σ : Store) : closed_but None σ → closed σ.
Proof. auto. Qed.

Lemma resolveRequirements_from_frame (analyze : ref → Store → Dependencies.Ending) :
  analyzes analyze →
  ∀ requirements f σ σ' ds0,
    list_of σ f = Some ds0 →
    Dependencies.resolveRequirements_from env options analyze requirements f σ =
      Dependencies.Done σ' →
    keeps_but (Some f) σ σ' ∧
    (∃ ds, list_of σ' f = Some (ds0 ++ ds) ∧ Forall2 mirrors ds requirements) ∧
    (∀ r o', list_of σ r = None → objects σ' !! r = Some o' → complete_object o') ∧
    (closed σ → closed σ').
Proof.
  intros Hrec requirements f. induction requirements as [|req rest IH];
    intros σ σ' ds0 Hf; simpl.
  - intros [= <-]. split; [apply keeps_but_refl|].
    split; [exists []; rewrite app_nil_r; split; [exact Hf|constructor]|].
    split; [|auto]. intros r o' Hr Ho'. intros ds Hds. unfold list_of in Hr.
    rewrite Ho' in Hr. simpl in Hr. congruence.
  - (* one step: the record [rec] is pushed on a store [τ] that keeps [σ] *)
    assert (∀ τ rec,
              keeps σ τ →
              (∀ r, list_of σ r = None → list_of τ r = None) →
              mirrors rec req →
              (closed σ → closed (push_dependency f rec τ)) →
              Dependencies.resolveRequirements_from env options analyze rest f
                (push_dependency f rec τ) = Dependencies.Done σ' →
              keeps_but (Some f) σ σ' ∧
              (∃ ds, list_of σ' f = Some (ds0 ++ ds) ∧ Forall2 mirrors ds (req :: rest)) ∧
              (∀ r o', list_of σ r = None → objects σ' !! r = Some o' →
                       complete_object o') ∧
              (closed σ → closed σ')) as Hstep.
    { intros τ rec Hkeeps Hnone Hmirror Hclosed Hrun.
      assert (list_of (push_dependency f rec τ) f = Some ((ds0 ++ [rec]))) as Hf'.
      { rewrite list_of_push, decide_True by reflexivity.
        rewrite (keeps_list_of _ _ _ _ Hkeeps Hf). reflexivity. }
      destruct (IH _ _ _ Hf' Hrun) as (Hk & (ds & Hds & Hall) & Hnew & Hcl).
      split; [|split; [|split]].
      - eapply keeps_but_trans; [|exact Hk].
        eapply keeps_but_trans; [apply keeps_keeps_but, Hkeeps|apply push_keeps_but].
      - exists (rec :: ds). rewrite Hds, <- app_assoc. split; [reflexivity|].
        constructor; assumption.
      - intros r o' Hr Ho'. apply (Hnew r o'); [|exact Ho'].
        rewrite list_of_push. destruct (decide (f = r)) as [<-|_]; [congruence|].
        apply Hnone, Hr.
      - intros Hσ. apply Hcl, Hclosed, Hσ. }
    destruct (Required.static req) eqn:Hstatic; simpl.
    + destruct (cached _ (Required.path req) σ) as [c|] eqn:Hcached.
      * apply Hstep; [apply keeps_but_refl|auto| |].
        -- split; [reflexivity|]. split; [simpl; congruence|reflexivity].
        -- intros Hσ. apply closed_push; [exact Hσ|].
           intros r Hr. simpl in Hr.
           destruct (proj2 Hσ _ _ _ _ Hcached Hr) as [?|?]; [discriminate|assumption].
      * destruct (Resolver.resolve env options _ _ σ) as [[[err dependent] σ1]| |]
          eqn:Hres; try discriminate.
        apply resolve_grows in Hres as [G _].
        set (err' := match dependent with
                     | Some _ => err
                     | None => Some "Unable to locate dependency"
                     end).
        set (σ2 := cache_result _ (Required.path req) _ σ1).
        set (rec := Dependencies.dependency_of req dependent err').
        assert (keeps σ σ2) as Hk2 by exact (grows_keeps _ _ G).
        assert (∀ r, list_of σ r = None → list_of σ2 r = None) as Hnone2.
        { intros r Hr. unfold σ2. rewrite list_of_cache_result.
          destruct (grows_list_of _ _ r G) as [->|[_ ?]]; assumption. }
        assert (mirrors rec req) as Hmirror.
        { split; [reflexivity|]. split; [simpl; congruence|reflexivity]. }
        assert (closed σ → closed_but dependent (push_dependency f rec σ2)) as Hcb.
        { intros Hσ. apply closed_but_resolved. exact (closed_grows _ _ G Hσ). }
        destruct dependent as [dependent|]; [|apply (Hstep σ2 rec); auto].
        destruct (analyze dependent (push_dependency f rec σ2)) as [σ4| | |] eqn:Ha;
          try discriminate.
        destruct (Hrec _ _ _ Ha) as (Hk4 & Hnew4 & Hcl4).
        intros Hrun.
        assert (list_of σ4 f = Some (ds0 ++ [rec])) as Hf4.
        { apply (keeps_list_of _ _ _ _ Hk4).
          rewrite list_of_push, decide_True by reflexivity.
          rewrite (keeps_list_of _ _ _ _ Hk2 Hf). reflexivity. }
        destruct (IH _ _ _ Hf4 Hrun) as (Hk & (ds & Hds & Hall) & Hnew & Hcl).
        split; [|split; [|split]].
        -- eapply keeps_but_trans; [|exact Hk].
           eapply keeps_but_trans; [|apply keeps_keeps_but, Hk4].
           eapply keeps_but_trans; [apply keeps_keeps_but, Hk2|apply push_keeps_but].
        -- exists (rec :: ds). rewrite Hds, <- app_assoc. split; [reflexivity|].
           constructor; assumption.
        -- intros r o' Hr Ho'.
           assert (r ≠ f) as Hne by congruence.
           assert (list_of (push_dependency f rec σ2) r = None) as Hr3.
           { rewrite list_of_push, decide_False by congruence. apply Hnone2, Hr. }
           destruct (list_of σ4 r) as [ds4|] eqn:Hr4; [|exact (Hnew r o' Hr4 Ho')].
           unfold list_of in Hr4.
           destruct (objects σ4 !! r) as [o4|] eqn:Ho4; [|discriminate].
           apply (keeps_complete (Some f) σ4 σ' r o4 o' Hk); try assumption.
           ++ congruence.
           ++ simpl in Hr4. eauto.
           ++ exact (Hnew4 r o4 Hr3 Ho4).
        -- intros Hσ. apply Hcl, Hcl4, Hcb, Hσ.
    + apply Hstep; [apply keeps_but_refl|auto| |].
      * split; [reflexivity|]. split; [simpl; congruence|reflexivity].
      * intros Hσ. apply closed_push; [exact Hσ|]. discriminate.
Qed.

Lemma analyze_frame (fuel : nat) :
  analyzes (λ d, Dependencies.analyze env options fuel (Some d)).
Proof.
  induction fuel as [|fuel IH]; intros f σ σ'; [discriminate|].
  destruct (objects σ !! f) as [o|] eqn:Ho;
    [rewrite (analyze_unfold env options _ _ _ _ Ho)
    |cbn [Dependencies.analyze]; rewrite Ho; discriminate].
  destruct (Vinyl.isNull (vinyl o)); [discriminate|].
  destruct (dependencies o) as [ds|] eqn:Hds.
  { intros [= <-]. split; [apply keeps_but_refl|]. split.
    - intros r o' Hr Ho' ds' Hds'. unfold list_of in Hr. rewrite Ho' in Hr. simpl in Hr.
      congruence.
    - intros [Hrecords Hcache].
      assert (is_Some (list_of σ f)) as Hf by (unfold list_of; rewrite Ho; simpl; eauto).
      split.
      + intros g ds' x r Hg Hx Hfile. right.
        destruct (Hrecords g ds' x r Hg Hx Hfile) as [[= <-]|?]; assumption.
      + intros dirname p c r Hc Hfile. right.
        destruct (Hcache dirname p c r Hc Hfile) as [[= <-]|?]; assumption. }
  destruct (Required.analyze _ _) as [[requirements|]| |] eqn:Hscan; try discriminate.
  intros Hrun.
  assert (list_of (set_dependencies f [] σ) f = Some []) as Hf1.
  { rewrite (list_of_assign _ _ _ _ Ho), decide_True by reflexivity. reflexivity. }
  destruct (resolveRequirements_from_frame _ IH _ _ _ _ _ Hf1 Hrun)
    as (Hk & (ds & Hlist & Hall) & Hnew & Hcl).
  split; [|split].
  - intros r o0 Ho0.
    destruct (decide (f = r)) as [<-|Hne].
    + destruct (Hk f {| vinyl := vinyl o; dependencies := Some [] |})
        as (o' & Ho' & Hv & _).
      { unfold set_dependencies. cbn [objects]. rewrite list_lookup_alter_eq, Ho.
        reflexivity. }
      exists o'. split; [exact Ho'|]. rewrite Ho in Ho0. injection Ho0 as <-.
      split; [exact Hv|]. intros _ ds' Hds'. congruence.
    + destruct (Hk r o0) as (o' & Ho' & Hv & Hd).
      { unfold set_dependencies. cbn [objects]. rewrite list_lookup_alter_ne by exact Hne.
        exact Ho0. }
      exists o'. split; [exact Ho'|]. split; [exact Hv|]. intros _. apply Hd. congruence.
  - intros r o' Hr Ho'. destruct (decide (f = r)) as [<-|Hne].
    + intros ds' Hds'. exists requirements.
      destruct (Hk f {| vinyl := vinyl o; dependencies := Some [] |})
        as (o2 & Ho2 & Hv & _).
      { unfold set_dependencies. cbn [objects]. rewrite list_lookup_alter_eq, Ho.
        reflexivity. }
      rewrite Ho' in Ho2. injection Ho2 as <-.
      split; [unfold scanned; rewrite Hv; exact Hscan|].
      unfold list_of in Hlist. rewrite Ho' in Hlist. simpl in Hlist.
      rewrite Hds' in Hlist. injection Hlist as ->. exact Hall.
    + apply (Hnew r o'); [|exact Ho'].
      rewrite (list_of_assign _ _ _ _ Ho), decide_False by exact Hne. exact Hr.
  - intros [Hrecords Hcache]. apply Hcl.
    assert (∀ r, Some f = Some r ∨ is_Some (list_of σ r) →
                 is_Some (list_of (set_dependencies f [] σ) r)) as Hmono.
    { intros r Hr. rewrite (list_of_assign _ _ _ _ Ho).
      destruct (decide (f = r)) as [<-|Hne]; [eauto|].
      destruct Hr as [[= ->]|Hr]; [contradiction|exact Hr]. }
    split.
    + intros g ds' x r Hg Hx Hfile. right. apply Hmono.
      rewrite (list_of_assign _ _ _ _ Ho) in Hg.
      destruct (decide (f = g)) as [<-|Hne].
      * injection Hg as <-. inversion Hx.
      * exact (Hrecords g ds' x r Hg Hx Hfile).
    + intros dirname p c r Hc Hfile. right. apply Hmono.
      exact (Hcache dirname p c r Hc Hfile).
Qed.

End FrameFacts.

Section MoveFacts.
Variable env : Node.Env.
Variable options : Resolver.Options.

Import Graph.

Local Abbreviation move := (Graph.move env options).
Local Abbreviation moves := (rtc (Graph.move env options)).
Local Abbreviation later := (Cache.later env).
Local Abbreviation sound := (Graph.sound env options).
Local Abbreviation answers := (Graph.answers env options).
Local Abbreviation dirname_of := (Graph.dirname_of env).

Lemma resolveRequirements_from_moves (analyze : ref → Store → Dependencies.Ending) :
  (∀ d σ σ', analyze d σ = Dependencies.Done σ' → moves σ σ') →
  ∀ requirements file σ σ',
    Dependencies.resolveRequirements_from env options analyze requirements file σ =
      Dependencies.Done σ' →
    moves σ σ'.
Proof.
  intros Hrec requirements file. induction requirements as [|req rest IH];
    intros σ σ'; simpl.
  - intros [= <-]. constructor.
  - destruct (Required.static req) eqn:Hstatic; simpl.
    + destruct (cached _ (Required.path req) σ) as [c|] eqn:Hcached.
      * intros H. eapply rtc_l; [|exact (IH _ _ H)].
        apply move_cached; assumption.
      * destruct (Resolver.resolve env options _ _ σ) as [[[err dependent] σ1]| |]
          eqn:Hres; try discriminate.
        pose proof (move_resolved env options σ σ1 file req err dependent
                      Hstatic Hcached Hres) as Hmove.
        destruct dependent as [dependent|].
        -- destruct (analyze dependent _) as [σ4| | |] eqn:Ha; try discriminate.
           intros H. eapply rtc_l; [exact Hmove|].
           eapply rtc_trans; [exact (Hrec _ _ _ Ha)|exact (IH _ _ H)].
        -- intros H. eapply rtc_l; [exact Hmove|exact (IH _ _ H)].
    + intros H. eapply rtc_l; [|exact (IH _ _ H)].
      apply move_dynamic. exact Hstatic.
Qed.

Lemma analyze_moves (fuel : nat) (file : option ref) (σ σ' : Store) :
  Dependencies.analyze env options fuel file σ = Dependencies.Done σ' → moves σ σ'.
Proof.
  revert file σ σ'. induction fuel as [|fuel IH]; intros file σ σ';
    [discriminate|].
  destruct file as [f|]; [|discriminate].
  destruct (objects σ !! f) as [o|] eqn:Ho;
    [rewrite (analyze_unfold env options _ _ _ _ Ho)
    |cbn [Dependencies.analyze]; rewrite Ho; discriminate].
  destruct (Vinyl.isNull (vinyl o)); [discriminate|].
  destruct (dependencies o) as [ds|] eqn:Hds.
  { intros [= <-]. constructor. }
  destruct (Required.analyze _ _) as [[requirements|]| |]; try discriminate.
  intros H. eapply rtc_l; [exact (move_assign env options σ f o Ho Hds)|].
  eapply resolveRequirements_from_moves; [|exact H].
  intros d σ1 σ2. apply IH.
Qed.

(** *** What a move keeps *)

Lemma move_later (σ σ' : Store) : move σ σ' → later σ σ'.
Proof.
  destruct 1 as [σ f o Ho Hds|σ f req Hdyn|σ f req c Hst Hc
                 |σ σ1 f req err dependent Hst Hc Hres].
  - apply (later_same_cache env σ σ); [reflexivity|apply later_refl].
  - apply (later_same_cache env σ σ); [reflexivity|apply later_refl].
  - apply (later_same_cache env σ σ); [reflexivity|apply later_refl].
  - apply (later_same_cache env σ σ1); [reflexivity|].
    apply grows_later, (resolve_grows env options _ _ _ _ _ Hres).
Qed.

Lemma moves_later (σ σ' : Store) : moves σ σ' → later σ σ'.
Proof.
  induction 1 as [|σ1 σ2 σ3 H12 _ IH]; [apply later_refl|].
  exact (later_trans _ _ _ _ (move_later _ _ H12) IH).
Qed.

Lemma move_evolves (σ σ' : Store) : move σ σ' → Reach.evolves σ σ'.
Proof.
  destruct 1 as [σ f o Ho Hds|σ f req Hdyn|σ f req c Hst Hc
                 |σ σ1 f req err dependent Hst Hc Hres].
  - eapply alter_objects_evolves; [reflexivity|]. intros o'. simpl. eauto.
  - eapply alter_objects_evolves; [reflexivity|]. intros o'. simpl.
    split; [reflexivity|]. intros [ds ->]. simpl. eauto.
  - eapply alter_objects_evolves; [reflexivity|]. intros o'. simpl.
    split; [reflexivity|]. intros [ds ->]. simpl. eauto.
  - eapply evolves_trans;
      [apply (grows_evolves env), (resolve_grows env options _ _ _ _ _ Hres)|].
    eapply alter_objects_evolves; [reflexivity|]. intros o'. simpl.
    split; [reflexivity|]. intros [ds ->]. simpl. eauto.
Qed.

Lemma evolves_dirname (σ σ' : Store) (f : ref) :
  Reach.evolves σ σ' → is_Some (objects σ !! f) → dirname_of σ' f = dirname_of σ f.
Proof.
  intros H [o Ho]. destruct (H f o Ho) as (o' & Ho' & Hv & _).
  unfold Graph.dirname_of, path_of. rewrite Ho, Ho', Hv. reflexivity.
Qed.

Lemma list_of_exists (σ : Store) (f : ref) (ds : list Dependency) :
  list_of σ f = Some ds → is_Some (objects σ !! f).
Proof. unfold list_of. destruct (objects σ !! f); [eauto|discriminate]. Qed.

Lemma move_cached_kept (σ σ' : Store) (dirname p : string) (c : CacheResult) :
  move σ σ' → cached dirname p σ = Some c → cached dirname p σ' = Some c.
Proof.
  destruct 1 as [σ f o Ho Hds|σ f req Hdyn|σ f req c0 Hst Hc
                 |σ σ1 f req err dependent Hst Hc Hres]; try (intros H; exact H).
  intros H.
  change (cached dirname p
            (cache_result (dirname_of σ f) (Required.path req)
               {| cached_file := dependent; cached_error := located dependent err |} σ1)
          = Some c).
  rewrite cached_cache_result. case_decide as Hkey.
  - destruct Hkey as [<- <-]. congruence.
  - unfold cached in *.
    rewrite (grows_dependencies_cache env _ _
               (proj1 (resolve_grows env options _ _ _ _ _ Hres))).
    exact H.
Qed.

Lemma moves_cached_kept (σ σ' : Store) (dirname p : string) (c : CacheResult) :
  moves σ σ' → cached dirname p σ = Some c → cached dirname p σ' = Some c.
Proof. induction 1; eauto using move_cached_kept. Qed.

Lemma answers_later (σ σ' : Store) (dirname p : string) (file : option ref) :
  later σ σ' → answers σ dirname p file → answers σ' dirname p file.
Proof.
  intros Hlater [err Hres]. exists err.
  exact (resolve_stable env options _ _ _ _ _ _ Hres Hlater).
Qed.

Lemma move_sound (σ σ' : Store) : move σ σ' → sound σ → sound σ'.
Proof.
  intros Hmove [Hcache Hrecords].
  pose proof (move_later _ _ Hmove) as Hlater.
  pose proof (move_evolves _ _ Hmove) as Hev.
  assert (∀ g ds0 d,
            list_of σ g = Some ds0 → d ∈ ds0 →
            if static d
            then cached (dirname_of σ' g) (path d) σ' =
                 Some {| cached_file := file d; cached_error := error d |}
            else file d = None ∧ error d = Some "Unable to resolve dynamic dependency")
    as Hold.
  { intros g ds0 d Hg Hd. specialize (Hrecords g ds0 d Hg Hd).
    destruct (static d); [|exact Hrecords].
    rewrite (evolves_dirname _ _ _ Hev (list_of_exists _ _ _ Hg)).
    exact (move_cached_kept _ _ _ _ _ Hmove Hrecords). }
  assert (∀ dirname p c,
            cached dirname p σ = Some c →
            answers σ' dirname p (cached_file c) ∧
            settled (cached_file c) (cached_error c)) as Hkept.
  { intros dirname p c Hc. destruct (Hcache _ _ _ Hc) as [Ha Hs].
    split; [exact (answers_later _ _ _ _ _ Hlater Ha)|exact Hs]. }
  clear Hcache Hrecords.
  destruct Hmove as [σ f o Ho Hds|σ f req Hdyn|σ f req c0 Hst Hc
                     |σ σ1 f req err dependent Hst Hc Hres].
  - split; [exact Hkept|]. intros g ds d Hg Hd.
    rewrite (list_of_assign _ _ _ _ Ho) in Hg. destruct (decide (f = g)) as [<-|Hne].
    + injection Hg as <-. inversion Hd.
    + exact (Hold g ds d Hg Hd).
  - split; [exact Hkept|]. intros g ds d Hg Hd.
    rewrite list_of_push in Hg. destruct (decide (f = g)) as [<-|Hne];
      [|exact (Hold g ds d Hg Hd)].
    destruct (list_of σ f) as [ds0|] eqn:Hf; [|discriminate]. injection Hg as <-.
    apply elem_of_app in Hd as [Hd|Hd]; [exact (Hold f ds0 d Hf Hd)|].
    apply list_elem_of_singleton in Hd as ->. simpl. rewrite Hdyn. split; reflexivity.
  - split; [exact Hkept|]. intros g ds d Hg Hd.
    rewrite list_of_push in Hg. destruct (decide (f = g)) as [<-|Hne];
      [|exact (Hold g ds d Hg Hd)].
    destruct (list_of σ f) as [ds0|] eqn:Hf; [|discriminate]. injection Hg as <-.
    apply elem_of_app in Hd as [Hd|Hd]; [exact (Hold f ds0 d Hf Hd)|].
    apply list_elem_of_singleton in Hd as ->. simpl. rewrite Hst.
    rewrite (evolves_dirname _ _ _ Hev (list_of_exists _ _ _ Hf)).
    change (cached (dirname_of σ f) (Required.path req) σ =
            Some {| cached_file := cached_file c0; cached_error := cached_error c0 |}).
    rewrite Hc. destruct c0; reflexivity.
  - pose proof (resolve_grows env options _ _ _ _ _ Hres) as [G _].
    set (dn := dirname_of σ f) in *.
    set (c' := {| cached_file := dependent; cached_error := located dependent err |}) in *.
    set (rec := Dependencies.dependency_of req dependent (located dependent err)) in *.
    split.
    + intros dirname p c Hc'.
      change (cached dirname p (cache_result dn (Required.path req) c' σ1) = Some c)
        in Hc'.
      rewrite cached_cache_result in Hc'. case_decide as Hkey.
      * injection Hc' as <-. destruct Hkey as [<- <-]. split.
        -- exists err. apply (resolve_stable env options _ _ _ _ _ _ Hres).
           apply (later_same_cache env σ1 σ1); [reflexivity|apply later_refl].
        -- unfold c'. simpl. destruct dependent as [dependent|]; simpl; [|reflexivity].
           destruct err as [e|]; [|reflexivity].
           destruct (proj2 (resolve_fetched env options _ _ _ _ _ Hres) e eq_refl)
             as [Hnone _]. discriminate Hnone.
      * apply Hkept. unfold cached in *.
        rewrite <- (grows_dependencies_cache env _ _ G). exact Hc'.
    + intros g ds d Hg Hd. rewrite list_of_push in Hg.
      change (list_of (cache_result dn (Required.path req) c' σ1) g)
        with (list_of σ1 g) in Hg.
      destruct (decide (f = g)) as [<-|Hne];
        [|exact (Hold g ds d (list_of_grows env _ _ _ _ G Hg) Hd)].
      destruct (list_of σ1 f) as [ds0|] eqn:Hf1; [|discriminate]. injection Hg as <-.
      pose proof (list_of_grows env _ _ _ _ G Hf1) as Hf.
      apply elem_of_app in Hd as [Hd|Hd]; [exact (Hold f ds0 d Hf Hd)|].
      apply list_elem_of_singleton in Hd as ->. simpl. rewrite Hst.
      rewrite (evolves_dirname _ _ _ Hev (list_of_exists _ _ _ Hf)). fold dn.
      change (cached dn (Required.path req)
                (cache_result dn (Required.path req) c' σ1) = Some c').
      rewrite cached_cache_result. rewrite decide_True by auto. reflexivity.
Qed.

Lemma moves_sound (σ σ' : Store) : moves σ σ' → sound σ → sound σ'.
Proof. induction 1; eauto using move_sound. Qed.

End MoveFacts.

Section FacadeFacts.
Variable env : Node.Env.
Variable options : Resolver.Options.

Import Graph.

Local Abbreviation moves := (rtc (Graph.move env options)).
Local Abbreviation faithful := (Cache.faithful env).

Lemma grows_sound (σ σ' : Store) :
  Reach.grows env σ σ' → Graph.sound env options σ → Graph.sound env options σ'.
Proof.
  intros G [Hcache Hrecords]. split.
  - intros dirname p c Hc. unfold cached in Hc.
    rewrite (grows_dependencies_cache env _ _ G) in Hc.
    destruct (Hcache dirname p c Hc) as [Ha Hs]. split; [|exact Hs].
    exact (answers_later env options _ _ _ _ _ (grows_later env _ _ G) Ha).
  - intros g ds d Hg Hd. apply (list_of_grows env _ _ _ _ G) in Hg.
    specialize (Hrecords g ds d Hg Hd). destruct (static d); [|exact Hrecords].
    rewrite (evolves_dirname env _ _ _ (grows_evolves env _ _ G)
               (list_of_exists _ _ _ Hg)).
    unfold cached in *. rewrite (grows_dependencies_cache env _ _ G). exact Hrecords.
Qed.

Lemma grows_complete (σ σ' : Store) :
  Reach.grows env σ σ' → Graph.complete env σ → Graph.complete env σ'.
Proof.
  intros [news [Hobj Hnews]]%grows_objects Hσ f o Ho. rewrite Hobj in Ho.
  apply lookup_app_Some in Ho as [Ho|[_ Ho]]; [exact (Hσ f o Ho)|].
  apply (Forall_lookup_1 _ _ _ _ Hnews) in Ho as [Hnone _].
  intros ds Hds. congruence.
Qed.

Lemma analyze_complete (fuel : nat) (file : option ref) (σ σ' : Store) :
  Dependencies.analyze env options fuel file σ = Dependencies.Done σ' →
  Graph.complete env σ → Graph.complete env σ'.
Proof.
  destruct file as [f|]; [|destruct fuel; discriminate].
  intros Hrun Hσ r o' Ho'.
  destruct (analyze_frame env options fuel f σ σ' Hrun) as (Hk & Hnew & _).
  destruct (list_of σ r) as [ds|] eqn:Hr; [|exact (Hnew r o' Hr Ho')].
  unfold list_of in Hr. destruct (objects σ !! r) as [o|] eqn:Ho; [|discriminate].
  apply (keeps_complete env None σ σ' r o o' Hk); try assumption.
  - discriminate.
  - simpl in Hr. eauto.
  - exact (Hσ r o Ho).
Qed.

Lemma analyze_closed (fuel : nat) (file : option ref) (σ σ' : Store) :
  Dependencies.analyze env options fuel file σ = Dependencies.Done σ' →
  closed σ → closed σ'.
Proof.
  destruct file as [f|]; [|destruct fuel; discriminate].
  intros Hrun [Hrecords Hcache].
  apply (analyze_frame env options fuel f σ σ' Hrun). split.
  - intros g ds d r Hg Hd Hfile. right.
    destruct (Hrecords g ds d r Hg Hd Hfile) as [?|?]; [discriminate|assumption].
  - intros dirname p c r Hc Hfile. right.
    destruct (Hcache dirname p c r Hc Hfile) as [?|?]; [discriminate|assumption].
Qed.

Lemma analyze_lists_root (fuel : nat) (f : ref) (σ σ' : Store) :
  Dependencies.analyze env options fuel (Some f) σ = Dependencies.Done σ' →
  is_Some (list_of σ' f).
Proof.
  intros Hrun. destruct fuel as [|fuel]; [discriminate|].
  destruct (objects σ !! f) as [o|] eqn:Ho;
    [|cbn [Dependencies.analyze] in Hrun; rewrite Ho in Hrun; discriminate].
  rewrite (analyze_unfold env options _ _ _ _ Ho) in Hrun.
  destruct (Vinyl.isNull (vinyl o)); [discriminate|].
  destruct (dependencies o) as [ds|] eqn:Hds.
  { injection Hrun as <-. unfold list_of. rewrite Ho. simpl. eauto. }
  destruct (Required.analyze _ _) as [[requirements|]| |]; try discriminate.
  assert (list_of (set_dependencies f [] σ) f = Some []) as Hf1.
  { rewrite (list_of_assign _ _ _ _ Ho), decide_True by reflexivity. reflexivity. }
  destruct (resolveRequirements_from_frame env options _ (analyze_frame env options fuel)
              _ _ _ _ _ Hf1 Hrun) as (_ & (ds & Hlist & _) & _).
  eauto.
Qed.

(** *** The File objects the grapher is given have contents *)

Lemma move_faithful (σ σ' : Store) :
  Graph.move env options σ σ' → faithful σ → faithful σ'.
Proof.
  intros Hmove Hσ p r Hp.
  assert (∃ σ1, Reach.grows env σ σ1 ∧ resolver_cache σ' = resolver_cache σ1 ∧
                Reach.evolves σ1 σ') as (σ1 & G & Hcache & Hev).
  { destruct Hmove as [σ f o Ho Hds|σ f req Hdyn|σ f req c Hst Hc
                       |σ σ1 f req err dependent Hst Hc Hres].
    - exists σ. split; [constructor|]. split; [reflexivity|].
      eapply alter_objects_evolves; [reflexivity|]. intros o'. simpl. eauto.
    - exists σ. split; [constructor|]. split; [reflexivity|].
      eapply alter_objects_evolves; [reflexivity|]. intros o'. simpl.
      split; [reflexivity|]. intros [ds ->]. simpl. eauto.
    - exists σ. split; [constructor|]. split; [reflexivity|].
      eapply alter_objects_evolves; [reflexivity|]. intros o'. simpl.
      split; [reflexivity|]. intros [ds ->]. simpl. eauto.
    - exists σ1. split; [exact (proj1 (resolve_grows env options _ _ _ _ _ Hres))|].
      split; [reflexivity|].
      eapply alter_objects_evolves; [reflexivity|]. intros o'. simpl.
      split; [reflexivity|]. intros [ds ->]. simpl. eauto. }
  rewrite Hcache in Hp.
  destruct (grows_faithful env _ _ G Hσ p r Hp) as (o & contents & Ho & Hdisk & Hv).
  destruct (Hev r o Ho) as (o' & Ho' & Hv' & _).
  exists o', contents. split; [exact Ho'|]. split; [exact Hdisk|congruence].
Qed.

Lemma moves_faithful (σ σ' : Store) : moves σ σ' → faithful σ → faithful σ'.
Proof. induction 1; eauto using move_faithful. Qed.

Lemma resolveRequirements_from_calls_back (analyze : ref → Store → Dependencies.Ending) :
  (∀ d σ σ', analyze d σ = Dependencies.Done σ' → moves σ σ') →
  (∀ d σ σ', faithful σ → Reach.in_cache σ d → analyze d σ ≠ Dependencies.Dropped σ') →
  ∀ requirements file σ σ',
    faithful σ →
    Dependencies.resolveRequirements_from env options analyze requirements file σ ≠
    Dependencies.Dropped σ'.
Proof.
  intros Hmoves Hrec requirements file.
  induction requirements as [|req rest IH]; intros σ σ' Hσ; simpl; [discriminate|].
  destruct (Required.static req) eqn:Hstatic; simpl.
  - destruct (cached _ (Required.path req) σ) as [c|] eqn:Hcached.
    + apply IH. eapply move_faithful; [|exact Hσ]. apply move_cached; eassumption.
    + destruct (Resolver.resolve env options _ _ σ) as [[[err dependent] σ1]| |]
        eqn:Hres; try discriminate.
      pose proof (move_resolved env options σ σ1 file req err dependent
                    Hstatic Hcached Hres) as Hmove.
      pose proof (move_faithful _ _ Hmove Hσ) as Hσ3.
      destruct dependent as [dependent|]; [|apply IH, Hσ3].
      assert (Reach.in_cache
                (push_dependency file
                   (Dependencies.dependency_of req (Some dependent)
                      (located (Some dependent) err))
                   (cache_result (Graph.dirname_of env σ file) (Required.path req)
                      {| cached_file := Some dependent;
                         cached_error := located (Some dependent) err |} σ1))
                dependent) as Hin.
      { destruct (proj2 (resolve_grows env options _ _ _ _ _ Hres) dependent eq_refl)
          as [p Hp]. exists p. exact Hp. }
      specialize (Hrec dependent _ σ' Hσ3 Hin).
      destruct (analyze dependent _) as [σ4| | |] eqn:Ha; try discriminate;
        [|exact Hrec].
      apply IH. exact (moves_faithful _ _ (Hmoves _ _ _ Ha) Hσ3).
  - apply IH. eapply move_faithful; [|exact Hσ]. apply move_dynamic. exact Hstatic.
Qed.

Lemma analyze_calls_back (fuel : nat) (f : ref) (σ σ' : Store) :
  faithful σ → Reach.in_cache σ f →
  Dependencies.analyze env options fuel (Some f) σ ≠ Dependencies.Dropped σ'.
Proof.
  revert f σ σ'. induction fuel as [|fuel IH]; intros f σ σ' Hσ [p Hp]; [discriminate|].
  destruct (Hσ p f Hp) as (o & contents & Ho & _ & Hv).
  rewrite (analyze_unfold env options _ _ _ _ Ho).
  assert (Vinyl.isNull (vinyl o) = false) as ->
    by (unfold Vinyl.isNull; rewrite Hv; reflexivity).
  destruct (dependencies o) as [ds|] eqn:Hds; [discriminate|].
  destruct (Required.analyze _ _) as [[requirements|]| |]; try discriminate.
  apply resolveRequirements_from_calls_back.
  - intros d σ1 σ2. apply analyze_moves.
  - intros d σ1 σ2. apply IH.
  - eapply move_faithful; [|exact Hσ]. eapply move_assign; eassumption.
Qed.

End FacadeFacts.

Section FreshFacts.
Variable env : Node.Env.
Variable options : Resolver.Options.

Import Graph.

(** Objects without any list and without cached outcome. *)
Lemma unlisted_mapped (σ : Store) :
  Forall (λ o, dependencies o = None) (objects σ) →
  dependencies_cache σ = ∅ →
  Graph.mapped env options σ.
Proof.
  intros Hnone Hempty.
  assert (∀ f ds, list_of σ f = Some ds → False) as Hlist.
  { intros f ds Hf. unfold list_of in Hf.
    destruct (objects σ !! f) as [o|] eqn:Ho; [|discriminate].
    apply (Forall_lookup_1 _ _ _ _ Hnone) in Ho. simpl in Hf. congruence. }
  assert (∀ dirname p c, cached dirname p σ = Some c → False) as Hcache.
  { intros dirname p c Hc. unfold cached in Hc. rewrite Hempty, lookup_empty in Hc.
    discriminate. }
  split; [|split].
  - split.
    + intros f ds d r Hf. destruct (Hlist f ds Hf).
    + intros dirname p c r Hc. destruct (Hcache dirname p c Hc).
  - intros f o Ho ds Hds. apply (Forall_lookup_1 _ _ _ _ Hnone) in Ho. congruence.
  - split.
    + intros dirname p c Hc. destruct (Hcache dirname p c Hc).
    + intros f ds d Hf. destruct (Hlist f ds Hf).
Qed.

Lemma empty_mapped : Graph.mapped env options Heap.empty.
Proof. apply unlisted_mapped; [constructor|reflexivity]. Qed.

Lemma resolve_mapped (module : string) (base : option string) (σ σ' : Store)
    (answer : Resolver.Answer) :
  Resolver.resolve env options module base σ = Returned (answer, σ') →
  Graph.mapped env options σ → Graph.mapped env options σ'.
Proof.
  intros [G _]%resolve_grows (Hclosed & Hcomplete & Hsound).
  split; [exact (closed_grows env _ _ G Hclosed)|].
  split; [exact (grows_complete env _ _ G Hcomplete)|].
  exact (grows_sound env options _ _ G Hsound).
Qed.

Lemma analyze_mapped (fuel : nat) (file : option ref) (σ σ' : Store) :
  Dependencies.analyze env options fuel file σ = Dependencies.Done σ' →
  Graph.mapped env options σ → Graph.mapped env options σ'.
Proof.
  intros Hrun (Hclosed & Hcomplete & Hsound).
  split; [exact (analyze_closed env options _ _ _ _ Hrun Hclosed)|].
  split; [exact (analyze_complete env options _ _ _ _ Hrun Hcomplete)|].
  exact (moves_sound env options _ _ (analyze_moves env options _ _ _ _ Hrun) Hsound).
Qed.

(** What [sound] says of one record. *)
Lemma sound_record (σ : Store) (f : ref) (ds : list Dependency) (d : Dependency) :
  Graph.sound env options σ →
  list_of σ f = Some ds → d ∈ ds →
  if static d
  then Graph.answers env options σ (Graph.dirname_of env σ f) (path d) (file d) ∧
       settled (file d) (error d)
  else file d = None ∧ error d = Some "Unable to resolve dynamic dependency".
Proof.
  intros [Hcache Hrecords] Hf Hd. specialize (Hrecords f ds d Hf Hd).
  destruct (static d); [|exact Hrecords].
  exact (Hcache _ _ _ Hrecords).
Qed.

End FreshFacts.

(** ** Further properties of the grapher (src/dependencies.js) *)

(** A file that has been analysed is left alone.  A call of [analyze]
    that completes keeps every File object, with its Vinyl file, and
    keeps every dependency list that was assigned when the call began as
    it was: records are appended only to the lists the call itself
    assigns. *)
Theorem analyze_leaves_assigned_lists (env : Node.Env) (options : Resolver.Options)
    (fuel : nat) (file : option ref) (σ σ' : Store) :
  Dependencies.analyze env options fuel file σ = Dependencies.Done σ' →
  Graph.keeps σ σ'.
Proof.
  destruct file as [f|]; [|destruct fuel; discriminate].
  intros Hrun. exact (proj1 (analyze_frame env options fuel f σ σ' Hrun)).
Qed.

(** Scenario 6, once [/a/x.js] has been analysed: analysing [/a/y.js]
    keeps its list. *)
Lemma analyze_leaves_assigned_lists_witness :
  ∃ σ1 σ2,
    Dependencies.analyze Scenario.cycle Resolver.defaults 3 (Some 0)
      Scenario.cycle_start = Dependencies.Done σ1 ∧
    Dependencies.analyze Scenario.cycle Resolver.defaults 3 (Some 1) σ1 =
      Dependencies.Done σ2 ∧
    Graph.keeps Scenario.cycle_start σ1 ∧ Graph.keeps σ1 σ2.
Proof.
  eexists _, _. split; [vm_compute; reflexivity|]. split; [vm_compute; reflexivity|].
  split.
  - apply (analyze_leaves_assigned_lists Scenario.cycle Resolver.defaults 3 (Some 0)).
    vm_compute. reflexivity.
  - apply (analyze_leaves_assigned_lists Scenario.cycle Resolver.defaults 3 (Some 1)).
    vm_compute. reflexivity.
Defined.

(** The list [analyze] assigns holds one record per descriptor.  When
    every list of the process holds one record for each descriptor the
    scanner returns for its file, in the scanner's order and with the
    descriptor's path, flag and references, then so does every list
    after a call of [analyze] that completes; and the file the call was
    given has a list. *)
Theorem analyze_lists_one_record_per_descriptor (env : Node.Env)
    (options : Resolver.Options) (fuel : nat) (root : ref) (σ σ' : Store) :
  Graph.complete env σ →
  Dependencies.analyze env options fuel (Some root) σ = Dependencies.Done σ' →
  Graph.complete env σ' ∧ is_Some (Graph.list_of σ' root).
Proof.
  intros Hσ Hrun. split.
  - exact (analyze_complete env options _ _ _ _ Hrun Hσ).
  - exact (analyze_lists_root env options _ _ _ _ Hrun).
Qed.

(** Scenario 6: both files get a list with a record for their one
    descriptor. *)
Lemma analyze_lists_one_record_per_descriptor_witness :
  ∃ σ',
    Dependencies.analyze Scenario.cycle Resolver.defaults 3 (Some 0)
      Scenario.cycle_start = Dependencies.Done σ' ∧
    Graph.complete Scenario.cycle σ' ∧ is_Some (Graph.list_of σ' 0).
Proof.
  eexists. split; [vm_compute; reflexivity|].
  apply (analyze_lists_one_record_per_descriptor Scenario.cycle Resolver.defaults 3 0
           Scenario.cycle_start).
  - apply (unlisted_mapped Scenario.cycle Resolver.defaults).
    + vm_compute. repeat constructor.
    + vm_compute. reflexivity.
  - vm_compute. reflexivity.
Defined.

(** The records are what [resolve] answers.  When every outcome held by
    [Dependencies.cache] is what [resolve] answers for its path from its
    directory, and every static record is the cached outcome of its path
    and its file's directory, this is still so after [analyze].  In
    particular every static record then has the file that [resolve]
    finds for its path from the directory of the file that requires it,
    and no error, or no file and the error
    [Unable to locate dependency], which stands for every failure of the
    resolver, a malformed package file included. *)
Theorem records_are_what_resolve_answers (env : Node.Env) (options : Resolver.Options)
    (fuel : nat) (file : option ref) (σ σ' : Store) :
  Graph.sound env options σ →
  Dependencies.analyze env options fuel file σ = Dependencies.Done σ' →
  Graph.sound env options σ' ∧
  ∀ f ds d,
    Graph.list_of σ' f = Some ds → d ∈ ds →
    if static d
    then Graph.answers env options σ' (Graph.dirname_of env σ' f) (path d) (Heap.file d) ∧
         Graph.settled (Heap.file d) (error d)
    else Heap.file d = None ∧ error d = Some "Unable to resolve dynamic dependency".
Proof.
  intros Hσ Hrun.
  pose proof (moves_sound env options _ _ (analyze_moves env options _ _ _ _ Hrun) Hσ)
    as Hσ'.
  split; [exact Hσ'|]. intros f ds d. apply sound_record. exact Hσ'.
Qed.

(** Scenario 6: the record of [/a/x.js] has the File object of
    [/a/y.js], which is what [./y] resolves to from [/a]. *)
Lemma records_are_what_resolve_answers_witness :
  ∃ σ' d,
    Dependencies.analyze Scenario.cycle Resolver.defaults 3 (Some 0)
      Scenario.cycle_start = Dependencies.Done σ' ∧
    Graph.list_of σ' 0 = Some [d] ∧
    static d = true ∧ Heap.file d = Some 1 ∧
    Graph.answers Scenario.cycle Resolver.defaults σ'
      (Graph.dirname_of Scenario.cycle σ' 0) (path d) (Heap.file d) ∧
    Graph.settled (Heap.file d) (error d).
Proof.
  assert (Graph.sound Scenario.cycle Resolver.defaults Scenario.cycle_start) as Hsound.
  { apply (unlisted_mapped Scenario.cycle Resolver.defaults).
    - vm_compute. repeat constructor.
    - vm_compute. reflexivity. }
  eexists _, _. split; [vm_compute; reflexivity|].
  split; [vm_compute; reflexivity|]. split; [reflexivity|]. split; [reflexivity|].
  match goal with
  | |- Graph.answers _ _ ?τ _ (path ?d) _ ∧ _ =>
      assert (Dependencies.analyze Scenario.cycle Resolver.defaults 3 (Some 0)
                Scenario.cycle_start = Dependencies.Done τ) as Hrun
        by (vm_compute; reflexivity);
      assert (Graph.list_of τ 0 = Some [d]) as Hlist by (vm_compute; reflexivity);
      exact (proj2 (records_are_what_resolve_answers Scenario.cycle Resolver.defaults
                      3 (Some 0) Scenario.cycle_start τ Hsound Hrun)
                   0 [d] d Hlist ltac:(left))
  end.
Defined.

(** The two caches only grow.  After [analyze] every outcome that
    [Dependencies.cache] held is still held, unchanged, and so is every
    entry of [Resolver.cache]; what the latter has gained are entries
    for readable paths. *)
Theorem caches_keep_their_entries (env : Node.Env) (options : Resolver.Options)
    (fuel : nat) (file : option ref) (σ σ' : Store) :
  Dependencies.analyze env options fuel file σ = Dependencies.Done σ' →
  (∀ dirname path c,
     cached dirname path σ = Some c → cached dirname path σ' = Some c) ∧
  Cache.later env σ σ'.
Proof.
  intros Hrun%analyze_moves. split.
  - intros dirname p c. exact (moves_cached_kept env options _ _ _ _ _ Hrun).
  - exact (moves_later env options _ _ Hrun).
Qed.

(** Scenario 6: the outcome cached for [./y] from [/a] survives the
    analysis of [/a/y.js]. *)
Lemma caches_keep_their_entries_witness :
  ∃ σ1 σ2 c,
    Dependencies.analyze Scenario.cycle Resolver.defaults 3 (Some 0)
      Scenario.cycle_start = Dependencies.Done σ1 ∧
    cached "/a" "./y" σ1 = Some c ∧
    Dependencies.analyze Scenario.cycle Resolver.defaults 3 (Some 1) σ1 =
      Dependencies.Done σ2 ∧
    cached "/a" "./y" σ2 = Some c.
Proof.
  assert (∃ σ1,
            Dependencies.analyze Scenario.cycle Resolver.defaults 3 (Some 0)
              Scenario.cycle_start = Dependencies.Done σ1 ∧
            (∃ c, cached "/a" "./y" σ1 = Some c) ∧
            ∃ σ2, Dependencies.analyze Scenario.cycle Resolver.defaults 3 (Some 1) σ1 =
                    Dependencies.Done σ2) as (σ1 & H1 & [c Hc] & σ2 & H2).
  { eexists. split; [vm_compute; reflexivity|].
    split; eexists; vm_compute; reflexivity. }
  exists σ1, σ2, c. split; [exact H1|]. split; [exact Hc|]. split; [exact H2|].
  exact (proj1 (caches_keep_their_entries Scenario.cycle Resolver.defaults 3 (Some 1)
                  σ1 σ2 H2) "/a" "./y" c Hc).
Defined.

(** [analyze] closes the graph.  When every File object that a record or
    a cached outcome refers to has a dependency list, this is still so
    after a call of [analyze] that completes: whatever the call has
    linked to, it has analysed. *)
Theorem analyze_closes_the_graph (env : Node.Env) (options : Resolver.Options)
    (fuel : nat) (file : option ref) (σ σ' : Store) :
  Graph.closed σ →
  Dependencies.analyze env options fuel file σ = Dependencies.Done σ' →
  Graph.closed σ'.
Proof. intros Hσ Hrun. exact (analyze_closed env options _ _ _ _ Hrun Hσ). Qed.

(** Scenario 6: after the walk from [/a/x.js] both files that records
    refer to have a list. *)
Lemma analyze_closes_the_graph_witness :
  ∃ σ',
    Dependencies.analyze Scenario.cycle Resolver.defaults 3 (Some 0)
      Scenario.cycle_start = Dependencies.Done σ' ∧
    Graph.closed σ'.
Proof.
  eexists. split; [vm_compute; reflexivity|].
  apply (analyze_closes_the_graph Scenario.cycle Resolver.defaults 3 (Some 0)
           Scenario.cycle_start).
  - apply (unlisted_mapped Scenario.cycle Resolver.defaults).
    + vm_compute. repeat constructor.
    + vm_compute. reflexivity.
  - vm_compute. reflexivity.
Defined.

(** ** Properties of the facade (src/index.js) *)

(** The error the facade hands to its callback concerns the entry file
    only.  When the callback gets an error it gets no file and no object
    has changed; the error is [File not found: <fileName>] when the
    resolver has found nothing, and otherwise the error of the resolver,
    which names a malformed package file of the directory that
    [fileName], a relative specifier, names.  When the callback gets no
    error it gets the entry file, which has a dependency list: whatever
    has failed below the entry file is in the records, not in the
    callback's error. *)
Theorem Cartographer_reports_the_entry_only (env : Node.Env) (options : Resolver.Options)
    (fileName : string) (σ σ' : Store) (err : option string) (file : option ref) :
  Cartographer.analyze env options fileName σ = Cartographer.Completed err file σ' →
  match err with
  | Some e =>
      file = None ∧ σ' = σ ∧
      (e = "File not found: " +:+ fileName ∨
       (Resolver.RELATIVE_PATH fileName = true ∧
        Manifest.malformed env (Resolver.packages options)
          (Walk.joined env fileName None) e))
  | None => ∃ root, file = Some root ∧ is_Some (Graph.list_of σ' root)
  end.
Proof.
  unfold Cartographer.analyze.
  destruct (Resolver.resolve env options fileName None σ) as [[[err0 file0] σ1]| |]
    eqn:Hres; try discriminate.
  destruct (resolve_fetched env options _ _ _ _ _ Hres) as [Hf He]. simpl in Hf, He.
  destruct err0 as [e|].
  - destruct (He e eq_refl) as (-> & Hrel & Hm). simpl in Hf. subst σ1.
    intros [= <- <- <-]. split; [reflexivity|]. split; [reflexivity|]. right. auto.
  - destruct file0 as [f|].
    + destruct (Dependencies.analyze env options _ (Some f) σ1) as [σ2| | |] eqn:Hrun;
        try discriminate.
      intros [= <- <- <-]. exists f. split; [reflexivity|].
      exact (analyze_lists_root env options _ _ _ _ Hrun).
    + simpl in Hf. subst σ1. intros [= <- <- <-].
      split; [reflexivity|]. split; [reflexivity|]. left. reflexivity.
Qed.

(** In scenario 6 nothing is found for [./z]. *)
Lemma Cartographer_reports_the_entry_only_witness :
  Cartographer.analyze Scenario.cycle Resolver.defaults "./z" Heap.empty =
    Cartographer.Completed (Some "File not found: ./z") None Heap.empty ∧
  ("File not found: ./z" = "File not found: " +:+ "./z" ∨
   (Resolver.RELATIVE_PATH "./z" = true ∧
    Manifest.malformed Scenario.cycle (Resolver.packages Resolver.defaults)
      (Walk.joined Scenario.cycle "./z" None) "File not found: ./z")).
Proof.
  split; [vm_compute; reflexivity|].
  refine (proj2 (proj2 (Cartographer_reports_the_entry_only Scenario.cycle
                          Resolver.defaults "./z" Heap.empty Heap.empty
                          (Some "File not found: ./z") None _))).
  vm_compute. reflexivity.
Defined.

(** Through the facade the callback is never dropped.  When every entry
    of [Resolver.cache] is a File object made from a readable path, as in
    a fresh process, [Cartographer.analyze] either invokes its callback
    or ends by an exception: the files [Dependencies.analyze] is given
    all come from the resolver, and have contents. *)
Theorem Cartographer_calls_back (env : Node.Env) (options : Resolver.Options)
    (fileName : string) (σ : Store) :
  Cache.faithful env σ →
  (∃ err file σ',
     Cartographer.analyze env options fileName σ = Cartographer.Completed err file σ') ∨
  (∃ e, Cartographer.analyze env options fileName σ = Cartographer.Crashed e).
Proof.
  intros Hσ. pose proof (Cartographer_analyze_ends env options fileName σ) as Hends.
  unfold Cartographer.analyze in *.
  destruct (Resolver.resolve env options fileName None σ) as [[[err file] σ1]| |]
    eqn:Hres; [|right; eauto|contradiction].
  destruct err as [e|]; [left; eauto|].
  destruct file as [f|]; [|left; eauto].
  destruct (resolve_grows env options _ _ _ _ _ Hres) as [G Hin].
  pose proof (analyze_calls_back env options (Dependencies.budget env σ1) f σ1)
    as Hback.
  destruct (Dependencies.analyze env options _ (Some f) σ1) as [σ2|σ2|e|];
    [left; eauto| |right; eauto|contradiction].
  exfalso. apply (Hback σ2); [exact (grows_faithful env _ _ G Hσ)|auto|reflexivity].
Qed.

(** Scenario 6 in a fresh process. *)
Lemma Cartographer_calls_back_witness :
  (∃ err file σ',
     Cartographer.analyze Scenario.cycle Resolver.defaults "./x" Heap.empty =
       Cartographer.Completed err file σ') ∨
  (∃ e, Cartographer.analyze Scenario.cycle Resolver.defaults "./x" Heap.empty =
          Cartographer.Crashed e).
Proof.
  exact (Cartographer_calls_back Scenario.cycle Resolver.defaults "./x" Heap.empty
           (empty_faithful Scenario.cycle)).
Defined.

(** What the facade hands over is the graph of the entry file.  Starting
    from objects in which every linked file has a list, every list holds
    one record per descriptor, and the records and cached outcomes are
    what [resolve] answers (a fresh process is such), a run that
    completes without error leaves such objects; and every file that can
    be reached from the entry file along the records has a list, which
    holds one record for each descriptor the scanner returns for the
    file, each record being what the resolver answers for its path from
    the file's directory, or the record of a dynamic requirement. *)
Theorem Cartographer_maps_what_the_entry_reaches (env : Node.Env)
    (options : Resolver.Options) (fileName : string) (σ σ' : Store) (root : ref) :
  Graph.mapped env options σ →
  Cartographer.analyze env options fileName σ =
    Cartographer.Completed None (Some root) σ' →
  Graph.mapped env options σ' ∧
  ∀ f, rtc (Graph.edge σ') root f →
    ∃ o ds requirements,
      objects σ' !! f = Some o ∧
      dependencies o = Some ds ∧
      Graph.scanned env o = Returned (Some requirements) ∧
      Forall2 Graph.mirrors ds requirements ∧
      Forall (λ d,
                if static d
                then Graph.answers env options σ' (Graph.dirname_of env σ' f)
                       (path d) (Heap.file d) ∧
                     Graph.settled (Heap.file d) (error d)
                else Heap.file d = None ∧
                     error d = Some "Unable to resolve dynamic dependency") ds.
Proof.
  intros Hσ. unfold Cartographer.analyze.
  destruct (Resolver.resolve env options fileName None σ) as [[[err file] σ1]| |]
    eqn:Hres; try discriminate.
  destruct err; [discriminate|]. destruct file as [f0|]; [|discriminate].
  destruct (Dependencies.analyze env options _ (Some f0) σ1) as [σ2| | |] eqn:Hrun;
    try discriminate.
  intros [= <- <-].
  pose proof (analyze_mapped env options _ _ _ _ Hrun
                (resolve_mapped env options _ _ _ _ _ Hres Hσ)) as Hσ2.
  split; [exact Hσ2|]. destruct Hσ2 as (Hclosed & Hcomplete & Hsound).
  intros f Hreach.
  assert (is_Some (Graph.list_of σ2 f)) as [ds Hds].
  { revert f Hreach. apply rtc_ind_r.
    - exact (analyze_lists_root env options _ _ _ _ Hrun).
    - intros a b _ (ds & d & Ha & Hd & Hfile) _.
      destruct (proj1 Hclosed a ds d b Ha Hd Hfile) as [?|?]; [discriminate|assumption]. }
  pose proof Hds as Hlist. unfold Graph.list_of in Hds.
  destruct (objects σ2 !! f) as [o|] eqn:Ho; [|discriminate]. simpl in Hds.
  destruct (Hcomplete f o Ho ds Hds) as (requirements & Hscan & Hall).
  exists o, ds, requirements. split; [reflexivity|]. split; [exact Hds|].
  split; [exact Hscan|]. split; [exact Hall|].
  apply Forall_forall. intros d Hd.
  exact (sound_record env options σ2 f ds d Hsound Hlist Hd).
Qed.

(** Scenario 6 in a fresh process: from [/a/x.js] the file [/a/y.js] is
    reached, and both have their record. *)
Lemma Cartographer_maps_what_the_entry_reaches_witness :
  ∃ σ',
    Cartographer.analyze Scenario.cycle Resolver.defaults "./x" Heap.empty =
      Cartographer.Completed None (Some 0) σ' ∧
    Graph.mapped Scenario.cycle Resolver.defaults σ' ∧
    ∃ o ds requirements,
      objects σ' !! 1 = Some o ∧
      dependencies o = Some ds ∧
      Graph.scanned Scenario.cycle o = Returned (Some requirements) ∧
      Forall2 Graph.mirrors ds requirements.
Proof.
  eexists. split; [vm_compute; reflexivity|].
  match goal with
  | |- Graph.mapped _ _ ?τ ∧ _ =>
      assert (Cartographer.analyze Scenario.cycle Resolver.defaults "./x" Heap.empty =
              Cartographer.Completed None (Some 0) τ) as Hrun
        by (vm_compute; reflexivity);
      destruct (Cartographer_maps_what_the_entry_reaches Scenario.cycle
                  Resolver.defaults "./x" Heap.empty τ 0
                  (empty_mapped Scenario.cycle Resolver.defaults) Hrun)
        as [Hmapped Hreach]
  end.
  split; [exact Hmapped|].
  destruct (Hreach 1) as (o & ds & requirements & Ho & Hds & Hscan & Hall & _).
  - apply rtc_once. eexists _, _. split; [vm_compute; reflexivity|].
    split; [left|reflexivity].
  - exists o, ds, requirements. auto.
Defined.

(* ===================================================================== *)
(** ** Properties of the grapher over import declarations *)
(* ===================================================================== *)

Section CountFacts.

Lemma filter_agree {A : Type} (P Q : A → Prop) `{∀ x, Decision (P x)}
    `{∀ x, Decision (Q x)} (l : list A) :
  (∀ x, x ∈ l → P x ↔ Q x) → filter P l = filter Q l.
Proof.
  induction l as [|x l IH]; intros Hl; [reflexivity|].
  rewrite !filter_cons.
  assert (P x ↔ Q x) as Hx by (apply Hl; left).
  rewrite IH by (intros y Hy; apply Hl; right; exact Hy).
  destruct (decide (P x)), (decide (Q x)); tauto || reflexivity.
Qed.

Lemma filter_length_without {A : Type} `{EqDecision A} (P Q : A → Prop)
    `{∀ x, Decision (P x)} `{∀ x, Decision (Q x)} (f : A) (l : list A) :
  NoDup l → f ∈ l → P f → ¬ Q f → (∀ x, x ≠ f → P x ↔ Q x) →
  length (filter P l) = S (length (filter Q l)).
Proof.
  intros Hnd Hin HP HQ Hother.
  induction l as [|x l IH]; [inversion Hin|].
  apply NoDup_cons in Hnd as [Hx Hnd]. rewrite !filter_cons.
  destruct (decide (x = f)) as [->|Hne].
  - rewrite decide_True by exact HP. rewrite decide_False by exact HQ. simpl.
    f_equal. f_equal. apply filter_agree. intros y Hy. apply Hother.
    intros ->. exact (Hx Hy).
  - apply elem_of_cons in Hin as [->|Hin]; [contradiction Hne; reflexivity|].
    specialize (IH Hnd Hin). pose proof (Hother x Hne) as Hiff.
    destruct (decide (P x)), (decide (Q x)); simpl; try tauto; lia.
Qed.

End CountFacts.

Section EndFacts.
Variable env : Node.Env.
Variable options : Resolver.Options.
Variable parseModule : string → Esprima.Parse.

Import Imports Chart.

Local Abbreviation remaining := (Imports.remaining env).
Local Abbreviation faithful := (Cache.faithful env).
Local Abbreviation advances := (Chart.advances env).
Local Abbreviation ends := (Chart.ends env).

Lemma pending_new_file (realName contents : string) (σ : Store)
    (m : gmap ref (list Imported)) :
  pending {| store := snd (cache_new_file realName contents σ); imports := m |} ≤
  S (pending {| store := σ; imports := m |}).
Proof.
  unfold pending. cbn [store imports cache_new_file snd objects].
  rewrite length_app. simpl. rewrite seq_app, filter_app, length_app. simpl.
  rewrite filter_cons, filter_nil. destruct (decide _); simpl; lia.
Qed.

Lemma grows_remaining_imports (σ σ' : Store) (m : gmap ref (list Imported)) :
  Reach.grows env σ σ' →
  remaining {| store := σ'; imports := m |} ≤ remaining {| store := σ; imports := m |}.
Proof.
  induction 1 as [σ|σ σ' realName contents _ IH Hc Hfs]; [lia|].
  unfold Imports.remaining in *. cbn [store] in *.
  pose proof (pending_new_file realName contents σ' m).
  pose proof (unread_new env realName contents σ' Hc Hfs). lia.
Qed.

Lemma lookup_annotated (m : gmap ref (list Imported)) (f g : ref) (index : nat)
    (u : Imported → Imported) (l : list Imported) :
  m !! g = Some l →
  alter (alter u index) f m !! g =
  Some (if decide (f = g) then alter u index l else l).
Proof.
  intros Hg. rewrite lookup_alter.
  destruct (decide (f = g)) as [->|Hne]; [rewrite Hg|]; simpl; [reflexivity|exact Hg].
Qed.

Lemma annotate_unlisted (f g : ref) (index : nat) (file : option ref)
    (error : option string) (st : State) :
  imports st !! g = None → imports (annotate f index file error st) !! g = None.
Proof.
  intros Hg. cbn [annotate imports]. rewrite lookup_alter.
  destruct (decide (f = g)) as [->|Hne]; [rewrite Hg|]; simpl; [reflexivity|exact Hg].
Qed.

Lemma pending_annotate (f : ref) (index : nat) (file : option ref)
    (error : option string) (st : State) :
  pending (annotate f index file error st) = pending st.
Proof.
  unfold pending. cbn [annotate store]. f_equal. apply filter_agree.
  intros r _. split.
  - intros Hr. destruct (imports st !! r) as [l|] eqn:Hl; [|reflexivity].
    cbn [annotate imports] in Hr. rewrite (lookup_annotated _ _ _ _ _ _ Hl) in Hr.
    discriminate.
  - apply annotate_unlisted.
Qed.

Lemma remaining_set_imports (f : ref) (o : FileObject) (found : list Declarations.Import)
    (st : State) :
  objects (store st) !! f = Some o → imports st !! f = None →
  S (remaining (set_imports f found st)) = remaining st.
Proof.
  intros Ho Hf. unfold Imports.remaining, pending. cbn [set_imports store imports].
  rewrite (filter_length_without
             (λ r, imports st !! r = None)
             (λ r, <[f:=map (λ i, {| declared := i; resolution := None |}) found]>
                     (imports st) !! r = None) f).
  - lia.
  - apply NoDup_seq.
  - apply elem_of_seq. apply lookup_lt_Some in Ho. lia.
  - exact Hf.
  - rewrite lookup_insert_eq. discriminate.
  - intros r Hr. rewrite lookup_insert_ne by congruence. reflexivity.
Qed.

Lemma sized_refl (st : State) : sized st st.
Proof. intros g l Hg. eauto. Qed.

Lemma sized_trans (st1 st2 st3 : State) : sized st1 st2 → sized st2 st3 → sized st1 st3.
Proof.
  intros H12 H23 g l Hg. destruct (H12 g l Hg) as (l2 & Hg2 & Hlen2).
  destruct (H23 g l2 Hg2) as (l3 & Hg3 & Hlen3). exists l3. split; [exact Hg3|lia].
Qed.

Lemma advances_refl (st : State) : advances st st.
Proof. split; [lia|]. split; [apply sized_refl|tauto]. Qed.

Lemma advances_trans (st1 st2 st3 : State) :
  advances st1 st2 → advances st2 st3 → advances st1 st3.
Proof.
  intros (R12 & S12 & F12) (R23 & S23 & F23). split; [lia|].
  split; [exact (sized_trans _ _ _ S12 S23)|tauto].
Qed.

Lemma advances_annotate (f : ref) (index : nat) (file : option ref)
    (error : option string) (st : State) :
  advances st (annotate f index file error st).
Proof.
  split; [|split].
  - unfold Imports.remaining. rewrite pending_annotate. cbn [annotate store]. lia.
  - intros g l Hg. cbn [annotate imports]. rewrite (lookup_annotated _ _ _ _ _ _ Hg).
    eexists. split; [reflexivity|]. destruct (decide (f = g)); [|reflexivity].
    apply length_alter.
  - tauto.
Qed.

Lemma advances_resolved (module : string) (base : option string) (st : State)
    (answer : Resolver.Answer) (σ1 : Store) (dirname path : string) (c : CacheResult) :
  Resolver.resolve env options module base (store st) = Returned (answer, σ1) →
  advances st (with_store (cache_result dirname path c σ1) st).
Proof.
  intros Hres. destruct answer as [err file].
  apply resolve_grows in Hres as [G _]. split; [|split].
  - pose proof (grows_remaining_imports _ _ (imports st) G) as H.
    destruct st as [σ m]. exact H.
  - intros g l Hg. exists l. split; [exact Hg|reflexivity].
  - intros Hσ. exact (grows_faithful env _ _ G Hσ).
Qed.

Lemma ends_after (ok ok' : Prop) (st st' : State) (e : Ending) :
  advances st st' → (ok → ok') → ends ok' st' e → ends ok st e.
Proof.
  intros Hadv Hok. destruct e as [st2| | |]; simpl; try tauto.
  apply advances_trans. exact Hadv.
Qed.

Lemma commonJsImport_total (source : string) (o : JS.Object Declarations.Import)
    (n : node) :
  Declarations.commonJsImport source o n ≠ Starved.
Proof.
  unfold Declarations.commonJsImport.
  destruct (AST.get n "callee"); try discriminate.
  destruct (AST.get n "arguments") as [|args| | | | |]; try discriminate.
  destruct (_ || _); [discriminate|].
  destruct args as [|[first|] [|? ?]]; try discriminate.
  destruct (JS.get o _); discriminate.
Qed.

Lemma Declarations_dispatch_total (source : string) (n : node)
    (o : JS.Object Declarations.Import) :
  RequiredDelegate.nodeDispatch (Declarations.handler source) n o ≠ Starved.
Proof.
  unfold RequiredDelegate.nodeDispatch, Declarations.handler.
  destruct (String.eqb (type n) "CallExpression"); [|discriminate].
  apply commonJsImport_total.
Qed.

Lemma Declarations_analyze_total (file : option Vinyl.File) :
  Declarations.analyze parseModule file ≠ Starved.
Proof.
  unfold Declarations.analyze. destruct file as [f|]; [|discriminate].
  destruct (Vinyl.contents f) as [source|]; [|discriminate]. cbv zeta.
  assert (∀ nodes o,
            RequiredDelegate.deliver
              (RequiredDelegate.nodeDispatch (Declarations.handler source)) nodes o ≠
            Starved) as Hdeliver.
  { induction nodes as [|n nodes IH]; intros o; simpl; [discriminate|].
    pose proof (Declarations_dispatch_total source n o).
    destruct (RequiredDelegate.nodeDispatch _ n o); simpl;
      [apply IH|discriminate|congruence]. }
  specialize (Hdeliver (Esprima.delivered (parseModule source)) []).
  destruct (RequiredDelegate.deliver _ _ _); simpl; [|discriminate|congruence].
  destruct (Esprima.completes _); discriminate.
Qed.

Lemma resolveImports_from_ends (analyze : ref → State → Ending) (bound : nat) :
  (∀ d st, remaining st ≤ bound →
           ends (faithful (store st) ∧ Reach.in_cache (store st) d) st (analyze d st)) →
  ∀ todo file index st l,
    imports st !! file = Some l →
    length l ≤ index + todo →
    remaining st ≤ bound →
    ends (faithful (store st)) st
      (resolveImports_from env options analyze todo file index st).
Proof.
  intros Hrec.
  assert (∀ todo file index st st' l,
            (∀ st l, imports st !! file = Some l → length l ≤ S index + todo →
                     remaining st ≤ bound →
                     ends (faithful (store st)) st
                       (resolveImports_from env options analyze todo file (S index) st)) →
            imports st !! file = Some l → length l ≤ index + S todo →
            remaining st ≤ bound → advances st st' →
            ends (faithful (store st)) st
              (resolveImports_from env options analyze todo file (S index) st'))
    as Hnext.
  { intros todo file index st st' l IH Hl Hlen Hb Hadv.
    destruct (proj1 (proj2 Hadv) _ _ Hl) as (l' & Hl' & Hlen').
    apply (ends_after _ (faithful (store st')) _ st' _ Hadv (proj2 (proj2 Hadv))).
    apply (IH st' l' Hl'); [lia|]. pose proof (proj1 Hadv). lia. }
  induction todo as [|todo IH]; intros file index st l Hl Hlen Hb;
    cbn [resolveImports_from]; rewrite Hl.
  - destruct (length l =? index) eqn:E; [apply advances_refl|].
    apply Nat.eqb_neq in E.
    rewrite (proj2 (lookup_ge_None l index)) by lia. exact I.
  - destruct (length l =? index) eqn:E; [apply advances_refl|].
    destruct (l !! index) as [imported|] eqn:Hi; [|exact I].
    specialize (Hnext todo file index st).
    assert (∀ st', advances st st' →
                   ends (faithful (store st)) st
                     (resolveImports_from env options analyze todo file (S index) st'))
      as Hgo.
    { intros st' Hadv. apply (Hnext st' l); try assumption.
      intros st0 l0. apply IH. }
    destruct (negb _); [apply Hgo, advances_annotate|].
    destruct (cached _ _ (store st)) as [c|]; [apply Hgo, advances_annotate|].
    pose proof (resolve_total env options (Declarations.path (declared imported))
                  (Some (Node.path_dirname env (path_of (store st) file))) (store st))
      as Htotal.
    destruct (Resolver.resolve env options _ _ (store st)) as [[[err dependent] σ1]| |]
      eqn:Hres; [|exact I|congruence].
    match goal with
    | |- context [annotate file index dependent ?e (with_store (cache_result ?d ?p ?c σ1) st)] =>
        assert (advances st
                  (annotate file index dependent e (with_store (cache_result d p c σ1) st)))
          as Hadv
          by (eapply advances_trans;
                [exact (advances_resolved _ _ _ _ _ d p c Hres)|apply advances_annotate]);
        set (st3 := annotate file index dependent e (with_store (cache_result d p c σ1) st))
          in *
    end.
    destruct dependent as [dependent|]; [|apply Hgo, Hadv].
    assert (remaining st3 ≤ bound) as Hb3 by (pose proof (proj1 Hadv); lia).
    specialize (Hrec dependent st3 Hb3).
    destruct (analyze dependent st3) as [st4| | |] eqn:Ha; simpl in Hrec.
    + apply Hgo. exact (advances_trans _ _ _ Hadv Hrec).
    + simpl. intros Hσ. apply Hrec. split; [exact (proj2 (proj2 Hadv) Hσ)|].
      destruct (proj2 (resolve_grows env options _ _ _ _ _ Hres) dependent eq_refl)
        as [p Hp]. exists p. exact Hp.
    + exact I.
    + exact Hrec.
Qed.

Lemma Imports_analyze_ends (fuel : nat) (f : ref) (st : State) :
  remaining st < fuel →
  ends (faithful (store st) ∧ Reach.in_cache (store st) f) st
    (Imports.analyze env options parseModule fuel (Some f) st).
Proof.
  revert f st. induction fuel as [|fuel IH]; intros f st Hfuel; [lia|].
  cbn [Imports.analyze].
  destruct (objects (store st) !! f) as [o|] eqn:Ho.
  2:{ simpl. intros [Hσ [p Hp]].
      destruct (Hσ p f Hp) as (o & contents & Ho' & _). congruence. }
  destruct (Vinyl.isNull (vinyl o)) eqn:Hnull.
  { simpl. intros [Hσ [p Hp]].
    destruct (Hσ p f Hp) as (o' & contents & Ho' & _ & Hv).
    assert (o' = o) as -> by congruence.
    unfold Vinyl.isNull in Hnull. rewrite Hv in Hnull. discriminate. }
  destruct (imports st !! f) as [l|] eqn:Hf; [apply advances_refl|].
  pose proof (Declarations_analyze_total (Some (vinyl o))) as Hscan.
  destruct (Declarations.analyze parseModule (Some (vinyl o))) as [[found|]| |];
    [|exact I|exact I|congruence].
  pose proof (remaining_set_imports f o (Declarations.imports found) st Ho Hf) as Hless.
  set (st1 := set_imports f (Declarations.imports found) st) in *.
  assert (advances st st1) as Hadv.
  { split; [lia|]. split; [|tauto].
    intros g lg Hg. exists lg. split; [|reflexivity].
    unfold st1. cbn [set_imports imports]. rewrite lookup_insert_ne by congruence.
    exact Hg. }
  apply (ends_after _ (faithful (store st1)) _ st1 _ Hadv); [tauto|].
  unfold resolveImports.
  assert (imports st1 !! f =
          Some (map (λ i, {| declared := i; resolution := None |})
                    (Declarations.imports found))) as Hf1
    by (unfold st1; cbn [set_imports imports]; apply lookup_insert_eq).
  rewrite Hf1. simpl default.
  eapply (resolveImports_from_ends _ (remaining st1)); [|exact Hf1|lia|lia].
  intros d st' Hst'. apply IH. lia.
Qed.

End EndFacts.

Section ChartFacts.
Variable env : Node.Env.
Variable options : Resolver.Options.
Variable parseModule : string → Esprima.Parse.

Import Imports Chart.

Local Abbreviation charted_list := (Chart.charted_list parseModule).
Local Abbreviation continued := (Chart.continued parseModule).
Local Abbreviation analysed := (Chart.analysed parseModule).

Lemma extends_trans (st1 st2 st3 : State) :
  extends st1 st2 → extends st2 st3 → extends st1 st3.
Proof. intros [A1 B1] [A2 B2]. split; eauto. Qed.

Lemma keeps_extends (st st' : State) : keeps st st' → extends st st'.
Proof.
  intros [A B]. split; [exact A|]. intros g [l Hg]. exists l. exact (B g l Hg).
Qed.

Lemma annotated_extends (st st' : State) (i : Imported) :
  extends st st' → annotated st i → annotated st' i.
Proof.
  intros [_ B] (c & Hc & Hdyn & Hfile). exists c. split; [exact Hc|].
  split; [exact Hdyn|]. intros r Hr. exact (B r (Hfile r Hr)).
Qed.

Lemma charted_list_extends (st st' : State) (g : ref) (l : list Imported) :
  extends st st' → charted_list st g l → charted_list st' g l.
Proof.
  intros Hext (o & found & Ho & Hscan & Hmap & Hall). exists o, found.
  split; [exact (proj1 Hext g o Ho)|]. split; [exact Hscan|]. split; [exact Hmap|].
  eapply Forall_impl; [exact Hall|]. intros i. apply annotated_extends, Hext.
Qed.

Lemma listed_annotate (f : ref) (index : nat) (file : option ref)
    (error : option string) (st : State) (g : ref) :
  listed st g → listed (annotate f index file error st) g.
Proof.
  intros [l Hg]. unfold listed. cbn [annotate imports].
  rewrite (lookup_annotated _ _ _ _ _ _ Hg). eauto.
Qed.

Lemma closed_but_annotate (but : option ref) (f : ref) (index : nat)
    (file : option ref) (error : option string) (st : State) :
  closed_but but st → closed_but but (annotate f index file error st).
Proof.
  intros Hst dirname path c r Hc Hr.
  destruct (Hst dirname path c r Hc Hr) as [?|?]; [left; assumption|].
  right. apply listed_annotate. assumption.
Qed.

Lemma closed_but_remember (but : option ref) (st : State) (σ1 : Store)
    (dirname path : string) (c : CacheResult) :
  Reach.grows env (store st) σ1 →
  (∀ r, cached_file c = Some r → but = Some r) →
  closed st →
  closed_but but (with_store (cache_result dirname path c σ1) st).
Proof.
  intros G Hc Hst dirname' path' c' r Hc' Hr. cbn [with_store store] in Hc'.
  rewrite cached_cache_result in Hc'. destruct (decide _) as [_|_].
  - injection Hc' as <-. left. exact (Hc r Hr).
  - unfold cached in Hc'. rewrite (grows_dependencies_cache env _ _ G) in Hc'.
    destruct (Hst dirname' path' c' r Hc' Hr) as [?|?]; [discriminate|].
    right. assumption.
Qed.

Lemma map_declared_alter (file : option ref) (error : option string) (k : nat)
    (l : list Imported) :
  map declared (alter (assign file error) k l) = map declared l.
Proof.
  revert k. induction l as [|i l IH]; intros [|k]; simpl; try reflexivity.
  f_equal. apply IH.
Qed.

Lemma take_alter_at {A : Type} (u : A → A) (k : nat) (l : list A) :
  take k (alter u k l) = take k l.
Proof.
  revert k. induction l as [|i l IH]; intros [|k]; simpl; try reflexivity.
  f_equal. apply IH.
Qed.

Lemma take_S_agree {A : Type} (k : nat) (l l' : list A) :
  take (S k) l' = take (S k) l → take k l' = take k l ∧ l' !! k = l !! k.
Proof.
  intros H. split.
  - assert (∀ t : list A, take k t = take k (take (S k) t)) as Hcut
      by (intros t; rewrite take_take, Nat.min_l by lia; reflexivity).
    rewrite (Hcut l'), (Hcut l), H. reflexivity.
  - pose proof (f_equal (λ t, t !! k) H) as Hk. simpl in Hk.
    rewrite !lookup_take in Hk. rewrite !decide_True in Hk by lia. exact Hk.
Qed.

Lemma continued_at_end (file : ref) (k : nat) (st : State) (l : list Imported) :
  imports st !! file = Some l → length l = k → closed st → continued file k st st.
Proof.
  intros Hl Hk Hclosed. split; [auto|]. split; [auto|]. split.
  - exists l, l. split; [exact Hl|]. split; [exact Hl|]. split; [reflexivity|].
    split; [reflexivity|]. rewrite drop_ge by lia. constructor.
  - split; [|exact Hclosed]. intros g lg Hg Hg'. congruence.
Qed.

Lemma resolveImports_from_frame (analyze : ref → State → Ending) :
  (∀ d st st', analyze d st = Done st' → closed_but (Some d) st → analysed d st st') →
  ∀ todo file k st st' l,
    imports st !! file = Some l →
    closed st →
    resolveImports_from env options analyze todo file k st = Done st' →
    continued file k st st'.
Proof.
  intros Hrec. induction todo as [|todo IH]; intros file k st st' l Hl Hclosed;
    cbn [resolveImports_from]; rewrite Hl.
  - destruct (length l =? k) eqn:E.
    + intros [= <-]. apply Nat.eqb_eq in E. exact (continued_at_end _ _ _ _ Hl E Hclosed).
    + destruct (l !! k); discriminate.
  - destruct (length l =? k) eqn:E.
    { intros [= <-]. apply Nat.eqb_eq in E. exact (continued_at_end _ _ _ _ Hl E Hclosed). }
    destruct (l !! k) as [i|] eqn:Hi; [|discriminate].
    assert (∀ st_n fc ec,
              (∀ r o, objects (store st) !! r = Some o →
                      objects (store st_n) !! r = Some o) →
              (∀ g lg, g ≠ file → imports st !! g = Some lg →
                       imports st_n !! g = Some lg) →
              imports st_n !! file = Some (alter (assign fc ec) k l) →
              (∀ g lg, imports st !! g = None → imports st_n !! g = Some lg →
                       charted_list st_n g lg) →
              closed st_n →
              (Declarations.static (declared i) = false →
               fc = None ∧ ec = Some "Unable to resolve dynamic import") →
              (∀ r, fc = Some r → listed st_n r) →
              resolveImports_from env options analyze todo file (S k) st_n = Done st' →
              continued file k st st') as Hgo.
    { intros st_n fc ec P1 P2 P3 P4 P5 P6 P7 Hrun.
      destruct (IH file (S k) st_n st' _ P3 P5 Hrun)
        as (A & B & (l0 & l' & Hl0 & Hl' & Htake & Hmap & Hall) & D & C).
      assert (l0 = alter (assign fc ec) k l) as -> by congruence.
      assert (extends st_n st') as Hext.
      { split; [exact A|]. intros g [lg Hg].
        destruct (decide (g = file)) as [->|Hne]; [exists l'; exact Hl'|].
        exists lg. exact (B g lg Hne Hg). }
      destruct (take_S_agree _ _ _ Htake) as [Htake' Hk].
      rewrite list_lookup_alter, decide_True, Hi in Hk by reflexivity. simpl in Hk.
      split; [intros r o Ho; exact (A r o (P1 r o Ho))|].
      split; [intros g lg Hne Hg; exact (B g lg Hne (P2 g lg Hne Hg))|].
      split; [|split; [|exact C]].
      - exists l, l'. split; [exact Hl|]. split; [exact Hl'|].
        split; [rewrite Htake'; apply take_alter_at|].
        split; [rewrite Hmap; apply map_declared_alter|].
        rewrite (drop_S _ _ _ Hk). constructor; [|exact Hall].
        eexists. split; [reflexivity|]. split.
        + intros Hdyn. destruct (P6 Hdyn) as [-> ->]. reflexivity.
        + simpl. intros r Hr. exact (proj2 Hext r (P7 r Hr)).
      - intros g lg Hg Hg'. destruct (imports st_n !! g) as [lgn|] eqn:Hn.
        + assert (g ≠ file) as Hne by congruence.
          rewrite (B g lgn Hne Hn) in Hg'. injection Hg' as <-.
          exact (charted_list_extends _ _ _ _ Hext (P4 g lgn Hg Hn)).
        + exact (D g lg Hn Hg'). }
    assert (∀ fc ec (st0 : State),
              imports st0 = imports st →
              imports (annotate file k fc ec st0) !! file =
              Some (alter (assign fc ec) k l)) as Hfile.
    { intros fc ec st0 H0. cbn [annotate imports]. rewrite H0.
      rewrite (lookup_annotated _ _ _ _ _ _ Hl), decide_True by reflexivity.
      reflexivity. }
    assert (∀ fc ec (st0 : State) g lg,
              imports st0 = imports st → g ≠ file → imports st !! g = Some lg →
              imports (annotate file k fc ec st0) !! g = Some lg) as Hothers.
    { intros fc ec st0 g lg H0 Hne Hg. cbn [annotate imports]. rewrite H0.
      rewrite lookup_alter_ne by congruence. exact Hg. }
    assert (∀ fc ec (st0 : State) g lg,
              imports st0 = imports st → imports st !! g = None →
              imports (annotate file k fc ec st0) !! g = Some lg → False) as Hnone.
    { intros fc ec st0 g lg H0 Hg Hg'.
      rewrite (annotate_unlisted file g k fc ec st0) in Hg'; [discriminate|].
      rewrite H0. exact Hg. }
    destruct (negb _) eqn:Hstatic.
    { apply (Hgo _ None (Some "Unable to resolve dynamic import")).
      - auto.
      - intros g lg. apply Hothers. reflexivity.
      - apply Hfile. reflexivity.
      - intros g lg Hg Hg'. destruct (Hnone _ _ _ _ _ eq_refl Hg Hg').
      - apply closed_but_annotate, Hclosed.
      - auto.
      - discriminate. }
    apply negb_false_iff in Hstatic.
    destruct (cached _ _ (store st)) as [c|] eqn:Hc.
    { apply (Hgo _ (cached_file c) (cached_error c)).
      - auto.
      - intros g lg. apply Hothers. reflexivity.
      - apply Hfile. reflexivity.
      - intros g lg Hg Hg'. destruct (Hnone _ _ _ _ _ eq_refl Hg Hg').
      - apply closed_but_annotate, Hclosed.
      - congruence.
      - intros r Hr. apply listed_annotate.
        destruct (Hclosed _ _ c r Hc Hr) as [?|?]; [discriminate|assumption]. }
    destruct (Resolver.resolve env options _ _ (store st)) as [[[err dependent] σ1]| |]
      eqn:Hres; try discriminate.
    pose proof (proj1 (resolve_grows env options _ _ _ _ _ Hres)) as G.
    assert (∀ (c : CacheResult) dirname path r o,
              objects (store st) !! r = Some o →
              objects (cache_result dirname path c σ1) !! r = Some o) as Hobjects.
    { intros c dirname path r o Ho. cbn [cache_result objects].
      destruct (grows_objects env _ _ G) as (news & -> & _).
      apply lookup_app_l_Some. exact Ho. }
    destruct dependent as [dependent|].
    + destruct (analyze dependent _) as [st4| | |] eqn:Ha; try discriminate.
      apply Hrec in Ha.
      2:{ apply closed_but_annotate.
          apply (closed_but_remember _ _ _ _ _ _ G); [|exact Hclosed].
          simpl. intros r [= <-]. reflexivity. }
      destruct Ha as ([K1 K2] & Ld & New & C4).
      apply (Hgo st4 (Some dependent) err).
      * intros r o Ho. apply K1. cbn [annotate with_store store]. eauto.
      * intros g lg Hne Hg. apply K2. apply Hothers; [reflexivity|exact Hne|exact Hg].
      * apply K2. apply Hfile. reflexivity.
      * intros g lg Hg Hg'. apply New; [|exact Hg'].
        apply annotate_unlisted. exact Hg.
      * exact C4.
      * congruence.
      * intros r [= <-]. exact Ld.
    + apply (Hgo _ None (Some "Unable to locate import")).
      * intros r o Ho. cbn [annotate with_store store]. eauto.
      * intros g lg. apply Hothers. reflexivity.
      * apply Hfile. reflexivity.
      * intros g lg Hg Hg'. destruct (Hnone _ _ _ _ _ eq_refl Hg Hg').
      * apply closed_but_annotate.
        apply (closed_but_remember _ _ _ _ _ _ G); [|exact Hclosed].
        simpl. discriminate.
      * congruence.
      * discriminate.
Qed.

Lemma Imports_analyze_frame (fuel : nat) (d : ref) (st st' : State) :
  Imports.analyze env options parseModule fuel (Some d) st = Done st' →
  closed_but (Some d) st →
  analysed d st st'.
Proof.
  revert d st st'. induction fuel as [|fuel IH]; intros d st st'; [discriminate|].
  cbn [Imports.analyze].
  destruct (objects (store st) !! d) as [o|] eqn:Ho; [|discriminate].
  destruct (Vinyl.isNull (vinyl o)); [discriminate|].
  destruct (imports st !! d) as [l|] eqn:Hd.
  { intros [= <-] Hclosed. split; [split; auto|]. split; [exists l; exact Hd|].
    split; [intros g lg Hg Hg'; congruence|].
    intros dirname path c r Hc Hr. right.
    destruct (Hclosed dirname path c r Hc Hr) as [[= <-]|?]; [exists l|]; assumption. }
  destruct (Declarations.analyze parseModule (Some (vinyl o))) as [[found|]| |] eqn:Hscan;
    try discriminate.
  intros Hrun Hclosed. unfold resolveImports in Hrun.
  set (st1 := set_imports d (Declarations.imports found) st) in *.
  set (l0 := map (λ i, {| declared := i; resolution := None |})
                 (Declarations.imports found)).
  assert (imports st1 !! d = Some l0) as Hd1
    by (unfold st1; cbn [set_imports imports]; apply lookup_insert_eq).
  assert (∀ g, g ≠ d → imports st1 !! g = imports st !! g) as Hothers
    by (intros g Hne; unfold st1; cbn [set_imports imports];
        apply lookup_insert_ne; congruence).
  assert (closed st1) as Hclosed1.
  { intros dirname path c r Hc Hr. right.
    destruct (Hclosed dirname path c r Hc Hr) as [[= <-]|[lr Hlr]];
      [exists l0; exact Hd1|].
    destruct (decide (r = d)) as [->|Hne]; [exists l0; exact Hd1|].
    exists lr. rewrite (Hothers r Hne). exact Hlr. }
  apply (resolveImports_from_frame _ (IH) _ _ _ _ _ _ Hd1 Hclosed1) in Hrun.
  destruct Hrun as (A & B & (l1 & l' & Hl1 & Hl' & _ & Hmap & Hall) & D & C).
  assert (l1 = l0) as -> by congruence.
  split; [split; [exact A|]|].
  { intros g lg Hg. assert (g ≠ d) as Hne by congruence.
    apply B; [exact Hne|]. rewrite (Hothers g Hne). exact Hg. }
  split; [exists l'; exact Hl'|]. split; [|exact C].
  intros g lg Hg Hg'. destruct (decide (g = d)) as [->|Hne].
  - assert (lg = l') as -> by congruence.
    exists o, found. split; [exact (A d o Ho)|]. split; [exact Hscan|].
    split.
    + rewrite Hmap. unfold l0. rewrite map_map. simpl. apply map_id.
    + rewrite drop_0 in Hall. exact Hall.
  - apply D; [|exact Hg']. rewrite (Hothers g Hne). exact Hg.
Qed.

End ChartFacts.

Section FuelFacts.
Variable env : Node.Env.
Variable options : Resolver.Options.
Variable parseModule : string → Esprima.Parse.

Import Imports Chart.

Lemma ends_not_unfinished (ok : Prop) (st : State) (e : Ending) :
  Chart.ends env ok st e → e ≠ Unfinished.
Proof. intros He ->. exact He. Qed.

Lemma resolveImports_from_more (analyze analyze' : ref → State → Ending) :
  (∀ d st, analyze d st ≠ Unfinished → analyze' d st = analyze d st) →
  ∀ todo file k st,
    resolveImports_from env options analyze todo file k st ≠ Unfinished →
    resolveImports_from env options analyze' todo file k st =
    resolveImports_from env options analyze todo file k st.
Proof.
  intros Hmore. induction todo as [|todo IH]; intros file k st;
    cbn [resolveImports_from];
    destruct (imports st !! file) as [l|]; try reflexivity;
    destruct (length l =? k); try reflexivity;
    destruct (l !! k) as [i|]; try reflexivity.
  destruct (negb _); [apply IH|].
  destruct (cached _ _ (store st)) as [c|]; [apply IH|].
  destruct (Resolver.resolve env options _ _ (store st)) as [[[err dependent] σ1]| |];
    try reflexivity.
  destruct dependent as [dependent|]; [|apply IH].
  intros Hends.
  rewrite Hmore by (intros Hd; rewrite Hd in Hends; contradiction).
  destruct (analyze dependent _) as [st4| | |]; try reflexivity.
  apply IH, Hends.
Qed.

Lemma Imports_analyze_more (fuel : nat) (file : option ref) (st : State) :
  Imports.analyze env options parseModule fuel file st ≠ Unfinished →
  Imports.analyze env options parseModule (S fuel) file st =
  Imports.analyze env options parseModule fuel file st.
Proof.
  revert file st. induction fuel as [|fuel IH]; intros file st Hends;
    [contradiction Hends; reflexivity|].
  destruct file as [f|]; [|reflexivity].
  change (Imports.analyze env options parseModule (S (S fuel)) (Some f) st)
    with (match objects (store st) !! f with
          | None => Dropped st
          | Some o =>
              if Vinyl.isNull (vinyl o) then Dropped st
              else
                match imports st !! f with
                | Some _ => Done st
                | None =>
                    match Declarations.analyze parseModule (Some (vinyl o)) with
                    | Thrown e => Failed e
                    | Starved => Unfinished
                    | Returned None => Failed "TypeError"
                    | Returned (Some declared) =>
                        resolveImports env options
                          (λ dependent,
                             Imports.analyze env options parseModule (S fuel)
                               (Some dependent))
                          f 0
                          (set_imports f (Declarations.imports declared) st)
                    end
                end
          end).
  cbn [Imports.analyze] in Hends |- *.
  destruct (objects (store st) !! f) as [o|]; [|reflexivity].
  destruct (Vinyl.isNull (vinyl o)); [reflexivity|].
  destruct (imports st !! f); [reflexivity|].
  destruct (Declarations.analyze _ _) as [[found|]| |]; try reflexivity.
  unfold resolveImports in *.
  apply resolveImports_from_more; [|exact Hends].
  intros d st'. apply IH.
Qed.

Lemma Imports_analyze_budget (file : option ref) (st : State) :
  Imports.analyze env options parseModule (budget env st) file st ≠ Unfinished.
Proof.
  destruct file as [f|]; [|discriminate].
  eapply ends_not_unfinished. apply Imports_analyze_ends. unfold budget. lia.
Qed.

Lemma Imports_analyze_enough (fuel : nat) (file : option ref) (st : State) :
  budget env st ≤ fuel →
  Imports.analyze env options parseModule fuel file st =
  Imports.analyze env options parseModule (budget env st) file st.
Proof.
  induction 1 as [|fuel Hle IH]; [reflexivity|].
  rewrite Imports_analyze_more; [exact IH|]. rewrite IH. apply Imports_analyze_budget.
Qed.

End FuelFacts.

Section DeclaredFacadeFacts.
Variable env : Node.Env.
Variable options : Resolver.Options.
Variable parseModule : string → Esprima.Parse.

Import Imports Chart.

Local Abbreviation charted := (Chart.charted parseModule).

Lemma grows_charted (st : State) (σ1 : Store) :
  Reach.grows env (store st) σ1 → charted st → charted (with_store σ1 st).
Proof.
  intros G [Hclosed Hlists].
  assert (extends st (with_store σ1 st)) as Hext.
  { split; [|auto]. intros r o Ho. cbn [with_store store].
    destruct (grows_objects env _ _ G) as (news & -> & _).
    apply lookup_app_l_Some. exact Ho. }
  split.
  - intros dirname path c r Hc Hr. unfold cached in Hc. cbn [with_store store] in Hc.
    rewrite (grows_dependencies_cache env _ _ G) in Hc.
    exact (Hclosed dirname path c r Hc Hr).
  - intros g l Hg. exact (charted_list_extends parseModule _ _ _ _ Hext (Hlists g l Hg)).
Qed.

Lemma analysed_charted (d : ref) (st st' : State) :
  Chart.analysed parseModule d st st' → charted st → charted st'.
Proof.
  intros (K & _ & New & C) [_ Hlists]. split; [exact C|].
  intros g lg Hg. destruct (imports st !! g) as [l|] eqn:Hold.
  - rewrite (proj2 K g l Hold) in Hg. injection Hg as <-.
    exact (charted_list_extends parseModule _ _ _ _ (keeps_extends _ _ K)
             (Hlists g l Hold)).
  - exact (New g lg Hold Hg).
Qed.

Lemma charted_reaches (st : State) (root f : ref) :
  charted st → listed st root → rtc (Chart.edge st) root f → listed st f.
Proof.
  intros [_ Hlists] Hroot Hreach. revert f Hreach. apply rtc_ind_r; [exact Hroot|].
  intros a b _ (l & i & c & Ha & Hi & Hc & Hb) _.
  destruct (Hlists a l Ha) as (_ & _ & _ & _ & _ & Hall).
  destruct (proj1 (Forall_forall _ _) Hall i Hi) as (c' & Hc' & _ & Hfile).
  apply Hfile. congruence.
Qed.

Lemma initial_charted : charted Imports.initial.
Proof.
  split.
  - intros dirname path c r Hc. unfold cached in Hc. simpl in Hc.
    rewrite lookup_empty in Hc. discriminate.
  - intros g l Hg. simpl in Hg. rewrite lookup_empty in Hg. discriminate.
Qed.

End DeclaredFacadeFacts.

(** The grapher over import declarations ends on every disk, cycles
    included.  With the fuel [budget] computes (the files of the disk
    that [Resolver.cache] does not hold, the File objects without an
    import list, and one) [analyze] is never out of fuel, and more fuel
    gives the same ending; nor is the facade ever out of fuel. *)
Theorem import_analysis_ends (env : Node.Env) (options : Resolver.Options)
    (parseModule : string → Esprima.Parse) (fuel : nat) (file : option ref)
    (st : Imports.State) :
  Imports.budget env st ≤ fuel →
  Imports.analyze env options parseModule fuel file st =
    Imports.analyze env options parseModule (Imports.budget env st) file st ∧
  Imports.analyze env options parseModule fuel file st ≠ Imports.Unfinished ∧
  ∀ fileName,
    CartographerImports.analyze env options parseModule fileName st ≠
    CartographerImports.OutOfFuel.
Proof.
  intros Hfuel. split; [exact (Imports_analyze_enough env options parseModule _ _ _ Hfuel)|].
  split.
  - rewrite (Imports_analyze_enough env options parseModule _ _ _ Hfuel).
    apply Imports_analyze_budget.
  - intros fileName. unfold CartographerImports.analyze.
    pose proof (resolve_total env options fileName None (Imports.store st)) as Hres.
    destruct (Resolver.resolve env options fileName None (Imports.store st))
      as [[[err f] σ1]| |]; [|discriminate|congruence].
    destruct err; [discriminate|]. destruct f as [f|]; [|discriminate].
    pose proof (Imports_analyze_budget env options parseModule (Some f)
                  (Imports.with_store σ1 st)) as Hends.
    destruct (Imports.analyze env options parseModule _ (Some f) _);
      try discriminate.
    contradiction Hends. reflexivity.
Qed.

(** In [Scenario.cycle], where [/a/x.js] imports [./y] and [/a/y.js]
    imports [./x], the analysis of [/a/x.js] invokes its callback, each
    file having its one import annotated with the other file. *)
Lemma import_analysis_ends_witness :
  ∃ st',
    Imports.analyze Scenario.cycle Resolver.defaults Example.cycle_delegate 5 (Some 0)
      Example.cycle_state = Imports.Done st' ∧
    map (λ r, map (λ i, cached_file <$> Imports.resolution i)
                  (default [] (Imports.imports st' !! r))) [0; 1] =
      [[Some (Some 1)]; [Some (Some 0)]] ∧
    Imports.analyze Scenario.cycle Resolver.defaults Example.cycle_delegate 5 (Some 0)
      Example.cycle_state ≠ Imports.Unfinished.
Proof.
  eexists. split; [vm_compute; reflexivity|]. split; [vm_compute; reflexivity|].
  apply (import_analysis_ends Scenario.cycle Resolver.defaults Example.cycle_delegate
           5 (Some 0) Example.cycle_state).
  vm_compute. lia.
Defined.

(** Through the facade the callback is never dropped in this version
    either: when every entry of [Resolver.cache] is a File object made
    from a readable path, [analyze] invokes its callback or ends by an
    exception. *)
Theorem import_facade_calls_back (env : Node.Env) (options : Resolver.Options)
    (parseModule : string → Esprima.Parse) (fileName : string) (st : Imports.State) :
  Cache.faithful env (Imports.store st) →
  (∃ err file st',
     CartographerImports.analyze env options parseModule fileName st =
     CartographerImports.Completed err file st') ∨
  (∃ e, CartographerImports.analyze env options parseModule fileName st =
        CartographerImports.Crashed e).
Proof.
  intros Hσ. unfold CartographerImports.analyze.
  pose proof (resolve_total env options fileName None (Imports.store st)) as Htotal.
  destruct (Resolver.resolve env options fileName None (Imports.store st))
    as [[[err f] σ1]| |] eqn:Hres; [|right; eauto|congruence].
  destruct err; [left; eauto|]. destruct f as [f|]; [|left; eauto].
  destruct (resolve_grows env options _ _ _ _ _ Hres) as [G Hin].
  pose proof (Imports_analyze_ends env options parseModule
                (Imports.budget env (Imports.with_store σ1 st)) f
                (Imports.with_store σ1 st)) as Hends.
  destruct (Imports.analyze env options parseModule _ (Some f) _) as [st2|st2|e|];
    [left; eauto| |right; eauto|].
  - exfalso. apply Hends; [unfold Imports.budget; lia|].
    split; [exact (grows_faithful env _ _ G Hσ)|exact (Hin f eq_refl)].
  - exfalso. apply Hends. unfold Imports.budget. lia.
Qed.

(** A fresh process, in [Scenario.cycle]. *)
Lemma import_facade_calls_back_witness :
  (∃ err file st',
     CartographerImports.analyze Scenario.cycle Resolver.defaults
       Example.cycle_delegate "./x" Imports.initial =
     CartographerImports.Completed err file st') ∨
  (∃ e, CartographerImports.analyze Scenario.cycle Resolver.defaults
          Example.cycle_delegate "./x" Imports.initial =
        CartographerImports.Crashed e).
Proof.
  exact (import_facade_calls_back Scenario.cycle Resolver.defaults
           Example.cycle_delegate "./x" Imports.initial
           (empty_faithful Scenario.cycle)).
Defined.

(** What [analyze] leaves when it invokes its callback.  When every File
    object that an outcome of [Dependencies.cache] refers to has an
    import list, a call that completes has kept every File object and
    every import list that was there as they were, the file it was given
    has an import list, and every list that is new holds the imports
    that [Declarations.analyze] finds in its file, in that order, each
    with its [file] and [error] assigned: those of a dynamic import when
    the import is not static, and a file that has an import list itself
    when there is a file. *)
Theorem analyze_annotates_every_import (env : Node.Env) (options : Resolver.Options)
    (parseModule : string → Esprima.Parse) (fuel : nat) (f : ref)
    (st st' : Imports.State) :
  Chart.closed st →
  Imports.analyze env options parseModule fuel (Some f) st = Imports.Done st' →
  Chart.keeps st st' ∧
  Chart.closed st' ∧
  Chart.listed st' f ∧
  ∀ g l, Imports.imports st !! g = None → Imports.imports st' !! g = Some l →
         Chart.charted_list parseModule st' g l.
Proof.
  intros Hclosed Hrun.
  destruct (Imports_analyze_frame env options parseModule fuel f st st' Hrun)
    as (K & L & New & C).
  - intros dirname path c r Hc Hr. right.
    destruct (Hclosed dirname path c r Hc Hr) as [?|?]; [discriminate|assumption].
  - auto.
Qed.

(** In [Scenario.cycle] the two files get their lists. *)
Lemma analyze_annotates_every_import_witness :
  ∃ st',
    Imports.analyze Scenario.cycle Resolver.defaults Example.cycle_delegate 5 (Some 0)
      Example.cycle_state = Imports.Done st' ∧
    Chart.closed st' ∧
    ∃ l, Imports.imports st' !! 1 = Some l ∧
         Chart.charted_list Example.cycle_delegate st' 1 l.
Proof.
  assert (Chart.closed Example.cycle_state) as Hclosed.
  { intros dirname path c r Hc. unfold cached in Hc.
    assert (dependencies_cache (Imports.store Example.cycle_state) = ∅) as Hempty
      by (vm_compute; reflexivity).
    rewrite Hempty, lookup_empty in Hc. discriminate. }
  eexists. split; [vm_compute; reflexivity|].
  match goal with
  | |- Chart.closed ?τ ∧ _ =>
      assert (Imports.analyze Scenario.cycle Resolver.defaults Example.cycle_delegate 5
                (Some 0) Example.cycle_state = Imports.Done τ) as Hrun
        by (vm_compute; reflexivity);
      destruct (analyze_annotates_every_import Scenario.cycle Resolver.defaults
                  Example.cycle_delegate 5 0 Example.cycle_state τ Hclosed Hrun)
        as (_ & C & _ & New)
  end.
  split; [exact C|].
  eexists. split; [vm_compute; reflexivity|].
  apply New; [vm_compute; reflexivity|vm_compute; reflexivity].
Defined.

(** What the facade of this version hands over.  Starting from objects
    in which every linked file has an import list and every list holds
    the annotated imports of its file (a fresh process is such), a run
    that completes without error leaves such objects, and every file
    that can be reached from the entry file along the imports has an
    import list, which holds the imports [Declarations.analyze] finds in
    the file, each annotated. *)
Theorem import_facade_charts_what_the_entry_reaches (env : Node.Env)
    (options : Resolver.Options) (parseModule : string → Esprima.Parse)
    (fileName : string) (st st' : Imports.State) (root : ref) :
  Chart.charted parseModule st →
  CartographerImports.analyze env options parseModule fileName st =
    CartographerImports.Completed None (Some root) st' →
  Chart.charted parseModule st' ∧
  ∀ f, rtc (Chart.edge st') root f →
    ∃ l, Imports.imports st' !! f = Some l ∧ Chart.charted_list parseModule st' f l.
Proof.
  intros Hst Hrun. unfold CartographerImports.analyze in Hrun.
  destruct (Resolver.resolve env options fileName None (Imports.store st))
    as [[[err f] σ1]| |] eqn:Hres; try discriminate.
  destruct err; [discriminate|]. destruct f as [f|]; [|discriminate].
  destruct (Imports.analyze env options parseModule _ (Some f) _) as [st2| | |] eqn:Ha;
    try discriminate.
  injection Hrun as <- <-.
  pose proof (grows_charted env parseModule st σ1
                (proj1 (resolve_grows env options _ _ _ _ _ Hres)) Hst) as Hst1.
  apply Imports_analyze_frame in Ha.
  2:{ intros dirname path c r Hc Hr. right.
      destruct (proj1 Hst1 dirname path c r Hc Hr) as [?|?]; [discriminate|assumption]. }
  pose proof (analysed_charted parseModule _ _ _ Ha Hst1) as Hst2.
  split; [exact Hst2|]. intros g Hreach.
  destruct (charted_reaches parseModule _ _ _ Hst2 (proj1 (proj2 Ha)) Hreach) as [l Hl].
  exists l. split; [exact Hl|]. exact (proj2 Hst2 g l Hl).
Qed.

(** A fresh process, in [Scenario.cycle]: [/a/y.js] is reached from the
    entry [/a/x.js]. *)
Lemma import_facade_charts_what_the_entry_reaches_witness :
  ∃ st',
    CartographerImports.analyze Scenario.cycle Resolver.defaults
      Example.cycle_delegate "./x" Imports.initial =
      CartographerImports.Completed None (Some 0) st' ∧
    Chart.charted Example.cycle_delegate st' ∧
    ∃ l, Imports.imports st' !! 1 = Some l ∧
         Chart.charted_list Example.cycle_delegate st' 1 l.
Proof.
  eexists. split; [vm_compute; reflexivity|].
  match goal with
  | |- Chart.charted _ ?τ ∧ _ =>
      assert (CartographerImports.analyze Scenario.cycle Resolver.defaults
                Example.cycle_delegate "./x" Imports.initial =
              CartographerImports.Completed None (Some 0) τ) as Hrun
        by (vm_compute; reflexivity);
      destruct (import_facade_charts_what_the_entry_reaches Scenario.cycle
                  Resolver.defaults Example.cycle_delegate "./x" Imports.initial τ 0
                  (initial_charted Example.cycle_delegate) Hrun)
        as [Hcharted Hreach]
  end.
  split; [exact Hcharted|].
  apply Hreach. apply rtc_once. eexists _, _, _.
  split; [vm_compute; reflexivity|]. split; [left|]. split; reflexivity.
Defined.

(* ===================================================================== *)
(** ** Properties of the earlier resolver (src/resolver.js, prototype) *)
(* ===================================================================== *)

Section PrototypeFacts.
Variable env : Node.Env.
Variable options : Resolver.Options.
Variable isDirectory : string → bool.

Import Resolver.

Local Abbreviation unreadable := (ResolverPrototype.unreadable env).

Lemma prototype_loadDirectory_from_policy (pkgs : list string) (directory : string)
    (σ σ' : Store) (answer : Answer) :
  ResolverPrototype.loadDirectory_from env options pkgs directory σ =
    Returned (answer, σ') →
  (Forall (unreadable directory) pkgs ∧
   fst answer = None ∧
   Resolver.loadFile env options
     (Node.path_resolve env [directory; index options]) 0 σ = (snd answer, σ')) ∨
  (∃ skipped pkg rest data,
     pkgs = skipped ++ pkg :: rest ∧
     Forall (unreadable directory) skipped ∧
     Node.fs env !! Node.path_resolve env [directory; pkg] = Some data ∧
     match Node.JSON_parse env data with
     | None =>
         answer = failure ("File is incorrectly formatted: " +:+
                           Node.path_resolve env [directory; pkg]) ∧
         σ' = σ
     | Some packageData =>
         ∃ entry entryPath,
           ResolverPrototype.getEntryPoint env options packageData = Returned entry ∧
           resolve_entry env directory entry = Returned entryPath ∧
           fst answer = None ∧
           Resolver.loadFile env options entryPath 0 σ = (snd answer, σ')
     end).
Proof.
  induction pkgs as [|pkg pkgs IH]; simpl.
  - unfold ResolverPrototype.loadFile.
    destruct (Resolver.loadFile env options _ 0 σ) as [file σ1].
    intros [= <- <-]. left. split; [constructor|]. split; reflexivity.
  - destruct (Node.fs env !! Node.path_resolve env [directory; pkg]) as [data|] eqn:Hfs.
    + intros Hrun. right. exists [], pkg, pkgs, data. split; [reflexivity|].
      split; [constructor|]. split; [exact Hfs|].
      destruct (Node.JSON_parse env data) as [packageData|].
      * destruct (ResolverPrototype.getEntryPoint env options packageData)
          as [entry| |] eqn:Hentry; try discriminate. simpl in Hrun.
        destruct (resolve_entry env directory entry) as [entryPath| |] eqn:Hpath;
          try discriminate. simpl in Hrun.
        unfold ResolverPrototype.loadFile in Hrun.
        destruct (Resolver.loadFile env options entryPath 0 σ) as [file σ1] eqn:Hload.
        injection Hrun as <- <-. exists entry, entryPath.
        split; [reflexivity|]. split; [exact Hpath|]. split; [reflexivity|exact Hload].
      * injection Hrun as <- <-. auto.
    + intros Hrun. destruct (IH Hrun) as [(Hall & Hfst & Hload)|
        (skipped & pkg' & rest & data & -> & Hskipped & Hdata & Hcase)].
      * left. split; [constructor; assumption|]. auto.
      * right. exists (pkg :: skipped), pkg', rest, data. split; [reflexivity|].
        split; [constructor; assumption|]. auto.
Qed.

Lemma prototype_loadDirectory_from_error (pkgs : list string) (directory : string)
    (σ σ' : Store) (e : string) (file : option ref) :
  ResolverPrototype.loadDirectory_from env options pkgs directory σ =
    Returned ((Some e, file), σ') →
  file = None ∧ σ' = σ ∧ ResolverPrototype.malformed env pkgs directory e.
Proof.
  intros Hrun.
  destruct (prototype_loadDirectory_from_policy _ _ _ _ _ Hrun)
    as [(_ & Hfst & _)|(skipped & pkg & rest & data & -> & _ & Hdata & Hcase)];
    [discriminate Hfst|].
  destruct (Node.JSON_parse env data) as [packageData|] eqn:Hjson.
  - destruct Hcase as (_ & _ & _ & _ & Hfst & _). discriminate Hfst.
  - destruct Hcase as [[= -> ->] ->]. split; [reflexivity|]. split; [reflexivity|].
    exists pkg, data. split; [|auto].
    apply elem_of_app. right. left.
Qed.

Lemma prototype_resolveModule_no_error (fuel : nat) (base moduleName : string)
    (directory : nat) (σ σ' : Store) (answer : Answer) :
  ResolverPrototype.resolveModule env options fuel base moduleName directory σ =
    Returned (answer, σ') →
  fst answer = None.
Proof.
  revert base directory σ. induction fuel as [|fuel IH]; intros base directory σ;
    [discriminate|].
  cbn [ResolverPrototype.resolveModule].
  destruct (Nat.eqb (String.length base) 0); [intros [= <- _]; reflexivity|].
  destruct (modules options !! directory) as [moduleDir|]; [|discriminate].
  destruct (ResolverPrototype.loadDirectory env options _ 0 σ) as [[answer1 σ1]| |];
    try discriminate.
  simpl. destruct (snd answer1) as [file|]; [intros [= <- _]; reflexivity|].
  destruct (length (modules options) <=? directory + 1); apply IH.
Qed.

End PrototypeFacts.

(** In the earlier resolver the first package file of a directory that
    can be read decides.  When it is no JSON the answer is the error
    [File is incorrectly formatted: <path>] and nothing has changed;
    otherwise the answer is what [loadFile] finds at the entry point, and
    when that is nothing the answer has no file: neither [<entry>/index],
    nor a further package file, nor the index of the directory is tried.
    The index of the directory is loaded only when no package file can
    be read. *)
Theorem prototype_loadDirectory_first_readable_package (env : Node.Env)
    (options : Resolver.Options) (directory : string) (σ σ' : Store)
    (answer : Resolver.Answer) :
  ResolverPrototype.loadDirectory env options directory 0 σ = Returned (answer, σ') →
  (Forall (ResolverPrototype.unreadable env directory) (Resolver.packages options) ∧
   fst answer = None ∧
   Resolver.loadFile env options
     (Node.path_resolve env [directory; Resolver.index options]) 0 σ =
     (snd answer, σ')) ∨
  (∃ skipped pkg rest data,
     Resolver.packages options = skipped ++ pkg :: rest ∧
     Forall (ResolverPrototype.unreadable env directory) skipped ∧
     Node.fs env !! Node.path_resolve env [directory; pkg] = Some data ∧
     match Node.JSON_parse env data with
     | None =>
         answer = Resolver.failure ("File is incorrectly formatted: " +:+
                                    Node.path_resolve env [directory; pkg]) ∧
         σ' = σ
     | Some packageData =>
         ∃ entry entryPath,
           ResolverPrototype.getEntryPoint env options packageData = Returned entry ∧
           Resolver.resolve_entry env directory entry = Returned entryPath ∧
           fst answer = None ∧
           Resolver.loadFile env options entryPath 0 σ = (snd answer, σ')
     end).
Proof.
  unfold ResolverPrototype.loadDirectory. rewrite drop_0.
  apply prototype_loadDirectory_from_policy.
Qed.

(** [/a/lib/package.json] names [entry.js], which exists: the file is the
    one [loadFile] finds at [/a/lib/entry.js]. *)
Lemma prototype_loadDirectory_first_readable_package_witness :
  ∃ answer σ',
    ResolverPrototype.loadDirectory Scenario.packaged ResolverPrototype.defaults
      "/a/lib" 0 Heap.empty = Returned (answer, σ') ∧
    snd answer = Some 0 ∧
    ∃ skipped pkg rest data,
      Resolver.packages ResolverPrototype.defaults = skipped ++ pkg :: rest ∧
      Forall (ResolverPrototype.unreadable Scenario.packaged "/a/lib") skipped ∧
      Node.fs Scenario.packaged !! Node.path_resolve Scenario.packaged ["/a/lib"; pkg] =
        Some data ∧
      Node.JSON_parse Scenario.packaged data ≠ None.
Proof.
  eexists _, _. split; [vm_compute; reflexivity|]. split; [reflexivity|].
  match goal with
  | |- ∃ _ _ _ _, _ =>
      destruct (prototype_loadDirectory_first_readable_package Scenario.packaged
                  ResolverPrototype.defaults "/a/lib" Heap.empty _ _ eq_refl)
        as [(Hall & _)|(skipped & pkg & rest & data & Hpkgs & Hskipped & Hdata & Hcase)]
  end.
  - exfalso. apply Forall_cons in Hall as [Hnone _]. vm_compute in Hnone. discriminate.
  - exists skipped, pkg, rest, data. split; [exact Hpkgs|]. split; [exact Hskipped|].
    split; [exact Hdata|]. intros Hjson. rewrite Hjson in Hcase.
    destruct Hcase as [Hanswer _]. discriminate Hanswer.
Defined.

(** The earlier resolver reports the error of a package file that is no
    JSON, [File is incorrectly formatted: <path>], and no other: the
    error comes without a file and with no object changed, for a relative
    specifier that names a directory, and the package file is one of
    that directory.  For a module name the answer never carries an
    error. *)
Theorem prototype_resolve_reports_only_malformed_manifests (env : Node.Env)
    (options : Resolver.Options) (isDirectory : string → bool)
    (module : string) (base : option string) (σ σ' : Store)
    (err : option string) (file : option ref) :
  ResolverPrototype.resolve env options isDirectory module base σ =
    Returned ((err, file), σ') →
  (∀ e, err = Some e →
        file = None ∧ σ' = σ ∧
        Resolver.RELATIVE_PATH module = true ∧
        isDirectory (Node.path_resolve env [default (Node.cwd env) base; module]) = true ∧
        ResolverPrototype.malformed env (Resolver.packages options)
          (Node.path_resolve env [default (Node.cwd env) base; module]) e) ∧
  (Resolver.RELATIVE_PATH module = false → err = None).
Proof.
  unfold ResolverPrototype.resolve. cbv zeta.
  destruct (String.eqb module ""); [discriminate|].
  destruct (Resolver.RELATIVE_PATH module) eqn:Hrel.
  - intros Hrun. split; [|discriminate]. intros e ->.
    unfold ResolverPrototype.resolveRelative in Hrun.
    destruct (isDirectory _) eqn:Hdir.
    + unfold ResolverPrototype.loadDirectory in Hrun. rewrite drop_0 in Hrun.
      destruct (prototype_loadDirectory_from_error env options _ _ _ _ _ _ Hrun)
        as (-> & -> & Hbad). auto.
    + unfold ResolverPrototype.loadFile in Hrun.
      destruct (Resolver.loadFile env options _ 0 σ). discriminate Hrun.
  - intros Hrun. split; [|intros _].
    + intros e ->.
      discriminate (prototype_resolveModule_no_error env options _ _ _ _ _ _ _ Hrun).
    + exact (prototype_resolveModule_no_error env options _ _ _ _ _ _ _ Hrun).
Qed.

(** [/a/lib] is a directory whose [package.json] is no JSON. *)
Lemma prototype_resolve_reports_only_malformed_manifests_witness :
  ResolverPrototype.resolve Scenario.malformed ResolverPrototype.defaults
    (String.eqb "/a/lib") "./lib" None Heap.empty =
    Returned ((Some "File is incorrectly formatted: /a/lib/package.json", None),
              Heap.empty) ∧
  ResolverPrototype.malformed Scenario.malformed ["package.json"] "/a/lib"
    "File is incorrectly formatted: /a/lib/package.json".
Proof.
  split; [vm_compute; reflexivity|].
  exact (proj2 (proj2 (proj2 (proj2
           (proj1 (prototype_resolve_reports_only_malformed_manifests
                     Scenario.malformed ResolverPrototype.defaults
                     (String.eqb "/a/lib") "./lib" None Heap.empty Heap.empty
                     (Some "File is incorrectly formatted: /a/lib/package.json") None
                     eq_refl)
              _ eq_refl))))).
Defined.

(** Where the two resolvers agree.  For a relative specifier without a
    trailing slash that names no directory, the earlier resolver answers
    with what [loadFile] finds at the joined path, and when that is a
    file the resolver of the class answers with the same File object and
    leaves the same objects. *)
Theorem prototype_file_is_the_file_of_the_class (env : Node.Env)
    (options : Resolver.Options) (isDirectory : string → bool)
    (module : string) (base : option string) (σ σ' : Store)
    (err : option string) (file : option ref) :
  Resolver.RELATIVE_PATH module = true →
  Resolver.last_char module ≠ Some "/"%char →
  isDirectory (Node.path_resolve env [default (Node.cwd env) base; module]) = false →
  ResolverPrototype.resolve env options isDirectory module base σ =
    Returned ((err, file), σ') →
  err = None ∧
  Resolver.loadFile env options
    (Node.path_resolve env [default (Node.cwd env) base; module]) 0 σ = (file, σ') ∧
  ∀ f, file = Some f →
       Resolver.resolve env options module base σ = Returned (Resolver.hit f, σ').
Proof.
  intros Hrel Hslash Hdir Hrun.
  assert (Walk.joined env module base =
          Node.path_resolve env [default (Node.cwd env) base; module]) as Hjoined.
  { unfold Walk.joined. destruct (Resolver.last_char module) as [c|]; [|reflexivity].
    destruct (Ascii.eqb_spec c "/") as [->|_]; [contradiction Hslash|]; reflexivity. }
  unfold ResolverPrototype.resolve in Hrun. cbv zeta in Hrun.
  destruct (String.eqb_spec module "") as [->|_]; [discriminate Hrel|].
  rewrite Hrel in Hrun. unfold ResolverPrototype.resolveRelative in Hrun.
  rewrite Hdir in Hrun. unfold ResolverPrototype.loadFile in Hrun.
  destruct (Resolver.loadFile env options _ 0 σ) as [file1 σ1] eqn:Hload.
  injection Hrun as <- <- <-. split; [reflexivity|]. split; [reflexivity|].
  intros f ->. rewrite (resolve_relative env options _ _ _ Hrel), Hjoined.
  unfold Resolver.resolveRelative. rewrite Hload. reflexivity.
Qed.

(** [./x] in [Scenario.cycle], where nothing is a directory. *)
Lemma prototype_file_is_the_file_of_the_class_witness :
  ∃ σ',
    ResolverPrototype.resolve Scenario.cycle ResolverPrototype.defaults (λ _, false)
      "./x" None Heap.empty = Returned (Resolver.hit 0, σ') ∧
    Resolver.resolve Scenario.cycle ResolverPrototype.defaults "./x" None Heap.empty =
      Returned (Resolver.hit 0, σ').
Proof.
  eexists. split; [vm_compute; reflexivity|].
  refine (proj2 (proj2 (prototype_file_is_the_file_of_the_class Scenario.cycle
                          ResolverPrototype.defaults (λ _, false) "./x" None
                          Heap.empty _ None (Some 0) eq_refl _ eq_refl eq_refl))
            0 eq_refl).
  vm_compute. discriminate.
Defined.
